(** * flux-mcf (Python port): value store, remote bridge and record framing

    A shallow embedding of the Python modules
      - [mcf_remote/remote_service.py]  (RemoteStatusTracker, RemoteService),
      - [mcf_core/value_store.py]       (ValueStore, ValueQueue),
      - [mcf_core/events.py]            (Event, EventSource),
      - [mcf_core/component_framework.py] (ComponentManager),
      - [mcf_core/value_recorder.py]    (Queue, StatusMonitor, ValueRecorder),
      - [mcf/record_reader.py]          (RecordReader),
    together with the properties the specification states about them.

    Conventions.  Python objects that are mutated in place are modelled by
    explicit state passing; a method becomes a function from the state
    before the call to the state after it, paired with what the method
    returns or emits.  A call that raises is a value of [result].  Clock
    readings ([datetime.utcnow()], [datetime.now()]) are arguments. *)

From Stdlib Require Import ZArith Lia Bool.
From Stdlib Require Import Strings.Byte Strings.String.
From stdpp Require Import gmap strings list fin_maps.

Local Open Scope Z_scope.

(** ** Python results *)

Inductive exn :=
| TypeError
| RuntimeError
| AssertionError
| OverflowError
| ValueError
| IndexError
| KeyError
| AttributeError
| FormatError
| OSError
(** no exception of Python: the mark of a call that has not returned when
    the model stops following it (a loop that has no bound in the source) *)
| Unfinished.

Inductive result (A : Type) :=
| Ok (a : A)
| Raise (e : exn).
Arguments Ok {A} a.
Arguments Raise {A} e.

(** the call has not returned *)
Definition unfinished {A} (r : result A) : bool :=
  match r with
  | Raise Unfinished => true
  | _ => false
  end.

#[global] Instance result_ret : MRet result := fun _ a => Ok a.
#[global] Instance result_bind : MBind result := fun _ _ k r =>
  match r with
  | Ok a => k a
  | Raise e => Raise e
  end.

(** ** RemoteStatusTracker  (remote_service.py, lines 18-160) *)

Module Tracker.

Inductive RemoteState :=
| STATE_DOWN
| STATE_UNSURE
| STATE_UP.

#[global] Instance RemoteState_eq_dec : EqDecision RemoteState.
Proof. solve_decision. Defined.

(** Points in time are microseconds since [datetime(1970, 1, 1)], durations
    ([timedelta]) are microseconds; both are unbounded Python integers. *)
Record RemoteStatusTracker := mkTracker {
  ping_interval_min : Z;
  ping_interval_max : Z;
  ping_interval : Z;
  pong_timeout : Z;
  remote_state : RemoteState;
  ping_freshness : Z;
  last_ping_time : Z;
  last_pong_time : Z
}.

(** [timedelta(0, 0, 0, ms)]: the fourth positional argument is milliseconds. *)
Definition timedelta_ms (ms : Z) : Z := 1000 * ms.

(** [__init__]; [rand] is the value drawn by [random.randint(0, 2**64 - 1)]. *)
Definition init (ping_interval_min_ms ping_interval_max_ms pong_timeout_ms rand : Z)
  : RemoteStatusTracker :=
  {| ping_interval_min := timedelta_ms ping_interval_min_ms;
     ping_interval_max := timedelta_ms ping_interval_max_ms;
     ping_interval := timedelta_ms ping_interval_min_ms;
     pong_timeout := timedelta_ms pong_timeout_ms;
     remote_state := STATE_UNSURE;
     ping_freshness := rand;
     last_ping_time := 0;
     last_pong_time := 0 |}.

Definition with_state (st : RemoteState) (t : RemoteStatusTracker) :=
  mkTracker (ping_interval_min t) (ping_interval_max t) (ping_interval t)
            (pong_timeout t) st (ping_freshness t) (last_ping_time t)
            (last_pong_time t).

Definition with_interval (i : Z) (t : RemoteStatusTracker) :=
  mkTracker (ping_interval_min t) (ping_interval_max t) i
            (pong_timeout t) (remote_state t) (ping_freshness t)
            (last_ping_time t) (last_pong_time t).

Definition with_last_ping (tm : Z) (t : RemoteStatusTracker) :=
  mkTracker (ping_interval_min t) (ping_interval_max t) (ping_interval t)
            (pong_timeout t) (remote_state t) (ping_freshness t) tm
            (last_pong_time t).

Definition with_last_pong (tm : Z) (t : RemoteStatusTracker) :=
  mkTracker (ping_interval_min t) (ping_interval_max t) (ping_interval t)
            (pong_timeout t) (remote_state t) (ping_freshness t)
            (last_ping_time t) tm.

Definition with_freshness (f : Z) (t : RemoteStatusTracker) :=
  mkTracker (ping_interval_min t) (ping_interval_max t) (ping_interval t)
            (pong_timeout t) (remote_state t) f (last_ping_time t)
            (last_pong_time t).

(** [_set_remote_state]: two independent [if]s, then the assignment. *)
Definition _set_remote_state (state : RemoteState) (t : RemoteStatusTracker)
  : RemoteStatusTracker :=
  let t1 := if decide (state = STATE_UNSURE)
            then with_last_ping 0 (with_interval (ping_interval_min t) t)
            else t in
  let t2 := if decide (state = STATE_UP)
            then with_interval (ping_interval_max t1) t1
            else t1 in
  with_state state t2.

(** [_send_ping]: the nonce handed to [_ping_sender] is returned next to the
    new state. *)
Definition _send_ping (time_now : Z) (t : RemoteStatusTracker)
  : RemoteStatusTracker * Z :=
  let t1 := with_last_ping time_now t in
  let t2 := with_freshness (ping_freshness t1 + 1) t1 in
  (t2, ping_freshness t2).

(** [pong_received]; [now] is [datetime.utcnow()]. *)
Definition pong_received (now freshness : Z) (t : RemoteStatusTracker)
  : RemoteStatusTracker :=
  if decide (freshness <> ping_freshness t) then t
  else
    let t1 := if decide (remote_state t = STATE_UNSURE)
              then _set_remote_state STATE_UP t else t in
    if decide (remote_state t1 = STATE_UP)
    then with_last_pong now t1 else t1.

(** [run_cyclic]; returns the new state and the nonces of the pings sent, in
    the order they were sent. *)
Definition run_cyclic (now : Z) (t : RemoteStatusTracker)
  : RemoteStatusTracker * list Z :=
  let '(t1, out1) :=
    if decide (remote_state t = STATE_UNSURE) then
      if decide (now > last_ping_time t + ping_interval t) then
        let '(ta, f) := _send_ping now t in
        let tb := with_interval (2 * ping_interval ta) ta in
        let tc := if decide (ping_interval tb > ping_interval_max tb)
                  then _set_remote_state STATE_DOWN tb else tb in
        (tc, [f])
      else (t, [])
    else (t, []) in
  if decide (remote_state t1 = STATE_UP) then
    if decide (now > last_ping_time t1 + ping_interval t1) then
      let '(ta, f) := _send_ping now t1 in
      let tb := if decide (now > last_pong_time ta + pong_timeout ta)
                then _set_remote_state STATE_DOWN ta else ta in
      (tb, out1 ++ [f])
    else (t1, out1)
  else (t1, out1).

Definition message_received_in_down (t : RemoteStatusTracker) :=
  _set_remote_state STATE_UNSURE t.

Definition sending_timeout (t : RemoteStatusTracker) :=
  _set_remote_state STATE_UNSURE t.

(** A run of [run_cyclic] calls at the given clock readings with no pong in
    between; the pings of all calls are collected. *)
Fixpoint run_cyclic_at (nows : list Z) (t : RemoteStatusTracker)
  : RemoteStatusTracker * list Z :=
  match nows with
  | [] => (t, [])
  | now :: rest =>
      let '(t1, o1) := run_cyclic now t in
      let '(t2, o2) := run_cyclic_at rest t1 in
      (t2, o1 ++ o2)
  end.

(** *** A reachable state *)

(** A state reached from the initial one: one ping in UNSURE, answered by
    its pong at 0.9 s, and a second ping sent in UP at 4 s that is never
    answered. *)
Definition unanswered_in_up : RemoteStatusTracker :=
  fst (run_cyclic 4000000
        (pong_received 900000 8
           (fst (run_cyclic 200000 (init 100 3000 5000 7))))).

(** *** Runs of the tracker *)

(** The calls that reach a tracker: [run_cyclic] and [pong_received] with
    their clock readings, [message_received_in_down], [sending_timeout]. *)
Inductive TrackerOp :=
| TCyclic (now : Z)
| TPong (now freshness : Z)
| TMessageInDown
| TSendingTimeout.

(** One call; next to the new state, the nonces handed to the ping sender. *)
Definition tracker_step (op : TrackerOp) (t : RemoteStatusTracker)
  : RemoteStatusTracker * list Z :=
  match op with
  | TCyclic now => run_cyclic now t
  | TPong now f => (pong_received now f t, [])
  | TMessageInDown => (message_received_in_down t, [])
  | TSendingTimeout => (sending_timeout t, [])
  end.

Fixpoint tracker_run (ops : list TrackerOp) (t : RemoteStatusTracker)
  : RemoteStatusTracker * list Z :=
  match ops with
  | [] => (t, [])
  | op :: rest =>
      let '(t1, o1) := tracker_step op t in
      let '(t2, o2) := tracker_run rest t1 in
      (t2, o1 ++ o2)
  end.

(** [run_cyclic] or [pong_received] *)
Definition is_passive (op : TrackerOp) : bool :=
  match op with
  | TCyclic _ | TPong _ _ => true
  | _ => false
  end.

(** The bounds the ping interval keeps: at least the minimum; at most the
    maximum unless the state is DOWN, where the last doubling shows; the
    maximum itself in UP. *)
Definition interval_in_bounds (t : RemoteStatusTracker) : Prop :=
  0 < ping_interval_min t <= ping_interval_max t /\
  ping_interval_min t <= ping_interval t <= 2 * ping_interval_max t /\
  (remote_state t <> STATE_DOWN -> ping_interval t <= ping_interval_max t) /\
  (remote_state t = STATE_UP -> ping_interval t = ping_interval_max t).

End Tracker.

(** ** Python objects

    The values that travel through the store, the queues, the bridge and the
    recorder.  [PValue] is an instance of a subclass of [mcf.value.Value],
    described by what its [id] property and its [serialize()] method return:
    [[fields, type_name]] or, for a value with external memory,
    [[fields, type_name, extmem]].  [PEnum] is an [enum.Enum] member with its
    [.value].  A float is the eight bytes of its big-endian binary64
    representation.  [PStr] holds the UTF-8 bytes of the text.  [PBytes] is
    a [bytes] or a [bytearray] object (they compare by content).  [PDict]
    is a dict, given by its items in the order of insertion.  [PExt] and
    [PTimestamp] are the [ExtType] and the [Timestamp] of msgpack, which
    its unpacker returns for extension data.  Objects of other classes
    (sets, datetimes, instances of classes of the application) are not
    modelled: the packer raises [TypeError] on them, so that the recorder
    writes nothing for a value that holds one. *)

Module Py.

#[warnings="-register-all"] Inductive pyobj :=
| PNone
| PBool (b : bool)
| PInt (z : Z)
| PFloat (b7 b6 b5 b4 b3 b2 b1 b0 : byte)
| PStr (s : string)
| PBytes (bs : list byte)
| PList (l : list pyobj)
| PEnum (value : pyobj)
| PValue (id : Z) (type_name : string) (fields : pyobj)
         (extmem : option (list byte))
| PTuple (l : list pyobj)
| PDict (items : list (pyobj * pyobj))
| PExt (code : Z) (data : list byte)
| PTimestamp (seconds nanoseconds : Z).

(** [o is None] *)
Definition is_none (o : pyobj) : bool :=
  match o with
  | PNone => true
  | _ => false
  end.

(** [isinstance(o, Value)] *)
Definition is_value (o : pyobj) : bool :=
  match o with
  | PValue _ _ _ _ => true
  | _ => false
  end.

(** *** Induction on objects, through the lists and dicts they contain *)

Section PyobjInd.
Variable P : pyobj -> Prop.
Hypothesis HNone : P PNone.
Hypothesis HBool : forall b, P (PBool b).
Hypothesis HInt : forall z, P (PInt z).
Hypothesis HFloat : forall b7 b6 b5 b4 b3 b2 b1 b0,
  P (PFloat b7 b6 b5 b4 b3 b2 b1 b0).
Hypothesis HStr : forall s, P (PStr s).
Hypothesis HBytes : forall bs, P (PBytes bs).
Hypothesis HList : forall l, Forall P l -> P (PList l).
Hypothesis HEnum : forall v, P v -> P (PEnum v).
Hypothesis HValue : forall id tn fields extmem,
  P fields -> P (PValue id tn fields extmem).
Hypothesis HTuple : forall l, Forall P l -> P (PTuple l).
Hypothesis HDict : forall items,
  Forall (fun kv => P kv.1 /\ P kv.2) items -> P (PDict items).
Hypothesis HExt : forall code data, P (PExt code data).
Hypothesis HTimestamp : forall seconds nanoseconds,
  P (PTimestamp seconds nanoseconds).

Fixpoint pyobj_nested_ind (o : pyobj) : P o :=
  match o with
  | PNone => HNone
  | PBool b => HBool b
  | PInt z => HInt z
  | PFloat b7 b6 b5 b4 b3 b2 b1 b0 => HFloat b7 b6 b5 b4 b3 b2 b1 b0
  | PStr s => HStr s
  | PBytes bs => HBytes bs
  | PList l =>
      HList l ((fix all (l : list pyobj) : Forall P l :=
                  match l with
                  | [] => Forall_nil_2 P
                  | x :: rest =>
                      Forall_cons_2 P x rest (pyobj_nested_ind x) (all rest)
                  end) l)
  | PEnum v => HEnum v (pyobj_nested_ind v)
  | PValue id tn fields extmem =>
      HValue id tn fields extmem (pyobj_nested_ind fields)
  | PTuple l =>
      HTuple l ((fix all (l : list pyobj) : Forall P l :=
                   match l with
                   | [] => Forall_nil_2 P
                   | x :: rest =>
                       Forall_cons_2 P x rest (pyobj_nested_ind x) (all rest)
                   end) l)
  | PDict items =>
      HDict items
        ((fix all (l : list (pyobj * pyobj))
            : Forall (fun kv => P kv.1 /\ P kv.2) l :=
            match l with
            | [] => Forall_nil_2 _
            | (k, v) :: rest =>
                Forall_cons_2 (fun kv => P kv.1 /\ P kv.2) (k, v) rest
                  (conj (pyobj_nested_ind k) (pyobj_nested_ind v)) (all rest)
            end) items)
  | PExt code data => HExt code data
  | PTimestamp seconds nanoseconds => HTimestamp seconds nanoseconds
  end.

End PyobjInd.

End Py.

(** ** Event and EventSource  (events.py)

    Events are shared between event sources (the trigger of a component is
    attached to every queue of the component), so they live in a heap and
    an event source holds their addresses. *)

Module Events.

Record Event := mkEvent {
  flag : bool;
  ev_expired : bool;
  (** a [ValueReceivedEvent] (component_framework.py): its [trigger]
      override has no [return], so the caller sees [None] *)
  value_received_event : bool
}.

Definition new_event (value_received : bool) : Event :=
  mkEvent false false value_received.

(** [Event.trigger]: the new event and the returned [expired] flag. *)
Definition trigger (e : Event) : Event * bool :=
  (if ev_expired e then e
   else mkEvent true (ev_expired e) (value_received_event e),
   ev_expired e).

(** Dynamic dispatch of [e.trigger()], and the truth value of the result. *)
Definition trigger_dispatch (e : Event) : Event * bool :=
  if value_received_event e then (fst (trigger e), false) else trigger e.

Definition clear (e : Event) : Event :=
  mkEvent false (ev_expired e) (value_received_event e).

Definition expire (e : Event) : Event :=
  mkEvent (flag e) true (value_received_event e).

(** The loop of [EventSource._notify_events]: returns the heap after all
    triggers and [found_expired]. *)
Fixpoint trigger_all (evs : list nat) (h : gmap nat Event)
  : gmap nat Event * bool :=
  match evs with
  | [] => (h, false)
  | a :: rest =>
      match h !! a with
      | Some e =>
          let '(e', x) := trigger_dispatch e in
          let '(h', found) := trigger_all rest (<[a := e']> h) in
          (h', x || found)
      | None => trigger_all rest h
      end
  end.

Definition is_expired (h : gmap nat Event) (a : nat) : bool :=
  match h !! a with
  | Some e => ev_expired e
  | None => false
  end.

(** [EventSource._notify_events] on the list [_events]. *)
Definition _notify_events (evs : list nat) (h : gmap nat Event)
  : list nat * gmap nat Event :=
  let '(h', found_expired) := trigger_all evs h in
  (if found_expired
   then List.filter (fun a => negb (is_expired h' a)) evs
   else evs,
   h').

(** *** What a trigger does to an event *)

(** an expired event whose [trigger] reports it: a plain [Event] *)
Definition reports_expired (h : gmap nat Event) (a : nat) : bool :=
  match h !! a with
  | Some e => ev_expired e && negb (value_received_event e)
  | None => false
  end.

(** the event after [trigger]: the flag is set unless the event is expired *)
Definition triggered (e : Event) : Event :=
  if ev_expired e then e
  else mkEvent true (ev_expired e) (value_received_event e).

End Events.

(** ** ValueQueue  (value_store.py, lines 137-258)

    The model covers queues created without a component trace event
    generator ([ctrace_event_gen=None], the default). *)

Module VQueue.
Import Py.

Record ValueQueue := mkQueue {
  maxlen : Z;
  (** the deque, oldest entry first; an entry is the pair [(value, topic)] *)
  queue : list (pyobj * string);
  expired : bool;
  events : list nat;
  last_receive_topic : string;
  last_receive_time : Z
}.

(** [ValueQueue(maxlen=...)] *)
Definition init (maxlen : Z) : ValueQueue :=
  mkQueue maxlen [] false [] EmptyString 0.

Definition with_queue (l : list (pyobj * string)) (q : ValueQueue) :=
  mkQueue (maxlen q) l (expired q) (events q)
          (last_receive_topic q) (last_receive_time q).

Definition empty (q : ValueQueue) : bool :=
  Z.of_nat (length (queue q)) <=? 0.

Definition size (q : ValueQueue) : Z := Z.of_nat (length (queue q)).

(** [EventSource.add_event] *)
Definition add_event (a : nat) (q : ValueQueue) : ValueQueue :=
  mkQueue (maxlen q) (queue q) (expired q) (events q ++ [a])
          (last_receive_topic q) (last_receive_time q).

(** The loop of the [maxlen] setter: [popleft] while the queue is longer
    than [value]; structural on the deque. *)
Fixpoint trim (value : Z) (l : list (pyobj * string)) : list (pyobj * string) :=
  match l with
  | [] => []
  | _ :: rest =>
      if Z.of_nat (length l) >? value then trim value rest else l
  end.

(** the [maxlen] setter *)
Definition set_maxlen (value : Z) (q : ValueQueue) : ValueQueue :=
  mkQueue value
          (if value >? 0 then trim value (queue q) else queue q)
          (expired q) (events q)
          (last_receive_topic q) (last_receive_time q).

(** [peek_with_topic]: the queue after the call and the returned pair, or
    [None]. *)
Definition peek_with_topic (q : ValueQueue)
  : ValueQueue * option (pyobj * string) :=
  match queue q with
  | topic_value :: _ => (q, Some topic_value)
  | [] => (q, None)
  end.

(** [pop_with_topic] *)
Definition pop_with_topic (q : ValueQueue)
  : ValueQueue * option (pyobj * string) :=
  match queue q with
  | topic_value :: rest => (with_queue rest q, Some topic_value)
  | [] => (q, None)
  end.

(** Subscripting [r[0]] of what the [*_with_topic] methods return:
    [None[0]] raises [TypeError]. *)
Definition subscript0 (r : option (pyobj * string)) : result pyobj :=
  match r with
  | Some topic_value => Ok (fst topic_value)
  | None => Raise TypeError
  end.

(** [peek]: [return self.peek_with_topic()[0]] *)
Definition peek (q : ValueQueue) : ValueQueue * result pyobj :=
  let '(q', r) := peek_with_topic q in (q', subscript0 r).

(** [pop]: [return self.pop_with_topic()[0]] *)
Definition pop (q : ValueQueue) : ValueQueue * result pyobj :=
  let '(q', r) := pop_with_topic q in (q', subscript0 r).

(** [receive(topic, value)]; [now] is the reading of [_now_micros()].
    Returns the queue, the event heap and the returned [_expired]. *)
Definition receive (topic : string) (value : pyobj) (now : Z)
    (h : gmap nat Events.Event) (q : ValueQueue)
  : ValueQueue * gmap nat Events.Event * bool :=
  let l1 := if (0 <? maxlen q) && (maxlen q <=? Z.of_nat (length (queue q)))
            then tail (queue q) else queue q in
  let l2 := l1 ++ [(value, topic)] in
  let '(evs, h') := Events._notify_events (events q) h in
  (mkQueue (maxlen q) l2 (expired q) evs topic now, h', expired q).

Definition expire (q : ValueQueue) : ValueQueue :=
  mkQueue (maxlen q) (queue q) true (events q)
          (last_receive_topic q) (last_receive_time q).

(** A sequence of [receive] calls, each with its clock reading. *)
Fixpoint receive_all (calls : list (string * pyobj * Z))
    (h : gmap nat Events.Event) (q : ValueQueue)
  : ValueQueue * gmap nat Events.Event * list bool :=
  match calls with
  | [] => (q, h, [])
  | (topic, value, now) :: rest =>
      let '(q1, h1, r) := receive topic value now h q in
      let '(q2, h2, rs) := receive_all rest h1 q1 in
      (q2, h2, r :: rs)
  end.

(** What holds of every queue the constructor, the setter and the methods
    can produce: a bounded queue is never longer than its bound. *)
Definition bounded (q : ValueQueue) : Prop :=
  0 < maxlen q -> Z.of_nat (length (queue q)) <= maxlen q.

(** *** Vocabulary of the properties *)

(** The last [n] elements of a list. *)
Definition lastn {A} (n : nat) (l : list A) : list A :=
  drop (length l - n) l.

(** The queue entry a [receive] call appends. *)
Definition entry_of (c : string * pyobj * Z) : pyobj * string :=
  let '(topic, value, _) := c in (value, topic).

(** *** Draining a queue *)

(** [n] calls of [pop_with_topic]: the queue after them and what they
    returned, in order. *)
Fixpoint pop_n (n : nat) (q : ValueQueue)
  : ValueQueue * list (option (pyobj * string)) :=
  match n with
  | O => (q, [])
  | S n' =>
      let '(q1, r) := pop_with_topic q in
      let '(q2, rs) := pop_n n' q1 in
      (q2, r :: rs)
  end.

End VQueue.

(** ** The write queue of the recorder  (value_recorder.py, lines 47-118) *)

Module RecQueue.
Import Py.

(** [QueueEntry], what [pop] returns; the defaults are [None], the empty string, [None]. *)
Record QueueEntry := mkQueueEntry {
  qe_time : option Z;
  qe_topic : string;
  qe_value : pyobj
}.

(** [Queue.QueueValue] *)
Record QueueValue := mkQueueValue {
  qv_time : Z;
  qv_topic_id : Z;
  qv_value : pyobj
}.

Record Queue := mkRecQueue {
  deque : list QueueValue;
  topic_id_map : gmap Z string;
  rq_expired : bool
}.

Definition init : Queue := mkRecQueue [] ∅ false.

Section WithHash.
(** the builtin [hash] on strings *)
Variable hash : string -> Z.

(** [receive(topic, value)]; [now] is [datetime.now()].  Returns [None]. *)
Definition receive (topic : string) (value : pyobj) (now : Z) (q : Queue)
  : Queue :=
  let topic_id := hash topic in
  let qv := mkQueueValue now topic_id value in
  let m := match topic_id_map q !! topic_id with
           | Some _ => topic_id_map q
           | None => <[topic_id := topic]> (topic_id_map q)
           end in
  mkRecQueue (deque q ++ [qv]) m (rq_expired q).

End WithHash.

(** [pop()]: the queue after the call and the pair [(qe, size)], where
    [size] is the number of entries left behind; the subscript
    [self._topic_id_map[qv.topic_id]] raises [KeyError] on a missing key. *)
Definition pop (q : Queue) : Queue * result (QueueEntry * Z) :=
  let size := Z.of_nat (length (deque q)) in
  match deque q with
  | qv :: rest =>
      match topic_id_map q !! qv_topic_id qv with
      | Some topic =>
          (mkRecQueue rest (topic_id_map q) (rq_expired q),
           Ok (mkQueueEntry (Some (qv_time qv)) topic (qv_value qv), size - 1))
      | None => (q, Raise KeyError)
      end
  | [] => (q, Ok (mkQueueEntry None EmptyString PNone, size))
  end.

Definition empty (q : Queue) : bool := Z.of_nat (length (deque q)) <=? 0.

Definition size (q : Queue) : Z := Z.of_nat (length (deque q)).

Definition expire (q : Queue) : Queue :=
  mkRecQueue (deque q) (topic_id_map q) true.

(** *** Runs of the write queue *)

(** What reaches the queue: [receive] from the value store, [pop] from the
    write thread. *)
Inductive QueueOp :=
| QReceive (topic : string) (value : pyobj) (now : Z)
| QPop.

Section Runs.
Variable hash : string -> Z.

(** A run of calls; what the [pop]s returned, in order. *)
Fixpoint queue_run (ops : list QueueOp) (q : Queue)
  : Queue * list (result (QueueEntry * Z)) :=
  match ops with
  | [] => (q, [])
  | QReceive topic value now :: rest =>
      queue_run rest (receive hash topic value now q)
  | QPop :: rest =>
      let '(q1, r) := pop q in
      let '(q2, rs) := queue_run rest q1 in
      (q2, r :: rs)
  end.

End Runs.

(** Every entry of the deque has its topic id in the map. *)
Definition topics_known (q : Queue) : Prop :=
  Forall (fun qv => is_Some (topic_id_map q !! qv_topic_id qv)) (deque q).

(** [hash] tells the topics of [topics] apart. *)
Definition collision_free (hash : string -> Z) (topics : list string) : Prop :=
  forall t1 t2, t1 ∈ topics -> t2 ∈ topics -> hash t1 = hash t2 -> t1 = t2.

(** the calls of a list of receives *)
Definition receives (calls : list (string * pyobj * Z)) : list QueueOp :=
  map (fun '(topic, value, now) => QReceive topic value now) calls.

(** The topic map names topics of [T] by their hash, and only those. *)
Definition names (hash : string -> Z) (T : list string) (q : Queue) : Prop :=
  forall id t, topic_id_map q !! id = Some t -> hash t = id /\ t ∈ T.

End RecQueue.

(** ** ValueStore  (value_store.py, lines 18-134)

    Receivers are objects compared by identity ([receiver is r]); they live
    in a heap shared by the store and by whoever reads the queues.  The two
    receiver classes of the repository are [ValueQueue] and the write queue
    of the recorder. *)

Module VStore.
Import Py.

Inductive Receiver :=
| RValueQueue (q : VQueue.ValueQueue)
| RRecorderQueue (q : RecQueue.Queue).

Record World := mkWorld {
  w_events : gmap nat Events.Event;
  w_receivers : gmap nat Receiver
}.

(** [ValueStore._MapEntry] *)
Record MapEntry := mkEntry {
  value : pyobj;
  receivers : list nat
}.

Record ValueStore := mkStore {
  store : gmap string MapEntry;
  all_topic_receivers : list nat
}.

Definition init : ValueStore := mkStore ∅ [].

(** One call [r.receive(key, value)], as the store observes it. *)
Record Delivery := mkDelivery {
  d_receiver : nat;
  d_key : string;
  d_value : pyobj
}.

Definition _create_key_if_absent (key : string) (vs : ValueStore) : ValueStore :=
  match store vs !! key with
  | Some _ => vs
  | None => mkStore (<[key := mkEntry PNone []]> (store vs))
                    (all_topic_receivers vs)
  end.

(** the entry [self._store[key]] after [_create_key_if_absent] *)
Definition entry_of (key : string) (vs : ValueStore) : MapEntry :=
  match store vs !! key with
  | Some e => e
  | None => mkEntry PNone []
  end.

(** [for r in l: if receiver is r: return] *)
Definition registered (receiver : nat) (l : list nat) : bool :=
  existsb (Nat.eqb receiver) l.

Definition add_receiver (key : string) (receiver : nat) (vs : ValueStore)
  : ValueStore :=
  let vs1 := _create_key_if_absent key vs in
  let entry := entry_of key vs1 in
  if registered receiver (receivers entry) then vs1
  else mkStore (<[key := mkEntry (value entry) (receivers entry ++ [receiver])]>
                  (store vs1))
               (all_topic_receivers vs1).

Definition add_all_topic_receiver (receiver : nat) (vs : ValueStore)
  : ValueStore :=
  if registered receiver (all_topic_receivers vs) then vs
  else mkStore (store vs) (all_topic_receivers vs ++ [receiver]).

Section WithHash.
Variable hash : string -> Z.

(** Dynamic dispatch of [r.receive(key, value)] and the truth value of what
    it returns: [ValueQueue.receive] returns its expired flag,
    [Queue.receive] of the recorder returns [None]. *)
Definition receive_dispatch (key : string) (value : pyobj) (now : Z)
    (w : World) (r : nat) : World * bool :=
  match w_receivers w !! r with
  | Some (RValueQueue q) =>
      let '(q', h', x) := VQueue.receive key value now (w_events w) q in
      (mkWorld h' (<[r := RValueQueue q']> (w_receivers w)), x)
  | Some (RRecorderQueue q) =>
      (mkWorld (w_events w)
               (<[r := RRecorderQueue (RecQueue.receive hash key value now q)]>
                  (w_receivers w)),
       false)
  | None => (w, false)
  end.

(** [r.expired] *)
Definition receiver_expired (w : World) (r : nat) : bool :=
  match w_receivers w !! r with
  | Some (RValueQueue q) => VQueue.expired q
  | Some (RRecorderQueue q) => RecQueue.rq_expired q
  | None => false
  end.

(** The loop of [_notify_receivers_and_cleanup]. *)
Fixpoint notify_loop (rs : list nat) (key : string) (value : pyobj) (now : Z)
    (w : World) : World * bool * list Delivery :=
  match rs with
  | [] => (w, false, [])
  | r :: rest =>
      let '(w1, x) := receive_dispatch key value now w r in
      let '(w2, has_expired, log) := notify_loop rest key value now w1 in
      (w2, x || has_expired, mkDelivery r key value :: log)
  end.

(** [_notify_receivers_and_cleanup(receivers, key, value)]: the updated
    list it returns, the heap, and the calls it made. *)
Definition _notify_receivers_and_cleanup (rs : list nat) (key : string)
    (value : pyobj) (now : Z) (w : World)
  : list nat * World * list Delivery :=
  let '(w', has_expired, log) := notify_loop rs key value now w in
  (if has_expired
   then List.filter (fun r => negb (receiver_expired w' r)) rs
   else rs,
   w', log).

(** [set_value(key, value)]: the store and the heap after the call, the
    [receive] calls made, in order, and how the call ended. *)
Definition set_value (key : string) (value : pyobj) (now : Z)
    (vs : ValueStore) (w : World)
  : ValueStore * World * list Delivery * result unit :=
  if is_none value then (vs, w, [], Raise RuntimeError)
  else
    let vs1 := _create_key_if_absent key vs in
    let entry := entry_of key vs1 in
    let all_topic_receivers_copy := all_topic_receivers vs1 in
    let vs2 := mkStore (<[key := mkEntry value (receivers entry)]> (store vs1))
                       (all_topic_receivers vs1) in
    let entry_receivers_copy := receivers entry in
    let '(_, w1, log1) :=
      _notify_receivers_and_cleanup all_topic_receivers_copy key value now w in
    let '(_, w2, log2) :=
      _notify_receivers_and_cleanup entry_receivers_copy key value now w1 in
    (vs2, w2, log1 ++ log2, Ok tt).

End WithHash.

(** [get_value(key)] *)
Definition get_value (key : string) (vs : ValueStore) : pyobj :=
  match store vs !! key with
  | Some entry => value entry
  | None => PNone
  end.

(** What [add_receiver] and [add_all_topic_receiver] maintain: no receiver
    is twice in the same list. *)
Definition no_duplicates (vs : ValueStore) : Prop :=
  NoDup (all_topic_receivers vs) /\
  forall key e, store vs !! key = Some e -> NoDup (receivers e).

(** *** A sample store *)

(** A store with one all-topic receiver (address 3) and two queues on
    topic "t" (addresses 1 and 2). *)
Definition sample_store : ValueStore :=
  add_receiver "t" 2 (add_receiver "t" 1 (add_all_topic_receiver 3 init)).

Definition sample_world : World :=
  mkWorld ∅ (<[3%nat := RValueQueue (VQueue.init 0)]>
              (<[2%nat := RValueQueue (VQueue.init 1)]>
                (<[1%nat := RValueQueue (VQueue.init 0)]> ∅))).

(** the number of [receive] calls made on the receiver at [r] *)
Definition calls_to (r : nat) (log : list Delivery) : nat :=
  length (List.filter (fun d => Nat.eqb (d_receiver d) r) log).

(** the number of registrations of [r] that [set_value(key, ...)] goes
    through: one in the all-topic list, one in the list of the topic *)
Definition registrations (key : string) (r : nat) (vs : ValueStore) : nat :=
  (if registered r (all_topic_receivers vs) then 1 else 0)
  + (if registered r (receivers (entry_of key vs)) then 1 else 0).

(** A store whose one queue (address 1) is registered both as an all-topic
    receiver and on topic "t". *)
Definition both_ways_store : ValueStore :=
  add_receiver "t" 1 (add_all_topic_receiver 1 init).

Definition both_ways_world : World :=
  mkWorld ∅ (<[1%nat := RValueQueue (VQueue.init 0)]> ∅).

(** *** What a receiver holds after a delivery *)

Section Newest.
Variable hash : string -> Z.

(** The newest entry of the receiver at [r] is the one a call
    [receive(key, value)] appends.  The time of the entry is left open:
    every [receive] reads the clock itself. *)
Definition newest_entry (key : string) (value : pyobj)
    (w : World) (r : nat) : Prop :=
  match w_receivers w !! r with
  | Some (RValueQueue q) =>
      last (VQueue.queue q) = Some (value, key) /\
      VQueue.last_receive_topic q = key
  | Some (RRecorderQueue q) =>
      exists time,
        last (RecQueue.deque q)
        = Some (RecQueue.mkQueueValue time (hash key) value)
  | None => True
  end.

End Newest.

(** the class of the receiver at [r], if there is one *)
Definition receiver_class (w : World) (r : nat) : option bool :=
  match w_receivers w !! r with
  | Some (RValueQueue _) => Some true
  | Some (RRecorderQueue _) => Some false
  | None => None
  end.

End VStore.

(** ** ComponentManager  (component_framework.py, lines 18-76) *)

Module CompMgr.

Inductive CompState :=
| REGISTERED
| CONFIGURED
| RUNNING.

(** [ComponentManager.CompMapEntry]; [component] is the address of the
    component object ([in] on a list of components compares by identity, as
    [Component] does not define [__eq__]). *)
Record CompMapEntry := mkCompEntry {
  component : nat;
  id : Z;
  instance_name : string;
  state : CompState
}.

(** The fields of a [Component] that registration writes. *)
Record Component := mkComponent {
  config_name : string;
  (** the instance name the trace event generator was created for *)
  trace_generator : option string
}.

Record ComponentManager := mkManager {
  components : gmap Z CompMapEntry;
  last_comp_id : Z;
  (** whether a [ctrace_controller] was given *)
  ctrace_controller : bool
}.

(** [ComponentManager(ctrace_controller=...)] *)
Definition init (ctrace : bool) : ComponentManager := mkManager ∅ 0 ctrace.

Inductive LogRecord :=
| ErrorAlreadyRegistered
| ErrorInstanceNameExists
| InfoRegistered (instance_name : string) (comp_id : Z).

(** [component in [e.component for e in self._components.values()]] *)
Definition component_registered (c : nat) (m : ComponentManager) : Prop :=
  map_Exists (fun _ e => component e = c) (components m).

(** [instance_name in [e.instance_name for e in self._components.values()]] *)
Definition instance_name_used (name : string) (m : ComponentManager) : Prop :=
  map_Exists (fun _ e => instance_name e = name) (components m).

#[global] Instance component_registered_dec c m :
  Decision (component_registered c m).
Proof. unfold component_registered. apply _. Defined.

#[global] Instance instance_name_used_dec name m :
  Decision (instance_name_used name m).
Proof. unfold instance_name_used. apply _. Defined.

(** [register_component(component, instance_name, config_name=None)]: the
    manager and the component heap after the call, the returned number and
    the log records written. *)
Definition register_component (c : nat) (name : string)
    (cfg : option string) (m : ComponentManager) (h : gmap nat Component)
  : ComponentManager * gmap nat Component * Z * list LogRecord :=
  if decide (component_registered c m) then
    (m, h, -1, [ErrorAlreadyRegistered])
  else if decide (instance_name_used name m) then
    (m, h, -1, [ErrorInstanceNameExists])
  else
    let comp_id := last_comp_id m + 1 in
    let cfg_name := match cfg with
                    | Some n => n
                    | None => (name ++ ".json")%string
                    end in
    let h1 := alter (fun o => mkComponent cfg_name (trace_generator o)) c h in
    let h2 := if ctrace_controller m
              then alter (fun o => mkComponent (config_name o) (Some name)) c h1
              else h1 in
    let map_entry := mkCompEntry c comp_id name REGISTERED in
    (mkManager (<[comp_id := map_entry]> (components m)) comp_id
               (ctrace_controller m),
     h2, comp_id, [InfoRegistered name comp_id]).

(** Ids are handed out by a counter: every id in the registry lies between
    one and the last id handed out. *)
Definition ids_bounded (m : ComponentManager) : Prop :=
  0 <= last_comp_id m /\
  forall k e, components m !! k = Some e -> 1 <= k <= last_comp_id m.

(** *** A sample registry *)

(** A registry holding component 0 under the name "a". *)
Definition one_registered : ComponentManager :=
  (register_component 0 "a" None (init false)
     (<[0%nat := mkComponent "x" None]> ∅)).1.1.1.

(** *** Life cycle  (component_framework.py, lines 78-158 and 328-359)

    What the manager sees and changes of a component: whether its thread
    exists ([is_running]), its instance name and the two request flags.
    The hook [configure()] that [ctrl_configure] calls is taken to
    return; [ctrl_stop] is modelled for a component thread that ends when
    asked to, so that [join()] returns. *)

Record Runtime := mkRuntime {
  is_running : bool;
  rt_instance_name : string;
  startup_request : bool;
  shutdown_request : bool
}.

(** the components, by address *)
Definition Heap := nat -> Runtime.

Definition upd (c : nat) (f : Runtime -> Runtime) (h : Heap) : Heap :=
  fun c' => if decide (c' = c) then f (h c) else h c'.

(** [ctrl_configure(instance_name)] *)
Definition ctrl_configure (name : string) (o : Runtime) : Runtime :=
  if is_running o then o
  else mkRuntime (is_running o) name (startup_request o) (shutdown_request o).

(** [ctrl_start()] *)
Definition ctrl_start (o : Runtime) : Runtime :=
  if is_running o then o
  else mkRuntime true (rt_instance_name o) false false.

(** [ctrl_stop()] *)
Definition ctrl_stop (o : Runtime) : Runtime :=
  if is_running o
  then mkRuntime false (rt_instance_name o) (startup_request o) true
  else o.

(** [ctrl_run()] *)
Definition ctrl_run (o : Runtime) : Runtime :=
  mkRuntime (is_running o) (rt_instance_name o) true (shutdown_request o).

(** The calls the manager makes, in order. *)
Inductive Ctrl :=
| CtrlConfigure (c : nat) (instance_name : string)
| CtrlStart (c : nat)
| CtrlRun (c : nat)
| CtrlStop (c : nat).

Definition state_is (st : CompState) (e : CompMapEntry) : bool :=
  match st, state e with
  | REGISTERED, REGISTERED | CONFIGURED, CONFIGURED | RUNNING, RUNNING => true
  | _, _ => false
  end.

(** [entry.state = st] for the entry stored under [k] *)
Definition set_state (k : Z) (st : CompState) (m : ComponentManager)
  : ComponentManager :=
  mkManager
    (alter (fun e => mkCompEntry (component e) (id e) (instance_name e) st)
           k (components m))
    (last_comp_id m) (ctrace_controller m).

(** The keys of [_components] in the order of [values()]: a dict keeps the
    order of insertion, which is the order of the ids. *)
Definition comp_ids (m : ComponentManager) : list Z :=
  map Z.of_nat (seq 1 (Z.to_nat (last_comp_id m))).

(** the loop of [configure()] *)
Fixpoint configure_loop (ks : list Z) (m : ComponentManager) (h : Heap)
  : ComponentManager * Heap * list Ctrl :=
  match ks with
  | [] => (m, h, [])
  | k :: rest =>
      match components m !! k with
      | Some entry =>
          if negb (state_is REGISTERED entry) then configure_loop rest m h
          else
            let h1 := upd (component entry)
                          (ctrl_configure (instance_name entry)) h in
            let m1 := set_state k CONFIGURED m in
            let '(m2, h2, log) := configure_loop rest m1 h1 in
            (m2, h2,
             CtrlConfigure (component entry) (instance_name entry) :: log)
      | None => configure_loop rest m h
      end
  end.

(** [configure()] *)
Definition configure (m : ComponentManager) (h : Heap)
  : ComponentManager * Heap * list Ctrl :=
  configure_loop (comp_ids m) m h.

(** The first loop of [startup()] ([st] is CONFIGURED, [ctrl] is
    [ctrl_start]) and of [shutdown()] (RUNNING, [ctrl_stop]): the heap, the
    keys of [components_started] or [components_stopped], the calls. *)
Fixpoint ctrl_loop (st : CompState) (ctrl : Runtime -> Runtime)
    (call : nat -> Ctrl) (ks : list Z) (m : ComponentManager) (h : Heap)
  : Heap * list Z * list Ctrl :=
  match ks with
  | [] => (h, [], [])
  | k :: rest =>
      match components m !! k with
      | Some entry =>
          if negb (state_is st entry) then ctrl_loop st ctrl call rest m h
          else
            let '(h2, done, log) :=
              ctrl_loop st ctrl call rest m (upd (component entry) ctrl h) in
            (h2, k :: done, call (component entry) :: log)
      | None => ctrl_loop st ctrl call rest m h
      end
  end.

(** One pass of a waiting loop: whether every component of [done] has
    [is_running = expected]. *)
Definition all_are (expected : bool) (done : list Z) (m : ComponentManager)
    (h : Heap) : bool :=
  forallb (fun k => match components m !! k with
                    | Some entry =>
                        Bool.eqb (is_running (h (component entry))) expected
                    | None => true
                    end) done.

(** the last loop of [startup()] *)
Fixpoint run_loop (done : list Z) (m : ComponentManager) (h : Heap)
  : ComponentManager * Heap * list Ctrl :=
  match done with
  | [] => (m, h, [])
  | k :: rest =>
      match components m !! k with
      | Some entry =>
          let '(m2, h2, log) :=
            run_loop rest (set_state k RUNNING m)
                     (upd (component entry) ctrl_run h) in
          (m2, h2, CtrlRun (component entry) :: log)
      | None => run_loop rest m h
      end
  end.

(** [startup()]; [None] when the loop that waits for the started
    components never ends. *)
Definition startup (m : ComponentManager) (h : Heap)
  : option (ComponentManager * Heap * list Ctrl) :=
  let '(h1, started, log1) :=
    ctrl_loop CONFIGURED ctrl_start CtrlStart (comp_ids m) m h in
  if all_are true started m h1 then
    let '(m2, h2, log2) := run_loop started m h1 in
    Some (m2, h2, log1 ++ log2)
  else None.

(** [shutdown()]; [None] when the loop that waits for the stopped
    components never ends. *)
Definition shutdown (m : ComponentManager) (h : Heap)
  : option (ComponentManager * Heap * list Ctrl) :=
  let '(h1, stopped, log1) :=
    ctrl_loop RUNNING ctrl_stop CtrlStop (comp_ids m) m h in
  if all_are false stopped m h1 then
    Some (fold_left (fun m k => set_state k CONFIGURED m) stopped m,
          h1, log1)
  else None.

(** the state of an entry after an operation that moves the entries in
    state [from] to state [to] *)
Definition moved (from to : CompState) (e : CompMapEntry) : CompMapEntry :=
  if state_is from e
  then mkCompEntry (component e) (id e) (instance_name e) to
  else e.

(** components as [Component.__init__] leaves them *)
Definition not_started : Heap := fun _ => mkRuntime false EmptyString false false.

(** [one_registered] after [configure()] and [startup()], with component 1
    registered afterwards under the name "b": the entry of component 0 is
    RUNNING and its thread exists, the entry of component 1 is
    REGISTERED. *)
Definition one_running : ComponentManager * Heap :=
  let '(m1, h1, _) := configure one_registered not_started in
  match startup m1 h1 with
  | Some (m2, h2, _) =>
      ((register_component 1 "b" None m2
          (<[1%nat := mkComponent "y" None]> ∅)).1.1.1, h2)
  | None => (m1, h1)
  end.

(** A run of [register_component] calls (with the default config name):
    the manager after them and the numbers returned, in order. *)
Fixpoint register_all (reqs : list (nat * string)) (m : ComponentManager)
    (h : gmap nat Component) : ComponentManager * list Z :=
  match reqs with
  | [] => (m, [])
  | (c, name) :: rest =>
      let '(m1, h1, r, _) := register_component c name None m h in
      let '(m2, rs) := register_all rest m1 h1 in
      (m2, r :: rs)
  end.

(** the ids among the returned numbers *)
Definition granted (rs : list Z) : list Z :=
  List.filter (fun r => negb (r =? -1)) rs.

End CompMgr.

(** ** RemotePair and RemoteService  (remote_service.py, lines 214-848)

    The service is modelled from [configure()] on: the [RemotePair] exists,
    the sender is connected ([startup()] calls [connect_sender()], and
    [_change_state_from_up] reconnects right after it disconnects), so the
    assertions of the send methods of the sender hold and the socket is not
    part of the state.  What the peer answers to the requests of the sender
    is the list [replies]; a request that finds it empty times out.  The
    component is created without a trace event generator.  [self.trigger()]
    only wakes the component thread; the order in which the threads run
    their handlers is the order of a list of [Op]s. *)

Module Remote.
Import Py Tracker VStore.

(** *** Dictionaries with string keys, in insertion order *)

Fixpoint dict_get {V} (k : string) (d : list (string * V)) : option V :=
  match d with
  | [] => None
  | (k', v) :: rest => if decide (k = k') then Some v else dict_get k rest
  end.

(** In-place change of the object stored under [k]. *)
Fixpoint dict_update {V} (k : string) (f : V -> V) (d : list (string * V))
  : list (string * V) :=
  match d with
  | [] => []
  | (k', v) :: rest =>
      if decide (k = k') then (k', f v) :: rest
      else (k', v) :: dict_update k f rest
  end.

(** [d[k] = v] *)
Fixpoint dict_set {V} (k : string) (v : V) (d : list (string * V))
  : list (string * V) :=
  match d with
  | [] => [(k, v)]
  | (k', v') :: rest =>
      if decide (k = k') then (k', v) :: rest
      else (k', v') :: dict_set k v rest
  end.

(** *** State *)

Record SendState := mkSendState {
  forced_send : bool;
  send_pending : bool
}.

Record SendRule := mkSendRule {
  sr_topic : string;
  queue_length : Z;
  sr_state : SendState;
  (** the address of the queue, [None] before [configure()] *)
  sr_queue : option nat
}.

Record ReceiveRule := mkReceiveRule {
  rr_topic : string;
  pending_value : pyobj
}.

Record RemotePair := mkPair {
  tracker : RemoteStatusTracker;
  pong_queue : list Z;
  oldState : RemoteState
}.

(** What a handler does that is visible outside the service: the calls of
    the send methods of the sender, with their arguments, and the run of
    [reset_pending_values].  [OutSendValue] carries, next to the topic and
    the value handed to [RemotePair.send_value], the key of the send rule
    the call is made for. *)
Inductive Out :=
| OutPing (freshness : Z)
| OutPong (freshness : Z)
| OutRequestAll
| OutSendValue (rule : string) (topic : string) (value : pyobj)
| OutValueInjected (topic : string)
| OutValueRejected (topic : string)
| OutReconnect
| OutReset.

Record Service := mkService {
  send_rules : list (string * SendRule);
  receive_rules : list (string * ReceiveRule);
  inserted_topics : list string;
  rejected_topics : list string;
  initialized : bool;
  transceiver : RemotePair;
  vstore : ValueStore;
  world : World;
  replies : list string
}.

Definition set_send_rules (x : list (string * SendRule)) (s : Service) :=
  mkService x (receive_rules s) (inserted_topics s) (rejected_topics s)
            (initialized s) (transceiver s) (vstore s) (world s) (replies s).

Definition set_receive_rules (x : list (string * ReceiveRule)) (s : Service) :=
  mkService (send_rules s) x (inserted_topics s) (rejected_topics s)
            (initialized s) (transceiver s) (vstore s) (world s) (replies s).

Definition set_topics (ins rej : list string) (s : Service) :=
  mkService (send_rules s) (receive_rules s) ins rej
            (initialized s) (transceiver s) (vstore s) (world s) (replies s).

Definition set_initialized (x : bool) (s : Service) :=
  mkService (send_rules s) (receive_rules s) (inserted_topics s)
            (rejected_topics s) x (transceiver s) (vstore s) (world s)
            (replies s).

Definition set_transceiver (x : RemotePair) (s : Service) :=
  mkService (send_rules s) (receive_rules s) (inserted_topics s)
            (rejected_topics s) (initialized s) x (vstore s) (world s)
            (replies s).

Definition set_store (vs : ValueStore) (w : World) (s : Service) :=
  mkService (send_rules s) (receive_rules s) (inserted_topics s)
            (rejected_topics s) (initialized s) (transceiver s) vs w
            (replies s).

Definition set_replies (x : list string) (s : Service) :=
  mkService (send_rules s) (receive_rules s) (inserted_topics s)
            (rejected_topics s) (initialized s) (transceiver s) (vstore s)
            (world s) x.

Definition set_tracker (t : RemoteStatusTracker) (s : Service) :=
  set_transceiver (mkPair t (pong_queue (transceiver s))
                          (oldState (transceiver s))) s.

(** [RemoteService(value_store, sender, receiver)] followed by the creation
    of the [RemotePair]; [rand] is the first nonce of its tracker, which is
    built with the default intervals. *)
Definition init (vs : ValueStore) (w : World) (rand : Z) : Service :=
  mkService [] [] [] [] false
            (mkPair (Tracker.init 100 3000 5000 rand) [] STATE_UNSURE)
            vs w [].

(** *** Handlers as state transformers with output *)

Definition M (A : Type) : Type := Service -> Service * list Out * result A.

Definition ret {A} (a : A) : M A := fun s => (s, [], Ok a).

Definition bind {A B} (m : M A) (k : A -> M B) : M B := fun s =>
  let '(s1, l1, r) := m s in
  match r with
  | Ok a => let '(s2, l2, r2) := k a s1 in (s2, l1 ++ l2, r2)
  | Raise e => (s1, l1, Raise e)
  end.

Definition emit (o : Out) : M unit := fun s => (s, [o], Ok tt).

Definition raise {A} (e : exn) : M A := fun s => (s, [], Raise e).

Definition modify (f : Service -> Service) : M unit :=
  fun s => (f s, [], Ok tt).

Definition gets {A} (f : Service -> A) : M A := fun s => (s, [], Ok (f s)).

#[global] Instance M_ret : MRet M := @ret.
#[global] Instance M_bind : MBind M := fun A B k m => bind m k.

(** [for x in l: body(x)] *)
Fixpoint for_each {A} (l : list A) (body : A -> M unit) : M unit :=
  match l with
  | [] => ret tt
  | x :: rest => body x;; for_each rest body
  end.

(** *** The sender, as far as the service sees it  (zmq_msgpack_comm.py) *)

(** [ZmqMsgPackSender._send]: the unpacked response, or ["TIMEOUT"]. *)
Definition sender_send : M string := fun s =>
  match replies s with
  | r :: rest => (set_replies rest s, [], Ok r)
  | [] => (s, [], Ok "TIMEOUT"%string)
  end.

(** [ZmqMsgPackSender.send_value]: an object that is not a [Value] is
    rejected without being transmitted. *)
Definition sender_send_value (value : pyobj) : M string :=
  if is_value value then sender_send else ret "REJECTED"%string.

(** *** RemotePair *)

Definition connected (s : Service) : bool :=
  bool_decide (remote_state (tracker (transceiver s)) = STATE_UP).

(** [RemotePair._send_ping], the ping sender of the tracker *)
Definition pair_send_ping (freshness : Z) : M unit :=
  emit (OutPing freshness);; sender_send;; ret tt.

(** [RemotePair.send_value]; [rule] only labels the output. *)
Definition pair_send_value (rule topic : string) (value : pyobj) : M string :=
  emit (OutSendValue rule topic value);;
  result ← sender_send_value value;
  (if decide (result = "TIMEOUT"%string)
   then modify (fun s => set_tracker (sending_timeout (tracker (transceiver s))) s)
   else ret tt);;
  ret result.

(** [RemotePair.send_blocked_value_injected]: the method of the sender it
    calls returns nothing, so the comparison with ["TIMEOUT"] is false. *)
Definition pair_send_blocked_value_injected (topic : string) : M unit :=
  emit (OutValueInjected topic);; sender_send;; ret tt.

Definition pair_send_blocked_value_rejected (topic : string) : M unit :=
  emit (OutValueRejected topic);; sender_send;; ret tt.

(** [RemotePair.send_request_all] *)
Definition pair_send_request_all : M unit :=
  emit OutRequestAll;; sender_send;; ret tt.

(** [RemotePair.ping_received] *)
Definition pair_ping_received (freshness : Z) : M unit :=
  modify (fun s =>
    set_transceiver (mkPair (tracker (transceiver s))
                            (pong_queue (transceiver s) ++ [freshness])
                            (oldState (transceiver s))) s).

(** [RemotePair.pong_received] *)
Definition pair_pong_received (now freshness : Z) : M unit :=
  modify (fun s =>
    set_tracker (Tracker.pong_received now freshness (tracker (transceiver s))) s).

(** [RemotePair.receive] after a message has been received: in DOWN the
    tracker is told. *)
Definition pair_message_received : M unit :=
  modify (fun s =>
    if decide (remote_state (tracker (transceiver s)) = STATE_DOWN)
    then set_tracker (message_received_in_down (tracker (transceiver s))) s
    else s).

(** [RemotePair._send_pongs] *)
Definition pair_send_pongs : M unit :=
  q ← gets (fun s => pong_queue (transceiver s));
  modify (fun s => set_transceiver (mkPair (tracker (transceiver s)) []
                                           (oldState (transceiver s))) s);;
  for_each q (fun freshness =>
    emit (OutPong freshness);; sender_send;; ret tt).

(** [RemotePair.cycle]; the tracker hands every nonce it produces to
    [_send_ping]. *)
Definition pair_cycle (now : Z) : M unit :=
  t ← gets (fun s => tracker (transceiver s));
  let '(t', pings) := run_cyclic now t in
  modify (set_tracker t');;
  for_each pings pair_send_ping;;
  pair_send_pongs.

(** *** RemoteService *)

(** [add_send_rule(topic_local, topic_remote=None, queue_len=1)] *)
Definition add_send_rule (topic_local : string) (topic_remote : option string)
    (queue_len : Z) : M unit :=
  let topic_remote := match topic_remote with
                      | Some t => t
                      | None => topic_local
                      end in
  rules ← gets send_rules;
  match dict_get topic_remote rules with
  | Some _ => raise AssertionError
  | None =>
      modify (set_send_rules
                (dict_set topic_remote
                   (mkSendRule topic_local queue_len
                               (mkSendState false false) None) rules))
  end.

(** [add_receive_rule(topic_local, topic_remote=None)] *)
Definition add_receive_rule (topic_local : string)
    (topic_remote : option string) : M unit :=
  let topic_remote := match topic_remote with
                      | Some t => t
                      | None => topic_local
                      end in
  rules ← gets receive_rules;
  match dict_get topic_remote rules with
  | Some _ => raise AssertionError
  | None =>
      modify (set_receive_rules
                (dict_set topic_remote (mkReceiveRule topic_local PNone) rules))
  end.

(** The part of [configure()] that creates the queue of one send rule:
    [create_and_register_value_queue(maxlen, topic, handler)].  [addr] is
    the address of the new queue, [ev] and [trig] those of the
    [ValueReceivedEvent] of its handler and of the component trigger. *)
Definition configure_rule (key : string) (addr ev trig : nat) : M unit :=
  rules ← gets send_rules;
  match dict_get key rules with
  | None => ret tt
  | Some rule =>
      modify (fun s =>
        let q := VQueue.add_event trig
                   (VQueue.add_event ev (VQueue.init (queue_length rule))) in
        let w := mkWorld (<[ev := Events.new_event true]> (w_events (world s)))
                         (<[addr := RValueQueue q]> (w_receivers (world s))) in
        set_store (add_receiver (sr_topic rule) addr (vstore s)) w
          (set_send_rules
             (dict_update key
                (fun r => mkSendRule (sr_topic r) (queue_length r)
                                     (sr_state r) (Some addr))
                rules) s))
  end.

(** [send_all] *)
Definition send_all : M unit :=
  modify (fun s =>
    set_send_rules
      (map (fun '(k, r) =>
              (k, mkSendRule (sr_topic r) (queue_length r)
                    (mkSendState true (send_pending (sr_state r)))
                    (sr_queue r)))
           (send_rules s)) s).

(** [reset_pending_values] *)
Definition reset_pending_values : M unit :=
  emit OutReset;;
  modify (fun s =>
    set_send_rules
      (map (fun '(k, r) =>
              (k, mkSendRule (sr_topic r) (queue_length r)
                    (mkSendState (forced_send (sr_state r)) false)
                    (sr_queue r)))
           (send_rules s)) s).

Definition clear_pending (r : SendRule) : SendRule :=
  mkSendRule (sr_topic r) (queue_length r)
             (mkSendState (forced_send (sr_state r)) false) (sr_queue r).

(** [blocked_value_injected_received(topic)] *)
Definition blocked_value_injected_received (topic : string) : M unit :=
  modify (fun s => set_send_rules (dict_update topic clear_pending (send_rules s)) s).

(** [blocked_value_rejected_received(topic)] *)
Definition blocked_value_rejected_received (topic : string) : M unit :=
  modify (fun s => set_send_rules (dict_update topic clear_pending (send_rules s)) s).

(** [RemotePair.blocked_value_injected_received(self)] and
    [RemotePair.blocked_value_rejected_received(self)], which the receiver
    calls with the topic of the control message.  The methods take no
    argument besides [self], and their body calls the handler of the
    endpoint without the topic it requires: either way the call raises
    [TypeError] before the endpoint is reached. *)
Definition pair_blocked_value_injected_received (args : list pyobj) : M unit :=
  match args with
  | [] => raise TypeError
  | _ :: _ => raise TypeError
  end.

Definition pair_blocked_value_rejected_received (args : list pyobj) : M unit :=
  match args with
  | [] => raise TypeError
  | _ :: _ => raise TypeError
  end.

(** [RemotePair._change_state_from_up] *)
Definition pair_change_state_from_up : M unit :=
  emit OutReconnect;; reset_pending_values.

(** [RemotePair.observe_state_change] *)
Definition pair_observe_state_change : M unit :=
  p ← gets transceiver;
  let curr_state := remote_state (tracker p) in
  if decide (oldState p <> curr_state) then
    (if decide (oldState p = STATE_UP)
     then pair_change_state_from_up else ret tt);;
    modify (fun s =>
      set_transceiver (mkPair (tracker (transceiver s))
                              (pong_queue (transceiver s)) curr_state) s)
  else ret tt.

Section WithHash.
Variable hash : string -> Z.

(** [Component.set_value] on the value store of the component *)
Definition comp_set_value (topic : string) (value : pyobj) (now : Z) : M unit :=
  fun s =>
    let '(vs, w, _, r) := VStore.set_value hash topic value now (vstore s) (world s) in
    (set_store vs w s, [], r).

(** [value_received(topic, value)] *)
Definition value_received (topic : string) (value : pyobj) (now : Z)
  : M string :=
  ini ← gets initialized;
  if negb ini then ret "REJECTED"%string
  else
    rules ← gets receive_rules;
    match dict_get topic rules with
    | None => ret "REJECTED"%string
    | Some rec_rule =>
        if negb (is_none (pending_value rec_rule)) then ret "REJECTED"%string
        else comp_set_value topic value now;; ret "INJECTED"%string
    end.

End WithHash.

(** The queue of a send rule, read from the heap. *)
Definition rule_queue (rule : SendRule) (s : Service)
  : option VQueue.ValueQueue :=
  match sr_queue rule with
  | Some addr =>
      match w_receivers (world s) !! addr with
      | Some (RValueQueue q) => Some q
      | _ => None
      end
  | None => None
  end.

(** [queue.pop()] on the queue at [addr] *)
Definition queue_pop (addr : nat) : M unit := fun s =>
  match w_receivers (world s) !! addr with
  | Some (RValueQueue q) =>
      let '(q', r) := VQueue.pop q in
      (set_store (vstore s)
                 (mkWorld (w_events (world s))
                          (<[addr := RValueQueue q']> (w_receivers (world s)))) s,
       [],
       match r with
       | Ok _ => Ok tt
       | Raise e => Raise e
       end)
  | _ => (s, [], Raise AttributeError)
  end.

Definition set_rule_state (key : string) (st : SendState) : M unit :=
  modify (fun s =>
    set_send_rules
      (dict_update key
         (fun r => mkSendRule (sr_topic r) (queue_length r) st (sr_queue r))
         (send_rules s)) s).

Definition acknowledged (result : string) : bool :=
  bool_decide (result = "INJECTED"%string) ||
  bool_decide (result = "RECEIVED"%string) ||
  bool_decide (result = "REJECTED"%string).

(** [_handle_send_single(send_rule)], for the rule stored under [key] *)
Definition _handle_send_single (key : string) : M unit :=
  rules ← gets send_rules;
  match dict_get key rules with
  | None => ret tt
  | Some send_rule =>
      let topic := sr_topic send_rule in
      let state := sr_state send_rule in
      match sr_queue send_rule with
      | None => ret tt
      | Some addr =>
          if send_pending state then ret tt
          else
            oq ← gets (rule_queue send_rule);
            match oq with
            | None => raise AttributeError
            | Some queue =>
                if negb (VQueue.empty queue) then
                  match snd (VQueue.peek queue) with
                  | Raise e => raise e
                  | Ok value =>
                      result ← pair_send_value key topic value;
                      if acknowledged result then
                        queue_pop addr;;
                        set_rule_state key
                          (mkSendState false
                             (bool_decide (result = "RECEIVED"%string)))
                      else ret tt
                  end
                else if forced_send state then
                  value ← gets (fun s => get_value topic (vstore s));
                  oq' ← gets (rule_queue send_rule);
                  match oq' with
                  | None => raise AttributeError
                  | Some queue' =>
                      if negb (VQueue.empty queue') then
                        set_rule_state key (mkSendState false false)
                      else if is_none value then
                        set_rule_state key (mkSendState false false)
                      else
                        result ← pair_send_value key topic value;
                        if decide (result = "RECEIVED"%string) then
                          set_rule_state key (mkSendState false true)
                        else if bool_decide (result = "INJECTED"%string)
                                || bool_decide (result = "REJECTED"%string)
                        then set_rule_state key (mkSendState false false)
                        else ret tt
                  end
                else ret tt
            end
      end
  end.

(** One pass of the [for] loop of [_handle_send] over the rules whose keys
    are [keys]; [more] is [more_values_to_send] so far.  The loop is left
    when the link is not up. *)
Fixpoint send_pass (keys : list string) (more : bool) : M bool :=
  match keys with
  | [] => ret more
  | key :: rest =>
      c ← gets connected;
      if negb c then ret more
      else
        _handle_send_single key;;
        rules ← gets send_rules;
        match dict_get key rules with
        | None => send_pass rest more
        | Some snd_rule =>
            if forced_send (sr_state snd_rule) then send_pass rest true
            else
              oq ← gets (rule_queue snd_rule);
              match oq with
              | None => raise AttributeError
              | Some queue =>
                  send_pass rest (more || negb (VQueue.empty queue))
              end
        end
  end.

(** The [while more_values_to_send] loop of [_handle_send].  The loop has
    no bound in the source: while the link is UP, a rule that is pending
    and has a value waiting or a forced send keeps [more_values_to_send]
    set without changing anything, so the loop spins until another thread
    clears the flag.  The model follows the first
    pass and at most [fuel] passes after it; if the loop wants one more,
    the call has not returned and the handler ends as [Unfinished]. *)
Fixpoint send_loop (fuel : nat) : M unit :=
  keys ← gets (fun s => map fst (send_rules s));
  more ← send_pass keys false;
  if (more : bool) then
    match fuel with
    | O => raise Unfinished
    | S fuel' => send_loop fuel'
    end
  else ret tt.

(** [_handle_send] *)
Definition _handle_send (fuel : nat) : M unit :=
  ini ← gets initialized;
  if negb ini then ret tt else send_loop fuel.

(** [_handle_injected_rejected] *)
Definition _handle_injected_rejected : M unit :=
  ins ← gets inserted_topics;
  for_each ins pair_send_blocked_value_injected;;
  rej ← gets rejected_topics;
  for_each rej pair_send_blocked_value_rejected;;
  modify (set_topics [] []).

(** [_handle_triggers], the trigger handler run by the component thread *)
Definition _handle_triggers (now : Z) (fuel : nat) : M unit :=
  pair_observe_state_change;;
  ini ← gets initialized;
  c ← gets connected;
  (if negb ini && c
   then modify (set_initialized true);; pair_send_request_all
   else ret tt);;
  _handle_send fuel;;
  _handle_injected_rejected;;
  pair_cycle now.

(** *** Runs *)

(** What the threads of the service and its environment do, one handler at
    a time. *)
Inductive Op :=
(** the component thread runs [_handle_triggers]; the peer answers the
    requests made during the run with [answers]; [fuel] bounds the passes
    of the send loop the model follows *)
| OpHandleTriggers (now : Z) (fuel : nat) (answers : list string)
(** the receive thread got a value and calls [value_received] *)
| OpValueReceived (topic : string) (value : pyobj) (now : Z)
| OpPingReceived (freshness : Z)
| OpPongReceived (now freshness : Z)
(** the receive thread got the command [sendAll] *)
| OpRequestAllReceived
(** the receive thread got the command [valueInjected] / [valueRejected]
    and calls the method of the [RemotePair] with the topic *)
| OpCommandValueInjected (topic : string)
| OpCommandValueRejected (topic : string)
(** the handlers of the service for these commands, called with a topic *)
| OpBlockedValueInjected (topic : string)
| OpBlockedValueRejected (topic : string)
(** [RemotePair.receive] returned with a message *)
| OpMessageReceived
(** another component writes the value store *)
| OpStoreSetValue (topic : string) (value : pyobj) (now : Z).

Section Runs.
Variable hash : string -> Z.

Definition step (op : Op) : M unit :=
  match op with
  | OpHandleTriggers now fuel answers =>
      modify (set_replies answers);; _handle_triggers now fuel
  | OpValueReceived topic value now =>
      value_received hash topic value now;; ret tt
  | OpPingReceived f => pair_ping_received f
  | OpPongReceived now f => pair_pong_received now f
  | OpRequestAllReceived => send_all
  | OpCommandValueInjected topic =>
      pair_blocked_value_injected_received [PStr topic]
  | OpCommandValueRejected topic =>
      pair_blocked_value_rejected_received [PStr topic]
  | OpBlockedValueInjected topic => blocked_value_injected_received topic
  | OpBlockedValueRejected topic => blocked_value_rejected_received topic
  | OpMessageReceived => pair_message_received
  | OpStoreSetValue topic value now => comp_set_value hash topic value now
  end.

(** A run: an exception ends the handler that raised it, the other handlers
    go on.  A handler that is [Unfinished] has not returned: the thread
    that runs it is still in its loop, and the run is followed no
    further. *)
Fixpoint run (ops : list Op) (s : Service) : Service * list Out :=
  match ops with
  | [] => (s, [])
  | op :: rest =>
      let '(s1, l1, r) := step op s in
      if unfinished r then (s1, l1)
      else
        let '(s2, l2) := run rest s1 in
        (s2, l1 ++ l2)
  end.

(** every handler of the run returns (with a result or an exception) *)
Fixpoint returns (ops : list Op) (s : Service) : bool :=
  match ops with
  | [] => true
  | op :: rest =>
      let '(s1, _, r) := step op s in
      negb (unfinished r) && returns rest s1
  end.

End Runs.

(** The send rule stored under [key] waits for an acknowledgment. *)
Definition pending (key : string) (s : Service) : Prop :=
  exists rule, dict_get key (send_rules s) = Some rule /\
               send_pending (sr_state rule) = true.

(** No receive rule holds a pending value. *)
Definition no_pending_values (s : Service) : Prop :=
  forall key rule, dict_get key (receive_rules s) = Some rule ->
                   pending_value rule = PNone.

(** *** Invariants of handlers *)

(** [m], started in a state with [P], either emits an output in [E] or ends
    (normally or by raising) in a state with [P] having emitted only outputs
    in [ok]. *)
Definition keeps_at {A} (E ok : Out -> Prop) (P : Service -> Prop)
    (m : M A) (s : Service) : Prop :=
  P s -> Exists E (m s).1.2 \/ (P (m s).1.1 /\ Forall ok (m s).1.2).

Definition keeps {A} (E ok : Out -> Prop) (P : Service -> Prop) (m : M A)
  : Prop :=
  forall s, keeps_at E ok P m s.

(** the outputs that are not a send for the rule [k] *)
Definition not_send (k : string) (o : Out) : Prop :=
  forall topic value, o <> OutSendValue k topic value.

Definition is_reset (o : Out) : Prop := o = OutReset.

(** the handlers of the service that clear the flag of rule [k] *)
Definition clears (k : string) (op : Op) : Prop :=
  op = OpBlockedValueInjected k \/ op = OpBlockedValueRejected k.

(** *** A run of the bridge *)

Definition hash0 : string -> Z := fun _ => 0.

(** A service with the send rule "t" and the receive rule "r", configured;
    the queue of the send rule is at address 0. *)
Definition configured : Service :=
  ((add_send_rule "t" None 1;; add_receive_rule "r" None;;
    configure_rule "t" 0 0 1)
     (init VStore.init (mkWorld ∅ ∅) 7)).1.1.

Definition value1 : pyobj := PValue 41 "T" (PList [PInt 1]) None.

Definition value2 : pyobj := PValue 42 "T" (PList [PInt 2]) None.

(** The link comes up, the first value of topic "t" is sent and the peer
    answers ["RECEIVED"]. *)
Definition until_received : list Op :=
  [OpHandleTriggers 200000 5 [EmptyString];
   OpPongReceived 900000 8;
   OpStoreSetValue "t" value1 950000;
   OpHandleTriggers 1000000 5 [EmptyString; "RECEIVED"%string]].

Definition waiting : Service := (run hash0 until_received configured).1.

(** The peer falls silent and the tracker gives up at 7.5 s; a ping of the
    peer brings it back to UNSURE, the next trigger run sees that UP was
    left, and after the next pong a new value is written and sent.  No
    [valueInjected] or [valueRejected] is received in between. *)
Definition reconnect : list Op :=
  [OpHandleTriggers 4000000 5 [EmptyString];
   OpHandleTriggers 7500000 5 [EmptyString];
   OpMessageReceived;
   OpHandleTriggers 7600000 5 [EmptyString];
   OpPongReceived 7700000 11;
   OpStoreSetValue "t" value2 7750000;
   OpHandleTriggers 7800000 5 ["INJECTED"%string]].

Definition is_control (op : Op) : Prop :=
  match op with
  | OpCommandValueInjected _ | OpCommandValueRejected _
  | OpBlockedValueInjected _ | OpBlockedValueRejected _ => True
  | _ => False
  end.

(** *** Vocabulary of further properties *)

(** an output that is not a call of [send_value] *)
Definition not_a_send (o : Out) : Prop :=
  match o with
  | OutSendValue _ _ _ => False
  | _ => True
  end.

(** the remote topic a rule is stored under *)
Definition rule_key (topic_local : string) (topic_remote : option string)
  : string :=
  match topic_remote with
  | Some t => t
  | None => topic_local
  end.

(** [configured] after a component wrote [value1] on topic "t": the value
    waits in the queue of the send rule. *)
Definition loaded : Service :=
  (run hash0 [OpStoreSetValue "t" value1 950000] configured).1.

(** an output that is not the request for all values *)
Definition not_request (o : Out) : Prop := o <> OutRequestAll.

(** an output that is neither the request for all values nor a value *)
Definition quiet (o : Out) : Prop := not_request o /\ not_a_send o.

(** Outputs that hold the request for all values once, and no value
    before it. *)
Definition opens_with_request (out : list Out) : Prop :=
  exists pre post,
    out = pre ++ OutRequestAll :: post /\
    Forall quiet pre /\ Forall not_request post.

(** The link is up, and the value written to topic "t" was sent and
    injected by the peer: the store holds it, the queue of the rule is
    empty and the rule is not pending.  The peer answers the next request
    with ["RECEIVED"]. *)
Definition delivered : Service :=
  set_replies ["RECEIVED"%string]
    (run hash0 [OpHandleTriggers 200000 5 [EmptyString];
                OpPongReceived 900000 8;
                OpStoreSetValue "t" value1 950000;
                OpHandleTriggers 1000000 5 [EmptyString; "INJECTED"%string]]
         configured).1.

(** [waiting] after a component wrote [value2] on topic "t": the rule is
    pending, the link is UP and a value waits in the queue. *)
Definition blocked : Service :=
  (run hash0 [OpStoreSetValue "t" value2 1100000] waiting).1.

End Remote.

(** ** The object encoding  (msgpack, as [packb] and [Unpacker] of the
    Python binding handle the objects of [pyobj])

    [msgpack] is a library the repository imports; its byte format is fixed
    by the msgpack specification.  The model follows version 1.0 of the
    binding, as the repository uses it: [packb] with the [default] hook of
    the recorder, and [Unpacker(file, raw=False)] with its other settings
    at their defaults, so that the key of a map has to be a [str] or a
    [bytes] object ([strict_map_key]), extension data is returned as an
    [ExtType] and a timestamp as a [Timestamp].  (The bridge compares what
    [unpackb(result)] returns with [str] objects, which are returned from
    version 1.0 on.)  Not modelled: the limits of the binding on nesting
    depth and buffer size, and the check that a string is valid UTF-8. *)

Module MsgPack.
Import Py.

Definition bytes := list byte.

Definition byte_of_Z (z : Z) : byte :=
  match Byte.of_N (Z.to_N (z mod 256)) with
  | Some b => b
  | None => x00
  end.

Definition Z_of_byte (b : byte) : Z := Z.of_N (Byte.to_N b).

(** [z] as [n] bytes, most significant first *)
Fixpoint be_bytes (n : nat) (z : Z) : bytes :=
  match n with
  | O => []
  | S n' => byte_of_Z (z / 256 ^ Z.of_nat n') :: be_bytes n' z
  end.

(** the number a byte string denotes, most significant byte first *)
Definition be_value (bs : bytes) : Z :=
  fold_left (fun acc b => acc * 256 + Z_of_byte b) bs 0.

(** *** Packing *)

Definition pack_int (z : Z) : result bytes :=
  if (0 <=? z) && (z <? 128) then Ok [byte_of_Z z]
  else if (-32 <=? z) && (z <? 0) then Ok [byte_of_Z (z + 256)]
  else if (128 <=? z) && (z <? 2 ^ 8) then Ok (xcc :: be_bytes 1 z)
  else if (- 2 ^ 7 <=? z) && (z <? 0) then Ok (xd0 :: be_bytes 1 (z + 2 ^ 8))
  else if (2 ^ 8 <=? z) && (z <? 2 ^ 16) then Ok (xcd :: be_bytes 2 z)
  else if (- 2 ^ 15 <=? z) && (z <? 0) then Ok (xd1 :: be_bytes 2 (z + 2 ^ 16))
  else if (2 ^ 16 <=? z) && (z <? 2 ^ 32) then Ok (xce :: be_bytes 4 z)
  else if (- 2 ^ 31 <=? z) && (z <? 0) then Ok (xd2 :: be_bytes 4 (z + 2 ^ 32))
  else if (2 ^ 32 <=? z) && (z <? 2 ^ 64) then Ok (xcf :: be_bytes 8 z)
  else if (- 2 ^ 63 <=? z) && (z <? 0) then Ok (xd3 :: be_bytes 8 (z + 2 ^ 64))
  else Raise OverflowError.

Definition pack_str (data : bytes) : result bytes :=
  let n := Z.of_nat (length data) in
  if n <? 32 then Ok (byte_of_Z (160 + n) :: data)
  else if n <? 2 ^ 8 then Ok (xd9 :: be_bytes 1 n ++ data)
  else if n <? 2 ^ 16 then Ok (xda :: be_bytes 2 n ++ data)
  else if n <? 2 ^ 32 then Ok (xdb :: be_bytes 4 n ++ data)
  else Raise ValueError.

Definition pack_bin (data : bytes) : result bytes :=
  let n := Z.of_nat (length data) in
  if n <? 2 ^ 8 then Ok (xc4 :: be_bytes 1 n ++ data)
  else if n <? 2 ^ 16 then Ok (xc5 :: be_bytes 2 n ++ data)
  else if n <? 2 ^ 32 then Ok (xc6 :: be_bytes 4 n ++ data)
  else Raise ValueError.

Definition pack_array_header (len : nat) : result bytes :=
  let n := Z.of_nat len in
  if n <? 16 then Ok [byte_of_Z (144 + n)]
  else if n <? 2 ^ 16 then Ok (xdc :: be_bytes 2 n)
  else if n <? 2 ^ 32 then Ok (xdd :: be_bytes 4 n)
  else Raise ValueError.

Definition pack_map_header (len : nat) : result bytes :=
  let n := Z.of_nat len in
  if n <? 16 then Ok [byte_of_Z (128 + n)]
  else if n <? 2 ^ 16 then Ok (xde :: be_bytes 2 n)
  else if n <? 2 ^ 32 then Ok (xdf :: be_bytes 4 n)
  else Raise ValueError.

(** extension data with the type [code]: the header, the type byte, the
    data *)
Definition pack_ext (code : Z) (data : bytes) : result bytes :=
  let n := Z.of_nat (length data) in
  let type := byte_of_Z code in
  if n =? 1 then Ok (xd4 :: type :: data)
  else if n =? 2 then Ok (xd5 :: type :: data)
  else if n =? 4 then Ok (xd6 :: type :: data)
  else if n =? 8 then Ok (xd7 :: type :: data)
  else if n =? 16 then Ok (xd8 :: type :: data)
  else if n <? 2 ^ 8 then Ok (xc7 :: be_bytes 1 n ++ type :: data)
  else if n <? 2 ^ 16 then Ok (xc8 :: be_bytes 2 n ++ type :: data)
  else if n <? 2 ^ 32 then Ok (xc9 :: be_bytes 4 n ++ type :: data)
  else Raise ValueError.

(** A [Timestamp]: extension type -1 with 4, 8 or 12 bytes of data.  The
    constructor of [Timestamp] admits no nanoseconds outside the range
    tested first; the seconds have to fit a signed 64-bit number. *)
Definition pack_timestamp (seconds nanoseconds : Z) : result bytes :=
  if negb ((0 <=? nanoseconds) && (nanoseconds <? 10 ^ 9))
  then Raise ValueError
  else if negb ((- 2 ^ 63 <=? seconds) && (seconds <? 2 ^ 63))
  then Raise OverflowError
  else if Z.shiftr seconds 34 =? 0 then
    let data64 := Z.lor (Z.shiftl nanoseconds 34) seconds in
    if Z.land data64 (2 ^ 64 - 2 ^ 32) =? 0
    then Ok (xd6 :: xff :: be_bytes 4 data64)
    else Ok (xd7 :: xff :: be_bytes 8 data64)
  else Ok (xc7 :: x0c :: xff :: be_bytes 4 nanoseconds
           ++ be_bytes 8 (seconds mod 2 ^ 64)).

(** whether the packer has to call [default] for the object *)
Definition needs_default (o : pyobj) : bool :=
  match o with
  | PEnum _ | PValue _ _ _ _ => true
  | _ => false
  end.

(** [msgpack.packb(o, default=encode_serializable)], where
    [encode_serializable] (value_recorder.py, zmq_msgpack_comm.py) replaces
    a [Value] by [o.serialize()[0]] and an enum member by [o.value].  The
    packer calls [default] once for an object: what [default] returns has
    to be an object the packer knows.  A tuple is packed as a list.  The
    constructor of [ExtType] admits the codes 0 to 127. *)
Fixpoint pack (o : pyobj) : result bytes :=
  match o with
  | PNone => Ok [xc0]
  | PBool false => Ok [xc2]
  | PBool true => Ok [xc3]
  | PInt z => pack_int z
  | PFloat b7 b6 b5 b4 b3 b2 b1 b0 => Ok [xcb; b7; b6; b5; b4; b3; b2; b1; b0]
  | PStr s => pack_str (list_byte_of_string s)
  | PBytes bs => pack_bin bs
  | PList l | PTuple l =>
      header ← pack_array_header (length l);
      body ← (fix pack_all (l : list pyobj) : result bytes :=
                match l with
                | [] => Ok []
                | x :: rest =>
                    bx ← pack x; br ← pack_all rest; Ok (bx ++ br)
                end) l;
      Ok (header ++ body)
  | PDict items =>
      header ← pack_map_header (length items);
      body ← (fix pack_items (l : list (pyobj * pyobj)) : result bytes :=
                match l with
                | [] => Ok []
                | (k, v) :: rest =>
                    bk ← pack k; bv ← pack v; br ← pack_items rest;
                    Ok (bk ++ bv ++ br)
                end) items;
      Ok (header ++ body)
  | PExt code data =>
      if (0 <=? code) && (code <? 128) then pack_ext code data
      else Raise ValueError
  | PTimestamp seconds nanoseconds => pack_timestamp seconds nanoseconds
  | PEnum value =>
      if needs_default value then Raise TypeError else pack value
  | PValue _ _ fields _ =>
      if needs_default fields then Raise TypeError else pack fields
  end.

(** The test helper [fully_serialize_value] (test_value_recorder.py). *)
Fixpoint fully_serialize (o : pyobj) : pyobj :=
  match o with
  | PList l => PList (map fully_serialize l)
  | PValue _ _ fields _ => fully_serialize fields
  | _ => o
  end.

(** The object that is packed for [o]: the value of an enum member, the
    field list of a [Value], a list for a tuple, and so on inside lists and
    dicts. *)
Fixpoint packed_form (o : pyobj) : pyobj :=
  match o with
  | PList l | PTuple l => PList (map packed_form l)
  | PDict items =>
      PDict (map (fun kv => (packed_form kv.1, packed_form kv.2)) items)
  | PEnum value => packed_form value
  | PValue _ _ fields _ => packed_form fields
  | _ => o
  end.

(** an object made of lists, [Value]s and scalars: no tuple, dict or enum
    member in it *)
Fixpoint plain (o : pyobj) : bool :=
  match o with
  | PList l => forallb plain l
  | PValue _ _ fields _ => plain fields
  | PTuple _ | PDict _ | PEnum _ => false
  | _ => true
  end.

(** *** Unpacking *)

(** What [Unpacker.unpack()] does on a byte stream: an object and the rest
    of the stream, the exception [OutOfData], or another exception. *)
Inductive unpacked (A : Type) :=
| Unpacked (a : A) (rest : bytes)
| OutOfData
| UnpackError (e : exn).
Arguments Unpacked {A} a rest.
Arguments OutOfData {A}.
Arguments UnpackError {A} e.

(** [n] bytes of the stream *)
Definition read_bytes (n : Z) (bs : bytes) : unpacked bytes :=
  if Z.of_nat (length bs) <? n then OutOfData
  else Unpacked (take (Z.to_nat n) bs) (drop (Z.to_nat n) bs).

(** an unsigned big-endian number of [n] bytes *)
Definition read_uint (n : Z) (bs : bytes) : unpacked Z :=
  match read_bytes n bs with
  | Unpacked d rest => Unpacked (be_value d) rest
  | OutOfData => OutOfData
  | UnpackError e => UnpackError e
  end.

(** the two's complement number of [n] bytes that the unsigned [v] is *)
Definition signed (n : Z) (v : Z) : Z :=
  if v <? 2 ^ (8 * n - 1) then v else v - 2 ^ (8 * n).

(** a two's complement big-endian number of [n] bytes *)
Definition read_int (n : Z) (bs : bytes) : unpacked Z :=
  match read_uint n bs with
  | Unpacked v rest => Unpacked (signed n v) rest
  | OutOfData => OutOfData
  | UnpackError e => UnpackError e
  end.

Definition read_str (n : Z) (bs : bytes) : unpacked pyobj :=
  match read_bytes n bs with
  | Unpacked d rest => Unpacked (PStr (string_of_list_byte d)) rest
  | OutOfData => OutOfData
  | UnpackError e => UnpackError e
  end.

Definition read_bin (n : Z) (bs : bytes) : unpacked pyobj :=
  match read_bytes n bs with
  | Unpacked d rest => Unpacked (PBytes d) rest
  | OutOfData => OutOfData
  | UnpackError e => UnpackError e
  end.

Definition read_float (bs : bytes) : unpacked pyobj :=
  match bs with
  | b7 :: b6 :: b5 :: b4 :: b3 :: b2 :: b1 :: b0 :: rest =>
      Unpacked (PFloat b7 b6 b5 b4 b3 b2 b1 b0) rest
  | _ => OutOfData
  end.

(** The binary64 number a binary32 number is, both as bit patterns: the
    exponent is rebiased, a subnormal number becomes a normal one, and a
    NaN keeps its sign and payload and comes out quiet. *)
Definition float64_of_float32 (w : Z) : Z :=
  let sign := Z.shiftr w 31 in
  let e := Z.land (Z.shiftr w 23) 255 in
  let m := Z.land w (2 ^ 23 - 1) in
  Z.shiftl sign 63
  + (if e =? 255 then
       Z.shiftl 2047 52
       + (if m =? 0 then 0 else Z.lor (Z.shiftl m 29) (2 ^ 51))
     else if e =? 0 then
       if m =? 0 then 0
       else
         let k := Z.log2 m in
         Z.shiftl (k + 874) 52 + Z.shiftl (m - 2 ^ k) (52 - k)
     else Z.shiftl (e + 896) 52 + Z.shiftl m 29).

(** a binary32 float: Python holds it as a binary64 number *)
Definition read_float32 (bs : bytes) : unpacked pyobj :=
  match read_uint 4 bs with
  | Unpacked w rest =>
      match be_bytes 8 (float64_of_float32 w) with
      | [b7; b6; b5; b4; b3; b2; b1; b0] =>
          Unpacked (PFloat b7 b6 b5 b4 b3 b2 b1 b0) rest
      | _ => UnpackError ValueError
      end
  | OutOfData => OutOfData
  | UnpackError e => UnpackError e
  end.

(** [Timestamp.from_bytes(data)], followed by the check of the
    constructor *)
Definition timestamp_of (data : bytes) : result pyobj :=
  let checked seconds nanoseconds :=
    if nanoseconds <? 10 ^ 9 then Ok (PTimestamp seconds nanoseconds)
    else Raise ValueError in
  match length data with
  | 4%nat => checked (be_value data) 0
  | 8%nat =>
      let data64 := be_value data in
      checked (Z.land data64 (2 ^ 34 - 1)) (Z.shiftr data64 34)
  | 12%nat =>
      checked (signed 8 (be_value (drop 4 data))) (be_value (take 4 data))
  | _ => Raise ValueError
  end.

(** Extension data of [n] bytes after its type byte: type -1 is a
    timestamp, the types 0 to 127 give an [ExtType], whose constructor
    refuses the other types. *)
Definition read_ext (n : Z) (bs : bytes) : unpacked pyobj :=
  match read_int 1 bs with
  | Unpacked code rest =>
      match read_bytes n rest with
      | Unpacked data rest' =>
          if code =? -1 then
            match timestamp_of data with
            | Ok o => Unpacked o rest'
            | Raise e => UnpackError e
            end
          else if 0 <=? code then Unpacked (PExt code data) rest'
          else UnpackError ValueError
      | OutOfData => OutOfData
      | UnpackError e => UnpackError e
      end
  | OutOfData => OutOfData
  | UnpackError e => UnpackError e
  end.

(** a length prefix of [n] bytes followed by what [k] reads *)
Definition with_length {A} (n : Z) (bs : bytes)
    (k : Z -> bytes -> unpacked A) : unpacked A :=
  match read_uint n bs with
  | Unpacked len rest => k len rest
  | OutOfData => OutOfData
  | UnpackError e => UnpackError e
  end.

(** [n] objects in a row, each read by [un] *)
Fixpoint unpack_seq (un : bytes -> unpacked pyobj) (n : nat) (bs : bytes)
  : unpacked (list pyobj) :=
  match n with
  | O => Unpacked [] bs
  | S n' =>
      match un bs with
      | Unpacked x rest =>
          match unpack_seq un n' rest with
          | Unpacked xs rest' => Unpacked (x :: xs) rest'
          | OutOfData => OutOfData
          | UnpackError e => UnpackError e
          end
      | OutOfData => OutOfData
      | UnpackError e => UnpackError e
      end
  end.

Definition unpack_array (un : bytes -> unpacked pyobj) (n : Z) (bs : bytes)
  : unpacked pyobj :=
  match unpack_seq un (Z.to_nat n) bs with
  | Unpacked xs rest => Unpacked (PList xs) rest
  | OutOfData => OutOfData
  | UnpackError e => UnpackError e
  end.

(** what the unpacker admits as the key of a map *)
Definition is_map_key (o : pyobj) : bool :=
  match o with
  | PStr _ | PBytes _ => true
  | _ => false
  end.

#[global] Instance byte_eq_decision : EqDecision byte := Byte.byte_eq_dec.

(** [k1 == k2] for two such keys *)
Definition key_eqb (k1 k2 : pyobj) : bool :=
  match k1, k2 with
  | PStr s1, PStr s2 => bool_decide (s1 = s2)
  | PBytes b1, PBytes b2 => bool_decide (b1 = b2)
  | _, _ => false
  end.

(** [d[k] = v] on the items of a dict *)
Fixpoint dict_set (k v : pyobj) (items : list (pyobj * pyobj))
  : list (pyobj * pyobj) :=
  match items with
  | [] => [(k, v)]
  | (k', v') :: rest =>
      if key_eqb k' k then (k', v) :: rest
      else (k', v') :: dict_set k v rest
  end.

(** [n] items of a map in a row, put into the dict with the items [d]:
    the key and the value are read, then the key is checked. *)
Fixpoint unpack_items (un : bytes -> unpacked pyobj) (n : nat) (bs : bytes)
    (d : list (pyobj * pyobj)) : unpacked (list (pyobj * pyobj)) :=
  match n with
  | O => Unpacked d bs
  | S n' =>
      match un bs with
      | Unpacked k rest =>
          match un rest with
          | Unpacked v rest' =>
              if is_map_key k then unpack_items un n' rest' (dict_set k v d)
              else UnpackError ValueError
          | OutOfData => OutOfData
          | UnpackError e => UnpackError e
          end
      | OutOfData => OutOfData
      | UnpackError e => UnpackError e
      end
  end.

Definition unpack_map (un : bytes -> unpacked pyobj) (n : Z) (bs : bytes)
  : unpacked pyobj :=
  match unpack_items un (Z.to_nat n) bs [] with
  | Unpacked d rest => Unpacked (PDict d) rest
  | OutOfData => OutOfData
  | UnpackError e => UnpackError e
  end.

(** the integer that [read] reads, as an object *)
Definition as_int_object (read : unpacked Z) : unpacked pyobj :=
  match read with
  | Unpacked v r => Unpacked (PInt v) r
  | OutOfData => OutOfData
  | UnpackError e => UnpackError e
  end.

(** One object off the stream; [fuel] bounds the nesting depth. *)
Fixpoint unpack (fuel : nat) (bs : bytes) : unpacked pyobj :=
  match fuel with
  | O => UnpackError ValueError
  | S fuel' =>
      match bs with
      | [] => OutOfData
      | b :: rest =>
          let t := Z_of_byte b in
          if t <? 128 then Unpacked (PInt t) rest
          else if t <? 144 then unpack_map (unpack fuel') (t - 128) rest
          else if t <? 160 then unpack_array (unpack fuel') (t - 144) rest
          else if t <? 192 then read_str (t - 160) rest
          else if t =? 192 then Unpacked PNone rest
          else if t =? 193 then UnpackError FormatError
          else if t =? 194 then Unpacked (PBool false) rest
          else if t =? 195 then Unpacked (PBool true) rest
          else if t =? 196 then with_length 1 rest read_bin
          else if t =? 197 then with_length 2 rest read_bin
          else if t =? 198 then with_length 4 rest read_bin
          else if t =? 199 then with_length 1 rest read_ext
          else if t =? 200 then with_length 2 rest read_ext
          else if t =? 201 then with_length 4 rest read_ext
          else if t =? 202 then read_float32 rest
          else if t =? 203 then read_float rest
          else if t =? 204 then as_int_object (read_uint 1 rest)
          else if t =? 205 then as_int_object (read_uint 2 rest)
          else if t =? 206 then as_int_object (read_uint 4 rest)
          else if t =? 207 then as_int_object (read_uint 8 rest)
          else if t =? 208 then as_int_object (read_int 1 rest)
          else if t =? 209 then as_int_object (read_int 2 rest)
          else if t =? 210 then as_int_object (read_int 4 rest)
          else if t =? 211 then as_int_object (read_int 8 rest)
          else if t =? 212 then read_ext 1 rest
          else if t =? 213 then read_ext 2 rest
          else if t =? 214 then read_ext 4 rest
          else if t =? 215 then read_ext 8 rest
          else if t =? 216 then read_ext 16 rest
          else if t =? 217 then with_length 1 rest read_str
          else if t =? 218 then with_length 2 rest read_str
          else if t =? 219 then with_length 4 rest read_str
          else if t =? 220 then with_length 2 rest (unpack_array (unpack fuel'))
          else if t =? 221 then with_length 4 rest (unpack_array (unpack fuel'))
          else if t =? 222 then with_length 2 rest (unpack_map (unpack fuel'))
          else if t =? 223 then with_length 4 rest (unpack_map (unpack fuel'))
          else Unpacked (PInt (t - 256)) rest
      end
  end.

(** *** Skipping *)

(** [n] bytes of the stream, passed over *)
Definition skip_bytes (n : Z) (bs : bytes) : unpacked unit :=
  match read_bytes n bs with
  | Unpacked _ rest => Unpacked tt rest
  | OutOfData => OutOfData
  | UnpackError e => UnpackError e
  end.

(** [n] objects in a row, each passed over by [sk] *)
Fixpoint skip_seq (sk : bytes -> unpacked unit) (n : nat) (bs : bytes)
  : unpacked unit :=
  match n with
  | O => Unpacked tt bs
  | S n' =>
      match sk bs with
      | Unpacked _ rest => skip_seq sk n' rest
      | OutOfData => OutOfData
      | UnpackError e => UnpackError e
      end
  end.

(** [Unpacker.skip()]: one object of the stream is passed over.  No object
    is built, so the checks made on building one (the keys of a map, the
    type and the data of an extension) are not made. *)
Fixpoint skip (fuel : nat) (bs : bytes) : unpacked unit :=
  match fuel with
  | O => UnpackError ValueError
  | S fuel' =>
      match bs with
      | [] => OutOfData
      | b :: rest =>
          let t := Z_of_byte b in
          let array n r := skip_seq (skip fuel') (Z.to_nat n) r in
          let map n r := skip_seq (skip fuel') (2 * Z.to_nat n) r in
          let ext n r := skip_bytes (1 + n) r in
          if t <? 128 then Unpacked tt rest
          else if t <? 144 then map (t - 128) rest
          else if t <? 160 then array (t - 144) rest
          else if t <? 192 then skip_bytes (t - 160) rest
          else if t =? 192 then Unpacked tt rest
          else if t =? 193 then UnpackError FormatError
          else if t =? 194 then Unpacked tt rest
          else if t =? 195 then Unpacked tt rest
          else if t =? 196 then with_length 1 rest skip_bytes
          else if t =? 197 then with_length 2 rest skip_bytes
          else if t =? 198 then with_length 4 rest skip_bytes
          else if t =? 199 then with_length 1 rest ext
          else if t =? 200 then with_length 2 rest ext
          else if t =? 201 then with_length 4 rest ext
          else if t =? 202 then skip_bytes 4 rest
          else if t =? 203 then skip_bytes 8 rest
          else if t =? 204 then skip_bytes 1 rest
          else if t =? 205 then skip_bytes 2 rest
          else if t =? 206 then skip_bytes 4 rest
          else if t =? 207 then skip_bytes 8 rest
          else if t =? 208 then skip_bytes 1 rest
          else if t =? 209 then skip_bytes 2 rest
          else if t =? 210 then skip_bytes 4 rest
          else if t =? 211 then skip_bytes 8 rest
          else if t =? 212 then ext 1 rest
          else if t =? 213 then ext 2 rest
          else if t =? 214 then ext 4 rest
          else if t =? 215 then ext 8 rest
          else if t =? 216 then ext 16 rest
          else if t =? 217 then with_length 1 rest skip_bytes
          else if t =? 218 then with_length 2 rest skip_bytes
          else if t =? 219 then with_length 4 rest skip_bytes
          else if t =? 220 then with_length 2 rest array
          else if t =? 221 then with_length 4 rest array
          else if t =? 222 then with_length 2 rest map
          else if t =? 223 then with_length 4 rest map
          else Unpacked tt rest
      end
  end.

(** *** Vocabulary of the round trip *)

(** nesting depth of the arrays and maps of an object, as the unpacker
    meets them *)
Fixpoint depth (o : pyobj) : nat :=
  match o with
  | PList l | PTuple l => S (foldr (fun x d => Nat.max (depth x) d) O l)
  | PDict items =>
      S (foldr (fun kv d => Nat.max (Nat.max (depth kv.1) (depth kv.2)) d)
               O items)
  | PEnum value => depth value
  | PValue _ _ fields _ => depth fields
  | _ => O
  end.

(** the loop inside [pack] that packs the elements of a list *)
Fixpoint pack_all (l : list pyobj) : result bytes :=
  match l with
  | [] => Ok []
  | x :: rest => bx ← pack x; br ← pack_all rest; Ok (bx ++ br)
  end.

(** the loop inside [pack] that packs the items of a dict *)
Fixpoint pack_items (l : list (pyobj * pyobj)) : result bytes :=
  match l with
  | [] => Ok []
  | (k, v) :: rest =>
      bk ← pack k; bv ← pack v; br ← pack_items rest; Ok (bk ++ bv ++ br)
  end.

(** no two of the keys are alike *)
Fixpoint distinct_keys (keys : list pyobj) : bool :=
  match keys with
  | [] => true
  | k :: rest => negb (existsb (key_eqb k) rest) && distinct_keys rest
  end.

(** What the unpacker needs of an object to build what was packed for it:
    in every dict of the object, every key is packed as a [str] or a
    [bytes] object, and no two keys are packed alike. *)
Fixpoint readable (o : pyobj) : bool :=
  match o with
  | PList l | PTuple l => forallb readable l
  | PDict items =>
      forallb (fun kv => is_map_key (packed_form kv.1) && readable kv.2)
              items
      && distinct_keys (map (fun kv => packed_form kv.1) items)
  | PEnum value => readable value
  | PValue _ _ fields _ => readable fields
  | _ => true
  end.

(** [rest] is what is left of [bs] after at least [n] bytes *)
Definition left_of (n : nat) (bs rest : bytes) : Prop :=
  (length rest + n <= length bs)%nat.

(** Reading back what was packed for [o] gives the object that was
    packed. *)
Definition reads_back (o : pyobj) : Prop :=
  forall bs rest fuel,
    pack o = Ok bs -> readable o = true -> (depth o < fuel)%nat ->
    unpack fuel (bs ++ rest) = Unpacked (packed_form o) rest.

(** the reader [sk] passes over what [un] reads *)
Definition passes_over (un : bytes -> unpacked pyobj)
    (sk : bytes -> unpacked unit) : Prop :=
  forall bs o rest, un bs = Unpacked o rest -> sk bs = Unpacked tt rest.

(** the reader [sk] runs out of data where [un] does *)
Definition ends_with (un : bytes -> unpacked pyobj)
    (sk : bytes -> unpacked unit) : Prop :=
  forall bs, un bs = OutOfData -> sk bs = OutOfData.

End MsgPack.

(** ** ValueRecorder  (value_recorder.py, lines 229-552)

    The recorder holds the write queue that [start()] registers at the value
    store as an all-topic receiver; values arrive through
    [RecQueue.receive].  [zlib] is a library the repository imports: its
    two functions are parameters.  Of the statistics of the status monitor
    the integer counters are modelled; the latencies and the rates of the
    published status value are floating-point numbers and are left out. *)

Module Recorder.
Import Py MsgPack.

Definition RECORDER_STATUS_TOPIC : string := "/mcf/recorder/status".
Definition MAX_DROP_COUNT : Z := 2 ^ 32.
Definition MAX_QUEUE_SIZE_LIMIT : Z := 2 ^ 32.

Record StatusMonitor := mkMonitor {
  bytes_written : Z;
  total_queue_size : Z;
  num_writes : Z;
  max_queue_size : Z;
  drop_flag : bool;
  error_flag : bool;
  error_descs : gset string;
  drop_count : Z;
  last_out_time : Z
}.

(** [StatusMonitor(...)] followed by [start()] at time [now] *)
Definition monitor_start (now : Z) : StatusMonitor :=
  mkMonitor 0 0 0 0 false false ∅ 0 now.

(** What the recorder does besides writing its file. *)
Inductive RecOut :=
(** [_output_status] sets the status value on [RECORDER_STATUS_TOPIC] *)
| OutStatus (max_queue_size : Z) (drop_flag error_flag : bool)
(** the error log line for dropped values, with their number *)
| OutDropped (drop_count : Z).

Definition serialize_begin (queue_size : Z) (m : StatusMonitor) : StatusMonitor :=
  mkMonitor (bytes_written m) (total_queue_size m + queue_size)
            (num_writes m + 1)
            (if queue_size >? max_queue_size m then queue_size
             else max_queue_size m)
            (drop_flag m) (error_flag m) (error_descs m) (drop_count m)
            (last_out_time m).

Definition inc_bytes_written (num : Z) (m : StatusMonitor) : StatusMonitor :=
  mkMonitor (bytes_written m + num) (total_queue_size m) (num_writes m)
            (max_queue_size m) (drop_flag m) (error_flag m) (error_descs m)
            (drop_count m) (last_out_time m).

Definition report_write_error (err_msg : string) (m : StatusMonitor)
  : StatusMonitor :=
  mkMonitor (bytes_written m) (total_queue_size m) (num_writes m)
            (max_queue_size m) (drop_flag m) true
            ({[err_msg]} ∪ error_descs m) (drop_count m) (last_out_time m).

(** [report_dropped]: the flag is set, the counter stops at its maximum. *)
Definition report_dropped (m : StatusMonitor) : StatusMonitor :=
  mkMonitor (bytes_written m) (total_queue_size m) (num_writes m)
            (max_queue_size m) true (error_flag m) (error_descs m)
            (if drop_count m <? MAX_DROP_COUNT then drop_count m + 1
             else drop_count m)
            (last_out_time m).

Definition _init_status (m : StatusMonitor) : StatusMonitor :=
  mkMonitor 0 0 0 0 false false ∅ (drop_count m) (last_out_time m).

Definition _output_status (now : Z) (m : StatusMonitor)
  : StatusMonitor * list RecOut :=
  let out := OutStatus (max_queue_size m) (drop_flag m) (error_flag m)
             :: (if drop_flag m then [OutDropped (drop_count m)] else []) in
  let count := if drop_flag m then 0 else drop_count m in
  (_init_status
     (mkMonitor (bytes_written m) (total_queue_size m) (num_writes m)
                (max_queue_size m) (drop_flag m) (error_flag m)
                (error_descs m) count now),
   out).

(** [serialize_end]: more than a second after the last status *)
Definition serialize_end (now : Z) (m : StatusMonitor)
  : StatusMonitor * list RecOut :=
  if now - last_out_time m >? 1000000 then _output_status now m else (m, []).

Record ValueRecorder := mkRecorder {
  queue : RecQueue.Queue;
  file : option bytes;
  status_monitor : StatusMonitor;
  queue_size_limit : Z;
  disabled_topics : gset string;
  enabled_ext_mem_topics : gset string;
  compressed_ext_mem_topics : gset string
}.

(** [ValueRecorder(...)], [start(filename)] at time [now] with the file
    opened for writing *)
Definition started (now : Z) : ValueRecorder :=
  mkRecorder RecQueue.init (Some []) (monitor_start now)
             MAX_QUEUE_SIZE_LIMIT ∅ ∅ ∅.

Definition with_queue (q : RecQueue.Queue) (r : ValueRecorder) :=
  mkRecorder q (file r) (status_monitor r) (queue_size_limit r)
             (disabled_topics r) (enabled_ext_mem_topics r)
             (compressed_ext_mem_topics r).

Definition with_file (f : option bytes) (m : StatusMonitor)
    (r : ValueRecorder) :=
  mkRecorder (queue r) f m (queue_size_limit r)
             (disabled_topics r) (enabled_ext_mem_topics r)
             (compressed_ext_mem_topics r).

Definition enable_ext_mem_serialization (topic : string) (r : ValueRecorder) :=
  mkRecorder (queue r) (file r) (status_monitor r) (queue_size_limit r)
             (disabled_topics r) ({[topic]} ∪ enabled_ext_mem_topics r)
             (compressed_ext_mem_topics r).

Definition enable_ext_mem_compression (topic : string) (r : ValueRecorder) :=
  mkRecorder (queue r) (file r) (status_monitor r) (queue_size_limit r)
             (disabled_topics r) (enabled_ext_mem_topics r)
             ({[topic]} ∪ compressed_ext_mem_topics r).

Definition set_write_queue_size_limit (limit : Z) (r : ValueRecorder) :=
  mkRecorder (queue r) (file r) (status_monitor r) limit
             (disabled_topics r) (enabled_ext_mem_topics r)
             (compressed_ext_mem_topics r).

Definition disable_serialization (topic : string) (r : ValueRecorder) :=
  mkRecorder (queue r) (file r) (status_monitor r) (queue_size_limit r)
             ({[topic]} ∪ disabled_topics r) (enabled_ext_mem_topics r)
             (compressed_ext_mem_topics r).

(** [int(now.timestamp()) * 1000 + now.microsecond // 1000] for a clock
    reading in microseconds *)
Definition header_time (now : Z) : Z :=
  (now / 1000000) * 1000 + (now mod 1000000) / 1000.

Definition compress_warning (topic : string) : string :=
  ("Could not compress extmem data on " ++ topic
   ++ ". Falling back to non-compressed recording")%string.

(** The four fields of one record, as [_serialize] builds them. *)
Record Packet := mkPacket {
  p_header_bytes : bytes;
  p_value_bytes : bytes;
  p_extmem_header_bytes : bytes;
  p_extmem_bytes : option bytes
}.

Definition packet_bytes (p : Packet) : bytes :=
  p_header_bytes p ++ p_value_bytes p ++ p_extmem_header_bytes p
  ++ match p_extmem_bytes p with
     | Some d => d
     | None => []
     end.

Section WithZlib.
(** [zlib.compress(data)]; [None] stands for [zlib.error] *)
Variable zlib_compress : bytes -> option bytes.

(** The ExtMem part of a record: the declared uncompressed size, the
    present flag, the compressed size and the bytes to write; the monitor
    records a failed compression. *)
Definition extmem_part (topic : string) (extmem : option bytes)
    (extmem_enabled compress_extmem : bool) (m : StatusMonitor)
  : Z * bool * Z * option bytes * StatusMonitor :=
  match extmem with
  | Some data =>
      if extmem_enabled then
        let uncompressed_len := Z.of_nat (length data) in
        if compress_extmem then
          match zlib_compress data with
          | Some compressed =>
              (uncompressed_len, true, Z.of_nat (length compressed),
               Some compressed, m)
          | None =>
              (uncompressed_len, true, 0, Some data,
               report_write_error (compress_warning topic) m)
          end
        else (uncompressed_len, true, 0, Some data, m)
      else (0, false, 0, None, m)
  | None => (0, false, 0, None, m)
  end.

(** The list [data] of [_serialize] without its last entry: the packed
    record header, value and ExtMem header, in the order they are packed. *)
Definition pack_fields (time : Z) (topic tid : string) (vid : Z)
    (fields : pyobj) (size : Z) (present : bool) (size_compressed : Z)
  : result (bytes * bytes * bytes) :=
  h ← pack (PList [PInt time; PStr topic; PStr tid; PInt vid]);
  v ← pack fields;
  mh ← pack (PList [PInt size; PBool present; PInt size_compressed]);
  Ok (h, v, mh).

(** [_serialize(qe)]; [now] is the clock reading.  Returns the recorder,
    what the status monitor publishes, and how the call ended. *)
Definition _serialize (now : Z) (qe : RecQueue.QueueEntry) (r : ValueRecorder)
  : ValueRecorder * list RecOut * result unit :=
  let topic := RecQueue.qe_topic qe in
  if decide (topic ∈ disabled_topics r) then (r, [], Ok tt)
  else
    let extmem_enabled := bool_decide (topic ∈ enabled_ext_mem_topics r) in
    let compress_extmem := bool_decide (topic ∈ compressed_ext_mem_topics r) in
    match RecQueue.qe_value qe with
    | PValue vid tid fields extmem =>
        match file r with
        | None => (r, [], Ok tt)
        | Some content =>
            let m1 := serialize_begin (RecQueue.size (queue r))
                                      (status_monitor r) in
            let '(size, present, size_compressed, extmem_data, m2) :=
              extmem_part topic extmem extmem_enabled compress_extmem m1 in
            match pack_fields (header_time now) topic tid vid fields
                              size present size_compressed with
            | Ok (h, v, mh) =>
                let p := mkPacket h v mh extmem_data in
                let m3 := inc_bytes_written
                            (Z.of_nat (length (packet_bytes p))) m2 in
                let '(m4, out) := serialize_end now m3 in
                (with_file (Some (content ++ packet_bytes p)) m4 r, out, Ok tt)
            | Raise e => (with_file (file r) m2 r, [], Raise e)
            end
        end
    | _ => (r, [], Ok tt)
    end.

(** What one turn of the inner loop of [write_thread] did with the entry
    it popped. *)
Inductive Decision :=
| Serialized
| Dropped
| QueueEmpty.

(** One turn of the inner loop of [write_thread]: [pop], then
    [_serialize] or [report_dropped], unless the popped entry has no
    value. *)
Definition write_turn (now : Z) (r : ValueRecorder)
  : ValueRecorder * list RecOut * result Decision :=
  match RecQueue.pop (queue r) with
  | (q, Ok (qe, queue_size)) =>
      let r1 := with_queue q r in
      if is_none (RecQueue.qe_value qe) then (r1, [], Ok QueueEmpty)
      else if (queue_size <? queue_size_limit r1)
              || bool_decide (RecQueue.qe_topic qe = RECORDER_STATUS_TOPIC)
      then
        let '(r2, out, res) := _serialize now qe r1 in
        (r2, out, match res with
                  | Ok _ => Ok Serialized
                  | Raise e => Raise e
                  end)
      else
        (with_file (file r1) (report_dropped (status_monitor r1)) r1,
         [], Ok Dropped)
  | (q, Raise e) => (with_queue q r, [], Raise e)
  end.

(** The inner loop: turns at the given clock readings until the queue is
    found empty or a turn raises. *)
Fixpoint write_turns (nows : list Z) (r : ValueRecorder)
  : ValueRecorder * list RecOut * list Decision :=
  match nows with
  | [] => (r, [], [])
  | now :: rest =>
      match write_turn now r with
      | (r1, out, Ok QueueEmpty) => (r1, out, [])
      | (r1, out, Ok d) =>
          let '(r2, out2, ds) := write_turns rest r1 in
          (r2, out ++ out2, d :: ds)
      | (r1, out, Raise _) => (r1, out, [])
      end
  end.

(** [_serialize] for a list of entries with their clock readings, as long
    as no call raises. *)
Fixpoint serialize_all (entries : list (Z * RecQueue.QueueEntry))
    (r : ValueRecorder) : ValueRecorder * result unit :=
  match entries with
  | [] => (r, Ok tt)
  | (now, qe) :: rest =>
      match _serialize now qe r with
      | (r1, _, Ok _) => serialize_all rest r1
      | (r1, _, Raise e) => (r1, Raise e)
      end
  end.

End WithZlib.

(** *** A sample recorder *)

(** a stand-in for [zlib.compress] that never fails and never returns
    empty data *)
Definition toy_compress (d : bytes) : option bytes := Some (x78 :: d).

Definition status_value : pyobj :=
  PValue 7 "mcf::RecorderStatus" (PList [PInt 0]) None.

Definition point_value : pyobj :=
  PValue 8 "base::Point" (PList [PInt 1; PInt 2]) None.

Definition hash0 (s : string) : Z := Z.of_nat (String.length s).

(** a recorder whose limit is one, with three entries waiting *)
Definition crowded : ValueRecorder :=
  with_queue
    (RecQueue.receive hash0 "pt" point_value 3
       (RecQueue.receive hash0 RECORDER_STATUS_TOPIC status_value 2
          (RecQueue.receive hash0 "pt" point_value 1 RecQueue.init)))
    (set_write_queue_size_limit 1 (started 0)).

(** *** The backlog seen by the write loop *)

(** the topic under which [pop] hands on a queued value *)
Definition topic_of (q : RecQueue.Queue) (qv : RecQueue.QueueValue) : string :=
  match RecQueue.topic_id_map q !! RecQueue.qv_topic_id qv with
  | Some topic => topic
  | None => EmptyString
  end.

(** What the write loop does with the entry at position [i] of a backlog
    of [n] entries when nothing arrives meanwhile: the test of
    [write_thread] on the number [n - (i + 1)] of entries behind it. *)
Definition expected_decision (limit : Z) (n i : nat) (topic : string)
  : Decision :=
  if (Z.of_nat (n - S i) <? limit)
     || bool_decide (topic = RECORDER_STATUS_TOPIC)
  then Serialized else Dropped.

(** *** Runs of a started recorder *)

(** What reaches a started recorder: the values the value store hands to
    its queue ([_output_status] publishes the status through the value
    store, so the recorder receives its own status values), and the turns
    of the write thread. *)
Inductive RecorderOp :=
| RReceive (topic : string) (value : pyobj) (now : Z)
| RTurn (now : Z).

(** A run; it ends when a turn raises, which ends the write thread. *)
Fixpoint recorder_run (hash : string -> Z)
    (zlib_compress : bytes -> option bytes) (ops : list RecorderOp)
    (r : ValueRecorder) : ValueRecorder * list RecOut :=
  match ops with
  | [] => (r, [])
  | RReceive topic value now :: rest =>
      recorder_run hash zlib_compress rest
        (with_queue (RecQueue.receive hash topic value now (queue r)) r)
  | RTurn now :: rest =>
      match write_turn zlib_compress now r with
      | (r1, out, Ok _) =>
          let '(r2, out2) := recorder_run hash zlib_compress rest r1 in
          (r2, out ++ out2)
      | (r1, out, Raise _) => (r1, out)
      end
  end.

(** [crowded] after two turns of the write thread: the first entry was
    dropped, the status value is in the file, the last entry waits. *)
Definition half_written : ValueRecorder :=
  (recorder_run hash0 toy_compress [RTurn 9; RTurn 10] crowded).1.

End Recorder.

(** ** RecordReader  (mcf/record_reader.py) *)

Module Reader.
Import Py MsgPack.

(** [RecordReader.Record] *)
Record FileRecord := mkFileRecord {
  timestamp : pyobj;
  topic : pyobj;
  typeid : pyobj;
  valueid : pyobj;
  value : pyobj;
  value_size : Z;
  extmem_size : pyobj;
  extmem_index : Z;
  extmem_present : pyobj;
  extmem_size_compressed : pyobj
}.

(** whether the byte goes on with the character the bytes before it
    began *)
Definition is_continuation (b : byte) : bool :=
  (128 <=? Z_of_byte b) && (Z_of_byte b <? 192).

(** the continuation bytes that [bs] begins with, and the characters after
    them, each with the bytes of its UTF-8 encoding *)
Fixpoint utf8_split (bs : bytes) : bytes * list bytes :=
  match bs with
  | [] => ([], [])
  | b :: rest =>
      let '(continuation, chars) := utf8_split rest in
      if is_continuation b then (b :: continuation, chars)
      else ([], (b :: continuation) :: chars)
  end.

(** the characters of a [str] *)
Definition chars (s : string) : list bytes :=
  (utf8_split (list_byte_of_string s)).2.

(** [x == z] for a float [x], given by its bits, and an integer [z]:
    Python compares the two numbers exactly. *)
Definition float_equals_int (bits z : Z) : bool :=
  let e := Z.land (Z.shiftr bits 52) 2047 in
  let m := Z.land bits (2 ^ 52 - 1) in
  if e =? 2047 then false
  else if e =? 0 then (m =? 0) && (z =? 0)
  else
    let significand :=
      (if Z.testbit bits 63 then -1 else 1) * (2 ^ 52 + m) in
    if 1075 <=? e then significand * 2 ^ (e - 1075) =? z
    else significand =? z * 2 ^ (1075 - e).

(** [k == i] for a key [k] of a dict and an integer [i].  A [str] or
    [bytes] key, the only keys of a dict that the unpacker builds, equals no
    integer.  Keys that are enum members or [Value]s do not come out of the
    unpacker and are taken not to equal an integer. *)
Definition key_equals_int (k : pyobj) (i : Z) : bool :=
  match k with
  | PInt z => z =? i
  | PBool b => (if b then 1 else 0) =? i
  | PFloat b7 b6 b5 b4 b3 b2 b1 b0 =>
      float_equals_int (be_value [b7; b6; b5; b4; b3; b2; b1; b0]) i
  | _ => false
  end.

(** [o[i]] for one of the indices 0, 1, 2, ... that the reader uses: an
    element of a list or a tuple, a character of a [str], a byte of a
    [bytes] object as an integer, the value a dict holds for the key [i],
    the code or the data of an [ExtType] (a named tuple).  The other
    objects have no subscripts. *)
Definition subscript (o : pyobj) (i : nat) : result pyobj :=
  match o with
  | PList l | PTuple l =>
      match nth_error l i with
      | Some x => Ok x
      | None => Raise IndexError
      end
  | PStr s =>
      match nth_error (chars s) i with
      | Some c => Ok (PStr (string_of_list_byte c))
      | None => Raise IndexError
      end
  | PBytes bs =>
      match nth_error bs i with
      | Some b => Ok (PInt (Z_of_byte b))
      | None => Raise IndexError
      end
  | PDict items =>
      match List.find (fun kv => key_equals_int kv.1 (Z.of_nat i)) items with
      | Some kv => Ok kv.2
      | None => Raise KeyError
      end
  | PExt code data =>
      match i with
      | 0%nat => Ok (PInt code)
      | 1%nat => Ok (PBytes data)
      | _ => Raise IndexError
      end
  | _ => Raise TypeError
  end.

(** [len(o)] *)
Definition py_len (o : pyobj) : result Z :=
  match o with
  | PList l | PTuple l => Ok (Z.of_nat (length l))
  | PStr s => Ok (Z.of_nat (length (chars s)))
  | PBytes bs => Ok (Z.of_nat (length bs))
  | PDict items => Ok (Z.of_nat (length items))
  | PExt _ _ => Ok 2
  | _ => Raise TypeError
  end.

Definition zero_byte (b : byte) : bool := Z_of_byte b =? 0.

(** [o == 0] *)
Definition equals_zero (o : pyobj) : bool :=
  match o with
  | PInt z => z =? 0
  | PBool b => negb b
  | PFloat b7 b6 b5 b4 b3 b2 b1 b0 =>
      ((Z_of_byte b7 =? 0) || (Z_of_byte b7 =? 128))
      && zero_byte b6 && zero_byte b5 && zero_byte b4 && zero_byte b3
      && zero_byte b2 && zero_byte b1 && zero_byte b0
  | _ => false
  end.

(** the truth value of [o] *)
Definition truthy (o : pyobj) : bool :=
  match o with
  | PNone => false
  | PBool b => b
  | PInt _ | PFloat _ _ _ _ _ _ _ _ => negb (equals_zero o)
  | PStr s => negb (Nat.eqb (String.length s) 0)
  | PBytes bs => negb (Nat.eqb (length bs) 0)
  | PList l | PTuple l => negb (Nat.eqb (length l) 0)
  | PDict items => negb (Nat.eqb (length items) 0)
  | PEnum _ | PValue _ _ _ _ | PExt _ _ | PTimestamp _ _ => true
  end.

(** an object used as an integer ([seek], [bufsize], an operand of [+]
    next to an integer that has to give an integer) *)
Definition as_int (o : pyobj) : result Z :=
  match o with
  | PInt z => Ok z
  | PBool b => Ok (if b then 1 else 0)
  | _ => Raise TypeError
  end.

(** the argument of [file.read]: [None] reads to the end of the file, as
    a negative number does *)
Definition read_count (o : pyobj) : result Z :=
  match o with
  | PNone => Ok (-1)
  | _ => as_int o
  end.

(** How a pass over the file ended. *)
Inductive Ending :=
| Finished
| Failed (e : exn)
| OutOfFuel.

(** [unpacker.unpack()] for the unpacker created at file offset [start]
    that has consumed [tell] bytes: the object and the new [tell]. *)
Definition unpack_next (f : bytes) (start tell : Z) : unpacked pyobj * Z :=
  let stream := drop (Z.to_nat (start + tell)) f in
  match unpack (S (length stream)) stream with
  | Unpacked o rest =>
      (Unpacked o rest,
       tell + Z.of_nat (length stream) - Z.of_nat (length rest))
  | OutOfData => (OutOfData, tell)
  | UnpackError e => (UnpackError e, tell)
  end.

(** [unpacker.skip()] for the unpacker created at file offset [start]
    that has consumed [tell] bytes: the new [tell]. *)
Definition skip_next (f : bytes) (start tell : Z) : unpacked pyobj * Z :=
  let stream := drop (Z.to_nat (start + tell)) f in
  match skip (S (length stream)) stream with
  | Unpacked _ rest =>
      (Unpacked PNone rest,
       tell + Z.of_nat (length stream) - Z.of_nat (length rest))
  | OutOfData => (OutOfData, tell)
  | UnpackError e => (UnpackError e, tell)
  end.

(** The body of the [try] of the loops of [records_generator] and of
    [index], which differ in how they get the value ([read_value]): the
    record, and the unpacker to go on with.  A [seek] to a negative
    position raises [OSError]. *)
Definition read_record_with
    (read_value : bytes -> Z -> Z -> unpacked pyobj * Z)
    (f : bytes) (start tell : Z)
  : unpacked (FileRecord * Z * Z) :=
  match unpack_next f start tell with
  | (Unpacked p_header _, value_start) =>
      match read_value f start value_start with
      | (Unpacked value _, tell1) =>
          let value_size := tell1 - value_start in
          match unpack_next f start tell1 with
          | (Unpacked m_header _, tell2) =>
              let fields :=
                extmem_size ← subscript m_header 0;
                extmem_present ← subscript m_header 1;
                n ← py_len m_header;
                extmem_size_compressed ←
                  (if n >? 2 then subscript m_header 2 else Ok (PInt 0));
                let extmem_start := start + tell2 in
                '(start', tell') ←
                  (if truthy extmem_present then
                     size ← as_int (if equals_zero extmem_size_compressed
                                    then extmem_size
                                    else extmem_size_compressed);
                     if start + tell2 + size <? 0 then Raise OSError
                     else Ok (start + tell2 + size, 0)
                   else Ok (start, tell2));
                timestamp ← subscript p_header 0;
                topic ← subscript p_header 1;
                typeid ← subscript p_header 2;
                valueid ← subscript p_header 3;
                Ok (mkFileRecord timestamp topic typeid valueid value
                                 value_size extmem_size extmem_start
                                 extmem_present extmem_size_compressed,
                    start', tell') in
              match fields with
              | Ok x => Unpacked x []
              | Raise e => UnpackError e
              end
          | (OutOfData, _) => OutOfData
          | (UnpackError e, _) => UnpackError e
          end
      | (OutOfData, _) => OutOfData
      | (UnpackError e, _) => UnpackError e
      end
  | (OutOfData, _) => OutOfData
  | (UnpackError e, _) => UnpackError e
  end.

(** the body of the [try] of the loop of [records_generator] *)
Definition read_record : bytes -> Z -> Z -> unpacked (FileRecord * Z * Z) :=
  read_record_with unpack_next.

(** The [while True] loop of [records_generator(filter)], cut off after
    [fuel] records: the records it yields and how it ended. *)
Fixpoint records_loop (fuel : nat) (filter : option (FileRecord -> bool))
    (f : bytes) (start tell : Z) : list FileRecord * Ending :=
  match fuel with
  | O => ([], OutOfFuel)
  | S fuel' =>
      match read_record f start tell with
      | Unpacked (record, start', tell') _ =>
          let '(records, ending) := records_loop fuel' filter f start' tell' in
          let keep := match filter with
                      | None => true
                      | Some p => p record
                      end in
          (if keep then record :: records else records, ending)
      | OutOfData => ([], Finished)
      | UnpackError e => ([], Failed e)
      end
  end.

(** [records_generator(filter)] on a file with content [f] *)
Definition records_generator (fuel : nat) (filter : option (FileRecord -> bool))
    (f : bytes) : list FileRecord * Ending :=
  records_loop fuel filter f 0 0.

(** [file.read(n)] at offset [pos] *)
Definition file_read (f : bytes) (pos n : Z) : bytes :=
  if n <? 0 then drop (Z.to_nat pos) f
  else take (Z.to_nat n) (drop (Z.to_nat pos) f).

Section WithZlib.
(** [zlib.decompress(data, bufsize=...)] *)
Variable zlib_decompress : bytes -> Z -> result bytes.

(** [get_extmem(record)]: the bytes, or [None] *)
Definition get_extmem (f : bytes) (record : FileRecord) : result pyobj :=
  if truthy (extmem_present record) then
    if negb (equals_zero (extmem_size_compressed record)) then
      n ← read_count (extmem_size_compressed record);
      bufsize ← as_int (extmem_size record);
      data ← zlib_decompress (file_read f (extmem_index record) n) bufsize;
      Ok (PBytes data)
    else
      n ← read_count (extmem_size record);
      Ok (PBytes (file_read f (extmem_index record) n))
  else Ok PNone.

End WithZlib.

(** *** [index] and [records]  (record_reader.py, lines 49-149) *)

(** By how many bytes the reader moves on to skip the ExtMem of a
    record. *)
Definition skip_size (record : FileRecord) : result Z :=
  as_int (if equals_zero (extmem_size_compressed record)
          then extmem_size record
          else extmem_size_compressed record).

(** the record has no ExtMem, or the reader skips it forward *)
Definition skips_forward (record : FileRecord) : bool :=
  negb (truthy (extmem_present record))
  || match skip_size record with
     | Ok n => 0 <=? n
     | Raise _ => false
     end.

(** [unpacker.unpack() if unpack_value else unpacker.skip()], which
    returns [None] *)
Definition index_value (unpack_value : bool)
  : bytes -> Z -> Z -> unpacked pyobj * Z :=
  if unpack_value then unpack_next else skip_next.

(** The record [index] shows to its filter when [records_generator] shows
    [record]: the value is there only with [unpack_value]. *)
Definition indexed_record (unpack_value : bool) (record : FileRecord)
  : FileRecord :=
  mkFileRecord (timestamp record) (topic record) (typeid record)
               (valueid record)
               (if unpack_value then value record else PNone)
               (value_size record) (extmem_size record)
               (extmem_index record) (extmem_present record)
               (extmem_size_compressed record).

(** The [while True] loop of [index(filter, unpack_value)], cut off after
    [fuel] records: the offsets put into [_index] and how the loop ended.
    The filter sees the record and its [value_index]. *)
Fixpoint index_loop (fuel : nat) (filter : option (FileRecord -> Z -> bool))
    (unpack_value : bool) (f : bytes) (start tell : Z)
  : list Z * Ending :=
  match fuel with
  | O => ([], OutOfFuel)
  | S fuel' =>
      let idx := start + tell in
      match read_record_with (index_value unpack_value) f start tell with
      | Unpacked (record, start', tell') _ =>
          let '(index, ending) :=
            index_loop fuel' filter unpack_value f start' tell' in
          let keep := match filter with
                      | None => true
                      | Some p => p record (unpack_next f start tell).2
                      end in
          (if keep then idx :: index else index, ending)
      | OutOfData => ([], Finished)
      | UnpackError e => ([], Failed e)
      end
  end.

(** [index(filter, unpack_value)] *)
Definition index (fuel : nat) (filter : option (FileRecord -> Z -> bool))
    (unpack_value : bool) (f : bytes) : list Z * Ending :=
  index_loop fuel filter unpack_value f 0 0.

(** [index_size()] *)
Definition index_size (index : list Z) : Z := Z.of_nat (length index).

(** What a call of [records] gives: a value, an exception of the
    unpacking, or the [OSError] of a [seek] to a negative position. *)
Inductive Read (A : Type) :=
| ReadOk (a : A)
| ReadRaise (e : exn)
| ReadOSError.
Arguments ReadOk {A} a.
Arguments ReadRaise {A} e.
Arguments ReadOSError {A}.

Section WithPosition.
(** Where the file object stands after the unpacker created at offset
    [idx] has unpacked [consumed] bytes: the unpacker reads ahead. *)
Variable position : bytes -> Z -> Z -> Z.

(** The [seek] to the index entry [idx] and the body of the [try] of the
    loop of [records]; [None] stands for [OutOfData]. *)
Definition read_at (f : bytes) (idx : Z) : Read (option FileRecord) :=
  if idx <? 0 then ReadOSError
  else
    match unpack_next f idx 0 with
    | (Unpacked p_header _, value_start) =>
        match unpack_next f idx value_start with
        | (Unpacked value _, tell1) =>
            let value_size := tell1 - value_start in
            match unpack_next f idx tell1 with
            | (Unpacked m_header _, tell2) =>
                let header :=
                  extmem_size ← subscript m_header 0;
                  extmem_present ← subscript m_header 1;
                  n ← py_len m_header;
                  extmem_size_compressed ←
                    (if n >? 2 then subscript m_header 2 else Ok (PInt 0));
                  Ok (extmem_size, extmem_present, extmem_size_compressed) in
                match header with
                | Raise e => ReadRaise e
                | Ok (extmem_size, extmem_present, extmem_size_compressed) =>
                    let extmem_start := idx + tell2 in
                    let skipped :=
                      if truthy extmem_present then
                        match as_int (if equals_zero extmem_size_compressed
                                      then extmem_size
                                      else extmem_size_compressed) with
                        | Raise e => ReadRaise e
                        | Ok size =>
                            if position f idx tell2 + size <? 0
                            then ReadOSError else ReadOk tt
                        end
                      else ReadOk tt in
                    match skipped with
                    | ReadOk _ =>
                        let fields :=
                          timestamp ← subscript p_header 0;
                          topic ← subscript p_header 1;
                          typeid ← subscript p_header 2;
                          valueid ← subscript p_header 3;
                          Ok (mkFileRecord timestamp topic typeid valueid
                                value value_size extmem_size extmem_start
                                extmem_present extmem_size_compressed) in
                        match fields with
                        | Ok record => ReadOk (Some record)
                        | Raise e => ReadRaise e
                        end
                    | ReadRaise e => ReadRaise e
                    | ReadOSError => ReadOSError
                    end
                end
            | (OutOfData, _) => ReadOk None
            | (UnpackError e, _) => ReadRaise e
            end
        | (OutOfData, _) => ReadOk None
        | (UnpackError e, _) => ReadRaise e
        end
    | (OutOfData, _) => ReadOk None
    | (UnpackError e, _) => ReadRaise e
    end.

(** The loop of [records] over the index entries it visits. *)
Fixpoint records_from (f : bytes) (entries : list Z)
  : Read (list FileRecord) :=
  match entries with
  | [] => ReadOk []
  | idx :: rest =>
      match read_at f idx with
      | ReadOk (Some record) =>
          match records_from f rest with
          | ReadOk records => ReadOk (record :: records)
          | ReadRaise e => ReadRaise e
          | ReadOSError => ReadOSError
          end
      | ReadOk None => ReadOk []
      | ReadRaise e => ReadRaise e
      | ReadOSError => ReadOSError
      end
  end.

(** [records(start_idx, end_idx)] with the index [index] *)
Definition records (f : bytes) (index : list Z) (start_idx end_idx : Z)
  : Read (list FileRecord) :=
  if (start_idx <? 0) || (Z.of_nat (length index) <=? start_idx)
     || (end_idx <? start_idx)
  then ReadOk []
  else records_from f (take (Z.to_nat (end_idx - start_idx))
                            (drop (Z.to_nat start_idx) index)).

End WithPosition.

End Reader.

(** ** The record framing, as written and as read *)

Module Framing.
Import Py MsgPack RecQueue Recorder Reader.

(** *** What the reader shows of a record, and what was written *)

(** topic, type name, value id, payload and ExtMem of a record *)
Record View := mkView {
  v_topic : pyobj;
  v_typeid : pyobj;
  v_valueid : pyobj;
  v_value : pyobj;
  v_extmem : result pyobj
}.

(** The record [_serialize] writes for a queue entry, if it writes one:
    nothing for a disabled topic or for an object that is not a [Value];
    the payload as it is packed; the ExtMem bytes only when the value has
    some and the topic is enabled for them. *)
Definition written (r : ValueRecorder) (qe : QueueEntry) : option View :=
  if decide (qe_topic qe ∈ disabled_topics r) then None
  else match qe_value qe with
       | PValue vid tid fields extmem =>
           Some (mkView (PStr (qe_topic qe)) (PStr tid) (PInt vid)
                   (packed_form fields)
                   (Ok (match extmem with
                       | Some data =>
                           if bool_decide
                                (qe_topic qe ∈ enabled_ext_mem_topics r)
                           then PBytes data else PNone
                       | None => PNone
                        end)))
       | _ => None
       end.

(** The payload of the record written for a queue entry, if one is
    written, is [readable]. *)
Definition readable_record (r : ValueRecorder) (qe : QueueEntry) : bool :=
  if decide (qe_topic qe ∈ disabled_topics r) then true
  else match qe_value qe with
       | PValue _ _ fields _ => readable fields
       | _ => true
       end.

(** the recorder settings that [_serialize] reads *)
Definition same_settings (r r' : ValueRecorder) : Prop :=
  disabled_topics r' = disabled_topics r /\
  enabled_ext_mem_topics r' = enabled_ext_mem_topics r /\
  compressed_ext_mem_topics r' = compressed_ext_mem_topics r.

Section WithZlib.
Variable zlib_decompress : bytes -> Z -> result bytes.

(** what [records_generator] and [get_extmem] show of a record *)
Definition view (f : bytes) (record : FileRecord) : View :=
  mkView (topic record) (typeid record) (valueid record) (value record)
         (get_extmem zlib_decompress f record).

End WithZlib.

(** *** A sample recording *)

(** the inverse of [toy_compress] *)
Definition toy_decompress (c : bytes) (bufsize : Z) : result bytes :=
  match c with
  | x78 :: d => if bufsize <? 0 then Raise ValueError else Ok d
  | _ => Raise ValueError
  end.

(** ExtMem is recorded for the topics "img" (compressed) and "raw". *)
Definition sample_recorder : ValueRecorder :=
  enable_ext_mem_compression "img"
    (enable_ext_mem_serialization "img"
       (enable_ext_mem_serialization "raw" (started 0))).

(** Values without ExtMem, with compressed ExtMem, with empty ExtMem, and
    with ExtMem on a topic for which it is not recorded; a value with a
    dict, a tuple, a timestamp and extension data among its fields. *)
Definition sample_entries : list (Z * QueueEntry) :=
  [(1700000000123456,
    mkQueueEntry (Some 5) "pt"
      (PValue 41 "base::Point"
         (PList [PInt 1; PInt (-200); PStr "x"; PEnum (PInt 3)]) None));
   (1700000000223456,
    mkQueueEntry (Some 6) "img"
      (PValue 42 "cam::Image" (PList [PInt 4; PInt 70000])
         (Some [x01; x02; x03])));
   (1700000000323456,
    mkQueueEntry (Some 7) "raw"
      (PValue (2 ^ 63) "cam::Image" (PList []) (Some [])));
   (1700000000423456,
    mkQueueEntry (Some 8) "pt"
      (PValue 44 "cam::Image"
         (PList [PValue 1 "n" (PList [PBool true; PNone]) None])
         (Some [x09])));
   (1700000000523456,
    mkQueueEntry (Some 9) "pt"
      (PValue 45 "base::Named"
         (PList [PDict [(PStr "at", PTuple [PInt 1; PInt 2]);
                        (PBytes [x01], PTimestamp 1700000000 500);
                        (PEnum (PStr "k"), PExt 5 [x0a; x0b; x0c])]])
         None))].

Definition sample_recorded : ValueRecorder :=
  (serialize_all toy_compress sample_entries sample_recorder).1.

Definition sample_file : bytes :=
  match file sample_recorded with
  | Some f => f
  | None => []
  end.

(** A value with a dict that has a tuple as a key: the key is packed as
    an array. *)
Definition keyed_by_tuple : list (Z * QueueEntry) :=
  [(1700000000123456,
    mkQueueEntry (Some 5) "grid"
      (PValue 41 "base::Grid"
         (PList [PDict [(PTuple [PInt 1; PInt 2], PStr "x")]]) None))].

(** A value with a dict that has an integer as a key. *)
Definition keyed_by_int : list (Z * QueueEntry) :=
  [(1700000000123456,
    mkQueueEntry (Some 5) "names"
      (PValue 41 "base::Names" (PList [PDict [(PInt 1, PStr "x")]]) None))].

(** the file after a run of [_serialize] calls into a new recording *)
Definition recording (entries : list (Z * QueueEntry)) : bytes :=
  match file (serialize_all toy_compress entries sample_recorder).1 with
  | Some f => f
  | None => []
  end.

End Framing.

(** * Properties *)

(** ** The heartbeat state machine *)

Module TrackerSpec.
Import Tracker.

Lemma set_state_down t :
  _set_remote_state STATE_DOWN t = with_state STATE_DOWN t.
Proof. reflexivity. Qed.

Lemma set_state_up t :
  _set_remote_state STATE_UP t =
    with_state STATE_UP (with_interval (ping_interval_max t) t).
Proof. reflexivity. Qed.

Lemma set_state_unsure t :
  _set_remote_state STATE_UNSURE t =
    with_state STATE_UNSURE
      (with_last_ping 0 (with_interval (ping_interval_min t) t)).
Proof. reflexivity. Qed.

(** [run_cyclic] unfolded along the state it is entered in. *)
Lemma run_cyclic_unsure now t :
  remote_state t = STATE_UNSURE ->
  run_cyclic now t =
    if decide (now > last_ping_time t + ping_interval t) then
      let t1 := with_interval (2 * ping_interval t)
                  (with_freshness (ping_freshness t + 1)
                     (with_last_ping now t)) in
      (if decide (2 * ping_interval t > ping_interval_max t)
       then with_state STATE_DOWN t1 else t1, [ping_freshness t + 1])
    else (t, []).
Proof.
  intros Hs. unfold run_cyclic. rewrite Hs.
  rewrite (decide_True (P := STATE_UNSURE = STATE_UNSURE)) by reflexivity.
  destruct (decide (now > last_ping_time t + ping_interval t)) as [Hd|Hd].
  - cbn [_send_ping with_last_ping with_freshness with_interval
         ping_interval ping_interval_max ping_freshness].
    destruct (decide (2 * ping_interval t > ping_interval_max t)) as [Hm|Hm].
    + rewrite set_state_down. cbn [with_state remote_state].
      rewrite decide_False by discriminate. reflexivity.
    + rewrite decide_False by (cbn; rewrite Hs; discriminate). reflexivity.
  - rewrite Hs. rewrite decide_False by discriminate. reflexivity.
Qed.

Lemma run_cyclic_down now t :
  remote_state t = STATE_DOWN -> run_cyclic now t = (t, []).
Proof.
  intros Hs. unfold run_cyclic. rewrite Hs.
  rewrite decide_False by discriminate. rewrite Hs.
  rewrite decide_False by discriminate. reflexivity.
Qed.

(** The complete behaviour of a cyclic step in UP. *)
Lemma run_cyclic_up now t :
  remote_state t = STATE_UP ->
  run_cyclic now t =
    if decide (now > last_ping_time t + ping_interval t) then
      let t1 := with_freshness (ping_freshness t + 1) (with_last_ping now t) in
      (if decide (now > last_pong_time t + pong_timeout t)
       then with_state STATE_DOWN t1 else t1, [ping_freshness t + 1])
    else (t, []).
Proof.
  intros Hs. unfold run_cyclic. rewrite Hs.
  rewrite decide_False by discriminate. rewrite Hs.
  rewrite (decide_True (P := STATE_UP = STATE_UP)) by reflexivity.
  destruct (decide (now > last_ping_time t + ping_interval t)); [|reflexivity].
  cbn [_send_ping with_last_ping with_freshness last_pong_time pong_timeout
       ping_freshness app].
  destruct (decide (now > last_pong_time t + pong_timeout t)); reflexivity.
Qed.

Lemma pong_matching_unsure now t :
  remote_state t = STATE_UNSURE ->
  pong_received now (ping_freshness t) t =
    with_last_pong now
      (with_state STATE_UP (with_interval (ping_interval_max t) t)).
Proof.
  intros Hs. unfold pong_received.
  rewrite decide_False by (intros H; apply H; reflexivity).
  rewrite Hs.
  rewrite (decide_True (P := STATE_UNSURE = STATE_UNSURE)) by reflexivity.
  rewrite set_state_up. cbn [with_state remote_state].
  rewrite (decide_True (P := STATE_UP = STATE_UP)) by reflexivity.
  reflexivity.
Qed.

Lemma init_state mn mx pt r :
  remote_state (init mn mx pt r) = STATE_UNSURE /\
  ping_interval (init mn mx pt r) = ping_interval_min (init mn mx pt r).
Proof. split; reflexivity. Qed.

(** A cyclic step in UNSURE that is due sends exactly one ping, carrying the
    incremented nonce, and doubles the interval; it ends in DOWN exactly when
    the doubled interval is above the maximum. *)
Lemma run_cyclic_unsure_due now t :
  remote_state t = STATE_UNSURE ->
  now > last_ping_time t + ping_interval t ->
  snd (run_cyclic now t) = [ping_freshness t + 1] /\
  ping_interval (fst (run_cyclic now t)) = 2 * ping_interval t /\
  ping_interval_max (fst (run_cyclic now t)) = ping_interval_max t /\
  remote_state (fst (run_cyclic now t)) =
    (if decide (2 * ping_interval t > ping_interval_max t)
     then STATE_DOWN else STATE_UNSURE).
Proof.
  intros Hs Hdue. rewrite run_cyclic_unsure by assumption.
  rewrite decide_True by assumption.
  destruct (decide (2 * ping_interval t > ping_interval_max t));
    cbn; auto.
Qed.

Lemma run_cyclic_unsure_idle now t :
  remote_state t = STATE_UNSURE ->
  ~ now > last_ping_time t + ping_interval t ->
  run_cyclic now t = (t, []).
Proof.
  intros Hs Hdue. rewrite run_cyclic_unsure by assumption.
  rewrite decide_False by assumption. reflexivity.
Qed.

(** Progress: with a positive interval and no pong, UNSURE is left for DOWN
    after finitely many due cyclic steps. *)
Lemma unsure_eventually_down (n : nat) : forall t,
  remote_state t = STATE_UNSURE ->
  0 < ping_interval t ->
  ping_interval_max t - ping_interval t < Z.of_nat n ->
  exists nows, remote_state (fst (run_cyclic_at nows t)) = STATE_DOWN.
Proof.
  induction n as [|n IH]; intros t Hs Hpos Hm.
  - exists [last_ping_time t + ping_interval t + 1].
    cbn [run_cyclic_at].
    destruct (run_cyclic_unsure_due (last_ping_time t + ping_interval t + 1) t)
      as (_ & _ & _ & Hst); [assumption|lia|].
    destruct (run_cyclic _ t) as [t1 o1]. cbn [fst snd] in *.
    rewrite Hst. rewrite decide_True by lia. reflexivity.
  - destruct (run_cyclic_unsure_due (last_ping_time t + ping_interval t + 1) t)
      as (_ & Hi & Hmax & Hst); [assumption|lia|].
    destruct (decide (2 * ping_interval t > ping_interval_max t)) as [Hgt|Hle].
    + exists [last_ping_time t + ping_interval t + 1].
      cbn [run_cyclic_at].
      destruct (run_cyclic _ t) as [t1 o1]. cbn [fst snd] in *. exact Hst.
    + destruct (IH (fst (run_cyclic (last_ping_time t + ping_interval t + 1) t)))
        as [nows Hn].
      * exact Hst.
      * rewrite Hi. lia.
      * rewrite Hi, Hmax. lia.
      * exists ((last_ping_time t + ping_interval t + 1) :: nows).
        cbn [run_cyclic_at].
        destruct (run_cyclic _ t) as [t1 o1]. cbn [fst snd] in Hn.
        destruct (run_cyclic_at nows t1) as [t2 o2]. exact Hn.
Qed.

(** C2, as stated, fails: in UP the pong timeout is only looked at by a
    cyclic step that also sends a ping.  At 6.5 s the last pong (0.9 s) is
    older than [pong_timeout] (5 s), yet the cyclic step leaves the state UP
    because the next ping is not due before 7 s. *)
Lemma up_timeout_step_stays_up :
  ~ (forall now t,
       remote_state t = STATE_UP ->
       now > last_pong_time t + pong_timeout t ->
       remote_state (fst (run_cyclic now t)) = STATE_DOWN).
Proof.
  intros H.
  specialize (H 6500000 unanswered_in_up).
  vm_compute in H.
  assert (Hup : STATE_UP = STATE_DOWN) by (apply H; reflexivity).
  discriminate Hup.
Qed.

(** C2 (amended): the heartbeat state machine of [RemoteStatusTracker].
    The tracker starts in UNSURE with interval [ping_interval_min]; a cyclic
    step in UNSURE that sends a ping doubles the interval and ends in DOWN
    exactly when the doubled interval exceeds [ping_interval_max]; a pong
    carrying the nonce of the latest ping moves UNSURE to UP; in UP a cyclic
    step that sends a ping (the ping interval has elapsed) and finds the
    last matching pong older than [pong_timeout] ends in DOWN, and a cyclic
    step in UP whose ping is not yet due changes nothing. *)
Theorem heartbeat_state_machine :
  (forall mn mx pt r,
      remote_state (init mn mx pt r) = STATE_UNSURE /\
      ping_interval (init mn mx pt r) = timedelta_ms mn) /\
  (forall now t,
      remote_state t = STATE_UNSURE ->
      now > last_ping_time t + ping_interval t ->
      snd (run_cyclic now t) = [ping_freshness t + 1] /\
      ping_interval (fst (run_cyclic now t)) = 2 * ping_interval t /\
      (2 * ping_interval t > ping_interval_max t ->
       remote_state (fst (run_cyclic now t)) = STATE_DOWN) /\
      (~ 2 * ping_interval t > ping_interval_max t ->
       remote_state (fst (run_cyclic now t)) = STATE_UNSURE)) /\
  (forall now t,
      remote_state t = STATE_UNSURE ->
      remote_state (pong_received now (ping_freshness t) t) = STATE_UP) /\
  (forall now t,
      remote_state t = STATE_UP ->
      now > last_ping_time t + ping_interval t ->
      now > last_pong_time t + pong_timeout t ->
      snd (run_cyclic now t) = [ping_freshness t + 1] /\
      remote_state (fst (run_cyclic now t)) = STATE_DOWN) /\
  (forall now t,
      remote_state t = STATE_UP ->
      ~ now > last_ping_time t + ping_interval t ->
      run_cyclic now t = (t, [])).
Proof.
  split; [|split; [|split; [|split]]].
  - intros mn mx pt r. split; reflexivity.
  - intros now t Hs Hd.
    destruct (run_cyclic_unsure_due now t Hs Hd) as (H1 & H2 & _ & H4).
    split; [exact H1|]. split; [exact H2|]. split.
    + intros Hgt. rewrite H4. rewrite decide_True by assumption. reflexivity.
    + intros Hle. rewrite H4. rewrite decide_False by assumption. reflexivity.
  - intros now t Hs. rewrite pong_matching_unsure by assumption. reflexivity.
  - intros now t Hs Hd Ht. rewrite run_cyclic_up by assumption.
    rewrite decide_True by assumption. cbn zeta.
    rewrite decide_True by assumption. split; reflexivity.
  - intros now t Hs Hnd. rewrite run_cyclic_up by assumption.
    rewrite decide_False by assumption. reflexivity.
Qed.

(** The amended statement at the run that refutes the original one: the
    step at 6.5 s is idle, the step at 7.5 s sends the third ping and, the
    pong timeout having elapsed, ends in DOWN. *)
Lemma heartbeat_state_machine_witness :
  run_cyclic 6500000 unanswered_in_up = (unanswered_in_up, []) /\
  remote_state (fst (run_cyclic 7500000 unanswered_in_up)) = STATE_DOWN.
Proof.
  destruct heartbeat_state_machine as (_ & _ & _ & Hdown & Hidle).
  split.
  - apply Hidle; vm_compute; [reflexivity | discriminate].
  - apply Hdown; vm_compute; reflexivity.
Defined.

(** C6: a pong whose freshness differs from the nonce of the most recently
    sent ping leaves every field of the tracker as it was. *)
Theorem pong_received_stale_frame now f t :
  f <> ping_freshness t -> pong_received now f t = t.
Proof.
  intros Hne. unfold pong_received.
  rewrite decide_True by assumption. reflexivity.
Qed.

Lemma pong_received_stale_frame_witness :
  pong_received 4100000 8 unanswered_in_up = unanswered_in_up.
Proof.
  apply pong_received_stale_frame. vm_compute. discriminate.
Defined.

End TrackerSpec.

Module VQueueSpec.
Import Py VQueue.

Lemma lastn_all {A} n (l : list A) : (length l <= n)%nat -> lastn n l = l.
Proof.
  intros H. unfold lastn.
  replace (length l - n)%nat with 0%nat by lia. reflexivity.
Qed.

Lemma lastn_app_lastn {A} n (l1 l2 : list A) :
  lastn n (lastn n l1 ++ l2) = lastn n (l1 ++ l2).
Proof.
  unfold lastn.
  rewrite <- (drop_app_le l1 l2) by lia.
  rewrite drop_drop. f_equal.
  rewrite length_drop, !length_app. lia.
Qed.

Lemma lastn_app_r {A} n (l1 l2 : list A) :
  (n <= length l2)%nat -> lastn n (l1 ++ l2) = lastn n l2.
Proof.
  intros H. unfold lastn. rewrite length_app.
  replace (length l1 + length l2 - n)%nat
    with (length l1 + (length l2 - n))%nat by lia.
  rewrite drop_app_add. reflexivity.
Qed.

Lemma lastn_length {A} n (l : list A) :
  length (lastn n l) = Nat.min n (length l).
Proof. unfold lastn. rewrite length_drop. lia. Qed.

Lemma receive_queue topic value now h q :
  queue (receive topic value now h q).1.1 =
    (if (0 <? maxlen q) && (maxlen q <=? Z.of_nat (length (queue q)))
     then tail (queue q) else queue q) ++ [(value, topic)].
Proof.
  unfold receive. destruct (Events._notify_events (events q) h). reflexivity.
Qed.

Lemma receive_maxlen topic value now h q :
  maxlen (receive topic value now h q).1.1 = maxlen q.
Proof.
  unfold receive. destruct (Events._notify_events (events q) h). reflexivity.
Qed.

Lemma receive_expired topic value now h q :
  expired (receive topic value now h q).1.1 = expired q /\
  (receive topic value now h q).2 = expired q.
Proof.
  unfold receive. destruct (Events._notify_events (events q) h). split; reflexivity.
Qed.

(** One [receive] into a bounded queue that respects its bound keeps the
    last [maxlen] entries of the old content followed by the new entry. *)
Lemma receive_lastn topic value now h q :
  0 < maxlen q ->
  Z.of_nat (length (queue q)) <= maxlen q ->
  queue (receive topic value now h q).1.1 =
    lastn (Z.to_nat (maxlen q)) (queue q ++ [(value, topic)]).
Proof.
  intros Hpos Hb. rewrite receive_queue.
  destruct (0 <? maxlen q) eqn:E0; [|lia]. cbn [andb].
  destruct (maxlen q <=? Z.of_nat (length (queue q))) eqn:E1.
  - apply Z.leb_le in E1.
    destruct (queue q) as [|x l] eqn:Eq; [cbn in *; lia|].
    cbn [tail]. unfold lastn. rewrite length_app. cbn [length] in *.
    replace (S (length l) + 1 - Z.to_nat (maxlen q))%nat with 1%nat by lia.
    reflexivity.
  - apply Z.leb_gt in E1. rewrite lastn_all; [reflexivity|].
    rewrite length_app. cbn. lia.
Qed.

Lemma receive_bounded topic value now h q :
  bounded q -> bounded (receive topic value now h q).1.1.
Proof.
  unfold bounded. rewrite receive_maxlen. intros Hb Hpos.
  rewrite receive_lastn by auto. rewrite lastn_length. lia.
Qed.

Lemma init_bounded m : bounded (init m).
Proof. unfold bounded. cbn. lia. Qed.

Lemma trim_length value l :
  0 <= value -> Z.of_nat (length (trim value l)) <= value.
Proof.
  intros Hv. induction l as [|x l IH]; [cbn; lia|].
  cbn [trim]. destruct (Z.of_nat (length (x :: l)) >? value) eqn:E; [exact IH|].
  rewrite Z.gtb_ltb in E. apply Z.ltb_ge in E. exact E.
Qed.

Lemma set_maxlen_bounded value q : bounded (set_maxlen value q).
Proof.
  unfold bounded, set_maxlen. cbn. intros Hpos.
  destruct (value >? 0) eqn:E; [|rewrite Z.gtb_ltb in E; apply Z.ltb_ge in E; lia].
  apply trim_length. lia.
Qed.

Lemma pop_with_topic_bounded q : bounded q -> bounded (pop_with_topic q).1.
Proof.
  unfold bounded, pop_with_topic. intros Hb.
  destruct (queue q) as [|x l] eqn:E; cbn; [rewrite E; exact Hb|].
  intros Hpos. specialize (Hb Hpos). cbn in Hb. lia.
Qed.

Lemma receive_all_lastn calls : forall h q,
  0 < maxlen q ->
  Z.of_nat (length (queue q)) <= maxlen q ->
  queue (receive_all calls h q).1.1 =
    lastn (Z.to_nat (maxlen q)) (queue q ++ map entry_of calls) /\
  maxlen (receive_all calls h q).1.1 = maxlen q /\
  (receive_all calls h q).2 = map (fun _ => expired q) calls.
Proof.
  induction calls as [|[[topic value] now] calls IH]; intros h q Hpos Hb.
  - cbn. rewrite app_nil_r. rewrite lastn_all by lia. auto.
  - cbn [receive_all].
    pose proof (receive_lastn topic value now h q Hpos Hb) as H1.
    pose proof (receive_maxlen topic value now h q) as H2.
    pose proof (receive_expired topic value now h q) as [H3 H4].
    pose proof (receive_bounded topic value now h q (fun _ => Hb)) as H5.
    destruct (receive topic value now h q) as [[q1 h1] r]. cbn in H1, H2, H3, H4, H5.
    destruct (IH h1 q1) as (I1 & I2 & I3).
    { lia. } { apply H5. lia. }
    destruct (receive_all calls h1 q1) as [[q2 h2] rs]. cbn in *.
    rewrite I1, I2, I3, H1, H2, H3, H4.
    rewrite lastn_app_lastn. rewrite <- app_assoc. auto.
Qed.

(** C4: after more than [maxlen] receives into a bounded queue, the queue
    holds exactly the last [maxlen] received (value, topic) pairs in arrival
    order; every receive that finds the queue at capacity drops the oldest
    entry before appending, and every receive returns the expired flag of
    the queue. *)
Theorem receive_retains_last_maxlen calls h q :
  0 < maxlen q ->
  bounded q ->
  Z.of_nat (length calls) > maxlen q ->
  queue (receive_all calls h q).1.1 =
    lastn (Z.to_nat (maxlen q)) (map entry_of calls) /\
  Z.of_nat (length (queue (receive_all calls h q).1.1)) = maxlen q /\
  (receive_all calls h q).2 = map (fun _ => expired q) calls /\
  (forall topic value now h0 q0,
      queue (receive topic value now h0 q0).1.1 =
        (if (0 <? maxlen q0) && (maxlen q0 <=? Z.of_nat (length (queue q0)))
         then tail (queue q0) else queue q0) ++ [(value, topic)] /\
      (receive topic value now h0 q0).2 = expired q0).
Proof.
  intros Hpos Hb Hn.
  destruct (receive_all_lastn calls h q Hpos (Hb Hpos)) as (H1 & H2 & H3).
  assert (Hq : queue (receive_all calls h q).1.1 =
               lastn (Z.to_nat (maxlen q)) (map entry_of calls)).
  { rewrite H1. apply lastn_app_r. rewrite length_map. lia. }
  split; [exact Hq|]. split.
  - rewrite Hq, lastn_length, length_map. lia.
  - split; [exact H3|]. intros. split.
    + apply receive_queue.
    + apply receive_expired.
Qed.

Lemma receive_retains_last_maxlen_witness :
  queue (receive_all
           [("a"%string, PInt 1, 10); ("b"%string, PInt 2, 20);
            ("a"%string, PInt 3, 30)]
           ∅ (init 2)).1.1
  = [(PInt 2, "b"%string); (PInt 3, "a"%string)].
Proof.
  pose proof (receive_retains_last_maxlen
           [("a"%string, PInt 1, 10); ("b"%string, PInt 2, 20);
            ("a"%string, PInt 3, 30)] ∅ (init 2)) as H.
  destruct H as (H & _).
  - reflexivity.
  - apply init_bounded.
  - reflexivity.
  - rewrite H. reflexivity.
Defined.

(** C10: on an empty queue [peek_with_topic] and [pop_with_topic] return
    [None] and leave the queue as it was; [peek] and [pop] subscript that
    [None] and raise [TypeError], the queue again unchanged. *)
Theorem empty_queue_peek_pop q :
  empty q = true ->
  peek_with_topic q = (q, None) /\
  pop_with_topic q = (q, None) /\
  peek q = (q, Raise TypeError) /\
  pop q = (q, Raise TypeError).
Proof.
  unfold empty. intros He. apply Z.leb_le in He.
  assert (Hq : queue q = []) by (destruct (queue q); [reflexivity | cbn in He; lia]).
  unfold peek, pop, peek_with_topic, pop_with_topic. rewrite Hq. auto.
Qed.

Lemma empty_queue_peek_pop_witness :
  peek (init 3) = (init 3, Raise TypeError) /\
  pop_with_topic (init 3) = (init 3, None).
Proof.
  destruct (empty_queue_peek_pop (init 3)) as (_ & H2 & H3 & _).
  - reflexivity.
  - split; assumption.
Defined.

End VQueueSpec.

(** ** The value store *)

Module VStoreSpec.
Import Py VStore.

Section WithHash.
Variable hash : string -> Z.

Lemma notify_loop_log rs : forall key value now w,
  (notify_loop hash rs key value now w).2 =
    map (fun r => mkDelivery r key value) rs.
Proof.
  induction rs as [|r rs IH]; intros key value now w; [reflexivity|].
  cbn [notify_loop].
  destruct (receive_dispatch hash key value now w r) as [w1 x].
  specialize (IH key value now w1).
  destruct (notify_loop hash rs key value now w1) as [[w2 he] log].
  cbn in *. rewrite IH. reflexivity.
Qed.

Lemma notify_log rs key value now w :
  (_notify_receivers_and_cleanup hash rs key value now w).2 =
    map (fun r => mkDelivery r key value) rs.
Proof.
  unfold _notify_receivers_and_cleanup.
  pose proof (notify_loop_log rs key value now w) as H.
  destruct (notify_loop hash rs key value now w) as [[w' he] log].
  exact H.
Qed.

Lemma registered_spec r l : registered r l = true <-> r ∈ l.
Proof.
  unfold registered. rewrite existsb_exists. split.
  - intros (x & Hin & Heq). apply Nat.eqb_eq in Heq. subst.
    apply list_elem_of_In. exact Hin.
  - intros Hin. exists r. split; [apply list_elem_of_In; exact Hin|].
    apply Nat.eqb_refl.
Qed.

Lemma NoDup_snoc (l : list nat) r : NoDup l -> r ∉ l -> NoDup (l ++ [r]).
Proof.
  intros Hnd Hni. apply NoDup_app. split; [exact Hnd|]. split.
  - intros x Hx Hx'. apply list_elem_of_singleton in Hx'. subst. auto.
  - apply NoDup_singleton.
Qed.

Lemma init_no_duplicates : no_duplicates init.
Proof.
  split; [apply NoDup_nil_2|]. intros key e H. cbn in H.
  rewrite lookup_empty in H. discriminate.
Qed.

Lemma create_key_no_duplicates key vs :
  no_duplicates vs -> no_duplicates (_create_key_if_absent key vs).
Proof.
  intros [H1 H2]. unfold _create_key_if_absent.
  destruct (store vs !! key) eqn:E; [split; assumption|].
  split; [exact H1|]. cbn. intros k e He.
  destruct (decide (key = k)) as [->|Hne].
  - rewrite lookup_insert_eq in He. injection He as <-. apply NoDup_nil_2.
  - rewrite lookup_insert_ne in He by assumption. eapply H2; eassumption.
Qed.

Lemma entry_of_no_dup key vs :
  no_duplicates vs -> NoDup (receivers (entry_of key vs)).
Proof.
  intros [_ H2]. unfold entry_of.
  destruct (store vs !! key) eqn:E; [eapply H2; eassumption|apply NoDup_nil_2].
Qed.

Lemma add_receiver_no_duplicates key r vs :
  no_duplicates vs -> no_duplicates (add_receiver key r vs).
Proof.
  intros Hnd. apply (create_key_no_duplicates key) in Hnd.
  unfold add_receiver.
  destruct (registered r (receivers (entry_of key (_create_key_if_absent key vs))))
    eqn:E; [exact Hnd|].
  split; [apply Hnd|]. cbn. intros k e He.
  destruct (decide (key = k)) as [->|Hne].
  - rewrite lookup_insert_eq in He. injection He as <-. cbn.
    apply NoDup_snoc; [apply entry_of_no_dup; exact Hnd|].
    intros Hin. apply registered_spec in Hin. congruence.
  - rewrite lookup_insert_ne in He by assumption.
    destruct Hnd as [_ H2]. eapply H2; eassumption.
Qed.

Lemma add_all_topic_receiver_no_duplicates r vs :
  no_duplicates vs -> no_duplicates (add_all_topic_receiver r vs).
Proof.
  intros [H1 H2]. unfold add_all_topic_receiver.
  destruct (registered r (all_topic_receivers vs)) eqn:E; [split; assumption|].
  split; [|exact H2]. cbn. apply NoDup_snoc; [exact H1|].
  intros Hin. apply registered_spec in Hin. congruence.
Qed.

Lemma set_value_none key now vs w :
  set_value hash key PNone now vs w = (vs, w, [], Raise RuntimeError).
Proof. reflexivity. Qed.

Lemma set_value_some key value now vs w :
  is_none value = false ->
  (set_value hash key value now vs w).2 = Ok tt /\
  (set_value hash key value now vs w).1.2 =
    map (fun r => mkDelivery r key value)
        (all_topic_receivers vs ++ receivers (entry_of key vs)) /\
  store (set_value hash key value now vs w).1.1.1 =
    <[key := mkEntry value (receivers (entry_of key vs))]> (store vs) /\
  all_topic_receivers (set_value hash key value now vs w).1.1.1 =
    all_topic_receivers vs.
Proof.
  intros Hv. unfold set_value. rewrite Hv.
  assert (He : entry_of key (_create_key_if_absent key vs) = entry_of key vs).
  { unfold _create_key_if_absent, entry_of.
    destruct (store vs !! key) eqn:E; [rewrite E; reflexivity|].
    cbn. rewrite lookup_insert_eq. reflexivity. }
  assert (Ha : all_topic_receivers (_create_key_if_absent key vs)
               = all_topic_receivers vs).
  { unfold _create_key_if_absent. destruct (store vs !! key); reflexivity. }
  assert (Hs : <[key := mkEntry value (receivers (entry_of key vs))]>
                 (store (_create_key_if_absent key vs))
               = <[key := mkEntry value (receivers (entry_of key vs))]> (store vs)).
  { unfold _create_key_if_absent. destruct (store vs !! key); [reflexivity|].
    cbn. apply insert_insert_eq. }
  rewrite He, Ha.
  pose proof (notify_log (all_topic_receivers vs) key value now w) as L1.
  destruct (_notify_receivers_and_cleanup hash (all_topic_receivers vs)
              key value now w) as [[u1 w1] log1].
  pose proof (notify_log (receivers (entry_of key vs)) key value now w1) as L2.
  destruct (_notify_receivers_and_cleanup hash (receivers (entry_of key vs))
              key value now w1) as [[u2 w2] log2].
  cbn in *. subst log1 log2. rewrite map_app, Hs. auto.
Qed.

Lemma calls_to_map r key value (l : list nat) :
  NoDup l ->
  calls_to r (map (fun r' => mkDelivery r' key value) l)
  = if registered r l then 1%nat else 0%nat.
Proof.
  unfold calls_to, registered. induction 1 as [|x l Hx Hnd IH]; [reflexivity|].
  cbn [map List.filter existsb d_receiver].
  rewrite (Nat.eqb_sym r x). destruct (Nat.eqb_spec x r) as [->|Hne].
  - cbn [length orb]. rewrite IH.
    destruct (existsb (Nat.eqb r) l) eqn:E; [|reflexivity].
    exfalso. apply Hx. apply registered_spec. exact E.
  - cbn [orb]. exact IH.
Qed.

Lemma calls_to_app r l1 l2 :
  calls_to r (l1 ++ l2) = (calls_to r l1 + calls_to r l2)%nat.
Proof. unfold calls_to. rewrite List.filter_app, length_app. reflexivity. Qed.

(** C3 (amended): [set_value(t, v)] with [v] being [None] raises and changes
    neither the store nor any receiver; otherwise it ends normally, the
    value stored for [t] is [v] and no other topic changes, and the
    [receive] calls it makes are exactly: one per all-topic receiver in
    registration order, followed by one per receiver registered on [t] in
    registration order, each with key [t] and value [v]; neither list holds
    a receiver twice.  So a receiver gets one call for each of its
    registrations: exactly one when it is registered one way only, two when
    it is an all-topic receiver that is registered on [t] as well, none
    when it is not registered. *)
Theorem set_value_delivery key value now vs w :
  no_duplicates vs ->
  (is_none value = true ->
   set_value hash key value now vs w = (vs, w, [], Raise RuntimeError)) /\
  (is_none value = false ->
   (set_value hash key value now vs w).2 = Ok tt /\
   get_value key (set_value hash key value now vs w).1.1.1 = value /\
   (forall key', key' <> key ->
      get_value key' (set_value hash key value now vs w).1.1.1
      = get_value key' vs) /\
   (set_value hash key value now vs w).1.2 =
     map (fun r => mkDelivery r key value) (all_topic_receivers vs)
     ++ map (fun r => mkDelivery r key value) (receivers (entry_of key vs)) /\
   NoDup (all_topic_receivers vs) /\
   NoDup (receivers (entry_of key vs)) /\
   (forall r, calls_to r (set_value hash key value now vs w).1.2
              = registrations key r vs) /\
   (forall r, r ∈ all_topic_receivers vs ++ receivers (entry_of key vs) ->
              calls_to r (set_value hash key value now vs w).1.2 = 1%nat
              <-> ~ (r ∈ all_topic_receivers vs /\
                     r ∈ receivers (entry_of key vs)))).
Proof.
  intros Hnd. split.
  - intros Hn. destruct value; try discriminate. reflexivity.
  - intros Hv.
    destruct (set_value_some key value now vs w Hv) as (R & L & S & A).
    assert (Hcalls : forall r,
               calls_to r (set_value hash key value now vs w).1.2
               = registrations key r vs).
    { intros r. rewrite L, map_app, calls_to_app.
      rewrite !calls_to_map by (apply Hnd || apply entry_of_no_dup, Hnd).
      reflexivity. }
    split; [exact R|]. split; [|split; [|split; [|split; [|split; [|split]]]]].
    + unfold get_value. rewrite S, lookup_insert_eq. reflexivity.
    + intros key' Hne. unfold get_value. rewrite S.
      rewrite lookup_insert_ne by congruence. reflexivity.
    + rewrite L, map_app. reflexivity.
    + apply Hnd.
    + apply entry_of_no_dup. exact Hnd.
    + exact Hcalls.
    + intros r Hin. rewrite Hcalls. unfold registrations.
      apply elem_of_app in Hin.
      destruct (registered r (all_topic_receivers vs)) eqn:Ea;
        destruct (registered r (receivers (entry_of key vs))) eqn:Et; cbn.
      * split; [discriminate|]. intros H. exfalso. apply H.
        split; apply registered_spec; assumption.
      * split; [|reflexivity]. intros _ [_ H].
        apply registered_spec in H. congruence.
      * split; [|reflexivity]. intros _ [H _].
        apply registered_spec in H. congruence.
      * destruct Hin as [H|H]; apply registered_spec in H; congruence.
Qed.

End WithHash.

Lemma sample_store_no_duplicates : no_duplicates sample_store.
Proof.
  unfold sample_store.
  repeat first [apply add_receiver_no_duplicates
               | apply add_all_topic_receiver_no_duplicates].
  apply init_no_duplicates.
Qed.

Lemma both_ways_no_duplicates : no_duplicates both_ways_store.
Proof.
  unfold both_ways_store.
  repeat first [apply add_receiver_no_duplicates
               | apply add_all_topic_receiver_no_duplicates].
  apply init_no_duplicates.
Qed.

(** C3, as stated, fails: in a store built by [add_all_topic_receiver] and
    [add_receiver], a receiver of the two lists that [set_value] goes
    through need not get the value exactly once.  The queue at address 1,
    registered both ways, gets it twice. *)
Lemma receiver_registered_both_ways_gets_value_twice :
  ~ (forall hash key value now vs w r,
       no_duplicates vs ->
       is_none value = false ->
       r ∈ all_topic_receivers vs ++ receivers (entry_of key vs) ->
       calls_to r (set_value hash key value now vs w).1.2 = 1%nat).
Proof.
  intros H.
  specialize (H (fun _ => 0) "t"%string (PInt 7) 5 both_ways_store
                both_ways_world 1%nat both_ways_no_duplicates eq_refl).
  assert (Hin : 1%nat ∈ all_topic_receivers both_ways_store
                        ++ receivers (entry_of "t" both_ways_store))
    by (vm_compute; repeat constructor).
  specialize (H Hin). vm_compute in H. discriminate H.
Qed.

(** The two calls are two entries in the queue: one [set_value] leaves the
    value twice in the queue that is registered both ways. *)
Lemma both_ways_queue_holds_value_twice :
  (set_value (fun _ => 0) "t" (PInt 7) 5 both_ways_store both_ways_world).1.2
  = [mkDelivery 1 "t" (PInt 7); mkDelivery 1 "t" (PInt 7)] /\
  match w_receivers
          (set_value (fun _ => 0) "t" (PInt 7) 5 both_ways_store
                     both_ways_world).1.1.2 !! 1%nat with
  | Some (RValueQueue q) =>
      VQueue.queue q = [(PInt 7, "t"%string); (PInt 7, "t"%string)]
  | _ => False
  end.
Proof. split; vm_compute; reflexivity. Qed.

Lemma set_value_delivery_witness :
  (set_value (fun _ => 0) "t" (PInt 7) 5 sample_store sample_world).1.2 =
    [mkDelivery 3 "t" (PInt 7); mkDelivery 1 "t" (PInt 7);
     mkDelivery 2 "t" (PInt 7)] /\
  set_value (fun _ => 0) "t" PNone 5 sample_store sample_world =
    (sample_store, sample_world, [], Raise RuntimeError) /\
  calls_to 3 (set_value (fun _ => 0) "t" (PInt 7) 5
                        sample_store sample_world).1.2 = 1%nat /\
  calls_to 1 (set_value (fun _ => 0) "t" (PInt 7) 5
                        both_ways_store both_ways_world).1.2 = 2%nat.
Proof.
  split; [|split; [|split]].
  - destruct (set_value_delivery (fun _ => 0) "t" (PInt 7) 5
                sample_store sample_world sample_store_no_duplicates)
      as [_ H].
    destruct (H eq_refl) as (_ & _ & _ & L & _).
    rewrite L. vm_compute. reflexivity.
  - destruct (set_value_delivery (fun _ => 0) "t" PNone 5
                sample_store sample_world sample_store_no_duplicates)
      as [H _].
    apply H. reflexivity.
  - destruct (set_value_delivery (fun _ => 0) "t" (PInt 7) 5
                sample_store sample_world sample_store_no_duplicates)
      as [_ H].
    destruct (H eq_refl) as (_ & _ & _ & _ & _ & _ & C & _).
    rewrite C. vm_compute. reflexivity.
  - destruct (set_value_delivery (fun _ => 0) "t" (PInt 7) 5
                both_ways_store both_ways_world both_ways_no_duplicates)
      as [_ H].
    destruct (H eq_refl) as (_ & _ & _ & _ & _ & _ & C & _).
    rewrite C. vm_compute. reflexivity.
Defined.

End VStoreSpec.

(** ** The component registry *)

Module CompMgrSpec.
Import CompMgr.

Lemma init_ids_bounded b : ids_bounded (init b).
Proof.
  split; [cbn; lia|]. intros k e H. cbn in H.
  rewrite lookup_empty in H. discriminate.
Qed.

Lemma register_component_ids_bounded c name cfg m h :
  ids_bounded m -> ids_bounded (register_component c name cfg m h).1.1.1.
Proof.
  intros [H0 Hb]. unfold register_component.
  destruct (decide (component_registered c m)); [split; assumption|].
  destruct (decide (instance_name_used name m)); [split; assumption|].
  cbn [fst snd]. split; cbn [last_comp_id components]; [lia|].
  intros k e He.
  destruct (decide (last_comp_id m + 1 = k)) as [<-|Hne]; [lia|].
  rewrite lookup_insert_ne in He by assumption.
  apply Hb in He. lia.
Qed.

(** C8: [register_component] returns the error value -1, without raising
    and with the registry and the components untouched, when the component
    object is already registered or the instance name is in use; otherwise
    it returns an id that no entry of the registry has, and adds under that
    id an entry for the component in state REGISTERED. *)
Theorem register_component_result c name cfg m h :
  ids_bounded m ->
  (component_registered c m \/ instance_name_used name m ->
   (register_component c name cfg m h).1.2 = -1 /\
   (register_component c name cfg m h).1.1.1 = m /\
   (register_component c name cfg m h).1.1.2 = h) /\
  (~ component_registered c m -> ~ instance_name_used name m ->
   let r := (register_component c name cfg m h).1.2 in
   let m' := (register_component c name cfg m h).1.1.1 in
   r = last_comp_id m + 1 /\ r <> -1 /\
   components m !! r = None /\
   components m' = <[r := mkCompEntry c r name REGISTERED]> (components m) /\
   last_comp_id m' = r).
Proof.
  intros [H0 Hb]. unfold register_component. split.
  - intros Hor.
    destruct (decide (component_registered c m)); [auto|].
    destruct (decide (instance_name_used name m)); [auto|].
    tauto.
  - intros Hc Hn.
    destruct (decide (component_registered c m)); [contradiction|].
    destruct (decide (instance_name_used name m)); [contradiction|].
    cbn [fst snd last_comp_id components].
    split; [reflexivity|]. split; [lia|]. split; [|split; reflexivity].
    destruct (components m !! (last_comp_id m + 1)) eqn:E; [|reflexivity].
    apply Hb in E. lia.
Qed.

Lemma register_component_result_witness :
  (register_component 1 "a" None one_registered ∅).1.2 = -1 /\
  (register_component 1 "b" None one_registered ∅).1.2 = 2.
Proof.
  assert (Hb : ids_bounded one_registered).
  { apply register_component_ids_bounded, init_ids_bounded. }
  split.
  - destruct (register_component_result 1 "a" None one_registered ∅ Hb)
      as [H _].
    apply H. right. vm_compute.
    exists 1, (mkCompEntry 0 1 "a" REGISTERED). split; reflexivity.
  - destruct (register_component_result 1 "b" None one_registered ∅ Hb)
      as [_ H].
    apply H.
    + apply (bool_decide_unpack _). vm_compute. exact I.
    + apply (bool_decide_unpack _). vm_compute. exact I.
Defined.

End CompMgrSpec.

(** ** The remote service *)

Module RemoteSpec.
Import Py Tracker VStore Remote.

(** *** Dictionaries *)

Lemma dict_get_update_ne {V} k k' (f : V -> V) d :
  k <> k' -> dict_get k (dict_update k' f d) = dict_get k d.
Proof.
  intros Hne. induction d as [|[k0 v] d IH]; [reflexivity|].
  cbn [dict_update dict_get].
  destruct (decide (k' = k0)) as [->|Hk'].
  - cbn [dict_get]. rewrite !decide_False by assumption. reflexivity.
  - cbn [dict_get]. destruct (decide (k = k0)); [reflexivity|exact IH].
Qed.

Lemma dict_get_update_eq {V} k (f : V -> V) d :
  dict_get k (dict_update k f d) = f <$> dict_get k d.
Proof.
  induction d as [|[k0 v] d IH]; [reflexivity|].
  cbn [dict_update dict_get].
  destruct (decide (k = k0)) as [->|Hk].
  - cbn [dict_get]. rewrite decide_True by reflexivity. reflexivity.
  - cbn [dict_get]. rewrite decide_False by assumption. exact IH.
Qed.

Lemma dict_get_map {V} k (f : V -> V) (d : list (string * V)) :
  dict_get k (map (fun '(k0, r) => (k0, f r)) d) = f <$> dict_get k d.
Proof.
  induction d as [|[k0 v] d IH]; [reflexivity|].
  cbn [map dict_get]. destruct (decide (k = k0)); [reflexivity|exact IH].
Qed.

(** *** Invariants of handlers *)

Section Keeps.
Context (E ok : Out -> Prop) (P : Service -> Prop).
(** [P] does not depend on the fields below. *)
Hypothesis P_replies : forall s x, P s -> P (set_replies x s).
Hypothesis P_store : forall s vs w, P s -> P (set_store vs w s).
Hypothesis P_transceiver : forall s x, P s -> P (set_transceiver x s).
Hypothesis P_topics : forall s x y, P s -> P (set_topics x y s).
Hypothesis P_initialized : forall s x, P s -> P (set_initialized x s).
(** Pings, pongs and commands are in [ok]. *)
Hypothesis ok_ping : forall f, ok (OutPing f).
Hypothesis ok_pong : forall f, ok (OutPong f).
Hypothesis ok_request_all : ok OutRequestAll.
Hypothesis ok_injected : forall t, ok (OutValueInjected t).
Hypothesis ok_rejected : forall t, ok (OutValueRejected t).
Hypothesis ok_reconnect : ok OutReconnect.

Lemma keeps_ret {A} (a : A) : keeps E ok P (ret a).
Proof. intros s H. right. split; [exact H|constructor]. Qed.

Lemma keeps_raise {A} e : keeps E ok P (@raise A e).
Proof. intros s H. right. split; [exact H|constructor]. Qed.

Lemma keeps_emit o : ok o -> keeps E ok P (emit o).
Proof. intros Ho s H. right. split; [exact H|]. repeat constructor. exact Ho. Qed.

Lemma keeps_emit_escape o : E o -> keeps E ok P (emit o).
Proof. intros Ho s H. left. constructor. exact Ho. Qed.

Lemma keeps_gets {A} (f : Service -> A) : keeps E ok P (gets f).
Proof. intros s H. right. split; [exact H|constructor]. Qed.

Lemma keeps_modify f : (forall s, P s -> P (f s)) -> keeps E ok P (modify f).
Proof. intros Hf s H. right. split; [apply Hf, H|constructor]. Qed.

Lemma keeps_at_bind {A B} (m : M A) (f : A -> M B) s :
  keeps_at E ok P m s -> (forall a, keeps E ok P (f a)) ->
  keeps_at E ok P (m ≫= f) s.
Proof.
  intros Hm Hf H. unfold mbind, M_bind, bind.
  specialize (Hm H). destruct (m s) as [[s1 l1] [a|e]]; cbn [fst snd] in *.
  - destruct Hm as [Hm|[Hp Hl]].
    + destruct (f a s1) as [[s2 l2] r2]. cbn [fst snd]. left.
      apply Exists_app. left. exact Hm.
    + specialize (Hf a s1 Hp). destruct (f a s1) as [[s2 l2] r2].
      cbn [fst snd] in *. destruct Hf as [Hf|[Hp2 Hl2]].
      * left. apply Exists_app. right. exact Hf.
      * right. split; [exact Hp2|]. apply Forall_app. split; assumption.
  - exact Hm.
Qed.

Lemma keeps_bind {A B} (m : M A) (f : A -> M B) :
  keeps E ok P m -> (forall a, keeps E ok P (f a)) -> keeps E ok P (m ≫= f).
Proof. intros Hm Hf s. apply keeps_at_bind; [apply Hm|exact Hf]. Qed.

(** Reading the state and going on with what was read. *)
Lemma keeps_at_gets_bind {A B} (g : Service -> A) (f : A -> M B) s :
  keeps_at E ok P (f (g s)) s -> keeps_at E ok P (gets g ≫= f) s.
Proof.
  intros Hf H. unfold mbind, M_bind, bind, gets.
  specialize (Hf H). destruct (f (g s) s) as [[s2 l2] r2]. exact Hf.
Qed.

Lemma keeps_for_each {A} (l : list A) (body : A -> M unit) :
  (forall x, keeps E ok P (body x)) -> keeps E ok P (for_each l body).
Proof.
  intros Hb. induction l as [|x l IH]; cbn [for_each].
  - apply keeps_ret.
  - apply keeps_bind; [apply Hb|intros _; exact IH].
Qed.

Lemma keeps_sender_send : keeps E ok P sender_send.
Proof.
  intros s H. unfold sender_send. destruct (replies s) as [|r rest];
    right; cbn [fst snd]; (split; [|constructor]);
    [exact H|apply P_replies, H].
Qed.

Lemma keeps_sender_send_value value : keeps E ok P (sender_send_value value).
Proof.
  unfold sender_send_value. destruct (is_value value);
    [apply keeps_sender_send|apply keeps_ret].
Qed.

Lemma keeps_request (o : Out) :
  ok o -> keeps E ok P (emit o;; sender_send;; ret tt).
Proof.
  intros Ho. apply keeps_bind; [apply keeps_emit, Ho|intros _].
  apply keeps_bind; [apply keeps_sender_send|intros _; apply keeps_ret].
Qed.

Lemma keeps_set_tracker f :
  keeps E ok P (modify (fun s => set_tracker (f s) s)).
Proof. apply keeps_modify. intros s H. apply P_transceiver, H. Qed.

Lemma keeps_pair_send_value rule topic value :
  ok (OutSendValue rule topic value) ->
  keeps E ok P (pair_send_value rule topic value).
Proof.
  intros Ho. unfold pair_send_value.
  apply keeps_bind; [apply keeps_emit, Ho|intros _].
  apply keeps_bind; [apply keeps_sender_send_value|intros result].
  apply keeps_bind; [|intros _; apply keeps_ret].
  destruct (decide (result = "TIMEOUT"%string));
    [apply keeps_set_tracker|apply keeps_ret].
Qed.

Lemma keeps_pair_send_pongs : keeps E ok P pair_send_pongs.
Proof.
  unfold pair_send_pongs.
  apply keeps_bind; [apply keeps_gets|intros q].
  apply keeps_bind.
  { apply keeps_modify. intros s H. apply P_transceiver, H. }
  intros _. apply keeps_for_each. intros f. apply keeps_request, ok_pong.
Qed.

Lemma keeps_pair_cycle now : keeps E ok P (pair_cycle now).
Proof.
  unfold pair_cycle. apply keeps_bind; [apply keeps_gets|intros t].
  destruct (run_cyclic now t) as [t' pings].
  apply keeps_bind.
  { apply keeps_modify. intros s H. apply P_transceiver, H. }
  intros _. apply keeps_bind; [|intros _; apply keeps_pair_send_pongs].
  apply keeps_for_each. intros f. apply keeps_request, ok_ping.
Qed.

Lemma keeps_handle_injected_rejected : keeps E ok P _handle_injected_rejected.
Proof.
  unfold _handle_injected_rejected.
  apply keeps_bind; [apply keeps_gets|intros ins].
  apply keeps_bind.
  { apply keeps_for_each. intros t. apply keeps_request, ok_injected. }
  intros _. apply keeps_bind; [apply keeps_gets|intros rej].
  apply keeps_bind.
  { apply keeps_for_each. intros t. apply keeps_request, ok_rejected. }
  intros _. apply keeps_modify. intros s H. apply P_topics, H.
Qed.

Lemma keeps_queue_pop addr : keeps E ok P (queue_pop addr).
Proof.
  intros s H. unfold queue_pop.
  destruct (w_receivers (world s) !! addr) as [[q|q]|];
    try (right; split; [exact H|constructor]).
  destruct (VQueue.pop q) as [q' r]. right.
  split; [apply P_store, H|constructor].
Qed.

Lemma keeps_comp_set_value hash topic value now :
  keeps E ok P (comp_set_value hash topic value now).
Proof.
  intros s H. unfold comp_set_value.
  destruct (set_value hash topic value now (vstore s) (world s))
    as [[[vs w] l] r].
  right. split; [apply P_store, H|constructor].
Qed.

Lemma keeps_value_received hash topic value now :
  keeps E ok P (value_received hash topic value now).
Proof.
  unfold value_received. apply keeps_bind; [apply keeps_gets|intros ini].
  destruct (negb ini); [apply keeps_ret|].
  apply keeps_bind; [apply keeps_gets|intros rules].
  destruct (dict_get topic rules) as [rec_rule|]; [|apply keeps_ret].
  destruct (negb (is_none (pending_value rec_rule))); [apply keeps_ret|].
  apply keeps_bind; [apply keeps_comp_set_value|intros _; apply keeps_ret].
Qed.

(** The handlers that write send rules, for a [P] that survives the
    write. *)

Lemma keeps_set_rule_state key st :
  (forall s f, P s -> P (set_send_rules (dict_update key f (send_rules s)) s)) ->
  keeps E ok P (set_rule_state key st).
Proof. intros Hu. apply keeps_modify. intros s H. apply Hu, H. Qed.

Lemma keeps_handle_send_single_other key :
  (forall s f, P s -> P (set_send_rules (dict_update key f (send_rules s)) s)) ->
  (forall topic value, ok (OutSendValue key topic value)) ->
  keeps E ok P (_handle_send_single key).
Proof.
  intros Hu Ho. unfold _handle_send_single.
  apply keeps_bind; [apply keeps_gets|intros rules].
  destruct (dict_get key rules) as [send_rule|]; [|apply keeps_ret].
  destruct (sr_queue send_rule) as [addr|]; [|apply keeps_ret].
  destruct (send_pending (sr_state send_rule)); [apply keeps_ret|].
  apply keeps_bind; [apply keeps_gets|intros oq].
  destruct oq as [queue|]; [|apply keeps_raise].
  destruct (negb (VQueue.empty queue)).
  - destruct (VQueue.peek queue).2 as [value|e]; [|apply keeps_raise].
    apply keeps_bind; [apply keeps_pair_send_value, Ho|intros result].
    destruct (acknowledged result); [|apply keeps_ret].
    apply keeps_bind; [apply keeps_queue_pop|intros _].
    apply keeps_set_rule_state, Hu.
  - destruct (forced_send (sr_state send_rule)); [|apply keeps_ret].
    apply keeps_bind; [apply keeps_gets|intros value].
    apply keeps_bind; [apply keeps_gets|intros oq'].
    destruct oq' as [queue'|]; [|apply keeps_raise].
    destruct (negb (VQueue.empty queue')); [apply keeps_set_rule_state, Hu|].
    destruct (is_none value); [apply keeps_set_rule_state, Hu|].
    apply keeps_bind; [apply keeps_pair_send_value, Ho|intros result].
    destruct (decide (result = "RECEIVED"%string));
      [apply keeps_set_rule_state, Hu|].
    destruct (bool_decide (result = "INJECTED"%string)
              || bool_decide (result = "REJECTED"%string));
      [apply keeps_set_rule_state, Hu|apply keeps_ret].
Qed.

Lemma keeps_send_pass keys : forall more,
  (forall key, keeps E ok P (_handle_send_single key)) ->
  keeps E ok P (send_pass keys more).
Proof.
  induction keys as [|key keys IH]; intros more Hs; cbn [send_pass].
  - apply keeps_ret.
  - apply keeps_bind; [apply keeps_gets|intros c].
    destruct (negb c); [apply keeps_ret|].
    apply keeps_bind; [apply Hs|intros _].
    apply keeps_bind; [apply keeps_gets|intros rules].
    destruct (dict_get key rules) as [snd_rule|]; [|apply IH, Hs].
    destruct (forced_send (sr_state snd_rule)); [apply IH, Hs|].
    apply keeps_bind; [apply keeps_gets|intros oq].
    destruct oq as [queue|]; [apply IH, Hs|apply keeps_raise].
Qed.

Lemma keeps_send_loop fuel :
  (forall key, keeps E ok P (_handle_send_single key)) ->
  keeps E ok P (send_loop fuel).
Proof.
  intros Hs. induction fuel as [|fuel IH]; cbn [send_loop].
  - apply keeps_bind; [apply keeps_gets|intros keys].
    apply keeps_bind; [apply keeps_send_pass, Hs|intros more].
    destruct more; [apply keeps_raise|apply keeps_ret].
  - apply keeps_bind; [apply keeps_gets|intros keys].
    apply keeps_bind; [apply keeps_send_pass, Hs|intros more].
    destruct more; [exact IH|apply keeps_ret].
Qed.

Lemma keeps_handle_send fuel :
  (forall key, keeps E ok P (_handle_send_single key)) ->
  keeps E ok P (_handle_send fuel).
Proof.
  intros Hs. unfold _handle_send.
  apply keeps_bind; [apply keeps_gets|intros ini].
  destruct (negb ini); [apply keeps_ret|apply keeps_send_loop, Hs].
Qed.

Lemma keeps_observe_state_change :
  keeps E ok P reset_pending_values ->
  keeps E ok P pair_observe_state_change.
Proof.
  intros Hr. unfold pair_observe_state_change.
  apply keeps_bind; [apply keeps_gets|intros p].
  destruct (decide (oldState p <> remote_state (tracker p))); [|apply keeps_ret].
  apply keeps_bind.
  - destruct (decide (oldState p = STATE_UP)); [|apply keeps_ret].
    unfold pair_change_state_from_up.
    apply keeps_bind; [apply keeps_emit, ok_reconnect|intros _; exact Hr].
  - intros _. apply keeps_modify. intros s H. apply P_transceiver, H.
Qed.

Lemma keeps_handle_triggers now fuel :
  keeps E ok P reset_pending_values ->
  (forall key, keeps E ok P (_handle_send_single key)) ->
  keeps E ok P (_handle_triggers now fuel).
Proof.
  intros Hr Hs. unfold _handle_triggers.
  apply keeps_bind; [apply keeps_observe_state_change, Hr|intros _].
  apply keeps_bind; [apply keeps_gets|intros ini].
  apply keeps_bind; [apply keeps_gets|intros c].
  apply keeps_bind.
  { destruct (negb ini && c); [|apply keeps_ret].
    apply keeps_bind.
    - apply keeps_modify. intros s H. apply P_initialized, H.
    - intros _. apply keeps_request, ok_request_all. }
  intros _. apply keeps_bind; [apply keeps_handle_send, Hs|intros _].
  apply keeps_bind; [apply keeps_handle_injected_rejected|intros _].
  apply keeps_pair_cycle.
Qed.

Lemma keeps_step hash op :
  keeps E ok P reset_pending_values ->
  (forall key, keeps E ok P (_handle_send_single key)) ->
  keeps E ok P send_all ->
  (forall topic,
      op = OpBlockedValueInjected topic \/ op = OpBlockedValueRejected topic ->
      forall s f, P s ->
                  P (set_send_rules (dict_update topic f (send_rules s)) s)) ->
  keeps E ok P (step hash op).
Proof.
  intros Hr Hs Ha Hb. destruct op; cbn [step].
  - apply keeps_bind.
    + apply keeps_modify. intros s H. apply P_replies, H.
    + intros _. apply keeps_handle_triggers; assumption.
  - apply keeps_bind; [apply keeps_value_received|intros _; apply keeps_ret].
  - apply keeps_modify. intros s H. apply P_transceiver, H.
  - apply keeps_modify. intros s H. apply P_transceiver, H.
  - exact Ha.
  - apply keeps_raise.
  - apply keeps_raise.
  - apply keeps_modify. intros s H. apply (Hb topic); auto.
  - apply keeps_modify. intros s H. apply (Hb topic); auto.
  - apply keeps_modify. intros s H.
    destruct (decide (remote_state (tracker (transceiver s)) = STATE_DOWN));
      [apply P_transceiver, H|exact H].
  - apply keeps_comp_set_value.
Qed.

Lemma keeps_run hash ops : forall s,
  Forall (fun op => keeps E ok P (step hash op)) ops ->
  P s ->
  Exists E (run hash ops s).2 \/
  (P (run hash ops s).1 /\ Forall ok (run hash ops s).2).
Proof.
  induction ops as [|op ops IH]; intros s Hops H.
  - right. split; [exact H|constructor].
  - apply Forall_cons in Hops as [Hop Hops].
    specialize (Hop s H). cbn [run].
    destruct (step hash op s) as [[s1 l1] r1].
    cbn [fst snd] in *.
    destruct (unfinished r1); [exact Hop|].
    destruct Hop as [Hop|[Hp Hl]].
    + destruct (run hash ops s1) as [s2 l2]. left.
      apply Exists_app. left. exact Hop.
    + specialize (IH s1 Hops Hp). destruct (run hash ops s1) as [s2 l2].
      cbn [fst snd] in *. destruct IH as [IH|[Hp2 Hl2]].
      * left. apply Exists_app. right. exact IH.
      * right. split; [exact Hp2|]. apply Forall_app. split; assumption.
Qed.

End Keeps.

(** *** Receive rules are never written after configuration *)

Lemma run_receive_rules hash ops s :
  receive_rules (run hash ops s).1 = receive_rules s.
Proof.
  pose (P := fun s' => receive_rules s' = receive_rules s).
  assert (Hk : forall op,
             keeps (fun _ => False) (fun _ => True) P (step hash op)).
  { intros op.
    apply keeps_step; unfold P;
      try (intros; assumption); try (intros; exact I).
    - apply keeps_bind; [apply keeps_emit; exact I|intros _].
      apply keeps_modify. intros; assumption.
    - intros key. apply keeps_handle_send_single_other;
        try (intros; assumption); try (intros; exact I).
    - apply keeps_modify. intros; assumption. }
  destruct (keeps_run (fun _ => False) (fun _ => True) P hash ops s)
    as [Hex|[Hp _]].
  - apply Forall_forall. intros op _. apply Hk.
  - reflexivity.
  - apply Exists_exists in Hex as (? & _ & []).
  - exact Hp.
Qed.

Lemma run_no_pending_values hash ops s :
  no_pending_values s -> no_pending_values (run hash ops s).1.
Proof. unfold no_pending_values. rewrite run_receive_rules. auto. Qed.

(** *** value_received *)

Section ValueReceived.
Variable hash : string -> Z.

Lemma value_received_rejected topic value now s :
  initialized s = false \/ dict_get topic (receive_rules s) = None ->
  value_received hash topic value now s = (s, [], Ok "REJECTED"%string).
Proof.
  intros H. unfold value_received, mbind, M_bind, bind, gets. cbn [fst snd].
  destruct (initialized s) eqn:Ei; [|reflexivity].
  destruct H as [H|H]; [discriminate|]. cbn [negb]. rewrite H. reflexivity.
Qed.

Lemma value_received_injected topic value now s rec_rule :
  initialized s = true ->
  dict_get topic (receive_rules s) = Some rec_rule ->
  pending_value rec_rule = PNone ->
  is_none value = false ->
  let vs' := (set_value hash topic value now (vstore s) (world s)).1.1.1 in
  let w' := (set_value hash topic value now (vstore s) (world s)).1.1.2 in
  value_received hash topic value now s =
    (set_store vs' w' s, [], Ok "INJECTED"%string).
Proof.
  intros Hi Hr Hp Hv. unfold value_received, mbind, M_bind, bind, gets.
  cbn [fst snd]. rewrite Hi. cbn [negb]. rewrite Hr, Hp. cbn [is_none negb].
  unfold comp_set_value.
  destruct (VStoreSpec.set_value_some hash topic value now (vstore s) (world s) Hv)
    as (Hres & _).
  destruct (set_value hash topic value now (vstore s) (world s))
    as [[[vs w] l] r].
  cbn [fst snd] in *. subst r. reflexivity.
Qed.

Lemma value_received_never_received topic value now s :
  (value_received hash topic value now s).2 <> Ok "RECEIVED"%string.
Proof.
  unfold value_received, mbind, M_bind, bind, gets. cbn [fst snd].
  destruct (negb (initialized s)); [discriminate|].
  destruct (dict_get topic (receive_rules s)) as [rec_rule|]; [|discriminate].
  destruct (negb (is_none (pending_value rec_rule))); [discriminate|].
  unfold comp_set_value.
  destruct (set_value hash topic value now (vstore s) (world s))
    as [[[vs w] l] [[]|e]]; discriminate.
Qed.

(** C9: [value_received] answers ["REJECTED"] and leaves the service, its
    value store included, as it was when the service is not initialized or
    has no receive rule for the topic; otherwise it writes the value to the
    store under the topic and answers ["INJECTED"]; it never answers
    ["RECEIVED"]. *)
Theorem value_received_result topic value now s :
  is_none value = false ->
  no_pending_values s ->
  (initialized s = false \/ dict_get topic (receive_rules s) = None ->
   value_received hash topic value now s = (s, [], Ok "REJECTED"%string)) /\
  (initialized s = true ->
   dict_get topic (receive_rules s) <> None ->
   (value_received hash topic value now s).2 = Ok "INJECTED"%string /\
   get_value topic (vstore (value_received hash topic value now s).1.1)
   = value /\
   (forall topic', topic' <> topic ->
      get_value topic' (vstore (value_received hash topic value now s).1.1)
      = get_value topic' (vstore s))) /\
  (value_received hash topic value now s).2 <> Ok "RECEIVED"%string.
Proof.
  intros Hv Hnp. split; [apply value_received_rejected|].
  split; [|apply value_received_never_received].
  intros Hi Hr.
  destruct (dict_get topic (receive_rules s)) as [rec_rule|] eqn:Er;
    [|congruence].
  rewrite (value_received_injected topic value now s rec_rule Hi Er
             (Hnp _ _ Er) Hv).
  cbn [fst snd set_store vstore].
  destruct (VStoreSpec.set_value_some hash topic value now (vstore s) (world s) Hv)
    as (_ & _ & Hs & _).
  split; [reflexivity|]. split.
  - unfold get_value. rewrite Hs, lookup_insert_eq. reflexivity.
  - intros topic' Hne. unfold get_value. rewrite Hs.
    rewrite lookup_insert_ne by congruence. reflexivity.
Qed.

End ValueReceived.

(** *** Back-pressure on a send rule *)

Section Pending.
Variable k : string.

Lemma pending_update_ne key f s :
  key <> k -> pending k s ->
  pending k (set_send_rules (dict_update key f (send_rules s)) s).
Proof.
  intros Hne (rule & Hr & Hp). exists rule. split; [|exact Hp].
  cbn [set_send_rules send_rules].
  rewrite dict_get_update_ne by congruence. exact Hr.
Qed.

Lemma keeps_reset_pending :
  keeps is_reset (not_send k) (pending k) reset_pending_values.
Proof. intros s H. left. cbn. constructor. reflexivity. Qed.

Lemma keeps_send_all : keeps is_reset (not_send k) (pending k) send_all.
Proof.
  apply keeps_modify. intros s (rule & Hr & Hp).
  exists (mkSendRule (sr_topic rule) (queue_length rule)
            (mkSendState true (send_pending (sr_state rule))) (sr_queue rule)).
  split; [|exact Hp]. cbn [set_send_rules send_rules].
  rewrite (dict_get_map k
             (fun r => mkSendRule (sr_topic r) (queue_length r)
                         (mkSendState true (send_pending (sr_state r)))
                         (sr_queue r))).
  rewrite Hr. reflexivity.
Qed.

(** The heart of the matter: [_handle_send_single] returns at once for a
    rule that is pending, and touches no other rule than its own. *)
Lemma keeps_handle_send_single key :
  keeps is_reset (not_send k) (pending k) (_handle_send_single key).
Proof.
  destruct (decide (key = k)) as [->|Hne].
  - intros s. unfold _handle_send_single. apply keeps_at_gets_bind.
    intros Hp. pose proof Hp as (rule & Hr & Hpend). rewrite Hr.
    destruct (sr_queue rule); rewrite ?Hpend;
      right; (split; [exact Hp|constructor]).
  - apply keeps_handle_send_single_other; try (intros; assumption);
      try (intros; intros ? ?; discriminate).
    + intros s f. apply pending_update_ne. exact Hne.
    + intros topic value topic' value' Heq. congruence.
Qed.

Lemma keeps_step_pending hash op :
  ~ clears k op -> keeps is_reset (not_send k) (pending k) (step hash op).
Proof.
  intros Hc. apply keeps_step; try (intros; assumption);
    try (intros; intros ? ?; discriminate).
  - apply keeps_reset_pending.
  - apply keeps_handle_send_single.
  - apply keeps_send_all.
  - intros topic Hop s f. apply pending_update_ne.
    intros ->. apply Hc. exact Hop.
Qed.

Lemma cleared_not_pending s :
  ~ pending k (set_send_rules (dict_update k clear_pending (send_rules s)) s).
Proof.
  intros (rule & Hr & Hp). cbn [set_send_rules send_rules] in Hr.
  rewrite dict_get_update_eq in Hr.
  destruct (dict_get k (send_rules s)) as [r|]; [|discriminate].
  cbn in Hr. injection Hr as <-. cbn in Hp. discriminate.
Qed.

Lemma reset_not_pending s : ~ pending k (reset_pending_values s).1.1.
Proof.
  intros (rule & Hr & Hp).
  unfold reset_pending_values, mbind, M_bind, bind, emit, modify in Hr.
  cbn [fst snd set_send_rules send_rules] in Hr.
  rewrite (dict_get_map k
             (fun r => mkSendRule (sr_topic r) (queue_length r)
                         (mkSendState (forced_send (sr_state r)) false)
                         (sr_queue r))) in Hr.
  destruct (dict_get k (send_rules s)) as [r|]; [|discriminate].
  cbn in Hr. injection Hr as <-. cbn in Hp. discriminate.
Qed.

(** C1 (amended): while the send rule stored under [k] is pending, no run
    of handlers sends a value for it, and it stays pending, as long as the
    run neither calls [blocked_value_injected_received] or
    [blocked_value_rejected_received] of the service with [k] nor resets
    the pending flags on leaving UP; each of these three clears the flag. *)
Theorem pending_blocks_sends hash ops s :
  pending k s ->
  Forall (fun op => ~ clears k op) ops ->
  OutReset ∉ (run hash ops s).2 ->
  (pending k (run hash ops s).1 /\
   forall topic value, OutSendValue k topic value ∉ (run hash ops s).2) /\
  (forall s', ~ pending k (blocked_value_injected_received k s').1.1) /\
  (forall s', ~ pending k (blocked_value_rejected_received k s').1.1) /\
  (forall s', ~ pending k (reset_pending_values s').1.1).
Proof.
  intros Hp Hops Hnr. split; [|split; [|split]].
  - destruct (keeps_run is_reset (not_send k) (pending k) hash ops s)
      as [Hex|[Hp' Hl]].
    + eapply Forall_impl; [exact Hops|]. intros op Hc.
      apply keeps_step_pending, Hc.
    + exact Hp.
    + apply Exists_exists in Hex as (o & Hin & ->). contradiction.
    + split; [exact Hp'|]. intros topic value Hin.
      rewrite Forall_forall in Hl. apply (Hl _ Hin topic value). reflexivity.
  - intros s'. apply cleared_not_pending.
  - intros s'. apply cleared_not_pending.
  - apply reset_not_pending.
Qed.

End Pending.

(** *** A run of the bridge *)

Lemma waiting_pending : pending "t" waiting.
Proof.
  eexists. split; [vm_compute; reflexivity|reflexivity].
Qed.

(** C1, as stated, fails: after the reply ["RECEIVED"] the rule "t" sends
    its next value although no [valueInjected] or [valueRejected] has been
    processed, because leaving UP cleared the flag. *)
Lemma send_after_reconnect_without_control_message :
  ~ (forall hash k ops s,
       pending k s ->
       Forall (fun op => ~ is_control op) ops ->
       forall topic value, OutSendValue k topic value ∉ (run hash ops s).2).
Proof.
  intros H.
  apply (H hash0 "t"%string reconnect waiting waiting_pending)
    with (topic := "t"%string) (value := value2).
  - unfold reconnect. repeat constructor; intros [].
  - vm_compute. repeat constructor.
Qed.

(** The control message as the receive thread hands it to the
    [RemotePair]: the call raises and the flag stays. *)
Lemma command_value_injected_raises topic s :
  step hash0 (OpCommandValueInjected topic) s = (s, [], Raise TypeError) /\
  step hash0 (OpCommandValueRejected topic) s = (s, [], Raise TypeError).
Proof. split; reflexivity. Qed.

(** The runs above are followed to their end: every handler returns. *)
Lemma sample_runs_return :
  returns hash0 until_received configured = true /\
  returns hash0 reconnect waiting = true.
Proof. split; vm_compute; reflexivity. Qed.

(** Every handler of this run returns: the send loop of the trigger run
    meets the pending rule with an empty queue, the value is written
    after it. *)
Lemma pending_blocks_sends_witness :
  returns hash0 [OpHandleTriggers 1200000 5 [];
                 OpStoreSetValue "t" value2 1300000;
                 OpPingReceived 3] waiting = true /\
  pending "t" (run hash0 [OpHandleTriggers 1200000 5 [];
                          OpStoreSetValue "t" value2 1300000;
                          OpPingReceived 3] waiting).1 /\
  ~ pending "t" (blocked_value_injected_received "t" waiting).1.1.
Proof.
  split; [vm_compute; reflexivity|].
  destruct (pending_blocks_sends "t" hash0
              [OpHandleTriggers 1200000 5 [];
               OpStoreSetValue "t" value2 1300000;
               OpPingReceived 3] waiting)
    as ((Hp & _) & Hi & _).
  - exact waiting_pending.
  - repeat constructor; unfold clears; intros [H|H]; discriminate H.
  - vm_compute. intros H. inversion H.
  - split; [exact Hp|apply Hi].
Defined.

Lemma value_received_result_witness :
  value_received hash0 "r" value1 5 waiting
  = (set_store
       (set_value hash0 "r" value1 5 (vstore waiting) (world waiting)).1.1.1
       (set_value hash0 "r" value1 5 (vstore waiting) (world waiting)).1.1.2
       waiting,
     [], Ok "INJECTED"%string) /\
  value_received hash0 "x" value1 5 waiting
  = (waiting, [], Ok "REJECTED"%string).
Proof.
  assert (Hnp : no_pending_values waiting).
  { apply run_no_pending_values. intros key rule H.
    assert (Hr : receive_rules configured
                 = [("r"%string, mkReceiveRule "r" PNone)])
      by (vm_compute; reflexivity).
    rewrite Hr in H. cbn [dict_get] in H.
    destruct (decide (key = "r"%string)); [|discriminate].
    injection H as <-. reflexivity. }
  destruct (value_received_result hash0 "x" value1 5 waiting eq_refl Hnp)
    as (Hrej & _).
  split.
  - eapply value_received_injected; [reflexivity|vm_compute; reflexivity
                                     |reflexivity|reflexivity].
  - apply Hrej. right. vm_compute. reflexivity.
Defined.

End RemoteSpec.

(** ** The object encoding *)

Module MsgPackSpec.
Import Py MsgPack.

(** *** Bytes and big-endian numbers *)

Lemma Z_of_byte_range b : 0 <= Z_of_byte b < 256.
Proof.
  unfold Z_of_byte. pose proof (Byte.to_N_bounded b). lia.
Qed.

Lemma Z_of_byte_of_Z_mod z : Z_of_byte (byte_of_Z z) = z mod 256.
Proof.
  unfold Z_of_byte, byte_of_Z.
  pose proof (Z.mod_pos_bound z 256 ltac:(lia)) as Hm.
  destruct (Byte.of_N (Z.to_N (z mod 256))) as [b|] eqn:E.
  - apply Byte.to_of_N in E. rewrite E. lia.
  - apply Byte.of_N_None_iff in E. lia.
Qed.

Lemma Z_of_byte_of_Z z : 0 <= z < 256 -> Z_of_byte (byte_of_Z z) = z.
Proof. intros H. rewrite Z_of_byte_of_Z_mod. apply Z.mod_small. exact H. Qed.

Lemma length_be_bytes n z : length (be_bytes n z) = n.
Proof. induction n as [|n IH]; cbn [be_bytes length]; [reflexivity|]. now rewrite IH. Qed.

Lemma fold_be_bytes n : forall z acc,
  fold_left (fun a b => a * 256 + Z_of_byte b) (be_bytes n z) acc
  = acc * 256 ^ Z.of_nat n + z mod 256 ^ Z.of_nat n.
Proof.
  induction n as [|n IH]; intros z acc.
  - cbn [be_bytes fold_left]. rewrite Z.pow_0_r, Z.mod_1_r. lia.
  - cbn [be_bytes fold_left]. rewrite IH, Z_of_byte_of_Z_mod.
    rewrite Nat2Z.inj_succ, Z.pow_succ_r by lia.
    assert (Hp : 0 < 256 ^ Z.of_nat n) by (apply Z.pow_pos_nonneg; lia).
    rewrite (Z.mul_comm 256 (256 ^ Z.of_nat n)).
    rewrite (Z.rem_mul_r z (256 ^ Z.of_nat n) 256) by lia.
    lia.
Qed.

Lemma be_value_be_bytes n z :
  0 <= z < 256 ^ Z.of_nat n -> be_value (be_bytes n z) = z.
Proof.
  intros H. unfold be_value. rewrite fold_be_bytes.
  rewrite Z.mod_small by exact H. lia.
Qed.

Lemma read_bytes_app (d rest : bytes) n :
  n = Z.of_nat (length d) ->
  read_bytes n (d ++ rest) = Unpacked d rest.
Proof.
  intros ->. unfold read_bytes. rewrite length_app.
  destruct (Z.ltb_spec (Z.of_nat (length d + length rest)) (Z.of_nat (length d)));
    [lia|].
  rewrite Nat2Z.id. rewrite take_app_length, drop_app_length. reflexivity.
Qed.

Lemma read_uint_be (k : nat) z rest :
  0 <= z < 256 ^ Z.of_nat k ->
  read_uint (Z.of_nat k) (be_bytes k z ++ rest) = Unpacked z rest.
Proof.
  intros H. unfold read_uint.
  rewrite read_bytes_app by (rewrite length_be_bytes; reflexivity).
  rewrite be_value_be_bytes by exact H. reflexivity.
Qed.

Lemma read_uint_be' n (k : nat) z rest :
  n = Z.of_nat k -> 0 <= z < 256 ^ n ->
  read_uint n (be_bytes k z ++ rest) = Unpacked z rest.
Proof. intros ->. apply read_uint_be. Qed.

Lemma read_int_be n (k : nat) z rest :
  n = Z.of_nat k -> 0 < n -> - 2 ^ (8 * n - 1) <= z < 0 ->
  read_int n (be_bytes k (z + 2 ^ (8 * n)) ++ rest) = Unpacked z rest.
Proof.
  intros Hn Hpos Hz. unfold read_int, signed.
  assert (Hpow : 2 ^ (8 * n) = 2 * 2 ^ (8 * n - 1)).
  { rewrite <- Z.pow_succ_r by lia. f_equal. lia. }
  assert (H256 : 256 ^ n = 2 ^ (8 * n)).
  { change 256 with (2 ^ 8). rewrite <- Z.pow_mul_r by lia. reflexivity. }
  rewrite (read_uint_be' n k) by (try assumption; rewrite H256; lia).
  destruct (Z.ltb_spec (z + 2 ^ (8 * n)) (2 ^ (8 * n - 1))); [lia|].
  f_equal. lia.
Qed.

(** *** The first byte *)

Ltac decide_tag :=
  repeat match goal with
  | |- context [?a <? ?b] =>
      first [rewrite (proj2 (Z.ltb_lt a b)) by lia
            |rewrite (proj2 (Z.ltb_ge a b)) by lia]
  | |- context [?a =? ?b] => rewrite (proj2 (Z.eqb_neq a b)) by lia
  | |- context [?a <=? ?b] => rewrite (proj2 (Z.leb_le a b)) by lia
  end.

Lemma unpack_fixint f t rest :
  0 <= t < 128 -> unpack (S f) (byte_of_Z t :: rest) = Unpacked (PInt t) rest.
Proof.
  intros H. cbn [unpack]. rewrite Z_of_byte_of_Z by lia. cbv zeta.
  decide_tag. reflexivity.
Qed.

Lemma unpack_negative_fixint f t rest :
  224 <= t < 256 ->
  unpack (S f) (byte_of_Z t :: rest) = Unpacked (PInt (t - 256)) rest.
Proof.
  intros H. cbn [unpack]. rewrite Z_of_byte_of_Z by lia. cbv zeta.
  decide_tag. reflexivity.
Qed.

Lemma unpack_fixstr f t rest :
  160 <= t < 192 ->
  unpack (S f) (byte_of_Z t :: rest) = read_str (t - 160) rest.
Proof.
  intros H. cbn [unpack]. rewrite Z_of_byte_of_Z by lia. cbv zeta.
  decide_tag. reflexivity.
Qed.

Lemma unpack_fixmap f t rest :
  128 <= t < 144 ->
  unpack (S f) (byte_of_Z t :: rest) = unpack_map (unpack f) (t - 128) rest.
Proof.
  intros H. cbn [unpack]. rewrite Z_of_byte_of_Z by lia. cbv zeta.
  decide_tag. reflexivity.
Qed.

Lemma unpack_fixarray f t rest :
  144 <= t < 160 ->
  unpack (S f) (byte_of_Z t :: rest) = unpack_array (unpack f) (t - 144) rest.
Proof.
  intros H. cbn [unpack]. rewrite Z_of_byte_of_Z by lia. cbv zeta.
  decide_tag. reflexivity.
Qed.

(** *** Scalars *)

Lemma Ok_inj {A} (a b : A) : Ok a = Ok b -> a = b.
Proof. congruence. Qed.

Lemma unpack_pack_int z bs f rest :
  pack_int z = Ok bs ->
  unpack (S f) (bs ++ rest) = Unpacked (PInt z) rest.
Proof.
  unfold pack_int. intros H.
  repeat match type of H with
  | (if ?c then _ else _) = _ => destruct c eqn:?
  end; try discriminate; apply Ok_inj in H; subst bs;
  repeat match goal with
  | E : _ && _ = true |- _ => apply andb_prop in E as [? ?]
  | E : (_ <=? _) = true |- _ => apply Z.leb_le in E
  | E : (_ <? _) = true |- _ => apply Z.ltb_lt in E
  end.
  - apply unpack_fixint. lia.
  - cbn [app]. rewrite unpack_negative_fixint by lia. f_equal. f_equal. lia.
  - change (unpack (S f) ((xcc :: be_bytes 1 z) ++ rest))
      with (as_int_object (read_uint 1 (be_bytes 1 z ++ rest))).
    rewrite (read_uint_be' 1 1) by (try reflexivity; lia).
    reflexivity.
  - change (unpack (S f) ((xd0 :: be_bytes 1 (z + 2 ^ 8)) ++ rest))
      with (as_int_object
              (read_int 1 (be_bytes 1 (z + 2 ^ (8 * 1)) ++ rest))).
    rewrite (read_int_be 1 1) by (try reflexivity; lia). reflexivity.
  - change (unpack (S f) ((xcd :: be_bytes 2 z) ++ rest))
      with (as_int_object (read_uint 2 (be_bytes 2 z ++ rest))).
    rewrite (read_uint_be' 2 2) by (try reflexivity; lia).
    reflexivity.
  - change (unpack (S f) ((xd1 :: be_bytes 2 (z + 2 ^ 16)) ++ rest))
      with (as_int_object
              (read_int 2 (be_bytes 2 (z + 2 ^ (8 * 2)) ++ rest))).
    rewrite (read_int_be 2 2) by (try reflexivity; lia). reflexivity.
  - change (unpack (S f) ((xce :: be_bytes 4 z) ++ rest))
      with (as_int_object (read_uint 4 (be_bytes 4 z ++ rest))).
    rewrite (read_uint_be' 4 4) by (try reflexivity; lia).
    reflexivity.
  - change (unpack (S f) ((xd2 :: be_bytes 4 (z + 2 ^ 32)) ++ rest))
      with (as_int_object
              (read_int 4 (be_bytes 4 (z + 2 ^ (8 * 4)) ++ rest))).
    rewrite (read_int_be 4 4) by (try reflexivity; lia). reflexivity.
  - change (unpack (S f) ((xcf :: be_bytes 8 z) ++ rest))
      with (as_int_object (read_uint 8 (be_bytes 8 z ++ rest))).
    rewrite (read_uint_be' 8 8) by (try reflexivity; lia).
    reflexivity.
  - change (unpack (S f) ((xd3 :: be_bytes 8 (z + 2 ^ 64)) ++ rest))
      with (as_int_object
              (read_int 8 (be_bytes 8 (z + 2 ^ (8 * 8)) ++ rest))).
    rewrite (read_int_be 8 8) by (try reflexivity; lia). reflexivity.
Qed.

Lemma read_str_app (d rest : bytes) n :
  n = Z.of_nat (length d) ->
  read_str n (d ++ rest) = Unpacked (PStr (string_of_list_byte d)) rest.
Proof. intros H. unfold read_str. rewrite read_bytes_app by exact H. reflexivity. Qed.

Lemma read_bin_app (d rest : bytes) n :
  n = Z.of_nat (length d) ->
  read_bin n (d ++ rest) = Unpacked (PBytes d) rest.
Proof. intros H. unfold read_bin. rewrite read_bytes_app by exact H. reflexivity. Qed.

Ltac split_ranges H :=
  repeat match type of H with
  | (if ?c then _ else _) = _ => destruct c eqn:?
  end; try discriminate; apply Ok_inj in H;
  repeat match goal with
  | E : _ && _ = true |- _ => apply andb_prop in E as [? ?]
  | E : (_ <=? _) = true |- _ => apply Z.leb_le in E
  | E : (_ <? _) = true |- _ => apply Z.ltb_lt in E
  | E : (_ <? _) = false |- _ => apply Z.ltb_ge in E
  end.

Lemma unpack_pack_str data bs f rest :
  pack_str data = Ok bs ->
  unpack (S f) (bs ++ rest) = Unpacked (PStr (string_of_list_byte data)) rest.
Proof.
  unfold pack_str. intros H. split_ranges H; subst bs.
  - cbn [app]. rewrite unpack_fixstr by lia.
    apply read_str_app. lia.
  - rewrite <- app_comm_cons, <- app_assoc.
    change (unpack (S f) (xd9 :: ?r)) with (with_length 1 r read_str).
    unfold with_length.
    rewrite (read_uint_be' 1 1) by (try reflexivity; lia).
    apply read_str_app. reflexivity.
  - rewrite <- app_comm_cons, <- app_assoc.
    change (unpack (S f) (xda :: ?r)) with (with_length 2 r read_str).
    unfold with_length.
    rewrite (read_uint_be' 2 2) by (try reflexivity; lia).
    apply read_str_app. reflexivity.
  - rewrite <- app_comm_cons, <- app_assoc.
    change (unpack (S f) (xdb :: ?r)) with (with_length 4 r read_str).
    unfold with_length.
    rewrite (read_uint_be' 4 4) by (try reflexivity; lia).
    apply read_str_app. reflexivity.
Qed.

Lemma unpack_pack_bin data bs f rest :
  pack_bin data = Ok bs ->
  unpack (S f) (bs ++ rest) = Unpacked (PBytes data) rest.
Proof.
  unfold pack_bin. intros H. split_ranges H; subst bs.
  - rewrite <- app_comm_cons, <- app_assoc.
    change (unpack (S f) (xc4 :: ?r)) with (with_length 1 r read_bin).
    unfold with_length.
    rewrite (read_uint_be' 1 1) by (try reflexivity; lia).
    apply read_bin_app. reflexivity.
  - rewrite <- app_comm_cons, <- app_assoc.
    change (unpack (S f) (xc5 :: ?r)) with (with_length 2 r read_bin).
    unfold with_length.
    rewrite (read_uint_be' 2 2) by (try reflexivity; lia).
    apply read_bin_app. reflexivity.
  - rewrite <- app_comm_cons, <- app_assoc.
    change (unpack (S f) (xc6 :: ?r)) with (with_length 4 r read_bin).
    unfold with_length.
    rewrite (read_uint_be' 4 4) by (try reflexivity; lia).
    apply read_bin_app. reflexivity.
Qed.

(** *** Extension data and timestamps *)

Lemma read_byte b (l : bytes) : read_bytes 1 (b :: l) = Unpacked [b] l.
Proof.
  unfold read_bytes. cbn [length].
  destruct (Z.ltb_spec (Z.of_nat (S (length l))) 1); [lia|]. reflexivity.
Qed.

Lemma be_value_single b : be_value [b] = Z_of_byte b.
Proof. unfold be_value. cbn [fold_left]. lia. Qed.

Lemma read_type_byte code (l : bytes) :
  -128 <= code < 128 ->
  read_int 1 (byte_of_Z code :: l) = Unpacked code l.
Proof.
  intros H. unfold read_int, read_uint. rewrite read_byte, be_value_single.
  rewrite Z_of_byte_of_Z_mod. unfold signed. f_equal.
  change (2 ^ (8 * 1 - 1)) with 128. change (2 ^ (8 * 1)) with 256.
  destruct (Z.ltb_spec (code mod 256) 128) as [Hm|Hm].
  - destruct (Z.lt_ge_cases code 0) as [Hn|Hn].
    + rewrite <- (Z.mod_add code 1 256) in Hm by lia.
      rewrite Z.mod_small in Hm by lia. lia.
    + apply Z.mod_small. lia.
  - destruct (Z.lt_ge_cases code 0) as [Hn|Hn].
    + rewrite <- (Z.mod_add code 1 256) by lia.
      rewrite Z.mod_small by lia. lia.
    + rewrite Z.mod_small in Hm by lia. lia.
Qed.

Lemma read_ext_app code (data rest : bytes) n :
  0 <= code < 128 -> n = Z.of_nat (length data) ->
  read_ext n (byte_of_Z code :: data ++ rest) = Unpacked (PExt code data) rest.
Proof.
  intros Hc Hn. unfold read_ext. rewrite read_type_byte by lia.
  rewrite read_bytes_app by exact Hn.
  destruct (Z.eqb_spec code (-1)); [lia|].
  destruct (Z.leb_spec 0 code); [reflexivity|lia].
Qed.

Lemma read_ext_timestamp (data rest : bytes) n :
  n = Z.of_nat (length data) ->
  read_ext n (xff :: data ++ rest)
  = match timestamp_of data with
    | Ok o => Unpacked o rest
    | Raise e => UnpackError e
    end.
Proof.
  intros Hn. unfold read_ext.
  change xff with (byte_of_Z (-1)). rewrite read_type_byte by lia.
  rewrite read_bytes_app by exact Hn. reflexivity.
Qed.

Lemma unpack_pack_ext code data bs f rest :
  0 <= code < 128 ->
  pack_ext code data = Ok bs ->
  unpack (S f) (bs ++ rest) = Unpacked (PExt code data) rest.
Proof.
  intros Hc. unfold pack_ext. intros H.
  repeat match type of H with
  | (if ?c then _ else _) = _ => destruct c eqn:?
  end; try discriminate; apply Ok_inj in H; subst bs;
  repeat match goal with
  | E : (_ =? _) = true |- _ => apply Z.eqb_eq in E
  | E : (_ =? _) = false |- _ => apply Z.eqb_neq in E
  | E : (_ <? _) = true |- _ => apply Z.ltb_lt in E
  | E : (_ <? _) = false |- _ => apply Z.ltb_ge in E
  end.
  - change (unpack (S f) ((xd4 :: ?r) ++ rest))
      with (read_ext 1 (r ++ rest)).
    rewrite <- app_comm_cons. apply read_ext_app; lia.
  - change (unpack (S f) ((xd5 :: ?r) ++ rest))
      with (read_ext 2 (r ++ rest)).
    rewrite <- app_comm_cons. apply read_ext_app; lia.
  - change (unpack (S f) ((xd6 :: ?r) ++ rest))
      with (read_ext 4 (r ++ rest)).
    rewrite <- app_comm_cons. apply read_ext_app; lia.
  - change (unpack (S f) ((xd7 :: ?r) ++ rest))
      with (read_ext 8 (r ++ rest)).
    rewrite <- app_comm_cons. apply read_ext_app; lia.
  - change (unpack (S f) ((xd8 :: ?r) ++ rest))
      with (read_ext 16 (r ++ rest)).
    rewrite <- app_comm_cons. apply read_ext_app; lia.
  - rewrite <- app_comm_cons, <- app_assoc.
    change (unpack (S f) (xc7 :: ?r)) with (with_length 1 r read_ext).
    unfold with_length.
    rewrite (read_uint_be' 1 1) by (try reflexivity; lia).
    rewrite <- app_comm_cons. apply read_ext_app; lia.
  - rewrite <- app_comm_cons, <- app_assoc.
    change (unpack (S f) (xc8 :: ?r)) with (with_length 2 r read_ext).
    unfold with_length.
    rewrite (read_uint_be' 2 2) by (try reflexivity; lia).
    rewrite <- app_comm_cons. apply read_ext_app; lia.
  - rewrite <- app_comm_cons, <- app_assoc.
    change (unpack (S f) (xc9 :: ?r)) with (with_length 4 r read_ext).
    unfold with_length.
    rewrite (read_uint_be' 4 4) by (try reflexivity; lia).
    rewrite <- app_comm_cons. apply read_ext_app; lia.
Qed.

Lemma shiftr_34_zero seconds :
  Z.shiftr seconds 34 = 0 <-> 0 <= seconds < 2 ^ 34.
Proof.
  rewrite Z.shiftr_div_pow2 by lia. split.
  - intros H. pose proof (Z.div_mod seconds (2 ^ 34) ltac:(lia)).
    pose proof (Z.mod_pos_bound seconds (2 ^ 34) ltac:(lia)). lia.
  - intros H. apply Z.div_small. exact H.
Qed.

Lemma lor_shiftl_34 n s :
  0 <= n -> 0 <= s < 2 ^ 34 ->
  Z.lor (Z.shiftl n 34) s = n * 2 ^ 34 + s.
Proof.
  intros Hn Hs.
  assert (Hland : Z.land (Z.shiftl n 34) s = 0).
  { apply Z.bits_inj'. intros k Hk. rewrite Z.land_spec, Z.bits_0.
    destruct (Z.lt_ge_cases k 34) as [Hlt|Hge].
    - rewrite Z.shiftl_spec_low by exact Hlt. reflexivity.
    - destruct (Z.eq_dec s 0) as [->|Hne];
        [rewrite Z.bits_0; apply andb_false_r|].
      rewrite (Z.bits_above_log2 s k); [apply andb_false_r|lia|].
      apply Z.log2_lt_pow2; [lia|].
      apply Z.lt_le_trans with (2 ^ 34); [lia|].
      apply Z.pow_le_mono_r; lia. }
  rewrite <- Z.lxor_lor by exact Hland.
  rewrite <- Z.add_nocarry_lxor by exact Hland.
  rewrite Z.shiftl_mul_pow2 by lia. reflexivity.
Qed.

Lemma high_bits_zero x :
  0 <= x < 2 ^ 64 -> Z.land x (2 ^ 64 - 2 ^ 32) = 0 -> x < 2 ^ 32.
Proof.
  intros Hx Hl. destruct (Z.lt_ge_cases x (2 ^ 32)) as [|Hge]; [assumption|].
  exfalso.
  assert (Hk : 32 <= Z.log2 x < 64).
  { split.
    - apply Z.log2_le_pow2; lia.
    - apply Z.log2_lt_pow2; lia. }
  assert (Hbit : Z.testbit (Z.land x (2 ^ 64 - 2 ^ 32)) (Z.log2 x) = true).
  { rewrite Z.land_spec, Z.bit_log2 by lia.
    change (2 ^ 64 - 2 ^ 32) with (Z.shiftl (Z.ones 32) 32).
    rewrite Z.shiftl_spec by lia.
    rewrite Z.ones_spec_low by lia. reflexivity. }
  rewrite Hl, Z.bits_0 in Hbit. discriminate.
Qed.

Lemma signed_mod seconds :
  - 2 ^ 63 <= seconds < 2 ^ 63 -> signed 8 (seconds mod 2 ^ 64) = seconds.
Proof.
  intros H. unfold signed.
  change (2 ^ (8 * 8 - 1)) with (2 ^ 63). change (2 ^ (8 * 8)) with (2 ^ 64).
  destruct (Z.lt_ge_cases seconds 0) as [Hn|Hn].
  - rewrite <- (Z.mod_add seconds 1 (2 ^ 64)) by lia.
    rewrite Z.mod_small by lia.
    destruct (Z.ltb_spec (seconds + 1 * 2 ^ 64) (2 ^ 63)); lia.
  - rewrite Z.mod_small by lia.
    destruct (Z.ltb_spec seconds (2 ^ 63)); lia.
Qed.

Lemma unpack_pack_timestamp seconds nanoseconds bs f rest :
  pack_timestamp seconds nanoseconds = Ok bs ->
  unpack (S f) (bs ++ rest) = Unpacked (PTimestamp seconds nanoseconds) rest.
Proof.
  unfold pack_timestamp. intros H.
  destruct ((0 <=? nanoseconds) && (nanoseconds <? 10 ^ 9)) eqn:En;
    [|discriminate].
  apply andb_prop in En as [En0 En1].
  apply Z.leb_le in En0. apply Z.ltb_lt in En1.
  destruct ((- 2 ^ 63 <=? seconds) && (seconds <? 2 ^ 63)) eqn:Es;
    [|discriminate].
  apply andb_prop in Es as [Es0 Es1].
  apply Z.leb_le in Es0. apply Z.ltb_lt in Es1.
  cbn [negb] in H.
  assert (Hnano : (nanoseconds <? 10 ^ 9) = true) by (apply Z.ltb_lt; lia).
  destruct (Z.eqb_spec (Z.shiftr seconds 34) 0) as [Hs|Hs].
  - apply shiftr_34_zero in Hs.
    rewrite lor_shiftl_34 in H by lia.
    assert (H64 : 0 <= nanoseconds * 2 ^ 34 + seconds < 2 ^ 64) by lia.
    destruct (Z.eqb_spec (Z.land (nanoseconds * 2 ^ 34 + seconds)
                                 (2 ^ 64 - 2 ^ 32)) 0) as [Hh|Hh].
    + apply high_bits_zero in Hh; [|exact H64].
      assert (nanoseconds = 0) by lia. subst nanoseconds.
      apply Ok_inj in H. subst bs.
      change (unpack (S f) ((xd6 :: xff :: ?d) ++ rest))
        with (read_ext 4 (xff :: d ++ rest)).
      rewrite read_ext_timestamp by reflexivity.
      unfold timestamp_of. rewrite length_be_bytes.
      rewrite be_value_be_bytes by (change (256 ^ Z.of_nat 4) with (2 ^ 32); lia).
      change (0 <? 10 ^ 9) with true. cbv iota.
      rewrite Z.add_0_l. reflexivity.
    + apply Ok_inj in H. subst bs.
      change (unpack (S f) ((xd7 :: xff :: ?d) ++ rest))
        with (read_ext 8 (xff :: d ++ rest)).
      rewrite read_ext_timestamp by reflexivity.
      unfold timestamp_of. rewrite length_be_bytes.
      rewrite be_value_be_bytes by (change (256 ^ Z.of_nat 8) with (2 ^ 64); lia).
      change (2 ^ 34 - 1) with (Z.ones 34).
      rewrite Z.land_ones, Z.shiftr_div_pow2 by lia.
      rewrite Z.add_comm, Z.mod_add, Z.div_add by lia.
      rewrite Z.mod_small, Z.div_small by lia.
      rewrite Z.add_0_l, Hnano. reflexivity.
  - assert (Hout : ~ 0 <= seconds < 2 ^ 34)
      by (intros Hin; apply Hs, shiftr_34_zero, Hin).
    apply Ok_inj in H. subst bs.
    rewrite <- !app_comm_cons.
    change (unpack (S f) (xc7 :: ?r)) with (with_length 1 r read_ext).
    unfold with_length, read_uint. rewrite read_byte, be_value_single.
    change (Z_of_byte x0c) with 12.
    rewrite read_ext_timestamp
      by (rewrite length_app, !length_be_bytes; reflexivity).
    unfold timestamp_of. rewrite length_app, !length_be_bytes.
    cbn [Nat.add].
    rewrite take_app_length' by (symmetry; apply length_be_bytes).
    rewrite drop_app_length' by (symmetry; apply length_be_bytes).
    rewrite (be_value_be_bytes 4)
      by (change (256 ^ Z.of_nat 4) with (2 ^ 32); lia).
    rewrite (be_value_be_bytes 8)
      by (change (256 ^ Z.of_nat 8) with (2 ^ 64);
          apply Z.mod_pos_bound; lia).
    rewrite signed_mod by lia. rewrite Hnano. reflexivity.
Qed.

(** *** Arrays *)

Lemma unpack_array_header len hd f rest :
  pack_array_header len = Ok hd ->
  unpack (S f) (hd ++ rest) = unpack_array (unpack f) (Z.of_nat len) rest.
Proof.
  unfold pack_array_header. intros H. split_ranges H; subst hd.
  - cbn [app]. rewrite unpack_fixarray by lia. f_equal. lia.
  - rewrite <- app_comm_cons.
    change (unpack (S f) (xdc :: ?r))
      with (with_length 2 r (unpack_array (unpack f))).
    unfold with_length.
    rewrite (read_uint_be' 2 2) by (try reflexivity; lia). reflexivity.
  - rewrite <- app_comm_cons.
    change (unpack (S f) (xdd :: ?r))
      with (with_length 4 r (unpack_array (unpack f))).
    unfold with_length.
    rewrite (read_uint_be' 4 4) by (try reflexivity; lia). reflexivity.
Qed.

Lemma pack_list l :
  pack (PList l) =
    (header ← pack_array_header (length l); body ← pack_all l;
     Ok (header ++ body)).
Proof.
  cbn [pack]. destruct (pack_array_header (length l)); [|reflexivity].
  cbn [mbind result_bind]. f_equal.
Qed.

Lemma pack_tuple l : pack (PTuple l) = pack (PList l).
Proof. reflexivity. Qed.

Lemma unpack_seq_pack_all f l : forall body rest,
  Forall reads_back l ->
  pack_all l = Ok body ->
  forallb readable l = true ->
  (foldr (fun x d => Nat.max (depth x) d) O l < f)%nat ->
  unpack_seq (unpack f) (length l) (body ++ rest)
  = Unpacked (map packed_form l) rest.
Proof.
  induction l as [|x l IH]; intros body rest Hall Hp Hr Hd.
  - apply Ok_inj in Hp. subst body. reflexivity.
  - apply Forall_cons in Hall as [Hx Hall].
    cbn [pack_all] in Hp.
    destruct (pack x) as [bx|] eqn:Ex; [|discriminate].
    cbn [mbind result_bind] in Hp.
    destruct (pack_all l) as [br|] eqn:El; [|discriminate].
    cbn [mbind result_bind] in Hp. apply Ok_inj in Hp. subst body.
    cbn [forallb] in Hr. apply andb_prop in Hr as [Hrx Hrl].
    cbn [foldr] in Hd.
    cbn [length unpack_seq map]. rewrite <- app_assoc.
    rewrite (Hx bx (br ++ rest) f Ex Hrx) by lia.
    rewrite (IH br rest Hall eq_refl Hrl) by lia.
    reflexivity.
Qed.

(** *** Maps *)

Lemma unpack_map_header len hd f rest :
  pack_map_header len = Ok hd ->
  unpack (S f) (hd ++ rest) = unpack_map (unpack f) (Z.of_nat len) rest.
Proof.
  unfold pack_map_header. intros H. split_ranges H; subst hd.
  - cbn [app]. rewrite unpack_fixmap by lia. f_equal. lia.
  - rewrite <- app_comm_cons.
    change (unpack (S f) (xde :: ?r))
      with (with_length 2 r (unpack_map (unpack f))).
    unfold with_length.
    rewrite (read_uint_be' 2 2) by (try reflexivity; lia). reflexivity.
  - rewrite <- app_comm_cons.
    change (unpack (S f) (xdf :: ?r))
      with (with_length 4 r (unpack_map (unpack f))).
    unfold with_length.
    rewrite (read_uint_be' 4 4) by (try reflexivity; lia). reflexivity.
Qed.

Lemma pack_dict items :
  pack (PDict items) =
    (header ← pack_map_header (length items); body ← pack_items items;
     Ok (header ++ body)).
Proof.
  cbn [pack]. destruct (pack_map_header (length items)); [|reflexivity].
  cbn [mbind result_bind]. f_equal.
Qed.

Lemma distinct_keys_app l1 k l2 :
  distinct_keys (l1 ++ k :: l2) = true ->
  Forall (fun k' => key_eqb k' k = false) l1.
Proof.
  induction l1 as [|x l1 IH]; intros H; [constructor|].
  cbn [app distinct_keys] in H. apply andb_prop in H as [Hx Hl].
  constructor; [|apply IH, Hl].
  apply negb_true_iff in Hx. rewrite existsb_app in Hx.
  apply orb_false_elim in Hx as [_ Hx]. cbn [existsb] in Hx.
  apply orb_false_elim in Hx as [Hx _]. exact Hx.
Qed.

Lemma dict_set_new k v d :
  Forall (fun k' => key_eqb k' k = false) (map fst d) ->
  dict_set k v d = d ++ [(k, v)].
Proof.
  induction d as [|[k' v'] d IH]; intros H; [reflexivity|].
  cbn [map fst] in H. apply Forall_cons in H as [Hk Hd].
  cbn [dict_set]. rewrite Hk, (IH Hd). reflexivity.
Qed.

(** an object that is packed as a key of a map holds no dict *)
Lemma map_key_readable o :
  is_map_key (packed_form o) = true -> readable o = true.
Proof.
  induction o using pyobj_nested_ind; cbn [packed_form readable is_map_key];
    try reflexivity; try discriminate; assumption.
Qed.

Lemma unpack_items_pack_items f items : forall body rest d,
  Forall (fun kv => reads_back kv.1 /\ reads_back kv.2) items ->
  pack_items items = Ok body ->
  forallb (fun kv => is_map_key (packed_form kv.1) && readable kv.2) items
  = true ->
  distinct_keys (map fst d ++ map (fun kv => packed_form kv.1) items)
  = true ->
  (foldr (fun kv d => Nat.max (Nat.max (depth kv.1) (depth kv.2)) d) O items
   < f)%nat ->
  unpack_items (unpack f) (length items) (body ++ rest) d
  = Unpacked
      (d ++ map (fun kv => (packed_form kv.1, packed_form kv.2)) items) rest.
Proof.
  induction items as [|[k v] items IH]; intros body rest d Hall Hp Hr Hk Hd.
  - apply Ok_inj in Hp. subst body. cbn. rewrite app_nil_r. reflexivity.
  - apply Forall_cons in Hall as [[Hbk Hbv] Hall]. cbn [fst snd] in *.
    cbn [pack_items] in Hp.
    destruct (pack k) as [bk|] eqn:Ek; [|discriminate].
    cbn [mbind result_bind] in Hp.
    destruct (pack v) as [bv|] eqn:Ev; [|discriminate].
    cbn [mbind result_bind] in Hp.
    destruct (pack_items items) as [br|] eqn:El; [|discriminate].
    cbn [mbind result_bind] in Hp. apply Ok_inj in Hp. subst body.
    cbn [forallb fst snd] in Hr. apply andb_prop in Hr as [Hrkv Hrl].
    apply andb_prop in Hrkv as [Hkey Hrv].
    cbn [foldr fst snd] in Hd. cbn [map fst snd] in Hk.
    cbn [length unpack_items map fst snd]. rewrite <- !app_assoc.
    rewrite (Hbk bk (bv ++ br ++ rest) f Ek (map_key_readable k Hkey))
      by lia.
    rewrite (Hbv bv (br ++ rest) f Ev Hrv) by lia.
    rewrite Hkey.
    rewrite dict_set_new by (eapply distinct_keys_app; exact Hk).
    rewrite (IH br rest _ Hall eq_refl Hrl); [| |lia].
    + rewrite <- app_assoc. reflexivity.
    + rewrite map_app, <- app_assoc. exact Hk.
Qed.

(** *** Objects *)

(** Reading back what [packb] wrote for a readable object gives the object
    that was packed and leaves the rest of the stream. *)
Theorem unpack_pack o : forall bs rest fuel,
  pack o = Ok bs ->
  readable o = true ->
  (depth o < fuel)%nat ->
  unpack fuel (bs ++ rest) = Unpacked (packed_form o) rest.
Proof.
  change (reads_back o).
  induction o using pyobj_nested_ind; intros bs0 rest fuel Hp Hr Hd;
    (destruct fuel as [|f]; [lia|]).
  - apply Ok_inj in Hp. subst bs0. reflexivity.
  - destruct b; apply Ok_inj in Hp; subst bs0; reflexivity.
  - apply unpack_pack_int. exact Hp.
  - apply Ok_inj in Hp. subst bs0. reflexivity.
  - cbn [pack] in Hp. rewrite (unpack_pack_str _ _ _ _ Hp).
    rewrite string_of_list_byte_of_string. reflexivity.
  - apply unpack_pack_bin. exact Hp.
  - rewrite pack_list in Hp.
    destruct (pack_array_header (length l)) as [hd|] eqn:Eh; [|discriminate].
    cbn [mbind result_bind] in Hp.
    destruct (pack_all l) as [body|] eqn:Eb; [|discriminate].
    cbn [mbind result_bind] in Hp. apply Ok_inj in Hp. subst bs0.
    rewrite <- app_assoc. rewrite (unpack_array_header _ _ _ _ Eh).
    unfold unpack_array. rewrite Nat2Z.id.
    cbn [depth readable] in Hd, Hr.
    rewrite (unpack_seq_pack_all f l body rest H Eb Hr) by lia.
    reflexivity.
  - cbn [pack] in Hp. destruct (needs_default o); [discriminate|].
    cbn [depth readable packed_form] in *. apply IHo; assumption.
  - cbn [pack] in Hp. destruct (needs_default o); [discriminate|].
    cbn [depth readable packed_form] in *. apply IHo; assumption.
  - rewrite pack_tuple, pack_list in Hp.
    destruct (pack_array_header (length l)) as [hd|] eqn:Eh; [|discriminate].
    cbn [mbind result_bind] in Hp.
    destruct (pack_all l) as [body|] eqn:Eb; [|discriminate].
    cbn [mbind result_bind] in Hp. apply Ok_inj in Hp. subst bs0.
    rewrite <- app_assoc. rewrite (unpack_array_header _ _ _ _ Eh).
    unfold unpack_array. rewrite Nat2Z.id.
    cbn [depth readable] in Hd, Hr.
    rewrite (unpack_seq_pack_all f l body rest H Eb Hr) by lia.
    reflexivity.
  - rewrite pack_dict in Hp.
    destruct (pack_map_header (length items)) as [hd|] eqn:Eh;
      [|discriminate].
    cbn [mbind result_bind] in Hp.
    destruct (pack_items items) as [body|] eqn:Eb; [|discriminate].
    cbn [mbind result_bind] in Hp. apply Ok_inj in Hp. subst bs0.
    rewrite <- app_assoc. rewrite (unpack_map_header _ _ _ _ Eh).
    unfold unpack_map. rewrite Nat2Z.id.
    cbn [depth readable] in Hd, Hr. apply andb_prop in Hr as [Hr Hk].
    rewrite (unpack_items_pack_items f items body rest [] H Eb Hr Hk) by lia.
    reflexivity.
  - cbn [pack] in Hp.
    destruct ((0 <=? code) && (code <? 128)) eqn:Ec; [|discriminate].
    apply andb_prop in Ec as [E0 E1].
    apply Z.leb_le in E0. apply Z.ltb_lt in E1.
    apply unpack_pack_ext; [lia|exact Hp].
  - apply unpack_pack_timestamp. exact Hp.
Qed.

(** On an object made of lists, [Value]s and scalars, what is packed is
    what the helper of the recorder test computes, and the unpacker can
    build it. *)
Lemma packed_form_plain o :
  plain o = true -> packed_form o = fully_serialize o /\ readable o = true.
Proof.
  induction o using pyobj_nested_ind;
    cbn [plain packed_form fully_serialize readable];
    try (intros _; split; reflexivity); try discriminate;
    try assumption.
  intros Hp.
  assert (Hl : map packed_form l = map fully_serialize l /\
               forallb readable l = true).
  { induction l as [|x l IHl]; [split; reflexivity|].
    apply Forall_cons in H as [Hx Hl]. cbn [forallb] in Hp.
    apply andb_prop in Hp as [Hpx Hpl].
    destruct (Hx Hpx) as [E1 E2]. destruct (IHl Hl Hpl) as [E3 E4].
    cbn [map forallb]. rewrite E1, E2, E3, E4. split; reflexivity. }
  destruct Hl as [-> ->]. split; reflexivity.
Qed.

(** What is packed is at least as long as it is deep: the length of the
    stream is enough fuel. *)
Lemma pack_depth o : forall bs,
  pack o = Ok bs -> (depth o <= length bs)%nat.
Proof.
  induction o using pyobj_nested_ind; intros bs0 Hp;
    try (cbn [depth]; lia).
  - rewrite pack_list in Hp.
    destruct (pack_array_header (length l)) as [hd|] eqn:Eh; [|discriminate].
    cbn [mbind result_bind] in Hp.
    destruct (pack_all l) as [body|] eqn:Eb; [|discriminate].
    cbn [mbind result_bind] in Hp. apply Ok_inj in Hp. subst bs0.
    assert (Hhd : (1 <= length hd)%nat).
    { unfold pack_array_header in Eh.
      split_ranges Eh; subst hd; cbn [length]; lia. }
    assert (Hbody : (foldr (fun x d => Nat.max (depth x) d) O l
                     <= length body)%nat).
    { clear Eh Hhd hd. revert body Eb.
      induction l as [|x l IHl]; intros body Eb; [cbn; lia|].
      apply Forall_cons in H as [Hx Hl].
      cbn [pack_all] in Eb.
      destruct (pack x) as [bx|] eqn:Ex; [|discriminate].
      cbn [mbind result_bind] in Eb.
      destruct (pack_all l) as [br|] eqn:El; [|discriminate].
      cbn [mbind result_bind] in Eb. apply Ok_inj in Eb. subst body.
      specialize (Hx bx eq_refl). specialize (IHl Hl br eq_refl).
      cbn [foldr]. rewrite length_app. lia. }
    cbn [depth]. rewrite length_app. lia.
  - cbn [pack depth] in *. destruct (needs_default o); [discriminate|].
    apply IHo. exact Hp.
  - cbn [pack depth] in *. destruct (needs_default o); [discriminate|].
    apply IHo. exact Hp.
  - rewrite pack_tuple, pack_list in Hp.
    destruct (pack_array_header (length l)) as [hd|] eqn:Eh; [|discriminate].
    cbn [mbind result_bind] in Hp.
    destruct (pack_all l) as [body|] eqn:Eb; [|discriminate].
    cbn [mbind result_bind] in Hp. apply Ok_inj in Hp. subst bs0.
    assert (Hhd : (1 <= length hd)%nat).
    { unfold pack_array_header in Eh.
      split_ranges Eh; subst hd; cbn [length]; lia. }
    assert (Hbody : (foldr (fun x d => Nat.max (depth x) d) O l
                     <= length body)%nat).
    { clear Eh Hhd hd. revert body Eb.
      induction l as [|x l IHl]; intros body Eb; [cbn; lia|].
      apply Forall_cons in H as [Hx Hl].
      cbn [pack_all] in Eb.
      destruct (pack x) as [bx|] eqn:Ex; [|discriminate].
      cbn [mbind result_bind] in Eb.
      destruct (pack_all l) as [br|] eqn:El; [|discriminate].
      cbn [mbind result_bind] in Eb. apply Ok_inj in Eb. subst body.
      specialize (Hx bx eq_refl). specialize (IHl Hl br eq_refl).
      cbn [foldr]. rewrite length_app. lia. }
    cbn [depth]. rewrite length_app. lia.
  - rewrite pack_dict in Hp.
    destruct (pack_map_header (length items)) as [hd|] eqn:Eh;
      [|discriminate].
    cbn [mbind result_bind] in Hp.
    destruct (pack_items items) as [body|] eqn:Eb; [|discriminate].
    cbn [mbind result_bind] in Hp. apply Ok_inj in Hp. subst bs0.
    assert (Hhd : (1 <= length hd)%nat).
    { unfold pack_map_header in Eh.
      split_ranges Eh; subst hd; cbn [length]; lia. }
    assert (Hbody : (foldr (fun kv d =>
                              Nat.max (Nat.max (depth kv.1) (depth kv.2)) d)
                           O items
                     <= length body)%nat).
    { clear Eh Hhd hd. revert body Eb.
      induction items as [|[k v] items IHl]; intros body Eb; [cbn; lia|].
      apply Forall_cons in H as [[Hk Hv] Hl]. cbn [fst snd] in *.
      cbn [pack_items] in Eb.
      destruct (pack k) as [bk|] eqn:Ek; [|discriminate].
      cbn [mbind result_bind] in Eb.
      destruct (pack v) as [bv|] eqn:Ev; [|discriminate].
      cbn [mbind result_bind] in Eb.
      destruct (pack_items items) as [br|] eqn:El; [|discriminate].
      cbn [mbind result_bind] in Eb. apply Ok_inj in Eb. subst body.
      specialize (Hk bk eq_refl). specialize (Hv bv eq_refl).
      specialize (IHl Hl br eq_refl).
      cbn [foldr fst snd]. rewrite !length_app. lia. }
    cbn [depth]. rewrite length_app. lia.
Qed.

End MsgPackSpec.

(** ** Record framing *)

Module FramingSpec.
Import Py MsgPack MsgPackSpec RecQueue Recorder Reader Framing.

(** *** Reading what was packed *)

Lemma unpack_next_packed f start tell o bs pre post :
  pack o = Ok bs ->
  readable o = true ->
  f = pre ++ bs ++ post ->
  start + tell = Z.of_nat (length pre) ->
  unpack_next f start tell
  = (Unpacked (packed_form o) post, tell + Z.of_nat (length bs)).
Proof.
  intros Hp Hr -> Hpos. unfold unpack_next.
  rewrite Hpos, Nat2Z.id, drop_app_length.
  rewrite (unpack_pack o bs post _ Hp Hr).
  - f_equal. rewrite length_app. lia.
  - pose proof (pack_depth o bs Hp). rewrite length_app. lia.
Qed.

Lemma unpack_next_end f start tell :
  start + tell = Z.of_nat (length f) ->
  unpack_next f start tell = (OutOfData, tell).
Proof.
  intros Hpos. unfold unpack_next.
  rewrite Hpos, Nat2Z.id, drop_all. reflexivity.
Qed.

Lemma read_record_end f start tell :
  start + tell = Z.of_nat (length f) ->
  read_record f start tell = OutOfData.
Proof.
  intros H. unfold read_record, read_record_with.
  rewrite unpack_next_end by exact H.
  reflexivity.
Qed.

Lemma file_read_at (pre d post : bytes) pos n :
  pos = Z.of_nat (length pre) -> n = Z.of_nat (length d) ->
  file_read (pre ++ d ++ post) pos n = d.
Proof.
  intros -> ->. unfold file_read.
  destruct (Z.ltb_spec (Z.of_nat (length d)) 0); [lia|].
  rewrite !Nat2Z.id, drop_app_length, take_app_length. reflexivity.
Qed.

(** One packed record in the middle of a file, read at its first byte. *)
Lemma read_record_packet f pre post start tell
    time topic tid vid fields size present sc h v mh ext :
  pack_fields time topic tid vid fields size present sc = Ok (h, v, mh) ->
  readable fields = true ->
  f = pre ++ (h ++ v ++ mh ++ ext) ++ post ->
  start + tell = Z.of_nat (length pre) ->
  0 <= start -> 0 <= tell ->
  (present = true ->
   (if sc =? 0 then size else sc) = Z.of_nat (length ext)) ->
  (present = false -> ext = []) ->
  let hlen := Z.of_nat (length h) + Z.of_nat (length v)
              + Z.of_nat (length mh) in
  read_record f start tell =
    Unpacked
      (mkFileRecord (PInt time) (PStr topic) (PStr tid) (PInt vid)
                    (packed_form fields) (Z.of_nat (length v))
                    (PInt size) (Z.of_nat (length pre) + hlen)
                    (PBool present) (PInt sc),
       if present
       then Z.of_nat (length pre) + hlen + Z.of_nat (length ext)
       else start,
       if present then 0 else tell + hlen)
      [].
Proof.
  intros Hp Hr Hf Hpos Hs Ht Hpres Habs hlen. unfold pack_fields in Hp.
  destruct (pack (PList [PInt time; PStr topic; PStr tid; PInt vid]))
    as [h'|] eqn:Eh; [|discriminate].
  cbn [mbind result_bind] in Hp.
  destruct (pack fields) as [v'|] eqn:Ev; [|discriminate].
  cbn [mbind result_bind] in Hp.
  destruct (pack (PList [PInt size; PBool present; PInt sc]))
    as [mh'|] eqn:Em; [|discriminate].
  cbn [mbind result_bind] in Hp. apply Ok_inj in Hp.
  injection Hp as -> -> ->.
  unfold read_record, read_record_with.
  rewrite (unpack_next_packed f start tell _ h pre
             (v ++ mh ++ ext ++ post) Eh eq_refl)
    by (try assumption; subst f; rewrite <- !app_assoc; reflexivity).
  rewrite (unpack_next_packed f start (tell + Z.of_nat (length h)) _ v
             (pre ++ h) (mh ++ ext ++ post) Ev Hr)
    by (try (rewrite length_app; lia); subst f;
        rewrite <- !app_assoc; reflexivity).
  rewrite (unpack_next_packed f start
             (tell + Z.of_nat (length h) + Z.of_nat (length v)) _ mh
             (pre ++ h ++ v) (ext ++ post) Em eq_refl)
    by (try (rewrite !length_app; lia); subst f;
        rewrite <- !app_assoc; reflexivity).
  cbn [packed_form map subscript nth_error py_len length
       mbind result_bind].
  change (Z.of_nat 3 >? 2) with true.
  cbn [mbind result_bind truthy equals_zero].
  destruct present.
  - specialize (Hpres eq_refl).
    assert (Hsize : as_int (if sc =? 0 then PInt size else PInt sc)
                    = Ok (Z.of_nat (length ext))).
    { destruct (sc =? 0); cbn [as_int]; f_equal; exact Hpres. }
    rewrite Hsize. cbn [mbind result_bind].
    destruct (Z.ltb_spec
                (start + (tell + Z.of_nat (length h) + Z.of_nat (length v)
                          + Z.of_nat (length mh))
                 + Z.of_nat (length ext)) 0); [lia|].
    cbn [mbind result_bind]. unfold hlen.
    repeat (f_equal; try lia).
  - cbn [mbind result_bind]. unfold hlen.
    repeat (f_equal; try lia).
Qed.

(** *** Writing, then reading *)

Section RoundTrip.
Variable zlib_compress : bytes -> option bytes.
Variable zlib_decompress : bytes -> Z -> result bytes.
(** [zlib]: decompressing what was compressed gives the data back, whatever
    the size of the initial output buffer, and compressed data is never
    empty. *)
Hypothesis decompress_compress : forall data compressed bufsize,
  zlib_compress data = Some compressed -> 0 <= bufsize ->
  zlib_decompress compressed bufsize = Ok data.
Hypothesis compress_nonempty : forall data compressed,
  zlib_compress data = Some compressed -> compressed <> [].

(** The ExtMem part of a record and what the reader gets from it. *)
Lemma extmem_part_read tp extmem en co m size present sc data m'
    (f pre post : bytes) :
  extmem_part zlib_compress tp extmem en co m = (size, present, sc, data, m') ->
  let ext := match data with Some d => d | None => [] end in
  f = pre ++ ext ++ post ->
  (present = true -> (if sc =? 0 then size else sc) = Z.of_nat (length ext)) /\
  (present = false -> ext = []) /\
  forall ts tpc ty vi va vs,
    get_extmem zlib_decompress f
      (mkFileRecord ts tpc ty vi va vs (PInt size) (Z.of_nat (length pre))
                    (PBool present) (PInt sc))
    = Ok match extmem with
         | Some d => if en then PBytes d else PNone
         | None => PNone
         end.
Proof.
  intros He ext Hf. unfold extmem_part in He.
  destruct extmem as [d|]; [destruct en|].
  - destruct co; [destruct (zlib_compress d) as [c|] eqn:Ec|].
    + injection He as <- <- <- <- <-. subst ext.
      pose proof (compress_nonempty d c Ec) as Hne.
      assert (Hlen : (Z.of_nat (length c) =? 0) = false).
      { apply Z.eqb_neq. destruct c; [congruence|cbn [length]; lia]. }
      split; [intros _; rewrite Hlen; reflexivity|].
      split; [discriminate|]. intros.
      unfold get_extmem.
      cbn [truthy extmem_present extmem_size_compressed extmem_size
           extmem_index equals_zero as_int read_count mbind result_bind].
      rewrite Hlen. cbn [negb mbind result_bind]. subst f.
      rewrite file_read_at by reflexivity.
      rewrite (decompress_compress d c) by (try assumption; lia).
      reflexivity.
    + injection He as <- <- <- <- <-. subst ext.
      split; [intros _; reflexivity|]. split; [discriminate|]. intros.
      unfold get_extmem.
      cbn [truthy extmem_present extmem_size_compressed extmem_size
           extmem_index equals_zero as_int read_count mbind result_bind
           Z.eqb negb].
      subst f. rewrite file_read_at by reflexivity. reflexivity.
    + injection He as <- <- <- <- <-. subst ext.
      split; [intros _; reflexivity|]. split; [discriminate|]. intros.
      unfold get_extmem.
      cbn [truthy extmem_present extmem_size_compressed extmem_size
           extmem_index equals_zero as_int read_count mbind result_bind
           Z.eqb negb].
      subst f. rewrite file_read_at by reflexivity. reflexivity.
  - injection He as <- <- <- <- <-. subst ext.
    split; [discriminate|]. split; [reflexivity|]. intros. reflexivity.
  - injection He as <- <- <- <- <-. subst ext.
    split; [discriminate|]. split; [reflexivity|]. intros. reflexivity.
Qed.

Lemma written_same_settings r r' qe :
  same_settings r r' -> written r' qe = written r qe.
Proof. intros (H1 & H2 & H3). unfold written. rewrite H1, H2. reflexivity. Qed.

(** What a call of [_serialize] that returns does to the file. *)
Lemma serialize_written now qe r r1 out content :
  file r = Some content ->
  _serialize zlib_compress now qe r = (r1, out, Ok tt) ->
  same_settings r r1 /\
  match written r qe with
  | None => file r1 = Some content
  | Some vw =>
      exists vid tid fields extmem size present sc data m m' h v mh,
        qe_value qe = PValue vid tid fields extmem /\
        (qe_topic qe ∉ disabled_topics r) /\
        extmem_part zlib_compress (qe_topic qe) extmem
          (bool_decide (qe_topic qe ∈ enabled_ext_mem_topics r))
          (bool_decide (qe_topic qe ∈ compressed_ext_mem_topics r)) m
        = (size, present, sc, data, m') /\
        pack_fields (header_time now) (qe_topic qe) tid vid fields
                    size present sc = Ok (h, v, mh) /\
        file r1 = Some (content ++ h ++ v ++ mh
                        ++ match data with Some d => d | None => [] end)
  end.
Proof.
  intros Hf Hs. unfold _serialize in Hs. unfold written.
  destruct (decide (qe_topic qe ∈ disabled_topics r)) as [Hd|Hd].
  { injection Hs as <- _. split; [repeat split|exact Hf]. }
  destruct (qe_value qe) as [| | | | | | | |vid tid fields extmem| | | |]
    eqn:Ev;
    try (injection Hs as <- _; split; [repeat split|exact Hf]).
  rewrite Hf in Hs.
  destruct (extmem_part zlib_compress (qe_topic qe) extmem
              (bool_decide (qe_topic qe ∈ enabled_ext_mem_topics r))
              (bool_decide (qe_topic qe ∈ compressed_ext_mem_topics r))
              (serialize_begin (RecQueue.size (queue r)) (status_monitor r)))
    as [[[[size present] sc] data] m2] eqn:Ee.
  destruct (pack_fields (header_time now) (qe_topic qe) tid vid fields
              size present sc) as [[[h v] mh]|e] eqn:Ep; [|discriminate].
  destruct (serialize_end now _) as [m4 out'].
  injection Hs as <- _. split; [repeat split|].
  exists vid, tid, fields, extmem, size, present, sc, data.
  eexists _, m2, h, v, mh.
  split; [reflexivity|]. split; [exact Hd|]. split; [exact Ee|].
  split; [exact Ep|].
  cbn [with_file file packet_bytes p_header_bytes p_value_bytes
       p_extmem_header_bytes p_extmem_bytes].
  reflexivity.
Qed.

Lemma serialize_all_appends entries : forall r r' content,
  file r = Some content ->
  serialize_all zlib_compress entries r = (r', Ok tt) ->
  exists tail, file r' = Some (content ++ tail).
Proof.
  induction entries as [|[now qe] entries IH]; intros r r' content Hf Hs.
  - injection Hs as <-. exists []. rewrite app_nil_r. exact Hf.
  - cbn [serialize_all] in Hs.
    destruct (_serialize zlib_compress now qe r) as [[r1 out] [[]|e]] eqn:E1;
      [|discriminate].
    destruct (serialize_written now qe r r1 out content Hf E1) as [_ Hw].
    destruct (written r qe) as [vw|].
    + destruct Hw as (vid & tid & fields & extmem & size & present & sc & data
                      & m & m' & h & v & mh & _ & _ & _ & _ & Hf1).
      destruct (IH r1 r' _ Hf1 Hs) as [tail Ht].
      eexists. rewrite Ht, <- !app_assoc. reflexivity.
    + exact (IH r1 r' content Hw Hs).
Qed.

(** Reading back, from the offset where they start, the records a run of
    [_serialize] calls appended. *)
Lemma records_loop_serialize_all entries :
  forall r r' content f fuel start tell,
  file r = Some content ->
  serialize_all zlib_compress entries r = (r', Ok tt) ->
  forallb (readable_record r) (map snd entries) = true ->
  file r' = Some f ->
  start + tell = Z.of_nat (length content) ->
  0 <= start -> 0 <= tell ->
  (length entries < fuel)%nat ->
  (records_loop fuel None f start tell).2 = Finished /\
  map (view zlib_decompress f) (records_loop fuel None f start tell).1
  = omap (written r) (map snd entries).
Proof.
  induction entries as [|[now qe] entries IH];
    intros r r' content f fuel start tell Hf Hs Hrd Hf' Hpos H0 H1 Hfuel.
  - injection Hs as <-. rewrite Hf in Hf'. injection Hf' as <-.
    destruct fuel as [|fuel]; [lia|]. cbn [records_loop].
    rewrite read_record_end by exact Hpos. split; reflexivity.
  - cbn [serialize_all] in Hs.
    destruct (_serialize zlib_compress now qe r) as [[r1 out] [[]|e]] eqn:E1;
      [|discriminate].
    destruct (serialize_written now qe r r1 out content Hf E1) as [Hset Hw].
    change (omap (written r) (map snd ((now, qe) :: entries)))
      with (match written r qe with
            | Some y => y :: omap (written r) (map snd entries)
            | None => omap (written r) (map snd entries)
            end).
    assert (Hrest : omap (written r1) (map snd entries)
                    = omap (written r) (map snd entries)).
    { clear IH Hs Hfuel Hrd. induction entries as [|x l IHl];
        [reflexivity|]. cbn.
      rewrite (written_same_settings r r1) by exact Hset.
      rewrite IHl. reflexivity. }
    rewrite <- Hrest.
    cbn [map forallb snd] in Hrd. apply andb_prop in Hrd as [Hrq Hrd].
    assert (Hrd1 : forallb (readable_record r1) (map snd entries) = true).
    { clear -Hrd Hset. induction (map snd entries) as [|x l IHl];
        [reflexivity|].
      cbn [forallb] in *. apply andb_prop in Hrd as [Hx Hl].
      rewrite (IHl Hl), andb_true_r. unfold readable_record in *.
      destruct Hset as (-> & _). exact Hx. }
    destruct (written r qe) as [vw|] eqn:Evw.
    + destruct Hw as (vid & tid & fields & extmem & size & present & sc & data
                      & m & m' & h & v & mh & Hv & Hd & He & Hp & Hf1).
      destruct (serialize_all_appends entries r1 r' _ Hf1 Hs) as [tail Ht].
      rewrite Hf' in Ht. injection Ht as Ht.
      set (ext := match data with Some d => d | None => [] end) in *.
      assert (Hfe : f = (content ++ h ++ v ++ mh) ++ ext ++ tail).
      { rewrite Ht, <- !app_assoc. reflexivity. }
      destruct (extmem_part_read _ _ _ _ _ _ _ _ _ _ f
                  (content ++ h ++ v ++ mh) tail He Hfe)
        as (Hpres & Habs & Hget).
      fold ext in Hpres, Habs.
      assert (Hfr : f = content ++ (h ++ v ++ mh ++ ext) ++ tail).
      { rewrite Ht, <- !app_assoc. reflexivity. }
      assert (Hfields : readable fields = true).
      { unfold readable_record in Hrq.
        destruct (decide (qe_topic qe ∈ disabled_topics r)); [contradiction|].
        rewrite Hv in Hrq. exact Hrq. }
      pose proof (read_record_packet f content tail start tell _ _ _ _ _ _ _
                    _ h v mh ext Hp Hfields Hfr Hpos H0 H1 Hpres Habs)
        as Hrec.
      cbv zeta in Hrec.
      destruct fuel as [|fuel]; [cbn [length] in Hfuel; lia|].
      cbn [records_loop]. rewrite Hrec.
      specialize (IH r1 r' (content ++ h ++ v ++ mh ++ ext) f fuel
                    (if present
                     then Z.of_nat (length content)
                          + (Z.of_nat (length h) + Z.of_nat (length v)
                             + Z.of_nat (length mh))
                          + Z.of_nat (length ext)
                     else start)
                    (if present then 0
                     else tell + (Z.of_nat (length h) + Z.of_nat (length v)
                                  + Z.of_nat (length mh)))
                    Hf1 Hs Hrd1 Hf').
      destruct IH as [IHe IHv].
      { rewrite !length_app. destruct present; [lia|].
        rewrite (Habs eq_refl). cbn [length]. lia. }
      { destruct present; lia. }
      { destruct present; lia. }
      { cbn [length] in Hfuel. lia. }
      destruct (records_loop fuel None f _ _) as [recs ending].
      cbn [fst snd] in *. split; [exact IHe|].
      cbn [map]. rewrite IHv. f_equal.
      unfold view at 1.
      cbn [Reader.topic typeid valueid value].
      replace (Z.of_nat (length content)
               + (Z.of_nat (length h) + Z.of_nat (length v)
                  + Z.of_nat (length mh)))
        with (Z.of_nat (length (content ++ h ++ v ++ mh)))
        by (rewrite !length_app; lia).
      rewrite Hget.
      unfold written in Evw.
      destruct (decide (qe_topic qe ∈ disabled_topics r)); [discriminate|].
      rewrite Hv in Evw. injection Evw as <-. reflexivity.
    + apply (IH r1 r' content f fuel start tell Hw Hs Hrd1 Hf' Hpos H0 H1).
      cbn [length] in Hfuel. lia.
Qed.

(** C5 (amended): every record written by [_serialize] into a fresh file
    is read back by [records_generator] with the topic, type name, value id
    and payload that were written, and [get_extmem] returns the ExtMem bytes
    of the value when they were recorded (compressed or not) and [None] when
    they were not; the records come in the order of writing, and the reader
    ends at the end of the file.  This holds for the payloads the unpacker
    can build: in every dict of a payload every key is packed as a [str] or
    a [bytes] object and no two keys are packed alike.  The payload comes
    back as it was packed: a tuple as a list, an enum member as its value,
    a nested [Value] as its field list. *)
Theorem record_round_trip entries r r' f fuel :
  file r = Some [] ->
  serialize_all zlib_compress entries r = (r', Ok tt) ->
  forallb (readable_record r) (map snd entries) = true ->
  file r' = Some f ->
  (length entries < fuel)%nat ->
  (records_generator fuel None f).2 = Finished /\
  map (view zlib_decompress f) (records_generator fuel None f).1
  = omap (written r) (map snd entries).
Proof.
  intros Hf Hs Hr Hf' Hfuel. unfold records_generator.
  apply (records_loop_serialize_all entries r r' [] f fuel 0 0);
    try assumption; reflexivity.
Qed.

End RoundTrip.

Lemma toy_decompress_compress data compressed bufsize :
  toy_compress data = Some compressed -> 0 <= bufsize ->
  toy_decompress compressed bufsize = Ok data.
Proof.
  intros [= <-] Hb. cbn [toy_decompress].
  destruct (Z.ltb_spec bufsize 0); [lia|reflexivity].
Qed.

Lemma toy_compress_nonempty data compressed :
  toy_compress data = Some compressed -> compressed <> [].
Proof. intros [= <-]. discriminate. Qed.

Lemma record_round_trip_witness :
  (records_generator 10 None sample_file).2 = Finished /\
  map (view toy_decompress sample_file)
      (records_generator 10 None sample_file).1
  = omap (written sample_recorder) (map snd sample_entries).
Proof.
  apply (record_round_trip toy_compress toy_decompress
           toy_decompress_compress toy_compress_nonempty
           sample_entries sample_recorder sample_recorded sample_file 10).
  - reflexivity.
  - vm_compute. reflexivity.
  - vm_compute. reflexivity.
  - vm_compute. reflexivity.
  - cbn [length sample_entries]. lia.
Defined.

(** The ExtMem bytes the reader returns for the sample recording. *)
Lemma sample_extmem_read_back :
  map (get_extmem toy_decompress sample_file)
      (records_generator 10 None sample_file).1
  = [Ok PNone; Ok (PBytes [x01; x02; x03]); Ok (PBytes []); Ok PNone;
     Ok PNone].
Proof. vm_compute. reflexivity. Qed.

(** The payload of the last record of the sample recording, as the reader
    returns it: the tuple has become a list, the enum member its value. *)
Lemma sample_dict_read_back :
  last (map value (records_generator 10 None sample_file).1)
  = Some (PList [PDict [(PStr "at", PList [PInt 1; PInt 2]);
                        (PBytes [x01], PTimestamp 1700000000 500);
                        (PStr "k", PExt 5 [x0a; x0b; x0c])]]).
Proof. vm_compute. reflexivity. Qed.

(** C5, as stated, fails: a value whose payload holds a dict with a key
    that is not packed as a [str] or a [bytes] object is written by
    [_serialize], and the reader raises [ValueError] at its record: the
    unpacker refuses the key.  Here the key is a tuple, packed as an
    array. *)
Lemma record_with_tuple_key_is_not_read_back :
  ~ (forall entries r r' f fuel,
       file r = Some [] ->
       serialize_all toy_compress entries r = (r', Ok tt) ->
       file r' = Some f ->
       (length entries < fuel)%nat ->
       (records_generator fuel None f).2 = Finished /\
       map (view toy_decompress f) (records_generator fuel None f).1
       = omap (written r) (map snd entries)).
Proof.
  intros H.
  destruct (H keyed_by_tuple sample_recorder
              (serialize_all toy_compress keyed_by_tuple sample_recorder).1
              (recording keyed_by_tuple) 10%nat) as [Hend _].
  - reflexivity.
  - vm_compute. reflexivity.
  - vm_compute. reflexivity.
  - cbn [length keyed_by_tuple]. lia.
  - vm_compute in Hend. discriminate Hend.
Qed.

(** What the reader does on the two recordings whose dicts have a tuple
    and an integer as a key: both records were written, none is read. *)
Lemma records_with_other_keys :
  (serialize_all toy_compress keyed_by_tuple sample_recorder).2 = Ok tt /\
  records_generator 10 None (recording keyed_by_tuple)
  = ([], Failed ValueError) /\
  (serialize_all toy_compress keyed_by_int sample_recorder).2 = Ok tt /\
  records_generator 10 None (recording keyed_by_int)
  = ([], Failed ValueError).
Proof. repeat split; vm_compute; reflexivity. Qed.

End FramingSpec.

(** ** The drop policy of the write loop *)

Module WriteLoopSpec.
Import Py MsgPack RecQueue Recorder.

Section WithZlib.
Variable zlib_compress : bytes -> option bytes.

Lemma pop_head q qv rest topic :
  deque q = qv :: rest ->
  topic_id_map q !! qv_topic_id qv = Some topic ->
  RecQueue.pop q
  = (mkRecQueue rest (topic_id_map q) (rq_expired q),
     Ok (mkQueueEntry (Some (qv_time qv)) topic (qv_value qv),
         Z.of_nat (length (deque q)) - 1)).
Proof. intros Hd Ht. unfold RecQueue.pop. rewrite Hd, Ht. reflexivity. Qed.

(** [pop] on an empty queue returns at once, with an entry without value. *)
Lemma pop_empty q :
  deque q = [] ->
  RecQueue.pop q = (q, Ok (mkQueueEntry None EmptyString PNone, 0)).
Proof. intros Hd. unfold RecQueue.pop. rewrite Hd. reflexivity. Qed.

Lemma write_turn_empty now r :
  deque (queue r) = [] ->
  write_turn zlib_compress now r = (with_queue (queue r) r, [], Ok QueueEmpty).
Proof.
  intros Hd. unfold write_turn. rewrite pop_empty by exact Hd. reflexivity.
Qed.

(** C7: a turn of the write loop that pops an entry drops it exactly when
    the queue held more entries than the limit at the pop (the popped one
    counted) and the topic is not the recorder status topic: the drop flag
    is set and the counter moves, nothing is written and nothing is put
    out.  In every other case, and so for every status entry, the turn is
    the call of [_serialize]. *)
Theorem write_turn_drop_policy now r qv rest topic :
  deque (queue r) = qv :: rest ->
  topic_id_map (queue r) !! qv_topic_id qv = Some topic ->
  is_none (qv_value qv) = false ->
  let qe := mkQueueEntry (Some (qv_time qv)) topic (qv_value qv) in
  let r1 := with_queue (mkRecQueue rest (topic_id_map (queue r))
                          (rq_expired (queue r))) r in
  let depth := Z.of_nat (length (deque (queue r))) in
  let turn := write_turn zlib_compress now r in
  (turn.2 = Ok Dropped <->
   depth > queue_size_limit r /\ topic <> RECORDER_STATUS_TOPIC) /\
  (depth > queue_size_limit r /\ topic <> RECORDER_STATUS_TOPIC ->
   turn = (with_file (file r) (report_dropped (status_monitor r)) r1,
           [], Ok Dropped) /\
   drop_flag (status_monitor turn.1.1) = true /\
   file turn.1.1 = file r) /\
  (depth <= queue_size_limit r \/ topic = RECORDER_STATUS_TOPIC ->
   turn = (let '(r2, out, res) := _serialize zlib_compress now qe r1 in
           (r2, out, match res with
                     | Ok _ => Ok Serialized
                     | Raise e => Raise e
                     end))).
Proof.
  intros Hd Ht Hv qe r1 depth turn.
  assert (Hturn : turn =
    if (depth - 1 <? queue_size_limit r)
       || bool_decide (topic = RECORDER_STATUS_TOPIC)
    then let '(r2, out, res) := _serialize zlib_compress now qe r1 in
         (r2, out, match res with
                   | Ok _ => Ok Serialized
                   | Raise e => Raise e
                   end)
    else (with_file (file r) (report_dropped (status_monitor r)) r1,
          [], Ok Dropped)).
  { unfold turn, write_turn. rewrite (pop_head _ _ _ _ Hd Ht).
    cbn [qe_value qe_topic]. rewrite Hv. reflexivity. }
  destruct (Z.ltb_spec (depth - 1) (queue_size_limit r)) as [Hlt|Hge];
    cbn [orb] in Hturn.
  - split; [|split].
    + rewrite Hturn.
      destruct (_serialize zlib_compress now qe r1) as [[r2 out] [u|e]];
        cbn [snd]; split; [discriminate|lia|discriminate|lia].
    + lia.
    + intros _. exact Hturn.
  - destruct (decide (topic = RECORDER_STATUS_TOPIC)) as [He|Hne].
    + rewrite bool_decide_eq_true_2 in Hturn by exact He.
      split; [|split].
      * rewrite Hturn.
        destruct (_serialize zlib_compress now qe r1) as [[r2 out] [u|e]];
          cbn [snd]; split; try discriminate; intros [_ Hn]; contradiction.
      * intros [_ Hn]. contradiction.
      * intros _. exact Hturn.
    + rewrite bool_decide_eq_false_2 in Hturn by exact Hne.
      split; [|split].
      * rewrite Hturn. cbn [snd]. split; [intros _; split; [lia|exact Hne]|].
        reflexivity.
      * intros _. rewrite Hturn. repeat split.
      * intros [Hle|He]; [lia|contradiction].
Qed.

End WithZlib.

Lemma write_turn_drop_policy_witness :
  (write_turn toy_compress 9 crowded).2 = Ok Dropped <->
  Z.of_nat (length (deque (queue crowded))) > queue_size_limit crowded
  /\ "pt"%string <> RECORDER_STATUS_TOPIC.
Proof.
  exact (proj1 (write_turn_drop_policy toy_compress 9 crowded
                  (mkQueueValue 1 2 point_value)
                  [mkQueueValue 2 20 status_value;
                   mkQueueValue 3 2 point_value]
                  "pt" eq_refl eq_refl eq_refl)).
Defined.

(** The three entries of [crowded]: the first is dropped, the status entry
    is written although two entries were waiting, the last is written. *)
Lemma crowded_turns :
  (write_turns toy_compress [9; 10; 11; 12] crowded).2
  = [Dropped; Serialized; Serialized].
Proof. vm_compute. reflexivity. Qed.

End WriteLoopSpec.

(** ** More on the status tracker *)

Module TrackerMore.
Import Tracker TrackerSpec.

(** [pong_received], by cases *)
Lemma pong_received_cases now f t :
  pong_received now f t =
    if decide (f = ping_freshness t) then
      match remote_state t with
      | STATE_UNSURE =>
          with_last_pong now
            (with_state STATE_UP (with_interval (ping_interval_max t) t))
      | STATE_UP => with_last_pong now t
      | STATE_DOWN => t
      end
    else t.
Proof.
  destruct (decide (f = ping_freshness t)) as [->|Hf].
  - destruct (remote_state t) eqn:Hs.
    + unfold pong_received. rewrite decide_False by tauto.
      rewrite (decide_False (P := remote_state t = STATE_UNSURE))
        by (rewrite Hs; congruence).
      rewrite decide_False by (rewrite Hs; congruence). reflexivity.
    + apply pong_matching_unsure. exact Hs.
    + unfold pong_received. rewrite decide_False by tauto.
      rewrite (decide_False (P := remote_state t = STATE_UNSURE))
        by (rewrite Hs; congruence).
      rewrite decide_True by exact Hs. reflexivity.
  - unfold pong_received. rewrite decide_True by exact Hf. reflexivity.
Qed.

Lemma tracker_step_down op t :
  remote_state t = STATE_DOWN -> is_passive op = true ->
  tracker_step op t = (t, []).
Proof.
  intros Hs Hp. destruct op as [now|now f| |]; try discriminate; cbn.
  - apply run_cyclic_down. exact Hs.
  - rewrite pong_received_cases, Hs.
    destruct (decide (f = ping_freshness t)); reflexivity.
Qed.

(** X1: In DOWN the tracker is silent and stays as it is: cyclic steps send no
    ping, and a pong, even one carrying the latest nonce, changes nothing.
    Only [message_received_in_down] and [sending_timeout] leave DOWN. *)
Theorem down_is_silent ops t :
  remote_state t = STATE_DOWN ->
  forallb is_passive ops = true ->
  tracker_run ops t = (t, []).
Proof.
  intros Hs. induction ops as [|op ops IH]; intros Hp; [reflexivity|].
  cbn [forallb] in Hp. apply andb_prop in Hp as [Hop Hops].
  cbn [tracker_run]. rewrite (tracker_step_down op t Hs Hop).
  rewrite (IH Hops). reflexivity.
Qed.

Lemma down_is_silent_witness :
  tracker_run [TCyclic 9000000; TPong 9100000 12; TCyclic 99000000]
    (with_state STATE_DOWN (with_freshness 12 (init 100 3000 5000 7)))
  = (with_state STATE_DOWN (with_freshness 12 (init 100 3000 5000 7)), []).
Proof. apply down_is_silent; reflexivity. Defined.

Lemma tracker_step_nonces op t :
  (tracker_step op t).2 = [] /\
  ping_freshness (tracker_step op t).1 = ping_freshness t
  \/
  (tracker_step op t).2 = [ping_freshness t + 1] /\
  ping_freshness (tracker_step op t).1 = ping_freshness t + 1.
Proof.
  destruct op as [now|now f| |]; cbn [tracker_step fst snd].
  - destruct (remote_state t) eqn:Hs.
    + rewrite run_cyclic_down by exact Hs. left. split; reflexivity.
    + rewrite run_cyclic_unsure by exact Hs.
      destruct (decide (now > last_ping_time t + ping_interval t));
        [right|left; split; reflexivity].
      cbn [fst snd]. split; [reflexivity|].
      destruct (decide (2 * ping_interval t > ping_interval_max t));
        reflexivity.
    + rewrite run_cyclic_up by exact Hs.
      destruct (decide (now > last_ping_time t + ping_interval t));
        [right|left; split; reflexivity].
      cbn [fst snd]. split; [reflexivity|].
      destruct (decide (now > last_pong_time t + pong_timeout t));
        reflexivity.
  - left. split; [reflexivity|]. rewrite pong_received_cases.
    destruct (decide (f = ping_freshness t)); [|reflexivity].
    destruct (remote_state t); reflexivity.
  - left. split; [reflexivity|]. unfold message_received_in_down.
    rewrite set_state_unsure. reflexivity.
  - left. split; [reflexivity|]. unfold sending_timeout.
    rewrite set_state_unsure. reflexivity.
Qed.

(** X2: The pings of a run carry consecutive nonces: the n-th ping sent carries
    the nonce the tracker started with plus n, whatever pongs, timeouts and
    state changes lie in between; no nonce is used twice. *)
Theorem nonces_are_consecutive ops t :
  (tracker_run ops t).2
  = map (fun i => ping_freshness t + Z.of_nat i)
        (seq 1 (length (tracker_run ops t).2)) /\
  ping_freshness (tracker_run ops t).1
  = ping_freshness t + Z.of_nat (length (tracker_run ops t).2).
Proof.
  revert t. induction ops as [|op ops IH]; intros t.
  - cbn. split; [reflexivity|lia].
  - cbn [tracker_run].
    destruct (tracker_step op t) as [t1 o1] eqn:E1.
    destruct (tracker_run ops t1) as [t2 o2] eqn:E2.
    specialize (IH t1). rewrite E2 in IH. cbn [fst snd] in *.
    destruct IH as [IHo IHf].
    destruct (tracker_step_nonces op t) as [[Ho Hf]|[Ho Hf]];
      rewrite E1 in Ho, Hf; cbn [fst snd] in Ho, Hf; subst o1.
    + cbn [app]. rewrite Hf in IHo, IHf. split; assumption.
    + cbn [app length seq map]. split.
      * f_equal; try lia. rewrite <- seq_shift, map_map. rewrite IHo at 1.
        apply map_ext. intros i. lia.
      * rewrite IHf, Hf. lia.
Qed.

(** X3: After a send timed out, and after a message arrived in DOWN, the
    tracker probes again from the start: the state is UNSURE, the interval
    is the minimal one, and the next cyclic step later than one minimal
    interval after the epoch sends a ping at once. *)
Theorem timeout_restarts_probing now t :
  now > ping_interval_min t ->
  remote_state (sending_timeout t) = STATE_UNSURE /\
  ping_interval (sending_timeout t) = ping_interval_min t /\
  message_received_in_down t = sending_timeout t /\
  (run_cyclic now (sending_timeout t)).2 = [ping_freshness t + 1].
Proof.
  intros Hn. unfold message_received_in_down, sending_timeout.
  rewrite set_state_unsure. repeat split.
  rewrite run_cyclic_unsure by reflexivity.
  cbn [last_ping_time ping_interval with_state with_last_ping with_interval].
  rewrite decide_True by lia. reflexivity.
Qed.

Lemma timeout_restarts_probing_witness :
  (run_cyclic 7600000 (sending_timeout unanswered_in_up)).2 = [10].
Proof.
  apply (timeout_restarts_probing 7600000 unanswered_in_up).
  vm_compute. reflexivity.
Defined.

Lemma interval_in_bounds_step op t :
  interval_in_bounds t -> interval_in_bounds (tracker_step op t).1.
Proof.
  unfold interval_in_bounds. intros (Hm & Hi & Hd & Hu).
  destruct op as [now|now f| |]; cbn [tracker_step fst].
  - destruct (remote_state t) eqn:Hs.
    + rewrite run_cyclic_down by exact Hs. cbn [fst]. rewrite Hs.
      repeat split; intros; try lia; congruence.
    + rewrite run_cyclic_unsure by exact Hs.
      specialize (Hd ltac:(discriminate)).
      destruct (decide (now > last_ping_time t + ping_interval t)).
      * cbn [fst].
        destruct (decide (2 * ping_interval t > ping_interval_max t)); cbn;
          rewrite ?Hs; repeat split; intros; try lia; congruence.
      * cbn [fst]. rewrite Hs. repeat split; intros; try lia; congruence.
    + rewrite run_cyclic_up by exact Hs.
      specialize (Hu eq_refl).
      destruct (decide (now > last_ping_time t + ping_interval t)).
      * cbn [fst].
        destruct (decide (now > last_pong_time t + pong_timeout t)); cbn;
          rewrite ?Hs; repeat split; intros; try lia; congruence.
      * cbn [fst]. rewrite Hs. repeat split; intros; try lia; congruence.
  - rewrite (pong_received_cases now f t).
    destruct (decide (f = ping_freshness t));
      [|repeat split; intros; try lia; auto].
    destruct (remote_state t) eqn:Hs; cbn; rewrite ?Hs;
      repeat split; intros; try lia; auto; congruence.
  - unfold message_received_in_down. rewrite set_state_unsure. cbn.
    repeat split; intros; try lia; discriminate.
  - unfold sending_timeout. rewrite set_state_unsure. cbn.
    repeat split; intros; try lia; discriminate.
Qed.

(** X4: Whatever reaches a tracker built with [0 < ping_interval_min <=
    ping_interval_max], its ping interval stays between the minimum and
    twice the maximum, exceeds the maximum only in DOWN (by the doubling
    that led there), and is the maximum in UP. *)
Theorem interval_stays_in_bounds ops mn mx pt rand :
  0 < mn <= mx ->
  interval_in_bounds (tracker_run ops (init mn mx pt rand)).1.
Proof.
  intros Hm.
  assert (H0 : interval_in_bounds (init mn mx pt rand)).
  { unfold interval_in_bounds, init, timedelta_ms. cbn.
    repeat split; try lia; discriminate. }
  revert H0. generalize (init mn mx pt rand).
  induction ops as [|op ops IH]; intros t Ht; [exact Ht|].
  cbn [tracker_run].
  pose proof (interval_in_bounds_step op t Ht) as H1.
  destruct (tracker_step op t) as [t1 o1].
  specialize (IH t1 H1).
  destruct (tracker_run ops t1) as [t2 o2]. exact IH.
Qed.

Lemma interval_stays_in_bounds_witness :
  interval_in_bounds
    (tracker_run [TCyclic 200000; TCyclic 500000; TPong 600000 9]
                 (init 100 3000 5000 7)).1.
Proof. apply interval_stays_in_bounds. lia. Defined.

(** X5: A cyclic step changes the state only by going DOWN, and sends a ping
    only in UNSURE and in UP; a pong changes the state only from UNSURE to
    UP.  So [run_cyclic] never brings a link up and [pong_received] never
    takes one down. *)
Theorem state_changes now f t :
  (remote_state (run_cyclic now t).1 = remote_state t \/
   remote_state (run_cyclic now t).1 = STATE_DOWN) /\
  ((run_cyclic now t).2 <> [] -> remote_state t <> STATE_DOWN) /\
  (remote_state (pong_received now f t) = remote_state t \/
   remote_state t = STATE_UNSURE /\ f = ping_freshness t /\
   remote_state (pong_received now f t) = STATE_UP).
Proof.
  split; [|split].
  - destruct (remote_state t) eqn:Hs.
    + rewrite run_cyclic_down by exact Hs. left. exact Hs.
    + rewrite run_cyclic_unsure by exact Hs.
      destruct (decide (now > last_ping_time t + ping_interval t));
        [|left; exact Hs]. cbn [fst].
      destruct (decide (2 * ping_interval t > ping_interval_max t));
        [right; reflexivity|left; exact Hs].
    + rewrite run_cyclic_up by exact Hs.
      destruct (decide (now > last_ping_time t + ping_interval t));
        [|left; exact Hs]. cbn [fst].
      destruct (decide (now > last_pong_time t + pong_timeout t));
        [right; reflexivity|left; exact Hs].
  - intros Ho Hs. rewrite run_cyclic_down in Ho by exact Hs.
    apply Ho. reflexivity.
  - rewrite pong_received_cases.
    destruct (decide (f = ping_freshness t)) as [Hf|Hf]; [|left; reflexivity].
    destruct (remote_state t) eqn:Hs;
      [left; exact Hs| |left; cbn; exact Hs].
    right. repeat split. exact Hf.
Qed.

End TrackerMore.

(** ** More on value queues and their events *)

Module VQueueMore.
Import Py Events VQueue VQueueSpec.

Lemma receive_all_app_unbounded calls : forall h q,
  maxlen q <= 0 ->
  queue (receive_all calls h q).1.1 = queue q ++ map entry_of calls /\
  maxlen (receive_all calls h q).1.1 = maxlen q.
Proof.
  induction calls as [|[[topic value] now] calls IH]; intros h q Hm.
  - cbn. rewrite app_nil_r. split; reflexivity.
  - cbn [receive_all].
    pose proof (receive_queue topic value now h q) as Hq.
    pose proof (receive_maxlen topic value now h q) as Hl.
    destruct (receive topic value now h q) as [[q1 h1] r].
    cbn [fst snd] in Hq, Hl.
    destruct (IH h1 q1 ltac:(lia)) as [IHq IHm].
    destruct (receive_all calls h1 q1) as [[q2 h2] rs].
    cbn [fst snd] in *. rewrite IHq, Hq, IHm, Hl.
    destruct (Z.ltb_spec 0 (maxlen q)); [lia|]. cbn [andb map entry_of].
    rewrite <- app_assoc. split; reflexivity.
Qed.

(** X6: A queue whose [maxlen] is zero (the default) or negative is unbounded:
    no [receive] drops anything, the queue holds everything it held and
    everything received, in arrival order. *)
Theorem unbounded_queue_keeps_all calls h q :
  maxlen q <= 0 ->
  queue (receive_all calls h q).1.1 = queue q ++ map entry_of calls.
Proof. intros Hm. apply receive_all_app_unbounded. exact Hm. Qed.

Lemma unbounded_queue_keeps_all_witness :
  queue (receive_all [("a"%string, PInt 1, 10); ("b"%string, PInt 2, 20)]
           ∅ (init 0)).1.1
  = [(PInt 1, "a"%string); (PInt 2, "b"%string)].
Proof.
  apply (unbounded_queue_keeps_all
           [("a"%string, PInt 1, 10); ("b"%string, PInt 2, 20)] ∅ (init 0)).
  cbn. lia.
Defined.

Lemma trim_lastn value l :
  0 <= value -> trim value l = lastn (Z.to_nat value) l.
Proof.
  intros Hv. induction l as [|x l IH]; [reflexivity|].
  cbn [trim]. destruct (Z.gtb_spec (Z.of_nat (length (x :: l))) value) as [H|H].
  - rewrite IH. unfold lastn. cbn [length] in *.
    replace (S (length l) - Z.to_nat value)%nat
      with (S (length l - Z.to_nat value)) by lia.
    reflexivity.
  - symmetry. apply lastn_all. lia.
Qed.

(** X7: Setting [maxlen] to a positive bound drops the oldest entries until
    the newest [maxlen] are left; setting it to zero or less drops nothing
    and makes the queue unbounded. *)
Theorem set_maxlen_keeps_newest value q :
  maxlen (set_maxlen value q) = value /\
  queue (set_maxlen value q)
  = (if 0 <? value then lastn (Z.to_nat value) (queue q) else queue q) /\
  bounded (set_maxlen value q).
Proof.
  split; [reflexivity|]. split; [|apply set_maxlen_bounded].
  unfold set_maxlen. cbn [queue].
  rewrite Z.gtb_ltb. destruct (Z.ltb_spec 0 value); [|reflexivity].
  apply trim_lastn. lia.
Qed.

Lemma pop_n_spec n : forall q,
  pop_n n q
  = (with_queue (drop n (queue q)) q,
     map Some (take n (queue q))
     ++ replicate (n - length (queue q)) None).
Proof.
  induction n as [|n IH]; intros q.
  - cbn. rewrite drop_0. destruct q; reflexivity.
  - cbn [pop_n]. unfold pop_with_topic.
    destruct (queue q) as [|x l] eqn:Hq.
    + rewrite IH, Hq. cbn. rewrite drop_nil, take_nil, Nat.sub_0_r.
      reflexivity.
    + rewrite IH. cbn. reflexivity.
Qed.

(** X8: A queue is first in, first out: on an unbounded queue, as many pops
    as there were receives return the received (value, topic) pairs in the
    order of arrival and leave the queue empty; [peek_with_topic] shows the
    oldest entry without removing it; a pop too many returns [None]. *)
Theorem pops_return_arrival_order calls h q :
  maxlen q <= 0 ->
  queue q = [] ->
  let q' := (receive_all calls h q).1.1 in
  (pop_n (length calls) q').2 = map (fun c => Some (entry_of c)) calls /\
  queue (pop_n (length calls) q').1 = [] /\
  (peek_with_topic q').2 = head (map entry_of calls) /\
  (peek_with_topic q').1 = q' /\
  (pop_n (S (length calls)) q').2
  = map (fun c => Some (entry_of c)) calls ++ [None].
Proof.
  intros Hm He q'.
  assert (Hq : queue q' = map entry_of calls).
  { unfold q'. rewrite (proj1 (receive_all_app_unbounded calls h q Hm)).
    rewrite He. reflexivity. }
  replace (map (fun c => Some (entry_of c)) calls)
    with (map Some (map entry_of calls)) by (rewrite map_map; reflexivity).
  replace (length calls) with (length (map entry_of calls))
    by apply length_map.
  revert Hq. generalize (map entry_of calls). intros l Hq.
  rewrite !pop_n_spec, Hq. cbn [fst snd queue with_queue].
  rewrite firstn_all, drop_all, Nat.sub_diag. cbn [replicate].
  rewrite app_nil_r.
  split; [reflexivity|]. split; [reflexivity|].
  unfold peek_with_topic. rewrite Hq.
  split; [destruct l; reflexivity|].
  split; [destruct l; reflexivity|].
  rewrite take_ge by lia.
  replace (S (length l) - length l)%nat with 1%nat by lia.
  reflexivity.
Qed.

Lemma pops_return_arrival_order_witness :
  (pop_n 3 (receive_all [("a"%string, PInt 1, 10); ("b"%string, PInt 2, 20)]
              ∅ (init 0)).1.1).2
  = [Some (PInt 1, "a"%string); Some (PInt 2, "b"%string); None].
Proof.
  apply (pops_return_arrival_order
           [("a"%string, PInt 1, 10); ("b"%string, PInt 2, 20)] ∅ (init 0)).
  - cbn. lia.
  - reflexivity.
Defined.

End VQueueMore.

(** ** Event sources *)

Module EventsMore.
Import Events.

Lemma trigger_dispatch_spec e :
  trigger_dispatch e
  = (triggered e, ev_expired e && negb (value_received_event e)).
Proof.
  unfold trigger_dispatch, trigger, triggered.
  destruct (value_received_event e), (ev_expired e); reflexivity.
Qed.

Lemma triggered_idem e : triggered (triggered e) = triggered e.
Proof. unfold triggered. destruct e as [f [] v]; reflexivity. Qed.

Lemma triggered_expired e : ev_expired (triggered e) = ev_expired e.
Proof. unfold triggered. destruct e as [f [] v]; reflexivity. Qed.

Lemma triggered_kind e :
  value_received_event (triggered e) = value_received_event e.
Proof. unfold triggered. destruct e as [f [] v]; reflexivity. Qed.

Lemma reports_expired_insert h a e b :
  h !! a = Some e ->
  reports_expired (<[a := triggered e]> h) b = reports_expired h b.
Proof.
  intros Ha. unfold reports_expired.
  destruct (decide (a = b)) as [->|Hne].
  - rewrite lookup_insert_eq, Ha, triggered_expired, triggered_kind.
    reflexivity.
  - rewrite lookup_insert_ne by exact Hne. reflexivity.
Qed.

Lemma trigger_all_spec evs : forall h,
  (forall a, (trigger_all evs h).1 !! a
             = if decide (a ∈ evs) then triggered <$> h !! a else h !! a) /\
  (trigger_all evs h).2 = existsb (reports_expired h) evs.
Proof.
  induction evs as [|a0 evs IH]; intros h.
  - split; [|reflexivity]. intros a.
    rewrite decide_False by apply not_elem_of_nil. reflexivity.
  - cbn [trigger_all existsb].
    destruct (h !! a0) as [e|] eqn:Ha0.
    + rewrite trigger_dispatch_spec.
      destruct (IH (<[a0 := triggered e]> h)) as [IHh IHf].
      destruct (trigger_all evs (<[a0 := triggered e]> h)) as [h' found].
      cbn [fst snd] in *. split.
      * intros a. rewrite IHh.
        destruct (decide (a = a0)) as [->|Hne].
        -- rewrite lookup_insert_eq, Ha0, (decide_True (P := a0 ∈ a0 :: evs))
             by (apply elem_of_cons; left; reflexivity).
           destruct (decide (a0 ∈ evs)); cbn; rewrite ?triggered_idem;
             reflexivity.
        -- rewrite lookup_insert_ne by congruence.
           destruct (decide (a ∈ evs)) as [Hin|Hin].
           ++ rewrite decide_True by (apply elem_of_cons; right; exact Hin).
              reflexivity.
           ++ rewrite decide_False; [reflexivity|].
              intros [?|?]%elem_of_cons; contradiction.
      * rewrite IHf. f_equal.
        -- unfold reports_expired. rewrite Ha0. reflexivity.
        -- clear IH IHh IHf. induction evs as [|b evs IHe]; [reflexivity|].
           cbn [existsb]. rewrite IHe. f_equal.
           apply reports_expired_insert. exact Ha0.
    + destruct (IH h) as [IHh IHf].
      destruct (trigger_all evs h) as [h' found].
      cbn [fst snd] in *. split.
      * intros a. rewrite IHh.
        destruct (decide (a = a0)) as [->|Hne].
        -- rewrite Ha0, (decide_True (P := a0 ∈ a0 :: evs))
             by (apply elem_of_cons; left; reflexivity).
           destruct (decide (a0 ∈ evs)); reflexivity.
        -- destruct (decide (a ∈ evs)) as [Hin|Hin].
           ++ rewrite decide_True by (apply elem_of_cons; right; exact Hin).
              reflexivity.
           ++ rewrite decide_False; [reflexivity|].
              intros [?|?]%elem_of_cons; contradiction.
      * rewrite IHf. unfold reports_expired at 2. rewrite Ha0. reflexivity.
Qed.

Lemma is_expired_triggered evs h a :
  is_expired (trigger_all evs h).1 a = is_expired h a.
Proof.
  unfold is_expired. rewrite (proj1 (trigger_all_spec evs h) a).
  destruct (decide (a ∈ evs)) as [Hin|Hin]; [|reflexivity].
  destruct (h !! a) as [ev|]; [|reflexivity].
  cbn. apply triggered_expired.
Qed.

(** X9: [_notify_events] sets the flag of every registered event that is not
    expired and changes no other event.  It removes expired events from
    the list only when a plain [Event] reports that it is expired, and then
    removes all expired ones; the [trigger] of a [ValueReceivedEvent]
    returns nothing, so a list in which only such events are expired stays
    as it is. *)
Theorem notify_events_spec evs h :
  (forall a, (_notify_events evs h).2 !! a
             = if decide (a ∈ evs) then triggered <$> h !! a else h !! a) /\
  (_notify_events evs h).1
  = (if existsb (reports_expired h) evs
     then List.filter (fun a => negb (is_expired h a)) evs
     else evs).
Proof.
  unfold _notify_events.
  pose proof (trigger_all_spec evs h) as [Hh Hf].
  pose proof (is_expired_triggered evs h) as He.
  destruct (trigger_all evs h) as [h' found]. cbn [fst snd] in *.
  split; [exact Hh|]. rewrite Hf.
  destruct (existsb (reports_expired h) evs); [|reflexivity].
  apply List.filter_ext. intros a. rewrite He. reflexivity.
Qed.

End EventsMore.

(** ** More on the value store *)

Module VStoreMore.
Import Py VStore VStoreSpec.

Lemma create_key_lookup key vs :
  store (_create_key_if_absent key vs) !! key = Some (entry_of key vs) /\
  all_topic_receivers (_create_key_if_absent key vs) = all_topic_receivers vs.
Proof.
  unfold _create_key_if_absent, entry_of.
  destruct (store vs !! key) as [e|] eqn:E.
  - rewrite E. split; reflexivity.
  - cbn. rewrite lookup_insert_eq. split; reflexivity.
Qed.

Lemma entry_of_create_key key vs :
  entry_of key (_create_key_if_absent key vs) = entry_of key vs.
Proof.
  unfold entry_of at 1. rewrite (proj1 (create_key_lookup key vs)).
  reflexivity.
Qed.

Lemma create_key_present key vs e :
  store vs !! key = Some e -> _create_key_if_absent key vs = vs.
Proof. intros H. unfold _create_key_if_absent. rewrite H. reflexivity. Qed.

(** X10: Registering a receiver a second time changes nothing, on a topic as
    for all topics.  After [add_receiver] the receiver is in the list of
    the topic and the topic is a key of the store; its value is what it
    was, [None] for a topic that was not there. *)
Theorem registration_is_idempotent key r vs :
  add_receiver key r (add_receiver key r vs) = add_receiver key r vs /\
  add_all_topic_receiver r (add_all_topic_receiver r vs)
  = add_all_topic_receiver r vs /\
  r ∈ receivers (entry_of key (add_receiver key r vs)) /\
  r ∈ all_topic_receivers (add_all_topic_receiver r vs) /\
  get_value key (add_receiver key r vs) = get_value key vs /\
  is_Some (store (add_receiver key r vs) !! key).
Proof.
  assert (Hadd : exists e, store (add_receiver key r vs) !! key = Some e /\
                           r ∈ receivers e /\ value e = get_value key vs).
  { unfold add_receiver. rewrite entry_of_create_key.
    destruct (registered r (receivers (entry_of key vs))) eqn:Hr.
    - exists (entry_of key vs).
      split; [apply create_key_lookup|].
      split; [apply registered_spec; exact Hr|].
      unfold entry_of, get_value. destruct (store vs !! key); reflexivity.
    - eexists. cbn [store]. rewrite lookup_insert_eq.
      split; [reflexivity|]. cbn [receivers value].
      split; [apply elem_of_app; right; apply list_elem_of_singleton;
              reflexivity|].
      unfold entry_of, get_value. destruct (store vs !! key); reflexivity. }
  destruct Hadd as (e & He & Hin & Hv).
  assert (Hall : r ∈ all_topic_receivers (add_all_topic_receiver r vs)).
  { unfold add_all_topic_receiver.
    destruct (registered r (all_topic_receivers vs)) eqn:Hr.
    - apply registered_spec. exact Hr.
    - cbn. apply elem_of_app. right. apply list_elem_of_singleton.
      reflexivity. }
  split; [|split; [|split; [|split; [|split]]]].
  - unfold add_receiver at 1.
    rewrite (create_key_present _ _ _ He).
    unfold entry_of. rewrite He.
    apply registered_spec in Hin. rewrite Hin. reflexivity.
  - unfold add_all_topic_receiver at 1.
    apply registered_spec in Hall. rewrite Hall. reflexivity.
  - unfold entry_of. rewrite He. exact Hin.
  - exact Hall.
  - unfold get_value at 1. rewrite He. exact Hv.
  - exists e. exact He.
Qed.

Section WithHash.
Variable hash : string -> Z.

(** X11: [set_value] never takes a receiver off a list: the lists it cleans
    are copies, and what [_notify_receivers_and_cleanup] returns is not
    stored.  So an expired receiver stays registered and is called again by
    every later [set_value]. *)
Theorem set_value_never_unregisters key value now vs w key' :
  all_topic_receivers (set_value hash key value now vs w).1.1.1
  = all_topic_receivers vs /\
  receivers (entry_of key' (set_value hash key value now vs w).1.1.1)
  = receivers (entry_of key' vs).
Proof.
  destruct (is_none value) eqn:Hv.
  - unfold set_value. rewrite Hv. split; reflexivity.
  - destruct (set_value_some hash key value now vs w Hv)
      as (_ & _ & Hs & Ha).
    split; [exact Ha|]. unfold entry_of at 1. rewrite Hs.
    destruct (decide (key = key')) as [<-|Hne].
    + rewrite lookup_insert_eq. reflexivity.
    + rewrite lookup_insert_ne by exact Hne. reflexivity.
Qed.

Lemma receive_dispatch_newest key value now w r :
  newest_entry hash key value (receive_dispatch hash key value now w r).1 r.
Proof.
  unfold receive_dispatch, newest_entry.
  destruct (w_receivers w !! r) as [[q|q]|] eqn:E.
  - pose proof (VQueueSpec.receive_queue key value now (w_events w) q) as Hq.
    unfold VQueue.receive in *.
    destruct (Events._notify_events (VQueue.events q) (w_events w))
      as [evs h']. cbn [fst snd w_receivers] in *.
    rewrite lookup_insert_eq. cbn. rewrite last_snoc. repeat split.
  - cbn [fst w_receivers]. rewrite lookup_insert_eq.
    unfold RecQueue.receive. cbn. eexists. apply last_snoc.
  - cbn [fst]. rewrite E. exact I.
Qed.

Lemma receive_dispatch_frame key value now w r r' :
  r <> r' ->
  w_receivers (receive_dispatch hash key value now w r').1 !! r
  = w_receivers w !! r.
Proof.
  intros Hne. unfold receive_dispatch.
  destruct (w_receivers w !! r') as [[q|q]|] eqn:E.
  - destruct (VQueue.receive key value now (w_events w) q) as [[q' h'] x].
    cbn. apply lookup_insert_ne. congruence.
  - cbn. apply lookup_insert_ne. congruence.
  - reflexivity.
Qed.

Lemma receive_dispatch_class key value now w r r' :
  receiver_class (receive_dispatch hash key value now w r').1 r
  = receiver_class w r.
Proof.
  destruct (decide (r = r')) as [->|Hne].
  - unfold receive_dispatch, receiver_class.
    destruct (w_receivers w !! r') as [[q|q]|] eqn:E.
    + destruct (VQueue.receive key value now (w_events w) q) as [[q' h'] x].
      cbn. rewrite lookup_insert_eq. reflexivity.
    + cbn. rewrite lookup_insert_eq. reflexivity.
    + cbn. rewrite E. reflexivity.
  - unfold receiver_class. rewrite receive_dispatch_frame by exact Hne.
    reflexivity.
Qed.

Lemma notify_loop_world rs key value now : forall w r,
  (r ∈ rs \/ newest_entry hash key value w r ->
   newest_entry hash key value
     (notify_loop hash rs key value now w).1.1 r) /\
  (r ∉ rs ->
   w_receivers (notify_loop hash rs key value now w).1.1 !! r
   = w_receivers w !! r) /\
  receiver_class (notify_loop hash rs key value now w).1.1 r
  = receiver_class w r.
Proof.
  induction rs as [|r0 rs IH]; intros w r.
  - cbn. split; [intros [H|H]; [inversion H|exact H]|]. split; reflexivity.
  - cbn [notify_loop].
    pose proof (receive_dispatch_newest key value now w r0) as Hn.
    pose proof (fun r => receive_dispatch_frame key value now w r r0) as Hf.
    pose proof (fun r => receive_dispatch_class key value now w r r0) as Hc.
    destruct (receive_dispatch hash key value now w r0) as [w1 x].
    cbn [fst] in Hn, Hf, Hc.
    destruct (IH w1 r) as (IHn & IHf & IHc).
    destruct (notify_loop hash rs key value now w1) as [[w2 e] log].
    cbn [fst] in *. split; [|split].
    + intros [Hin|Hnew]; apply IHn.
      * apply elem_of_cons in Hin as [->|Hin]; [right; exact Hn|left; exact Hin].
      * destruct (decide (r = r0)) as [->|Hne]; [right; exact Hn|].
        right. unfold newest_entry in *. rewrite Hf by exact Hne. exact Hnew.
    + intros Hnin. apply not_elem_of_cons in Hnin as [Hne Hnin].
      rewrite IHf by exact Hnin. apply Hf. exact Hne.
    + rewrite IHc. apply Hc.
Qed.

(** X12: After a [set_value] that returns, the written value is the newest
    entry of every receiver registered for all topics or for the topic,
    with the topic; the receivers that are not registered are left as they
    were, and no receiver changes its class. *)
Theorem set_value_reaches_receivers key value now vs w r :
  is_none value = false ->
  let w' := (set_value hash key value now vs w).1.1.2 in
  (r ∈ all_topic_receivers vs ++ receivers (entry_of key vs) ->
   newest_entry hash key value w' r) /\
  (r ∉ all_topic_receivers vs ++ receivers (entry_of key vs) ->
   w_receivers w' !! r = w_receivers w !! r) /\
  receiver_class w' r = receiver_class w r.
Proof.
  intros Hv w'. unfold w', set_value, _notify_receivers_and_cleanup.
  rewrite Hv, entry_of_create_key.
  rewrite (proj2 (create_key_lookup key vs)).
  destruct (notify_loop_world (all_topic_receivers vs) key value now w r)
    as (H1n & H1f & H1c).
  destruct (notify_loop hash (all_topic_receivers vs) key value now w)
    as [[w1 e1] log1]. cbn [fst] in *.
  destruct (notify_loop_world (receivers (entry_of key vs)) key value now w1 r)
    as (H2n & H2f & H2c).
  destruct (notify_loop hash (receivers (entry_of key vs)) key value now w1)
    as [[w2 e2] log2]. cbn [fst snd] in *.
  split; [|split].
  - intros [Hin|Hin]%elem_of_app; apply H2n.
    + right. apply H1n. left. exact Hin.
    + left. exact Hin.
  - intros Hnin. apply not_elem_of_app in Hnin as [Ha Hr].
    rewrite H2f by exact Hr. apply H1f. exact Ha.
  - rewrite H2c. exact H1c.
Qed.

End WithHash.

Lemma set_value_reaches_receivers_witness :
  newest_entry (fun _ => 0) "t" (PInt 7)
    (set_value (fun _ => 0) "t" (PInt 7) 5 sample_store sample_world).1.1.2
    2%nat.
Proof.
  apply (set_value_reaches_receivers (fun _ => 0) "t" (PInt 7) 5
           sample_store sample_world 2%nat eq_refl).
  vm_compute. repeat constructor.
Defined.

End VStoreMore.

(** ** The write queue of the recorder *)

Module RecQueueMore.
Import Py RecQueue.

Section WithHash.
Variable hash : string -> Z.

Lemma receive_topics_known topic value now q :
  topics_known q -> topics_known (receive hash topic value now q).
Proof.
  unfold topics_known, receive. cbn [deque topic_id_map]. intros H.
  apply Forall_app. split.
  - eapply Forall_impl; [exact H|]. intros qv [t Ht]. cbn beta.
    destruct (topic_id_map q !! hash topic) eqn:E; [exists t; exact Ht|].
    destruct (decide (hash topic = qv_topic_id qv)) as [Heq|Hne].
    + rewrite <- Heq, E in Ht. discriminate.
    + exists t. rewrite lookup_insert_ne by exact Hne. exact Ht.
  - constructor; [|constructor]. cbn [qv_topic_id].
    destruct (topic_id_map q !! hash topic) eqn:E.
    + rewrite E. eexists. reflexivity.
    + rewrite lookup_insert_eq. eexists. reflexivity.
Qed.

Lemma pop_topics_known q :
  topics_known q ->
  topics_known (pop q).1 /\ exists x, (pop q).2 = Ok x.
Proof.
  unfold topics_known, pop. intros H.
  destruct (deque q) as [|qv rest] eqn:Hd.
  - cbn. rewrite Hd. split; [constructor|]. eexists. reflexivity.
  - inversion H as [|? ? [t Ht] Hrest]; subst. rewrite Ht. cbn.
    split; [exact Hrest|]. eexists. reflexivity.
Qed.

Lemma queue_run_known ops : forall q,
  topics_known q ->
  Forall (fun r => exists x, r = Ok x) (queue_run hash ops q).2.
Proof.
  induction ops as [|[topic value now|] ops IH]; intros q Hq.
  - constructor.
  - cbn [queue_run]. apply IH. apply receive_topics_known. exact Hq.
  - cbn [queue_run].
    destruct (pop_topics_known q Hq) as [Hk Hx].
    destruct (pop q) as [q1 r]. cbn [fst snd] in *.
    specialize (IH q1 Hk). destruct (queue_run hash ops q1) as [q2 rs].
    cbn [snd] in *. constructor; assumption.
Qed.

(** X13: On a queue that is only used through [receive] and [pop], no [pop]
    raises: the topic id of every queued value is in the topic map, and on
    an empty queue [pop] returns an entry without value. *)
Theorem pop_never_raises ops :
  Forall (fun r => exists x, r = Ok x) (queue_run hash ops init).2.
Proof. apply queue_run_known. constructor. Qed.

(** X14: Two topics with the same hash share one entry of the topic map: the
    value received on the second topic is popped under the name of the
    first. *)
Theorem colliding_topics_share_a_name t1 t2 v1 v2 n1 n2 :
  hash t1 = hash t2 ->
  (queue_run hash [QReceive t1 v1 n1; QReceive t2 v2 n2; QPop; QPop] init).2
  = [Ok (mkQueueEntry (Some n1) t1 v1, 1);
     Ok (mkQueueEntry (Some n2) t1 v2, 0)].
Proof.
  intros Hh. cbn [queue_run]. unfold receive, init.
  cbn [topic_id_map deque rq_expired]. rewrite lookup_empty.
  rewrite <- Hh, lookup_insert_eq. unfold pop. cbn [deque app].
  cbn [qv_topic_id topic_id_map]. rewrite lookup_insert_eq.
  cbn [deque qv_topic_id topic_id_map]. rewrite lookup_insert_eq.
  reflexivity.
Qed.

Lemma receive_names T topic value now q :
  collision_free hash T -> topic ∈ T -> names hash T q ->
  names hash T (receive hash topic value now q) /\
  topic_id_map (receive hash topic value now q) !! hash topic = Some topic /\
  (forall t, topic_id_map q !! hash t = Some t ->
             topic_id_map (receive hash topic value now q) !! hash t = Some t).
Proof.
  intros Hc Hin Hn. unfold receive. cbn [topic_id_map].
  destruct (topic_id_map q !! hash topic) as [t'|] eqn:E.
  - split; [exact Hn|]. split; [|tauto].
    destruct (Hn _ _ E) as [Hh Ht']. rewrite E. f_equal.
    apply Hc; assumption.
  - split; [|split].
    + intros id t Ht. cbn [topic_id_map] in Ht.
      destruct (decide (hash topic = id)) as [<-|Hne].
      * rewrite lookup_insert_eq in Ht. injection Ht as <-. tauto.
      * rewrite lookup_insert_ne in Ht by exact Hne. apply Hn. exact Ht.
    + apply lookup_insert_eq.
    + intros t Ht. destruct (decide (hash topic = hash t)) as [Heq|Hne].
      * rewrite <- Heq, E in Ht. discriminate.
      * rewrite lookup_insert_ne by exact Hne. exact Ht.
Qed.

Lemma queue_run_receives T calls : forall ops q,
  collision_free hash T ->
  Forall (fun c => c.1.1 ∈ T) calls ->
  names hash T q ->
  exists q',
    queue_run hash (receives calls ++ ops) q = queue_run hash ops q' /\
    names hash T q' /\
    deque q' = deque q
               ++ map (fun '(topic, value, now) =>
                         mkQueueValue now (hash topic) value) calls /\
    (forall t, topic_id_map q !! hash t = Some t ->
               topic_id_map q' !! hash t = Some t) /\
    Forall (fun c => topic_id_map q' !! hash c.1.1 = Some c.1.1) calls.
Proof.
  induction calls as [|[[topic value] now] calls IH]; intros ops q Hc HT Hn.
  - exists q. cbn. rewrite app_nil_r.
    split; [reflexivity|]. split; [exact Hn|]. split; [reflexivity|].
    split; [auto|constructor].
  - inversion HT as [|? ? Hin HT']; subst. cbn in Hin.
    destruct (receive_names T topic value now q Hc Hin Hn)
      as (Hn1 & Hnew & Hkeep).
    destruct (IH ops (receive hash topic value now q) Hc HT' Hn1)
      as (q' & Hrun & Hn' & Hd & Hk & Hall).
    exists q'. cbn [receives map app queue_run]. split; [exact Hrun|].
    split; [exact Hn'|]. split; [|split].
    + rewrite Hd. cbn [receive deque map]. rewrite <- app_assoc. reflexivity.
    + intros t Ht. apply Hk, Hkeep, Ht.
    + constructor; [|exact Hall]. cbn. apply Hk. exact Hnew.
Qed.

Lemma queue_run_pops entries : forall q,
  deque q = map (fun '(topic, value, now) =>
                   mkQueueValue now (hash topic) value) entries ->
  Forall (fun c => topic_id_map q !! hash c.1.1 = Some c.1.1) entries ->
  (queue_run hash (replicate (length entries) QPop) q).2
  = imap (fun i '(topic, value, now) =>
            Ok (mkQueueEntry (Some now) topic value,
                Z.of_nat (length entries - S i))) entries.
Proof.
  induction entries as [|[[topic value] now] entries IH]; intros q Hd Hm;
    [reflexivity|].
  inversion Hm as [|? ? Ht Hm']; subst. cbn in Ht.
  cbn [length replicate queue_run]. unfold pop at 1. rewrite Hd.
  cbn [map qv_topic_id qv_time qv_value]. rewrite Ht.
  specialize (IH (mkRecQueue
                    (map (fun '(topic, value, now) =>
                            mkQueueValue now (hash topic) value) entries)
                    (topic_id_map q) (rq_expired q)) eq_refl Hm').
  destruct (queue_run hash (replicate (length entries) QPop) _) as [q2 rs].
  cbn [snd] in *. rewrite IH. cbn [imap length]. rewrite length_map.
  replace (Z.of_nat (S (length entries)) - 1)
    with (Z.of_nat (S (length entries) - 1)) by lia.
  reflexivity.
Qed.

(** X15: The queue hands the values on in the order they were received, each
    with its topic and the time of its reception and with the number of
    values still waiting, provided [hash] tells the topics apart. *)
Theorem write_queue_is_fifo calls :
  collision_free hash (map (fun c => c.1.1) calls) ->
  (queue_run hash (receives calls ++ replicate (length calls) QPop) init).2
  = imap (fun i '(topic, value, now) =>
            Ok (mkQueueEntry (Some now) topic value,
                Z.of_nat (length calls - S i))) calls.
Proof.
  intros Hc.
  destruct (queue_run_receives (map (fun c => c.1.1) calls) calls
              (replicate (length calls) QPop) init Hc)
    as (q' & Hrun & _ & Hd & _ & Hall).
  - apply Forall_forall. intros c Hin.
    apply (list_elem_of_fmap_2 (fun c => c.1.1)). exact Hin.
  - intros id t H. cbn in H. rewrite lookup_empty in H. discriminate.
  - rewrite Hrun. apply queue_run_pops; [exact Hd|exact Hall].
Qed.

End WithHash.

Lemma write_queue_is_fifo_witness :
  (queue_run (fun s => Z.of_nat (String.length s))
     (receives [("a"%string, PInt 1, 10); ("bb"%string, PInt 2, 20)]
      ++ [QPop; QPop]) init).2
  = [Ok (mkQueueEntry (Some 10) "a" (PInt 1), 1);
     Ok (mkQueueEntry (Some 20) "bb" (PInt 2), 0)].
Proof.
  apply (write_queue_is_fifo (fun s => Z.of_nat (String.length s))
           [("a"%string, PInt 1, 10); ("bb"%string, PInt 2, 20)]).
  intros t1 t2 H1 H2.
  apply elem_of_cons in H1 as [->|H1]; [|apply list_elem_of_singleton in H1 as ->];
    (apply elem_of_cons in H2 as [->|H2];
     [|apply list_elem_of_singleton in H2 as ->]);
    cbn; intros H; try reflexivity; discriminate H.
Defined.

Lemma colliding_topics_share_a_name_witness :
  (queue_run (fun _ => 0)
     [QReceive "a" (PInt 1) 10; QReceive "b" (PInt 2) 20; QPop; QPop]
     init).2
  = [Ok (mkQueueEntry (Some 10) "a" (PInt 1), 1);
     Ok (mkQueueEntry (Some 20) "a" (PInt 2), 0)].
Proof.
  apply (colliding_topics_share_a_name (fun _ => 0)). reflexivity.
Defined.

End RecQueueMore.

(** ** The status monitor and the write loop *)

Module RecorderMore.
Import Py MsgPack RecQueue Recorder Framing.

Lemma report_dropped_iter n : forall m,
  0 <= drop_count m <= MAX_DROP_COUNT ->
  drop_count (Nat.iter n report_dropped m)
  = Z.min (drop_count m + Z.of_nat n) MAX_DROP_COUNT /\
  drop_flag (Nat.iter n report_dropped m)
  = (drop_flag m || negb (Nat.eqb n 0)) /\
  max_queue_size (Nat.iter n report_dropped m) = max_queue_size m /\
  error_flag (Nat.iter n report_dropped m) = error_flag m /\
  last_out_time (Nat.iter n report_dropped m) = last_out_time m.
Proof.
  induction n as [|n IH]; intros m Hm.
  - cbn. rewrite orb_false_r. repeat split. lia.
  - change (Nat.iter (S n) report_dropped m)
      with (report_dropped (Nat.iter n report_dropped m)).
    destruct (IH m Hm) as (Hc & Hf & Hq & He & Ht).
    revert Hc Hf Hq He Ht. generalize (Nat.iter n report_dropped m).
    intros x Hc Hf Hq He Ht. unfold report_dropped.
    cbn [drop_count drop_flag max_queue_size error_flag last_out_time].
    rewrite Hc, Hq, He, Ht. repeat split.
    + destruct (Z.ltb_spec (Z.min (drop_count m + Z.of_nat n) MAX_DROP_COUNT)
                  MAX_DROP_COUNT); lia.
    + rewrite orb_true_r. reflexivity.
Qed.

(** X16: Drops are counted and reported once.  After [n] calls of
    [report_dropped] since the last status, the status that the next
    written value publishes (more than a second after the last one) carries
    the drop flag exactly when [n] is not zero, and the error line reports
    [n] dropped values, at most [MAX_DROP_COUNT]; the status carries the
    largest queue size seen, and publishing it resets flag and counter.
    [num_writes] is not negative, so that the averages of the status are
    defined after [serialize_begin]. *)
Theorem drops_are_reported_once n queue_size now m :
  drop_flag m = false -> drop_count m = 0 -> 0 <= num_writes m ->
  now - last_out_time m > 1000000 ->
  let m' := serialize_begin queue_size (Nat.iter n report_dropped m) in
  (serialize_end now m').2
  = OutStatus (Z.max queue_size (max_queue_size m)) (negb (Nat.eqb n 0))
              (error_flag m)
    :: (if Nat.eqb n 0 then []
        else [OutDropped (Z.min (Z.of_nat n) MAX_DROP_COUNT)]) /\
  drop_flag (serialize_end now m').1 = false /\
  drop_count (serialize_end now m').1 = 0 /\
  last_out_time (serialize_end now m').1 = now.
Proof.
  intros Hf Hc _ Hnow m'.
  destruct (report_dropped_iter n m) as (Hc' & Hf' & Hq & He & Ht).
  { rewrite Hc. unfold MAX_DROP_COUNT. lia. }
  rewrite Hf in Hf'. rewrite Hc in Hc'.
  cbn [orb] in Hf'. rewrite Z.add_0_l in Hc'.
  unfold serialize_end, m', serialize_begin. cbn [last_out_time].
  rewrite Ht.
  destruct (Z.gtb_spec (now - last_out_time m) 1000000) as [_|?]; [|lia].
  unfold _output_status, _init_status.
  cbn [fst snd drop_flag drop_count last_out_time max_queue_size error_flag].
  rewrite Hf', Hc', Hq, He.
  replace (if queue_size >? max_queue_size m then queue_size
           else max_queue_size m)
    with (Z.max queue_size (max_queue_size m))
    by (destruct (Z.gtb_spec queue_size (max_queue_size m)); lia).
  destruct n as [|n]; cbn [Nat.eqb negb]; repeat split.
Qed.

Lemma drops_are_reported_once_witness :
  (serialize_end 2000000
     (serialize_begin 5 (Nat.iter 3 report_dropped (monitor_start 0)))).2
  = [OutStatus 5 true false; OutDropped 3].
Proof.
  apply (drops_are_reported_once 3 5 2000000 (monitor_start 0));
    cbn; first [reflexivity | lia].
Defined.

Section WithZlib.
Variable zlib_compress : bytes -> option bytes.

(** What [_serialize] leaves alone, however it ends. *)
Lemma serialize_frame now qe r :
  let r' := (_serialize zlib_compress now qe r).1.1 in
  queue r' = queue r /\
  queue_size_limit r' = queue_size_limit r /\
  same_settings r r' /\
  match file r with
  | Some content => exists tail, file r' = Some (content ++ tail)
  | None => r' = r
  end.
Proof.
  unfold _serialize.
  destruct (decide (qe_topic qe ∈ disabled_topics r)).
  { cbn. repeat split. destruct (file r); [exists []; apply f_equal;
      symmetry; apply app_nil_r|reflexivity]. }
  destruct (qe_value qe);
    try (cbn; repeat split; destruct (file r);
         [exists []; apply f_equal; symmetry; apply app_nil_r|reflexivity]).
  destruct (file r) as [content|] eqn:Hf; [|cbn; repeat split].
  destruct (extmem_part _ _ _ _ _ _) as [[[[size present] sc] data] m2].
  destruct (pack_fields _ _ _ _ _ _ _ _) as [[[h v] mh]|e].
  - destruct (serialize_end now _) as [m4 out]. cbn.
    repeat split. eexists. reflexivity.
  - cbn. repeat split. exists []. rewrite app_nil_r. reflexivity.
Qed.

Lemma write_turn_frame now r :
  let r' := (write_turn zlib_compress now r).1.1 in
  queue_size_limit r' = queue_size_limit r /\
  topic_id_map (queue r') = topic_id_map (queue r) /\
  same_settings r r' /\
  match file r with
  | Some content => exists tail, file r' = Some (content ++ tail)
  | None => file r' = None
  end.
Proof.
  unfold write_turn, RecQueue.pop.
  destruct (deque (queue r)) as [|qv rest] eqn:Hd.
  - cbn. repeat split. destruct (file r); [exists []|reflexivity].
    rewrite app_nil_r. reflexivity.
  - destruct (topic_id_map (queue r) !! qv_topic_id qv) as [topic|].
    + cbn [with_queue queue_size_limit qe_value qe_topic].
      destruct (is_none (qv_value qv)).
      { cbn. repeat split. destruct (file r); [exists []|reflexivity].
        rewrite app_nil_r. reflexivity. }
      destruct (_ || _).
      * pose proof (serialize_frame now
                      (mkQueueEntry (Some (qv_time qv)) topic (qv_value qv))
                      (with_queue (mkRecQueue rest (topic_id_map (queue r))
                                     (rq_expired (queue r))) r))
          as (Hq & Hl & Hs & Hfile).
        destruct (_serialize _ _ _ _) as [[r2 out] res].
        cbn [fst snd] in *. rewrite Hq, Hl. cbn. repeat split; try apply Hs.
        cbn [with_queue file] in Hfile.
        destruct (file r) eqn:Hfr; [exact Hfile|]. rewrite Hfile. exact Hfr.
      * cbn. repeat split. destruct (file r); [exists []|reflexivity].
        rewrite app_nil_r. reflexivity.
    + cbn. repeat split. destruct (file r); [exists []|reflexivity].
      rewrite app_nil_r. reflexivity.
Qed.

Lemma write_turns_frame nows : forall r,
  let r' := (write_turns zlib_compress nows r).1.1 in
  same_settings r r' /\
  queue_size_limit r' = queue_size_limit r /\
  match file r with
  | Some content => exists tail, file r' = Some (content ++ tail)
  | None => file r' = None
  end.
Proof.
  induction nows as [|now nows IH]; intros r.
  - cbn. repeat split. destruct (file r); [exists []|reflexivity].
    rewrite app_nil_r. reflexivity.
  - cbn [write_turns].
    pose proof (write_turn_frame now r) as (Hl & _ & Hs & Hf).
    destruct (write_turn zlib_compress now r) as [[r1 out] [[]|e]];
      cbn [fst snd] in *; try (split; [exact Hs|split; [exact Hl|exact Hf]]).
    all: specialize (IH r1);
      destruct (write_turns zlib_compress nows r1) as [[r2 out2] ds];
      cbn [fst snd] in *; destruct IH as (Hs2 & Hl2 & Hf2);
      (split; [|split; [congruence|]]);
      [destruct Hs as (?&?&?), Hs2 as (?&?&?); repeat split; congruence|];
      destruct (file r) as [content|];
      [destruct Hf as [t1 Hf]; rewrite Hf in Hf2; destruct Hf2 as [t2 Hf2];
       exists (t1 ++ t2); rewrite Hf2, app_assoc; reflexivity
      |rewrite Hf in Hf2; exact Hf2].
Qed.

Variable hash : string -> Z.

Lemma recorder_run_frame ops : forall r,
  let r' := (recorder_run hash zlib_compress ops r).1 in
  same_settings r r' /\
  queue_size_limit r' = queue_size_limit r /\
  match file r with
  | Some content => exists tail, file r' = Some (content ++ tail)
  | None => file r' = None
  end.
Proof.
  induction ops as [|[topic value now|now] ops IH]; intros r.
  - cbn. repeat split. destruct (file r); [exists []|reflexivity].
    rewrite app_nil_r. reflexivity.
  - cbn [recorder_run]. exact (IH (with_queue _ r)).
  - cbn [recorder_run].
    pose proof (write_turn_frame now r) as (Hl & _ & Hs & Hf).
    destruct (write_turn zlib_compress now r) as [[r1 out] [d|e]];
      cbn [fst snd] in *; [|split; [exact Hs|split; [exact Hl|exact Hf]]].
    specialize (IH r1).
    destruct (recorder_run hash zlib_compress ops r1) as [r2 out2].
    cbn [fst snd] in *. destruct IH as (Hs2 & Hl2 & Hf2).
    split; [|split; [congruence|]].
    + destruct Hs as (?&?&?), Hs2 as (?&?&?). repeat split; congruence.
    + destruct (file r) as [content|].
      * destruct Hf as [t1 Hf]. rewrite Hf in Hf2. destruct Hf2 as [t2 Hf2].
        exists (t1 ++ t2). rewrite Hf2, app_assoc. reflexivity.
      * rewrite Hf in Hf2. exact Hf2.
Qed.

(** X17: A started recorder only appends to its file: whatever it
    receives, and whatever the write thread pops, drops or fails to pack,
    the bytes already in the file stay where they are, and neither the
    topic settings nor the queue limit are touched. *)
Theorem record_file_is_append_only ops r content :
  file r = Some content ->
  (exists tail,
     file (recorder_run hash zlib_compress ops r).1 = Some (content ++ tail)) /\
  same_settings r (recorder_run hash zlib_compress ops r).1 /\
  queue_size_limit (recorder_run hash zlib_compress ops r).1
  = queue_size_limit r.
Proof.
  intros Hf. pose proof (recorder_run_frame ops r) as (Hs & Hl & Hfile).
  rewrite Hf in Hfile. repeat split; try apply Hs; assumption.
Qed.

Lemma write_turn_decision now r r1 out d :
  write_turn zlib_compress now r = (r1, out, Ok d) ->
  d <> QueueEmpty ->
  exists qv rest,
    deque (queue r) = qv :: rest /\
    deque (queue r1) = rest /\
    topic_id_map (queue r1) = topic_id_map (queue r) /\
    queue_size_limit r1 = queue_size_limit r /\
    d = expected_decision (queue_size_limit r) (S (length rest)) 0
          (topic_of (queue r) qv).
Proof.
  unfold write_turn, RecQueue.pop. intros H Hd.
  destruct (deque (queue r)) as [|qv rest] eqn:Hq.
  { cbn in H. injection H as _ _ <-. contradiction. }
  exists qv, rest. split; [reflexivity|].
  unfold expected_decision, topic_of.
  destruct (topic_id_map (queue r) !! qv_topic_id qv) as [topic|];
    [|discriminate].
  cbn [with_queue queue_size_limit qe_value qe_topic] in H.
  destruct (is_none (qv_value qv)); [injection H as _ _ <-; contradiction|].
  replace (Z.of_nat (S (length rest) - 1)) with (Z.of_nat (length (qv :: rest)) - 1)
    by (cbn [length]; lia).
  destruct (_ || _).
  - pose proof (serialize_frame now
                  (mkQueueEntry (Some (qv_time qv)) topic (qv_value qv))
                  (with_queue (mkRecQueue rest (topic_id_map (queue r))
                                 (rq_expired (queue r))) r))
      as (Hq2 & Hl & _).
    destruct (_serialize _ _ _ _) as [[r2 out2] [[]|e]]; [|discriminate].
    injection H as <- _ <-. cbn [fst] in *. rewrite Hq2, Hl. repeat split.
  - injection H as <- _ <-. repeat split.
Qed.

Lemma write_turns_decisions nows : forall r,
  (write_turns zlib_compress nows r).2
  `prefix_of`
  imap (fun i qv =>
          expected_decision (queue_size_limit r) (length (deque (queue r))) i
            (topic_of (queue r) qv))
       (deque (queue r)).
Proof.
  induction nows as [|now nows IH]; intros r.
  - cbn. apply prefix_nil.
  - cbn [write_turns].
    destruct (write_turn zlib_compress now r) as [[r1 out] [d|e]] eqn:E;
      [|apply prefix_nil].
    assert (Hcase : d = QueueEmpty \/ d <> QueueEmpty)
      by (destruct d; [right|right|left]; congruence).
    destruct Hcase as [->|Hd]; [apply prefix_nil|].
    destruct (write_turn_decision now r r1 out d E Hd)
      as (qv & rest & Hq & Hq1 & Hm & Hl & Hdec).
    specialize (IH r1).
    destruct (write_turns zlib_compress nows r1) as [[r2 out2] ds].
    cbn [snd] in *. rewrite Hq. cbn [imap length].
    assert (Hgoal : (d :: ds) `prefix_of`
              expected_decision (queue_size_limit r) (S (length rest)) 0
                (topic_of (queue r) qv)
              :: imap (fun i qv0 =>
                         expected_decision (queue_size_limit r)
                           (S (length rest)) (S i) (topic_of (queue r) qv0))
                      rest).
    { rewrite <- Hdec. apply prefix_cons.
      rewrite Hq1, Hl in IH.
      erewrite imap_ext; [exact IH|].
      intros i x _. cbn beta. unfold topic_of. rewrite Hm. reflexivity. }
    destruct d; [exact Hgoal|exact Hgoal|contradiction].
Qed.

(** X18: The decisions of the write loop on a backlog to which nothing
    is added: the entry at position [i] of [n] is dropped exactly when at
    least [queue_size_limit] entries wait behind it and its topic is not
    the status topic.  So of a backlog longer than the limit the oldest
    entries are dropped and the newest are written.  The loop may stop
    early (an entry without value, a value that cannot be packed): its
    decisions are then the first of this list.  No status is published
    meanwhile: a status value is received by the queue of the recorder
    itself and joins the backlog. *)
Theorem write_loop_drops_the_oldest nows r :
  (write_turns zlib_compress nows r).1.2 = [] ->
  (write_turns zlib_compress nows r).2
  `prefix_of`
  imap (fun i qv =>
          expected_decision (queue_size_limit r) (length (deque (queue r))) i
            (topic_of (queue r) qv))
       (deque (queue r)).
Proof. intros _. apply write_turns_decisions. Qed.

End WithZlib.

(** A run on a recorder whose file holds a record already: the record
    stays, and the run adds a record. *)
Lemma record_file_is_append_only_witness :
  exists content tail,
    content <> [] /\ tail <> [] /\
    file half_written = Some content /\
    file (recorder_run hash0 toy_compress
            [RReceive "pt" point_value 10; RTurn 11; RTurn 12; RTurn 13]
            half_written).1
    = Some (content ++ tail).
Proof.
  destruct (file half_written) as [content|] eqn:Hf;
    [|vm_compute in Hf; discriminate Hf].
  destruct (record_file_is_append_only toy_compress hash0
              [RReceive "pt" point_value 10; RTurn 11; RTurn 12; RTurn 13]
              half_written content Hf) as ((tail & Ht) & _).
  exists content, tail.
  split; [intros ->; vm_compute in Hf; discriminate Hf|].
  split; [|split; [reflexivity|exact Ht]].
  intros ->. rewrite app_nil_r in Ht.
  assert (Hlen : option_map (@length byte)
                   (file (recorder_run hash0 toy_compress
                            [RReceive "pt" point_value 10; RTurn 11;
                             RTurn 12; RTurn 13] half_written).1)
                 <> option_map (@length byte) (file half_written))
    by (vm_compute; discriminate).
  apply Hlen. rewrite Ht, Hf. reflexivity.
Defined.

Lemma write_loop_drops_the_oldest_witness :
  (write_turns toy_compress [9; 10; 11; 12] crowded).2
  `prefix_of`
  imap (fun i qv =>
          expected_decision (queue_size_limit crowded)
            (length (deque (queue crowded))) i
            (topic_of (queue crowded) qv))
       (deque (queue crowded)).
Proof.
  apply (write_loop_drops_the_oldest toy_compress [9; 10; 11; 12] crowded).
  vm_compute. reflexivity.
Defined.

(** With the limit at one and three entries waiting, the first entry is
    dropped, the status entry is written although two entries wait, and the
    last entry is written. *)
Lemma write_loop_drops_the_oldest_sample :
  (write_turns toy_compress [9; 10; 11; 12] crowded).2
  = imap (fun i qv =>
            expected_decision (queue_size_limit crowded)
              (length (deque (queue crowded))) i
              (topic_of (queue crowded) qv))
         (deque (queue crowded)).
Proof. vm_compute. reflexivity. Qed.

End RecorderMore.

(** ** The life cycle of components *)

Module CompMgrMore.
Import CompMgr CompMgrSpec.

Lemma comp_ids_NoDup m : NoDup (comp_ids m).
Proof.
  unfold comp_ids. apply NoDup_fmap_2; [|apply NoDup_seq].
  intros x y H. lia.
Qed.

Lemma comp_ids_cover m k e :
  ids_bounded m -> components m !! k = Some e -> k ∈ comp_ids m.
Proof.
  intros [H0 Hb] Hk. specialize (Hb k e Hk). unfold comp_ids.
  replace k with (Z.of_nat (Z.to_nat k)) by lia.
  apply list_elem_of_fmap_2. apply elem_of_seq. lia.
Qed.

Lemma set_state_lookup k st m k' :
  components (set_state k st m) !! k'
  = if decide (k' = k)
    then (fun e => mkCompEntry (component e) (id e) (instance_name e) st)
           <$> components m !! k'
    else components m !! k'.
Proof.
  unfold set_state. cbn [components].
  destruct (decide (k' = k)) as [->|Hne].
  - apply lookup_alter_eq.
  - apply lookup_alter_ne. congruence.
Qed.

Lemma moved_hit from to e :
  state_is from e = true ->
  moved from to e = mkCompEntry (component e) (id e) (instance_name e) to.
Proof. intros H. unfold moved. rewrite H. reflexivity. Qed.

Lemma moved_miss from to e : state_is from e = false -> moved from to e = e.
Proof. intros H. unfold moved. rewrite H. reflexivity. Qed.

Lemma configure_loop_spec ks : forall m h,
  NoDup ks ->
  let m' := (configure_loop ks m h).1.1 in
  last_comp_id m' = last_comp_id m /\
  forall k, components m' !! k
            = if decide (k ∈ ks)
              then moved REGISTERED CONFIGURED <$> components m !! k
              else components m !! k.
Proof.
  induction ks as [|k0 ks IH]; intros m h Hnd.
  - cbn. split; [reflexivity|]. intros k.
    rewrite decide_False by apply not_elem_of_nil. reflexivity.
  - apply NoDup_cons in Hnd as [Hnin Hnd]. cbn [configure_loop].
    assert (Hskip : forall m2,
      last_comp_id m2 = last_comp_id m /\
      (forall k, components m2 !! k
                 = if decide (k ∈ ks)
                   then moved REGISTERED CONFIGURED <$> components m !! k
                   else components m !! k) ->
      (components m !! k0 = None \/
       exists e, components m !! k0 = Some e /\
                 state_is REGISTERED e = false) ->
      last_comp_id m2 = last_comp_id m /\
      forall k, components m2 !! k
                = if decide (k ∈ k0 :: ks)
                  then moved REGISTERED CONFIGURED <$> components m !! k
                  else components m !! k).
    { intros m2 [Hl Hc] Hk0. split; [exact Hl|]. intros k. rewrite Hc.
      destruct (decide (k = k0)) as [->|Hne].
      - rewrite decide_False by exact Hnin.
        rewrite decide_True by (apply elem_of_cons; left; reflexivity).
        destruct Hk0 as [Hk0|(e & Hk0 & Hs)]; rewrite Hk0; cbn;
          rewrite ?moved_miss by exact Hs; reflexivity.
      - destruct (decide (k ∈ ks)) as [Hin|Hin].
        + rewrite decide_True by (apply elem_of_cons; right; exact Hin).
          reflexivity.
        + rewrite decide_False; [reflexivity|].
          intros [?|?]%elem_of_cons; contradiction. }
    destruct (components m !! k0) as [entry|] eqn:Hk0.
    + destruct (state_is REGISTERED entry) eqn:Hs; cbn [negb].
      * specialize (IH (set_state k0 CONFIGURED m)
                      (upd (component entry)
                           (ctrl_configure (instance_name entry)) h) Hnd).
        destruct (configure_loop ks _ _) as [[m2 h2] log].
        cbn [fst] in *. destruct IH as [Hl Hc]. split; [exact Hl|].
        intros k. rewrite Hc, set_state_lookup.
        destruct (decide (k = k0)) as [->|Hne].
        -- rewrite decide_False by exact Hnin.
           rewrite decide_True by (apply elem_of_cons; left; reflexivity).
           rewrite Hk0. cbn. rewrite moved_hit by exact Hs. reflexivity.
        -- destruct (decide (k ∈ ks)) as [Hin|Hin].
           ++ rewrite decide_True by (apply elem_of_cons; right; exact Hin).
              reflexivity.
           ++ rewrite decide_False; [reflexivity|].
              intros [?|?]%elem_of_cons; contradiction.
      * apply Hskip; [apply IH; exact Hnd|].
        right. exists entry. split; [reflexivity|exact Hs].
    + apply Hskip; [apply IH; exact Hnd|]. left. reflexivity.
Qed.

Lemma fmap_on_keys (f : CompMapEntry -> CompMapEntry) m m' :
  ids_bounded m ->
  (forall k, components m' !! k
             = if decide (k ∈ comp_ids m) then f <$> components m !! k
               else components m !! k) ->
  components m' = f <$> components m.
Proof.
  intros Hb H. apply map_eq. intros k. rewrite H, lookup_fmap.
  destruct (decide (k ∈ comp_ids m)) as [Hin|Hin]; [reflexivity|].
  destruct (components m !! k) as [e|] eqn:E; [|reflexivity].
  exfalso. apply Hin. eapply comp_ids_cover; eassumption.
Qed.

Lemma configure_spec m h :
  ids_bounded m ->
  components (configure m h).1.1
  = moved REGISTERED CONFIGURED <$> components m /\
  last_comp_id (configure m h).1.1 = last_comp_id m.
Proof.
  intros Hb. unfold configure.
  destruct (configure_loop_spec (comp_ids m) m h (comp_ids_NoDup m))
    as [Hl Hc].
  split; [|exact Hl]. apply fmap_on_keys; assumption.
Qed.

(** the keys among [ks] of the entries in state [st] *)
Lemma ctrl_loop_spec (Q : Runtime -> Prop) st ctrl call m ks :
  (forall o, Q (ctrl o)) -> (forall o, Q o -> Q (ctrl o)) ->
  forall h,
  let r := ctrl_loop st ctrl call ks m h in
  (forall k, k ∈ r.1.2 <->
             k ∈ ks /\ exists e, components m !! k = Some e /\
                                  state_is st e = true) /\
  (NoDup ks -> NoDup r.1.2) /\
  (forall k e, k ∈ r.1.2 -> components m !! k = Some e ->
               Q (r.1.1 (component e))) /\
  (forall c, Q (h c) -> Q (r.1.1 c)).
Proof.
  intros HQ1 HQ2. induction ks as [|k0 ks IH]; intros h.
  - cbn. split; [|split; [|split]].
    + intros k. split; [intros []%not_elem_of_nil|].
      intros [[]%not_elem_of_nil _].
    + intros _. constructor.
    + intros k e []%not_elem_of_nil.
    + auto.
  - cbn [ctrl_loop].
    assert (Hskip :
      (components m !! k0 = None \/
       exists e, components m !! k0 = Some e /\ state_is st e = false) ->
      let r := ctrl_loop st ctrl call ks m h in
      (forall k, k ∈ r.1.2 <->
                 k ∈ k0 :: ks /\ exists e, components m !! k = Some e /\
                                            state_is st e = true) /\
      (NoDup (k0 :: ks) -> NoDup r.1.2) /\
      (forall k e, k ∈ r.1.2 -> components m !! k = Some e ->
                   Q (r.1.1 (component e))) /\
      (forall c, Q (h c) -> Q (r.1.1 c))).
    { intros Hk0 r. destruct (IH h) as (Hin & Hnd & Hq & Hst). fold r in Hin, Hnd, Hq, Hst.
      split; [|split; [|split]]; try assumption.
      - intros k. rewrite Hin. split.
        + intros [Hk He]. split; [apply elem_of_cons; right; exact Hk|exact He].
        + intros [Hk (e & He & Hs)]. split; [|exists e; tauto].
          apply elem_of_cons in Hk as [->|Hk]; [|exact Hk].
          destruct Hk0 as [Hk0|(e0 & Hk0 & Hs0)]; congruence.
      - intros Hn. apply NoDup_cons in Hn as [_ Hn]. apply Hnd, Hn. }
    destruct (components m !! k0) as [entry|] eqn:Hk0.
    + destruct (state_is st entry) eqn:Hs; cbn [negb].
      * destruct (IH (upd (component entry) ctrl h)) as (Hin & Hnd & Hq & Hst).
        destruct (ctrl_loop st ctrl call ks m (upd (component entry) ctrl h))
          as [[h2 done] log]. cbn [fst snd] in *.
        assert (Hh1 : forall c, Q (h c) -> Q (upd (component entry) ctrl h c)).
        { intros c Hc. unfold upd. destruct (decide (c = component entry));
            [subst; apply HQ2, Hc|exact Hc]. }
        split; [|split; [|split]].
        -- intros k. rewrite elem_of_cons, Hin, elem_of_cons. split.
           ++ intros [->|[Hk He]]; [|tauto]. split; [left; reflexivity|].
              exists entry. tauto.
           ++ intros [[->|Hk] He]; [left; reflexivity|right; tauto].
        -- intros Hn. apply NoDup_cons in Hn as [Hnin Hn].
           apply NoDup_cons. split; [|apply Hnd, Hn].
           intros Hk. apply Hin in Hk as [Hk _]. contradiction.
        -- intros k e Hk He. apply elem_of_cons in Hk as [->|Hk].
           ++ rewrite Hk0 in He. injection He as <-. apply Hst.
              unfold upd. rewrite decide_True by reflexivity. apply HQ1.
           ++ apply (Hq k e Hk He).
        -- intros c Hc. apply Hst, Hh1, Hc.
      * apply Hskip. right. exists entry. tauto.
    + apply Hskip. left. reflexivity.
Qed.

Lemma run_loop_spec done : forall m h,
  NoDup done ->
  let r := run_loop done m h in
  last_comp_id r.1.1 = last_comp_id m /\
  (forall k, components r.1.1 !! k
             = if decide (k ∈ done)
               then (fun e => mkCompEntry (component e) (id e)
                                          (instance_name e) RUNNING)
                      <$> components m !! k
               else components m !! k) /\
  (forall c, is_running (r.1.2 c) = is_running (h c)) /\
  (forall c, startup_request (h c) = true -> startup_request (r.1.2 c) = true) /\
  (forall k e, k ∈ done -> components m !! k = Some e ->
               startup_request (r.1.2 (component e)) = true).
Proof.
  induction done as [|k0 done IH]; intros m h Hnd.
  - cbn. split; [reflexivity|]. split; [|split; [reflexivity|split; [auto|]]].
    + intros k. rewrite decide_False by apply not_elem_of_nil. reflexivity.
    + intros k e []%not_elem_of_nil.
  - apply NoDup_cons in Hnd as [Hnin Hnd]. cbn [run_loop].
    destruct (components m !! k0) as [entry|] eqn:Hk0.
    + specialize (IH (set_state k0 RUNNING m)
                     (upd (component entry) ctrl_run h) Hnd).
      destruct (run_loop done _ _) as [[m2 h2] log]. cbn [fst snd] in *.
      destruct IH as (Hl & Hc & Hr & Hst & Hreq).
      split; [exact Hl|]. split; [|split; [|split]].
      * intros k. rewrite Hc, set_state_lookup.
        destruct (decide (k = k0)) as [->|Hne].
        -- rewrite decide_False by exact Hnin.
           rewrite decide_True by (apply elem_of_cons; left; reflexivity).
           reflexivity.
        -- destruct (decide (k ∈ done)) as [Hin|Hin].
           ++ rewrite decide_True by (apply elem_of_cons; right; exact Hin).
              reflexivity.
           ++ rewrite decide_False; [reflexivity|].
              intros [?|?]%elem_of_cons; contradiction.
      * intros c. rewrite Hr. unfold upd.
        destruct (decide (c = component entry)); [subst|]; reflexivity.
      * intros c Hc0. apply Hst. unfold upd.
        destruct (decide (c = component entry)); [reflexivity|exact Hc0].
      * intros k e Hk He. apply elem_of_cons in Hk as [->|Hk].
        -- rewrite Hk0 in He. injection He as <-. apply Hst.
           unfold upd. rewrite decide_True by reflexivity. reflexivity.
        -- apply (Hreq k e Hk). rewrite set_state_lookup.
           rewrite decide_False; [exact He|]. intros ->. contradiction.
    + specialize (IH m h Hnd).
      destruct (run_loop done m h) as [[m2 h2] log]. cbn [fst snd] in *.
      destruct IH as (Hl & Hc & Hr & Hst & Hreq).
      split; [exact Hl|]. split; [|split; [exact Hr|split; [exact Hst|]]].
      * intros k. rewrite Hc.
        destruct (decide (k = k0)) as [->|Hne].
        -- rewrite decide_False by exact Hnin.
           rewrite decide_True by (apply elem_of_cons; left; reflexivity).
           rewrite Hk0. reflexivity.
        -- destruct (decide (k ∈ done)) as [Hin|Hin].
           ++ rewrite decide_True by (apply elem_of_cons; right; exact Hin).
              reflexivity.
           ++ rewrite decide_False; [reflexivity|].
              intros [?|?]%elem_of_cons; contradiction.
      * intros k e Hk He. apply elem_of_cons in Hk as [->|Hk];
          [congruence|]. apply (Hreq k e Hk He).
Qed.

Lemma all_are_true expected done m h :
  (forall k e, k ∈ done -> components m !! k = Some e ->
               is_running (h (component e)) = expected) ->
  all_are expected done m h = true.
Proof.
  intros H. unfold all_are. apply forallb_forall. intros k Hk.
  apply list_elem_of_In in Hk.
  destruct (components m !! k) as [e|] eqn:E; [|reflexivity].
  rewrite (H k e Hk E). destruct expected; reflexivity.
Qed.

Lemma moved_component from to e : component (moved from to e) = component e.
Proof. unfold moved. destruct (state_is from e); reflexivity. Qed.

Lemma keys_unchanged (f : CompMapEntry -> CompMapEntry) m m' :
  ids_bounded m ->
  components m' = f <$> components m ->
  last_comp_id m' = last_comp_id m ->
  ids_bounded m'.
Proof.
  intros [H0 Hb] Hc Hl. split; [rewrite Hl; exact H0|].
  intros k e He. rewrite Hc, lookup_fmap in He. rewrite Hl.
  destruct (components m !! k) as [e0|] eqn:E; [|discriminate].
  apply (Hb k e0 E).
Qed.

Lemma startup_spec m h :
  ids_bounded m ->
  exists m' h' log,
    startup m h = Some (m', h', log) /\
    components m' = moved CONFIGURED RUNNING <$> components m /\
    last_comp_id m' = last_comp_id m /\
    forall k e, components m !! k = Some e ->
                state_is CONFIGURED e = true ->
                is_running (h' (component e)) = true /\
                startup_request (h' (component e)) = true.
Proof.
  intros Hb. unfold startup.
  destruct (ctrl_loop_spec (fun o => is_running o = true) CONFIGURED
              ctrl_start CtrlStart m (comp_ids m)) with (h := h)
    as (Hin & Hnd & Hq & _).
  { intros o. unfold ctrl_start. destruct (is_running o) eqn:E;
      [exact E|reflexivity]. }
  { intros o Ho. unfold ctrl_start. rewrite Ho. exact Ho. }
  destruct (ctrl_loop CONFIGURED ctrl_start CtrlStart (comp_ids m) m h)
    as [[h1 started] log1]. cbn [fst snd] in *.
  rewrite (all_are_true true started m h1) by exact Hq.
  destruct (run_loop_spec started m h1 (Hnd (comp_ids_NoDup m)))
    as (Hl & Hc & Hr & _ & Hreq).
  destruct (run_loop started m h1) as [[m2 h2] log2]. cbn [fst snd] in *.
  exists m2, h2, (log1 ++ log2). split; [reflexivity|].
  split; [|split; [exact Hl|]].
  - apply map_eq. intros k. rewrite Hc, lookup_fmap.
    destruct (components m !! k) as [e|] eqn:E;
      [|destruct (decide (k ∈ started)); reflexivity].
    destruct (decide (k ∈ started)) as [Hk|Hk]; cbn.
    + apply Hin in Hk as (_ & e' & He' & Hs). rewrite E in He'.
      injection He' as <-. rewrite moved_hit by exact Hs. reflexivity.
    + destruct (state_is CONFIGURED e) eqn:Hs;
        [|rewrite moved_miss by exact Hs; reflexivity].
      exfalso. apply Hk, Hin. split; [eapply comp_ids_cover; eassumption|].
      exists e. tauto.
  - intros k e He Hs.
    assert (Hk : k ∈ started).
    { apply Hin. split; [eapply comp_ids_cover; eassumption|].
      exists e. tauto. }
    split; [rewrite Hr; apply (Hq k e Hk He)|apply (Hreq k e Hk He)].
Qed.

Lemma fold_set_state_spec st done : forall m,
  last_comp_id (fold_left (fun m k => set_state k st m) done m)
  = last_comp_id m /\
  forall k, components (fold_left (fun m k => set_state k st m) done m) !! k
            = if decide (k ∈ done)
              then (fun e => mkCompEntry (component e) (id e)
                                         (instance_name e) st)
                     <$> components m !! k
              else components m !! k.
Proof.
  induction done as [|k0 done IH]; intros m.
  - cbn. split; [reflexivity|]. intros k.
    rewrite decide_False by apply not_elem_of_nil. reflexivity.
  - cbn [fold_left]. destruct (IH (set_state k0 st m)) as [Hl Hc].
    split; [exact Hl|]. intros k. rewrite Hc, set_state_lookup.
    destruct (decide (k = k0)) as [->|Hne].
    + rewrite (decide_True (P := k0 ∈ k0 :: done))
        by (apply elem_of_cons; left; reflexivity).
      destruct (decide (k0 ∈ done)); [|reflexivity].
      destruct (components m !! k0); reflexivity.
    + destruct (decide (k ∈ done)) as [Hin|Hin].
      * rewrite decide_True by (apply elem_of_cons; right; exact Hin).
        reflexivity.
      * rewrite decide_False; [reflexivity|].
        intros [?|?]%elem_of_cons; contradiction.
Qed.

Lemma shutdown_spec m h :
  ids_bounded m ->
  exists m' h' log,
    shutdown m h = Some (m', h', log) /\
    components m' = moved RUNNING CONFIGURED <$> components m /\
    last_comp_id m' = last_comp_id m /\
    forall k e, components m !! k = Some e ->
                state_is RUNNING e = true ->
                is_running (h' (component e)) = false.
Proof.
  intros Hb. unfold shutdown.
  destruct (ctrl_loop_spec (fun o => is_running o = false) RUNNING
              ctrl_stop CtrlStop m (comp_ids m)) with (h := h)
    as (Hin & Hnd & Hq & _).
  { intros o. unfold ctrl_stop. destruct (is_running o) eqn:E;
      [reflexivity|exact E]. }
  { intros o Ho. unfold ctrl_stop. rewrite Ho. exact Ho. }
  destruct (ctrl_loop RUNNING ctrl_stop CtrlStop (comp_ids m) m h)
    as [[h1 stopped] log1]. cbn [fst snd] in *.
  rewrite (all_are_true false stopped m h1) by exact Hq.
  destruct (fold_set_state_spec CONFIGURED stopped m) as [Hl Hc].
  eexists _, h1, log1. split; [reflexivity|].
  split; [|split; [exact Hl|]].
  - apply map_eq. intros k. rewrite Hc, lookup_fmap.
    destruct (components m !! k) as [e|] eqn:E;
      [|destruct (decide (k ∈ stopped)); reflexivity].
    destruct (decide (k ∈ stopped)) as [Hk|Hk]; cbn.
    + apply Hin in Hk as (_ & e' & He' & Hs). rewrite E in He'.
      injection He' as <-. rewrite moved_hit by exact Hs. reflexivity.
    + destruct (state_is RUNNING e) eqn:Hs;
        [|rewrite moved_miss by exact Hs; reflexivity].
      exfalso. apply Hk, Hin. split; [eapply comp_ids_cover; eassumption|].
      exists e. tauto.
  - intros k e He Hs. apply (Hq k e); [|exact He].
    apply Hin. split; [eapply comp_ids_cover; eassumption|].
    exists e. tauto.
Qed.

(** X19: [configure()] followed by [startup()] brings every registered
    component to RUNNING: [startup()] returns, every entry of the registry
    is RUNNING afterwards, under its id and name, and every component that
    was not RUNNING before has a thread and has been told to run.  The
    [configure()] hooks of the components are taken to return. *)
Theorem configure_and_startup_run_all m h :
  ids_bounded m ->
  exists m' h' log,
    startup (configure m h).1.1 (configure m h).1.2 = Some (m', h', log) /\
    components m'
    = (fun e => mkCompEntry (component e) (id e) (instance_name e) RUNNING)
        <$> components m /\
    forall k e, components m !! k = Some e ->
                state_is RUNNING e = false ->
                is_running (h' (component e)) = true /\
                startup_request (h' (component e)) = true.
Proof.
  intros Hb. destruct (configure_spec m h Hb) as [Hc Hl].
  pose proof (keys_unchanged _ m _ Hb Hc Hl) as Hb1.
  destruct (startup_spec (configure m h).1.1 (configure m h).1.2 Hb1)
    as (m' & h' & log & Hs & Hc' & _ & Hrun).
  exists m', h', log. split; [exact Hs|]. split.
  - rewrite Hc', Hc, <- map_fmap_compose. apply map_fmap_ext.
    intros k e _. cbn. destruct e as [c i n []]; reflexivity.
  - intros k e He Hs'.
    rewrite <- (moved_component REGISTERED CONFIGURED e).
    apply (Hrun k (moved REGISTERED CONFIGURED e)).
    + rewrite Hc, lookup_fmap, He. reflexivity.
    + destruct e as [c i n []]; try reflexivity. discriminate.
Qed.

(** X20: [shutdown()] returns, stops the thread of every RUNNING component
    and takes its entry back to CONFIGURED, never to REGISTERED; the other
    entries stay as they are.  A [startup()] after it returns and takes
    every CONFIGURED entry to RUNNING, the stopped ones and the ones that
    were CONFIGURED before the shutdown alike: each of these components has
    a thread again and its startup request set, every entry that was
    RUNNING is as it was before the shutdown, and the REGISTERED entries
    stay REGISTERED.  The component threads end when asked to, so that
    [join()] returns. *)
Theorem shutdown_then_startup_restarts m h :
  ids_bounded m ->
  exists m1 h1 log1 m2 h2 log2,
    shutdown m h = Some (m1, h1, log1) /\
    components m1 = moved RUNNING CONFIGURED <$> components m /\
    (forall k e, components m !! k = Some e -> state_is RUNNING e = true ->
                 is_running (h1 (component e)) = false) /\
    startup m1 h1 = Some (m2, h2, log2) /\
    components m2 = moved CONFIGURED RUNNING <$> components m1 /\
    (forall k e, components m !! k = Some e -> state_is RUNNING e = true ->
                 components m2 !! k = Some e /\
                 is_running (h2 (component e)) = true /\
                 startup_request (h2 (component e)) = true) /\
    (forall k e, components m !! k = Some e ->
                 state_is CONFIGURED e = true ->
                 components m2 !! k
                 = Some (mkCompEntry (component e) (id e) (instance_name e)
                                     RUNNING) /\
                 is_running (h2 (component e)) = true /\
                 startup_request (h2 (component e)) = true) /\
    (forall k e, components m !! k = Some e ->
                 state_is REGISTERED e = true ->
                 components m2 !! k = Some e).
Proof.
  intros Hb.
  destruct (shutdown_spec m h Hb) as (m1 & h1 & log1 & Hs & Hc & Hl & Hstop).
  pose proof (keys_unchanged _ m _ Hb Hc Hl) as Hb1.
  destruct (startup_spec m1 h1 Hb1) as (m2 & h2 & log2 & Hs2 & Hc2 & _ & Hrun).
  exists m1, h1, log1, m2, h2, log2.
  split; [exact Hs|]. split; [exact Hc|]. split; [exact Hstop|].
  split; [exact Hs2|]. split; [exact Hc2|].
  split; [|split]; intros k e He Hst.
  - split.
    + rewrite Hc2, Hc, !lookup_fmap, He. cbn.
      destruct e as [c i n []]; try discriminate. reflexivity.
    + rewrite <- (moved_component RUNNING CONFIGURED e).
      apply (Hrun k (moved RUNNING CONFIGURED e)).
      * rewrite Hc, lookup_fmap, He. reflexivity.
      * destruct e as [c i n []]; try discriminate. reflexivity.
  - split.
    + rewrite Hc2, Hc, !lookup_fmap, He. cbn.
      destruct e as [c i n []]; try discriminate. reflexivity.
    + rewrite <- (moved_component RUNNING CONFIGURED e).
      apply (Hrun k (moved RUNNING CONFIGURED e)).
      * rewrite Hc, lookup_fmap, He. reflexivity.
      * destruct e as [c i n []]; try discriminate. reflexivity.
  - rewrite Hc2, Hc, !lookup_fmap, He. cbn.
    destruct e as [c i n []]; try discriminate. reflexivity.
Qed.

Lemma one_registered_bounded : ids_bounded one_registered.
Proof.
  unfold one_registered. apply register_component_ids_bounded.
  apply init_ids_bounded.
Qed.

Lemma configure_and_startup_run_all_witness :
  exists m' h' log,
    startup (configure one_registered not_started).1.1
            (configure one_registered not_started).1.2
    = Some (m', h', log) /\
    components m'
    = (fun e => mkCompEntry (component e) (id e) (instance_name e) RUNNING)
        <$> components one_registered /\
    forall k e, components one_registered !! k = Some e ->
                state_is RUNNING e = false ->
                is_running (h' (component e)) = true /\
                startup_request (h' (component e)) = true.
Proof.
  apply (configure_and_startup_run_all one_registered not_started).
  exact one_registered_bounded.
Defined.

Lemma one_running_bounded : ids_bounded one_running.1.
Proof.
  split; [vm_compute; discriminate|].
  intros k e He.
  change (last_comp_id one_running.1) with 2.
  destruct (decide (k = 1)) as [->|]; [lia|].
  destruct (decide (k = 2)) as [->|]; [lia|].
  exfalso. revert He.
  replace (components one_running.1)
    with (<[2 := mkCompEntry 1 2 "b" REGISTERED]>
            (<[1 := mkCompEntry 0 1 "a" RUNNING]>
               (∅ : gmap Z CompMapEntry)))
    by (vm_compute; reflexivity).
  rewrite lookup_insert_ne, lookup_insert_ne, lookup_empty by congruence.
  discriminate.
Qed.

(** Component 0 runs and component 1 is only registered: the shutdown
    stops the thread of component 0 and takes its entry to CONFIGURED, the
    startup after it gives it a thread again and takes the entry back to
    RUNNING; the entry of component 1 stays REGISTERED throughout. *)
Lemma shutdown_then_startup_restarts_witness :
  components one_running.1 !! 1 = Some (mkCompEntry 0 1 "a" RUNNING) /\
  components one_running.1 !! 2 = Some (mkCompEntry 1 2 "b" REGISTERED) /\
  is_running (one_running.2 0%nat) = true /\
  exists m1 h1 log1 m2 h2 log2,
    shutdown one_running.1 one_running.2 = Some (m1, h1, log1) /\
    components m1 !! 1 = Some (mkCompEntry 0 1 "a" CONFIGURED) /\
    components m1 !! 2 = Some (mkCompEntry 1 2 "b" REGISTERED) /\
    is_running (h1 0%nat) = false /\
    startup m1 h1 = Some (m2, h2, log2) /\
    components m2 !! 1 = Some (mkCompEntry 0 1 "a" RUNNING) /\
    components m2 !! 2 = Some (mkCompEntry 1 2 "b" REGISTERED) /\
    is_running (h2 0%nat) = true.
Proof.
  assert (H1 : components one_running.1 !! 1
               = Some (mkCompEntry 0 1 "a" RUNNING))
    by (vm_compute; reflexivity).
  assert (H2 : components one_running.1 !! 2
               = Some (mkCompEntry 1 2 "b" REGISTERED))
    by (vm_compute; reflexivity).
  split; [exact H1|]. split; [exact H2|].
  split; [vm_compute; reflexivity|].
  destruct (shutdown_then_startup_restarts one_running.1 one_running.2
              one_running_bounded)
    as (m1 & h1 & log1 & m2 & h2 & log2
        & Hs & Hc & Hstop & Hs2 & Hc2 & Hrun & _ & Hreg).
  exists m1, h1, log1, m2, h2, log2.
  split; [exact Hs|].
  split; [rewrite Hc, lookup_fmap, H1; reflexivity|].
  split; [rewrite Hc, lookup_fmap, H2; reflexivity|].
  split; [exact (Hstop 1 _ H1 eq_refl)|].
  split; [exact Hs2|].
  split; [exact (proj1 (Hrun 1 _ H1 eq_refl))|].
  split; [exact (Hreg 2 _ H2 eq_refl)|].
  exact (proj1 (proj2 (Hrun 1 _ H1 eq_refl))).
Defined.

Lemma register_all_ids reqs : forall m h,
  0 <= last_comp_id m ->
  granted (register_all reqs m h).2
  = map (fun i => last_comp_id m + Z.of_nat i)
        (seq 1 (length (granted (register_all reqs m h).2))) /\
  last_comp_id (register_all reqs m h).1
  = last_comp_id m + Z.of_nat (length (granted (register_all reqs m h).2)).
Proof.
  induction reqs as [|[c name] reqs IH]; intros m h H0.
  - cbn. split; [reflexivity|lia].
  - cbn [register_all]. unfold register_component.
    destruct (decide (component_registered c m));
      [|destruct (decide (instance_name_used name m))].
    + specialize (IH m h H0). destruct (register_all reqs m h) as [m2 rs].
      cbn [fst snd] in *. exact IH.
    + specialize (IH m h H0). destruct (register_all reqs m h) as [m2 rs].
      cbn [fst snd] in *. exact IH.
    + match goal with
      | |- context [register_all reqs ?m1 ?h1] =>
          specialize (IH m1 h1); destruct (register_all reqs m1 h1) as [m2 rs]
      end.
      cbn [fst snd last_comp_id] in *. destruct IH as [IHr IHl]; [lia|].
      unfold granted in *. cbn [List.filter].
      destruct (Z.eqb_spec (last_comp_id m + 1) (-1)); [lia|].
      cbn [negb length seq map]. split.
      * f_equal; try lia. rewrite <- seq_shift, map_map. rewrite IHr at 1.
        apply map_ext. intros i. lia.
      * rewrite IHl. lia.
Qed.

(** X21: Ids are handed out without gaps: the ids returned to the successful
    registrations of a new manager are 1, 2, 3, ... in the order of the
    calls; a refused registration uses up no id. *)
Theorem ids_are_consecutive reqs ctrace h :
  granted (register_all reqs (init ctrace) h).2
  = map Z.of_nat
        (seq 1 (length (granted (register_all reqs (init ctrace) h).2))).
Proof.
  destruct (register_all_ids reqs (init ctrace) h) as [H _]; [cbn; lia|].
  rewrite H at 1. apply map_ext. intros i. cbn. lia.
Qed.

End CompMgrMore.

(** ** More on the remote service *)

Module RemoteMore.
Import Py Tracker VStore Remote RemoteSpec.

Lemma dict_get_set_eq {V} k (v : V) d : dict_get k (dict_set k v d) = Some v.
Proof.
  induction d as [|[k0 v0] d IH]; cbn [dict_set dict_get].
  - rewrite decide_True by reflexivity. reflexivity.
  - destruct (decide (k = k0)) as [->|Hne]; cbn [dict_get].
    + rewrite decide_True by reflexivity. reflexivity.
    + rewrite decide_False by exact Hne. exact IH.
Qed.

Lemma dict_get_set_ne {V} k k' (v : V) d :
  k <> k' -> dict_get k (dict_set k' v d) = dict_get k d.
Proof.
  intros Hne. induction d as [|[k0 v0] d IH]; cbn [dict_set dict_get].
  - rewrite decide_False by exact Hne. reflexivity.
  - destruct (decide (k' = k0)) as [->|Hk]; cbn [dict_get].
    + rewrite !decide_False by exact Hne. reflexivity.
    + destruct (decide (k = k0)); [reflexivity|exact IH].
Qed.

(** X22: Rules are stored under the remote topic, which defaults to the local
    one.  A second rule for the same remote topic is refused: the call
    raises [AssertionError] and changes nothing.  Otherwise the new rule is
    stored, not pending and without queue, and no other rule changes.  The
    same holds of receive rules. *)
Theorem one_rule_per_remote_topic topic_local topic_remote queue_len s k :
  let key := rule_key topic_local topic_remote in
  (dict_get key (send_rules s) <> None ->
   add_send_rule topic_local topic_remote queue_len s
   = (s, [], Raise AssertionError)) /\
  (dict_get key (send_rules s) = None ->
   (add_send_rule topic_local topic_remote queue_len s).2 = Ok tt /\
   dict_get key
     (send_rules (add_send_rule topic_local topic_remote queue_len s).1.1)
   = Some (mkSendRule topic_local queue_len (mkSendState false false) None) /\
   (k <> key ->
    dict_get k
      (send_rules (add_send_rule topic_local topic_remote queue_len s).1.1)
    = dict_get k (send_rules s))) /\
  (dict_get key (receive_rules s) <> None ->
   add_receive_rule topic_local topic_remote s
   = (s, [], Raise AssertionError)) /\
  (dict_get key (receive_rules s) = None ->
   (add_receive_rule topic_local topic_remote s).2 = Ok tt /\
   dict_get key
     (receive_rules (add_receive_rule topic_local topic_remote s).1.1)
   = Some (mkReceiveRule topic_local PNone) /\
   (k <> key ->
    dict_get k
      (receive_rules (add_receive_rule topic_local topic_remote s).1.1)
    = dict_get k (receive_rules s))).
Proof.
  intros key. unfold add_send_rule, add_receive_rule.
  fold (rule_key topic_local topic_remote). fold key.
  unfold mbind, M_bind, bind, gets, raise, modify. cbn [fst snd].
  split; [|split; [|split]].
  - intros H. destruct (dict_get key (send_rules s)); [reflexivity|].
    contradiction.
  - intros H. rewrite H. cbn [fst snd set_send_rules send_rules].
    split; [reflexivity|]. split; [apply dict_get_set_eq|].
    intros Hne. apply dict_get_set_ne. exact Hne.
  - intros H. destruct (dict_get key (receive_rules s)); [reflexivity|].
    contradiction.
  - intros H. rewrite H. cbn [fst snd set_receive_rules receive_rules].
    split; [reflexivity|]. split; [apply dict_get_set_eq|].
    intros Hne. apply dict_get_set_ne. exact Hne.
Qed.

(** *** Running a handler step by step *)

Lemma bind_gets {A B} (f : Service -> A) (k : A -> M B) s :
  (gets f ≫= k) s = k (f s) s.
Proof.
  unfold mbind, M_bind, bind, gets. destruct (k (f s) s) as [[s2 l2] r2].
  reflexivity.
Qed.

Lemma bind_modify {B} (g : Service -> Service) (k : unit -> M B) s :
  (modify g ≫= k) s = k tt (g s).
Proof.
  unfold mbind, M_bind, bind, modify. destruct (k tt (g s)) as [[s2 l2] r2].
  reflexivity.
Qed.

Lemma bind_ret {A B} (a : A) (k : A -> M B) s : (ret a ≫= k) s = k a s.
Proof.
  unfold mbind, M_bind, bind, ret. destruct (k a s) as [[s2 l2] r2].
  reflexivity.
Qed.

Lemma bind_emit {B} (o : Out) (k : unit -> M B) s :
  (emit o ≫= k) s = ((k tt s).1.1, o :: (k tt s).1.2, (k tt s).2).
Proof.
  unfold mbind, M_bind, bind, emit. destruct (k tt s) as [[s2 l2] r2].
  reflexivity.
Qed.

Lemma bind_raise {A B} (e : exn) (k : A -> M B) s :
  (raise e ≫= k) s = (s, [], Raise e).
Proof. reflexivity. Qed.

Lemma bind_run {A B} (m : M A) (k : A -> M B) s :
  (m ≫= k) s
  = match (m s).2 with
    | Ok a => ((k a (m s).1.1).1.1, (m s).1.2 ++ (k a (m s).1.1).1.2,
               (k a (m s).1.1).2)
    | Raise e => ((m s).1.1, (m s).1.2, Raise e)
    end.
Proof.
  unfold mbind, M_bind, bind. destruct (m s) as [[s1 l1] [a|e]]; cbn.
  - destruct (k a s1) as [[s2 l2] r2]. reflexivity.
  - reflexivity.
Qed.

Lemma for_each_replies (mk : Z -> Out) l : forall s,
  for_each l (fun f => emit (mk f);; sender_send;; ret tt) s
  = (set_replies (drop (length l) (replies s)) s, map mk l, Ok tt).
Proof.
  induction l as [|f l IH]; intros s.
  - cbn. rewrite drop_0. destruct s; reflexivity.
  - cbn [for_each]. unfold mbind, M_bind, bind, emit, sender_send, ret.
    cbn [fst snd]. fold (@ret unit).
    destruct (replies s) as [|r rest] eqn:Hr.
    + change (for_each l _ s) with
        (for_each l (fun f0 => emit (mk f0);; sender_send;; ret tt) s).
      rewrite IH, Hr. cbn. rewrite !drop_nil. reflexivity.
    + change (for_each l _ (set_replies rest s)) with
        (for_each l (fun f0 => emit (mk f0);; sender_send;; ret tt)
                  (set_replies rest s)).
      rewrite IH. cbn. reflexivity.
Qed.

Lemma run_pings hash fs : forall s,
  run hash (map OpPingReceived fs) s
  = (set_transceiver
       (mkPair (tracker (transceiver s)) (pong_queue (transceiver s) ++ fs)
               (oldState (transceiver s))) s, []).
Proof.
  induction fs as [|f fs IH]; intros s.
  - cbn. rewrite app_nil_r. destruct s as [? ? ? ? ? [] ? ? ?]. reflexivity.
  - cbn [map run step]. unfold pair_ping_received, modify.
    rewrite IH. cbn. rewrite <- app_assoc. reflexivity.
Qed.

Lemma pair_cycle_spec now s :
  pair_cycle now s
  = (set_replies
       (drop (length (pong_queue (transceiver s)))
          (drop (length (run_cyclic now (tracker (transceiver s))).2)
             (replies s)))
       (set_transceiver
          (mkPair (run_cyclic now (tracker (transceiver s))).1 []
                  (oldState (transceiver s))) s),
     map OutPing (run_cyclic now (tracker (transceiver s))).2
     ++ map OutPong (pong_queue (transceiver s)),
     Ok tt).
Proof.
  unfold pair_cycle. rewrite bind_gets.
  destruct (run_cyclic now (tracker (transceiver s))) as [t' pings].
  rewrite bind_modify, bind_run.
  change (for_each pings pair_send_ping)
    with (for_each pings (fun f => emit (OutPing f);; sender_send;; ret tt)).
  rewrite for_each_replies. cbn [fst snd].
  unfold pair_send_pongs. rewrite bind_gets, bind_modify, for_each_replies.
  cbn. reflexivity.
Qed.

(** X23: Every ping is answered: the freshness values of the pings received
    since the last cycle are sent back as pongs by the next cycle, each
    once and in the order of arrival, after the pings of the cycle itself;
    this does not depend on the state of the link. *)
Theorem pings_are_answered_in_order hash fs now s :
  let s1 := (run hash (map OpPingReceived fs) s).1 in
  (run hash (map OpPingReceived fs) s).2 = [] /\
  (pair_cycle now s1).1.2
  = map OutPing (run_cyclic now (tracker (transceiver s))).2
    ++ map OutPong (pong_queue (transceiver s) ++ fs) /\
  pong_queue (transceiver (pair_cycle now s1).1.1) = [] /\
  (pair_cycle now s1).2 = Ok tt.
Proof.
  intros s1. unfold s1. rewrite run_pings. cbn [fst snd].
  rewrite pair_cycle_spec. cbn. repeat split.
Qed.

Lemma pair_send_value_spec key topic v s :
  is_value v = true ->
  pair_send_value key topic v s
  = match replies s with
    | [] => (set_tracker (sending_timeout (tracker (transceiver s))) s,
             [OutSendValue key topic v], Ok "TIMEOUT"%string)
    | r :: rest =>
        (if decide (r = "TIMEOUT"%string)
         then set_tracker (sending_timeout (tracker (transceiver s)))
                (set_replies rest s)
         else set_replies rest s,
         [OutSendValue key topic v], Ok r)
    end.
Proof.
  intros Hv. unfold pair_send_value. rewrite bind_emit.
  unfold sender_send_value. rewrite Hv. rewrite bind_run.
  unfold sender_send. destruct (replies s) as [|r rest]; cbn [fst snd].
  - rewrite decide_True by reflexivity. rewrite bind_modify. reflexivity.
  - destruct (decide (r = "TIMEOUT"%string)).
    + rewrite bind_modify. reflexivity.
    + rewrite bind_ret. reflexivity.
Qed.

(** X24: A value leaves the queue of its send rule only when the peer
    acknowledged it.  For a rule that is not pending and whose queue holds
    a [Value] at its head, [_handle_send_single] makes one call of
    [send_value] with that value.  If no reply comes, the value stays at
    the head of the queue, the rule is unchanged and the tracker is told of
    the timeout (the link becomes UNSURE).  If the reply is ["INJECTED"],
    ["RECEIVED"] or ["REJECTED"], the value is taken off the queue and the
    rule becomes pending exactly for ["RECEIVED"]. *)
Theorem value_leaves_queue_when_acknowledged key s rule addr q v t rest :
  dict_get key (send_rules s) = Some rule ->
  sr_queue rule = Some addr ->
  send_pending (sr_state rule) = false ->
  w_receivers (world s) !! addr = Some (RValueQueue q) ->
  VQueue.queue q = (v, t) :: rest ->
  is_value v = true ->
  let r := _handle_send_single key s in
  r.1.2 = [OutSendValue key (sr_topic rule) v] /\
  r.2 = Ok tt /\
  (replies s = [] ->
   r.1.1 = set_tracker (sending_timeout (tracker (transceiver s))) s /\
   remote_state (tracker (transceiver r.1.1)) = STATE_UNSURE) /\
  (forall reply others,
     replies s = reply :: others -> acknowledged reply = true ->
     w_receivers (world r.1.1) !! addr
     = Some (RValueQueue (VQueue.with_queue rest q)) /\
     dict_get key (send_rules r.1.1)
     = Some (mkSendRule (sr_topic rule) (queue_length rule)
               (mkSendState false (bool_decide (reply = "RECEIVED"%string)))
               (Some addr)) /\
     tracker (transceiver r.1.1) = tracker (transceiver s)).
Proof.
  intros Hrule Haddr Hpend Hq Hqueue Hv r. unfold r, _handle_send_single.
  rewrite bind_gets, Hrule, Haddr, Hpend, bind_gets.
  assert (Hrq : rule_queue rule s = Some q).
  { unfold rule_queue. rewrite Haddr, Hq. reflexivity. }
  rewrite Hrq.
  assert (Hempty : VQueue.empty q = false).
  { unfold VQueue.empty. rewrite Hqueue. reflexivity. }
  rewrite Hempty. cbn [negb].
  assert (Hpeek : (VQueue.peek q).2 = Ok v).
  { unfold VQueue.peek, VQueue.peek_with_topic. rewrite Hqueue. reflexivity. }
  rewrite Hpeek, bind_run, (pair_send_value_spec _ _ _ _ Hv).
  destruct (replies s) as [|reply others] eqn:Hrep; cbn [fst snd].
  - change (acknowledged "TIMEOUT") with false. rewrite app_nil_r.
    split; [reflexivity|]. split; [reflexivity|].
    split; [|intros ? ? [=]]. intros _. split; [reflexivity|].
    cbn [set_tracker set_transceiver transceiver tracker].
    unfold sending_timeout. rewrite TrackerSpec.set_state_unsure.
    reflexivity.
  - destruct (acknowledged reply) eqn:Hack.
    + assert (Hnt : reply <> "TIMEOUT"%string).
      { intros ->. discriminate Hack. }
      rewrite (decide_False (P := reply = "TIMEOUT"%string)) by exact Hnt.
      rewrite bind_run. unfold queue_pop. cbn [world set_replies w_receivers].
      rewrite Hq. unfold VQueue.pop, VQueue.pop_with_topic. rewrite Hqueue.
      cbn [fst snd VQueue.subscript0]. unfold set_rule_state, modify.
      cbn [fst snd app]. split; [reflexivity|]. split; [reflexivity|].
      split; [intros [=]|]. intros reply' others' [= <- <-] _.
      cbn [world set_send_rules set_store set_replies w_receivers
           send_rules transceiver].
      rewrite lookup_insert_eq, dict_get_update_eq, Hrule. cbn.
      rewrite Haddr. repeat split.
    + destruct (decide (reply = "TIMEOUT"%string)); cbn [fst snd];
        rewrite app_nil_r; (split; [reflexivity|]); (split; [reflexivity|]);
        (split; [intros [=]|]); intros reply' others' [= <- <-] Hack';
        congruence.
Qed.

Lemma value_leaves_queue_when_acknowledged_witness :
  (_handle_send_single "t" loaded).1.2 = [OutSendValue "t" "t" value1].
Proof.
  refine (proj1 (value_leaves_queue_when_acknowledged "t" loaded
                   (mkSendRule "t" 1 (mkSendState false false) (Some 0%nat))
                   0%nat _ value1 _ _ _ _ _ _ _ _)).
  - vm_compute. reflexivity.
  - reflexivity.
  - reflexivity.
  - vm_compute. reflexivity.
  - reflexivity.
  - reflexivity.
Defined.

Lemma observe_state_change_spec s :
  let r := pair_observe_state_change s in
  tracker (transceiver r.1.1) = tracker (transceiver s) /\
  initialized r.1.1 = initialized s /\
  Forall not_a_send r.1.2 /\
  r.2 = Ok tt.
Proof.
  unfold pair_observe_state_change. rewrite bind_gets.
  destruct (decide (oldState (transceiver s)
                    <> remote_state (tracker (transceiver s))));
    [|cbn; repeat split; constructor].
  destruct (decide (oldState (transceiver s) = STATE_UP)).
  - unfold pair_change_state_from_up, reset_pending_values.
    cbn. repeat split. repeat constructor.
  - cbn. repeat split. constructor.
Qed.

Lemma handle_send_idle fuel s :
  initialized s = false \/ connected s = false ->
  _handle_send fuel s = (s, [], Ok tt).
Proof.
  intros H. unfold _handle_send. rewrite bind_gets.
  destruct (initialized s) eqn:Hi; [|reflexivity]. cbn [negb].
  destruct H as [H|Hc]; [discriminate|].
  assert (Hpass : forall keys, send_pass keys false s = (s, [], Ok false)).
  { intros [|key keys]; [reflexivity|].
    cbn [send_pass]. rewrite bind_gets, Hc. reflexivity. }
  destruct fuel as [|fuel]; cbn [send_loop];
    rewrite bind_gets, bind_run, Hpass; reflexivity.
Qed.

(** X25: While the link is not UP the trigger handler hands no value to the
    sender: it may reconnect, answer pings and probe, but makes no call of
    [send_value]. *)
Theorem no_send_while_link_is_down now fuel s :
  connected s = false ->
  Forall not_a_send (_handle_triggers now fuel s).1.2.
Proof.
  intros Hc. unfold _handle_triggers. rewrite bind_run.
  destruct (observe_state_change_spec s) as (Ht & Hi & Hout & Hres).
  destruct (pair_observe_state_change s) as [[s1 out1] res1].
  cbn [fst snd] in *. subst res1.
  assert (Hc1 : connected s1 = false).
  { unfold connected in *. rewrite Ht. exact Hc. }
  rewrite !bind_gets, Hc1, andb_false_r, bind_ret, bind_run.
  rewrite (handle_send_idle fuel s1) by (right; exact Hc1).
  cbn [fst snd app]. apply Forall_app. split; [exact Hout|].
  assert (Hk : keeps (fun _ => False) not_a_send (fun _ => True)
                 (_handle_injected_rejected;; pair_cycle now)).
  { apply keeps_bind.
    - apply keeps_handle_injected_rejected; intros; exact I.
    - intros _. apply keeps_pair_cycle; intros; exact I. }
  destruct (Hk s1 I) as [Hex|[_ Hall]]; [|exact Hall].
  apply Exists_exists in Hex as (o & _ & []).
Qed.

Lemma no_send_while_link_is_down_witness :
  Forall not_a_send (_handle_triggers 200000 5 loaded).1.2.
Proof. apply no_send_while_link_is_down. reflexivity. Defined.

(** X26: The request for all values makes a rule send the latest value stored
    for its topic although its queue is empty: after [send_all], a rule
    that is not pending calls [send_value] once with the stored value, and
    an acknowledged send ends the forced send, the rule becoming pending
    exactly for ["RECEIVED"].  If nothing was ever written to the topic,
    nothing is sent and the forced send ends. *)
Theorem request_all_sends_the_stored_value key s rule addr q :
  dict_get key (send_rules s) = Some rule ->
  sr_queue rule = Some addr ->
  send_pending (sr_state rule) = false ->
  w_receivers (world s) !! addr = Some (RValueQueue q) ->
  VQueue.queue q = [] ->
  let stored := get_value (sr_topic rule) (vstore s) in
  let r := _handle_send_single key (send_all s).1.1 in
  (is_none stored = true ->
   r.1.2 = [] /\
   dict_get key (send_rules r.1.1)
   = Some (mkSendRule (sr_topic rule) (queue_length rule)
             (mkSendState false false) (Some addr))) /\
  (is_value stored = true ->
   r.1.2 = [OutSendValue key (sr_topic rule) stored] /\
   forall reply others,
     replies s = reply :: others -> acknowledged reply = true ->
     dict_get key (send_rules r.1.1)
     = Some (mkSendRule (sr_topic rule) (queue_length rule)
               (mkSendState false (bool_decide (reply = "RECEIVED"%string)))
               (Some addr))).
Proof.
  intros Hrule Haddr Hpend Hq Hqueue stored r.
  unfold r, send_all, modify. cbn [fst].
  set (s1 := set_send_rules _ s).
  assert (Hrule1 : dict_get key (send_rules s1)
                   = Some (mkSendRule (sr_topic rule) (queue_length rule)
                             (mkSendState true false) (Some addr))).
  { unfold s1. cbn [send_rules set_send_rules].
    rewrite (dict_get_map key
               (fun r => mkSendRule (sr_topic r) (queue_length r)
                           (mkSendState true (send_pending (sr_state r)))
                           (sr_queue r))).
    rewrite Hrule. cbn. rewrite Hpend, Haddr. reflexivity. }
  unfold _handle_send_single.
  rewrite bind_gets, Hrule1. cbn [sr_queue sr_state send_pending sr_topic
                                  forced_send].
  rewrite bind_gets.
  assert (Hrq : forall rl, sr_queue rl = Some addr ->
                           rule_queue rl s1 = Some q).
  { intros rl Hrl. unfold rule_queue. rewrite Hrl. unfold s1.
    cbn [world set_send_rules]. rewrite Hq. reflexivity. }
  rewrite (Hrq (mkSendRule (sr_topic rule) (queue_length rule)
                  (mkSendState true false) (Some addr)) eq_refl).
  assert (Hempty : VQueue.empty q = true).
  { unfold VQueue.empty. rewrite Hqueue. reflexivity. }
  rewrite Hempty. cbn [negb].
  rewrite !bind_gets,
    (Hrq (mkSendRule (sr_topic rule) (queue_length rule)
            (mkSendState true false) (Some addr)) eq_refl), Hempty.
  cbn [negb]. change (get_value (sr_topic rule) (vstore s1)) with stored.
  split.
  - intros Hn. rewrite Hn. unfold set_rule_state, modify. cbn [fst snd].
    split; [reflexivity|]. cbn [send_rules set_send_rules].
    rewrite dict_get_update_eq, Hrule1. reflexivity.
  - intros Hv. assert (Hn : is_none stored = false)
      by (destruct stored; try discriminate; reflexivity).
    rewrite Hn, bind_run, (pair_send_value_spec _ _ _ _ Hv).
    change (replies s1) with (replies s).
    destruct (replies s) as [|reply others]; cbn [fst snd].
    + rewrite (decide_False (P := "TIMEOUT"%string = "RECEIVED"%string))
        by discriminate.
      cbn. split; [reflexivity|]. intros ? ? [=].
    + assert (Hout : forall (m : M unit) s2,
                (m s2).1.2 = [] ->
                [OutSendValue key (sr_topic rule) stored] ++ (m s2).1.2
                = [OutSendValue key (sr_topic rule) stored])
        by (intros m s2 ->; reflexivity).
      split.
      * apply Hout.
        destruct (decide (reply = "RECEIVED"%string)); [reflexivity|].
        destruct (_ || _); reflexivity.
      * intros reply' others' [= <- <-] Hack.
        assert (Hnt : reply <> "TIMEOUT"%string)
          by (intros ->; discriminate Hack).
        rewrite (decide_False (P := reply = "TIMEOUT"%string)) by exact Hnt.
        destruct (decide (reply = "RECEIVED"%string)) as [->|Hnr].
        -- unfold set_rule_state, modify. cbn [fst snd].
           cbn [send_rules set_send_rules set_replies].
           rewrite dict_get_update_eq.
           change (send_rules s1) with (send_rules s1).
           rewrite Hrule1. reflexivity.
        -- unfold acknowledged in Hack.
           rewrite (bool_decide_eq_false_2 (reply = "RECEIVED"%string))
             in * by exact Hnr.
           rewrite orb_false_r in Hack. rewrite Hack.
           unfold set_rule_state, modify. cbn [fst snd].
           cbn [send_rules set_send_rules set_replies].
           rewrite dict_get_update_eq, Hrule1. reflexivity.
Qed.

(** On a service whose store holds nothing for the topic, and on one whose
    store holds a value that was sent before and left the queue. *)
Lemma request_all_sends_the_stored_value_witness :
  (_handle_send_single "t" (send_all configured).1.1).1.2 = [] /\
  (_handle_send_single "t" (send_all delivered).1.1).1.2
  = [OutSendValue "t" "t" value1] /\
  dict_get "t"
    (send_rules (_handle_send_single "t" (send_all delivered).1.1).1.1)
  = Some (mkSendRule "t" 1 (mkSendState false true) (Some 0%nat)).
Proof.
  split.
  - refine (proj1 (proj1 (request_all_sends_the_stored_value "t" configured
                            (mkSendRule "t" 1 (mkSendState false false)
                                        (Some 0%nat))
                            0%nat _ _ _ _ _ _) _)).
    + vm_compute. reflexivity.
    + reflexivity.
    + reflexivity.
    + vm_compute. reflexivity.
    + reflexivity.
    + reflexivity.
  - assert (Hrule : dict_get "t"%string (send_rules delivered)
                    = Some (mkSendRule "t" 1 (mkSendState false false)
                                       (Some 0%nat)))
      by (vm_compute; reflexivity).
    assert (Hq : w_receivers (world delivered) !! 0%nat
                 = Some (RValueQueue
                           (VQueue.mkQueue 1 [] false [0%nat; 1%nat] "t"
                                           950000)))
      by (vm_compute; reflexivity).
    pose proof (request_all_sends_the_stored_value "t" delivered _ 0%nat _
                  Hrule eq_refl eq_refl Hq eq_refl) as H.
    cbv zeta in H. destruct H as [_ H].
    destruct (H ltac:(vm_compute; reflexivity)) as [Hout Hafter].
    split.
    + rewrite Hout. vm_compute. reflexivity.
    + rewrite (Hafter "RECEIVED"%string [] eq_refl eq_refl). reflexivity.
Defined.

(** *** The first contact *)

Lemma keeps_stays {A} (ok : Out -> Prop) b (m : M A) s :
  keeps (fun _ => False) ok (fun s => initialized s = b) m ->
  initialized s = b ->
  initialized (m s).1.1 = b /\ Forall ok (m s).1.2.
Proof.
  intros H Hs. destruct (H s Hs) as [Hex|H']; [|exact H'].
  apply Exists_exists in Hex as (? & _ & []).
Qed.

Ltac stable := try solve [intros; cbn; auto].

Section Stays.
Variable b : bool.
Variable ok : Out -> Prop.
Hypothesis ok_ping : forall f, ok (OutPing f).
Hypothesis ok_pong : forall f, ok (OutPong f).
Hypothesis ok_injected : forall t, ok (OutValueInjected t).
Hypothesis ok_rejected : forall t, ok (OutValueRejected t).
Hypothesis ok_reconnect : ok OutReconnect.
Hypothesis ok_reset : ok OutReset.

Lemma reset_stays :
  keeps (fun _ => False) ok (fun s => initialized s = b)
        reset_pending_values.
Proof.
  unfold reset_pending_values.
  apply keeps_bind; [apply keeps_emit, ok_reset|intros _].
  apply keeps_modify. stable.
Qed.

Lemma observe_stays :
  keeps (fun _ => False) ok (fun s => initialized s = b)
        pair_observe_state_change.
Proof. apply keeps_observe_state_change; stable. apply reset_stays. Qed.

Lemma tail_stays now :
  keeps (fun _ => False) ok (fun s => initialized s = b)
        (_handle_injected_rejected;; pair_cycle now).
Proof.
  apply keeps_bind; [apply keeps_handle_injected_rejected; stable|intros _].
  apply keeps_pair_cycle; stable.
Qed.

Lemma other_step_stays hash op :
  (forall now fuel answers, op <> OpHandleTriggers now fuel answers) ->
  keeps (fun _ => False) ok (fun s => initialized s = b) (step hash op).
Proof.
  intros Hop. destruct op; cbn [step].
  - exfalso. eapply Hop. reflexivity.
  - apply keeps_bind; [apply keeps_value_received; stable|intros _].
    apply keeps_ret.
  - apply keeps_modify. stable.
  - apply keeps_modify. stable.
  - apply keeps_modify. stable.
  - apply keeps_raise.
  - apply keeps_raise.
  - apply keeps_modify. stable.
  - apply keeps_modify. stable.
  - apply keeps_modify. intros s H.
    destruct (decide (remote_state (tracker (transceiver s)) = STATE_DOWN));
      exact H.
  - apply keeps_comp_set_value; stable.
Qed.

End Stays.

Lemma send_stays fuel :
  keeps (fun _ => False) not_request (fun s => initialized s = true)
        (_handle_send fuel).
Proof.
  apply keeps_handle_send; stable. intros key.
  apply keeps_handle_send_single_other; stable; try discriminate.
Qed.

Lemma rest_stays now fuel :
  keeps (fun _ => False) not_request (fun s => initialized s = true)
        (_handle_send fuel;; _handle_injected_rejected;; pair_cycle now).
Proof.
  apply keeps_bind; [apply send_stays|intros _].
  apply tail_stays; discriminate.
Qed.

Lemma request_all_run s :
  pair_send_request_all s
  = (set_replies (drop 1 (replies s)) s, [OutRequestAll], Ok tt).
Proof.
  unfold pair_send_request_all. rewrite bind_emit.
  unfold mbind, M_bind, bind, sender_send, ret.
  destruct (replies s) as [|r rest] eqn:Hr; cbn; [|reflexivity].
  destruct s; cbn in *; subst; reflexivity.
Qed.

Lemma handle_triggers_initialized now fuel s :
  initialized s = true ->
  initialized (_handle_triggers now fuel s).1.1 = true /\
  Forall not_request (_handle_triggers now fuel s).1.2.
Proof.
  intros Hs. unfold _handle_triggers. rewrite bind_run.
  destruct (keeps_stays not_request true pair_observe_state_change s)
    as (H1 & Ho1); [apply observe_stays; discriminate|exact Hs|].
  destruct (pair_observe_state_change s) as [[s1 o1] [[]|e]];
    cbn [fst snd] in *; [|split; assumption].
  rewrite !bind_gets, H1. cbn [negb andb]. rewrite bind_ret.
  destruct (keeps_stays not_request true
              (_handle_send fuel;; _handle_injected_rejected;;
               pair_cycle now) s1)
    as (H2 & Ho2); [apply rest_stays|exact H1|].
  split; [exact H2|]. rewrite Forall_app. auto.
Qed.

Lemma quiet_stays_hyps :
  (forall f, quiet (OutPing f)) /\ (forall f, quiet (OutPong f)) /\
  (forall t, quiet (OutValueInjected t)) /\
  (forall t, quiet (OutValueRejected t)) /\
  quiet OutReconnect /\ quiet OutReset.
Proof. repeat split; discriminate. Qed.

Lemma quiet_not_request l : Forall quiet l -> Forall not_request l.
Proof. intros H. eapply Forall_impl; [exact H|]. intros o [Ho _]. exact Ho. Qed.

Lemma handle_triggers_uninitialized now fuel s :
  initialized s = false ->
  (initialized (_handle_triggers now fuel s).1.1 = false /\
   Forall quiet (_handle_triggers now fuel s).1.2) \/
  (initialized (_handle_triggers now fuel s).1.1 = true /\
   opens_with_request (_handle_triggers now fuel s).1.2).
Proof.
  intros Hs. destruct quiet_stays_hyps as (Q1 & Q2 & Q3 & Q4 & Q5 & Q6).
  unfold _handle_triggers. rewrite bind_run.
  destruct (keeps_stays quiet false pair_observe_state_change s)
    as (H1 & Ho1); [apply observe_stays; assumption|exact Hs|].
  destruct (pair_observe_state_change s) as [[s1 o1] [[]|e]];
    cbn [fst snd] in *; [|left; split; assumption].
  rewrite !bind_gets, H1. cbn [negb andb].
  destruct (connected s1) eqn:Hc.
  - right. rewrite bind_run, bind_modify, request_all_run. cbn [fst snd].
    destruct (keeps_stays not_request true
                (_handle_send fuel;; _handle_injected_rejected;;
                 pair_cycle now)
                (set_replies (drop 1 (replies (set_initialized true s1)))
                   (set_initialized true s1)))
      as (H2 & Ho2); [apply rest_stays|reflexivity|].
    split; [exact H2|]. eexists o1, _. split; [reflexivity|].
    split; [exact Ho1|exact Ho2].
  - left. rewrite bind_ret, bind_run.
    rewrite (handle_send_idle fuel s1) by (left; exact H1). cbn [fst snd].
    destruct (keeps_stays quiet false
                (_handle_injected_rejected;; pair_cycle now) s1)
      as (H3 & Ho3); [apply tail_stays; assumption|exact H1|].
    split; [exact H3|]. rewrite Forall_app. auto.
Qed.

Lemma step_initialized hash op s :
  initialized s = true ->
  initialized (step hash op s).1.1 = true /\
  Forall not_request (step hash op s).1.2.
Proof.
  intros Hs.
  assert (Hcase : (exists now fuel answers,
                     op = OpHandleTriggers now fuel answers) \/
                  (forall now fuel answers,
                     op <> OpHandleTriggers now fuel answers))
    by (destruct op; try (right; discriminate); left; eauto).
  destruct Hcase as [(now & fuel & answers & ->)|Hop].
  - cbn [step]. rewrite bind_modify.
    apply handle_triggers_initialized. exact Hs.
  - apply keeps_stays; [|exact Hs].
    apply other_step_stays; [discriminate..|exact Hop].
Qed.

Lemma step_uninitialized hash op s :
  initialized s = false ->
  (initialized (step hash op s).1.1 = false /\
   Forall quiet (step hash op s).1.2) \/
  (initialized (step hash op s).1.1 = true /\
   opens_with_request (step hash op s).1.2).
Proof.
  intros Hs.
  assert (Hcase : (exists now fuel answers,
                     op = OpHandleTriggers now fuel answers) \/
                  (forall now fuel answers,
                     op <> OpHandleTriggers now fuel answers))
    by (destruct op; try (right; discriminate); left; eauto).
  destruct Hcase as [(now & fuel & answers & ->)|Hop].
  - cbn [step]. rewrite bind_modify.
    apply handle_triggers_uninitialized. exact Hs.
  - left. apply keeps_stays; [|exact Hs].
    destruct quiet_stays_hyps as (Q1 & Q2 & Q3 & Q4 & Q5 & Q6).
    apply other_step_stays; assumption.
Qed.

Lemma run_initialized hash ops : forall s,
  initialized s = true ->
  initialized (run hash ops s).1 = true /\
  Forall not_request (run hash ops s).2.
Proof.
  induction ops as [|op ops IH]; intros s Hs; cbn [run].
  - split; [exact Hs|constructor].
  - destruct (step_initialized hash op s Hs) as (H1 & Ho1).
    destruct (step hash op s) as [[s1 l1] r1]. cbn [fst snd] in *.
    destruct (unfinished r1); [split; assumption|].
    destruct (IH s1 H1) as (H2 & Ho2).
    destruct (run hash ops s1) as [s2 l2]. cbn [fst snd] in *.
    split; [exact H2|]. rewrite Forall_app. auto.
Qed.

Lemma run_uninitialized hash ops : forall s,
  initialized s = false ->
  (initialized (run hash ops s).1 = false /\
   Forall quiet (run hash ops s).2) \/
  (initialized (run hash ops s).1 = true /\
   opens_with_request (run hash ops s).2).
Proof.
  induction ops as [|op ops IH]; intros s Hs; cbn [run].
  - left. split; [exact Hs|constructor].
  - destruct (step_uninitialized hash op s Hs)
      as [(H1 & Ho1)|(H1 & pre & post & Heq & Hpre & Hpost)].
    + destruct (step hash op s) as [[s1 l1] r1]. cbn [fst snd] in *.
      destruct (unfinished r1); [left; split; assumption|].
      specialize (IH s1 H1).
      destruct (run hash ops s1) as [s2 l2]. cbn [fst snd] in *.
      destruct IH as [(H2 & Ho2)|(H2 & pre & post & Heq & Hpre & Hpost)];
        cbn [snd] in *; try subst l2.
      * left. split; [exact H2|]. rewrite Forall_app. auto.
      * right. split; [exact H2|]. exists (l1 ++ pre), post.
        rewrite <- app_assoc. split; [reflexivity|].
        rewrite Forall_app. auto.
    + destruct (step hash op s) as [[s1 l1] r1]. cbn [fst snd] in *.
      subst l1.
      destruct (unfinished r1).
      { right. split; [exact H1|]. exists pre, post. auto. }
      destruct (run_initialized hash ops s1 H1) as (H2 & Ho2).
      destruct (run hash ops s1) as [s2 l2]. cbn [fst snd] in *.
      right. split; [exact H2|]. exists pre, (post ++ l2).
      rewrite <- app_assoc. split; [reflexivity|].
      rewrite Forall_app. auto.
Qed.

(** X27: The request for all values opens the exchange, once.  In a run
    of a service that was never connected, no value is handed to the
    sender before [send_request_all] was called, which the first trigger
    run that sees the link UP does; from then on the service counts as
    initialized and never calls [send_request_all] again, whatever
    happens to the link. *)
Theorem request_all_opens_the_exchange hash ops s :
  (initialized s = false ->
   (initialized (run hash ops s).1 = false /\
    Forall quiet (run hash ops s).2) \/
   (initialized (run hash ops s).1 = true /\
    opens_with_request (run hash ops s).2)) /\
  (initialized s = true ->
   initialized (run hash ops s).1 = true /\
   Forall not_request (run hash ops s).2).
Proof.
  split; [apply run_uninitialized|apply run_initialized].
Qed.

(** The run in which the link comes up and goes down again: one request
    for all values, before the first value. *)
Lemma request_all_opens_the_exchange_witness :
  initialized (run hash0 (until_received ++ reconnect) configured).1 = true /\
  opens_with_request (run hash0 (until_received ++ reconnect) configured).2.
Proof.
  destruct (proj1 (request_all_opens_the_exchange hash0
                     (until_received ++ reconnect) configured) eq_refl)
    as [[H _]|H]; [|exact H].
  vm_compute in H. discriminate H.
Defined.

(** *** The send loop on a pending rule *)

Lemma send_loop_spins fuel s :
  send_pass (map fst (send_rules s)) false s = (s, [], Ok true) ->
  send_loop fuel s = (s, [], Raise Unfinished).
Proof.
  intros H. induction fuel as [|fuel IH]; cbn [send_loop];
    rewrite bind_gets, bind_run, H; cbn [fst snd]; [reflexivity|].
  rewrite IH. reflexivity.
Qed.

(** A trigger run that meets a pending rule with a value waiting while
    the link is UP does not return, whatever the number of passes the
    model follows: every pass of the send loop skips the rule and asks for
    another pass, until another thread clears the flag.  No value is
    sent. *)
Lemma pending_rule_with_value_spins now fuel :
  (_handle_triggers now fuel blocked).2 = Raise Unfinished /\
  (_handle_triggers now fuel blocked).1.2 = [].
Proof.
  unfold _handle_triggers. rewrite bind_run.
  change (pair_observe_state_change blocked) with (blocked, @nil Out, Ok tt).
  cbn [fst snd]. rewrite !bind_gets.
  change (initialized blocked) with true.
  change (connected blocked) with true. cbn [negb andb].
  rewrite bind_ret, bind_run.
  unfold _handle_send. rewrite bind_gets.
  change (initialized blocked) with true. cbn [negb].
  rewrite (send_loop_spins fuel blocked) by (vm_compute; reflexivity).
  split; reflexivity.
Qed.

End RemoteMore.

(** ** Index and random access of the reader *)

Module ReaderMore.
Import Py MsgPack MsgPackSpec Reader.

(** *** The unpacker moves forward *)

Lemma read_bytes_left n bs d rest :
  read_bytes n bs = Unpacked d rest -> left_of 0 bs rest.
Proof.
  unfold read_bytes, left_of.
  destruct (Z.of_nat (length bs) <? n); [discriminate|].
  intros [= _ <-]. rewrite length_drop. lia.
Qed.

Lemma read_uint_left n bs v rest :
  read_uint n bs = Unpacked v rest -> left_of 0 bs rest.
Proof.
  unfold read_uint. destruct (read_bytes n bs) as [d r| |] eqn:E;
    [|discriminate..]. intros [= _ <-]. eapply read_bytes_left, E.
Qed.

Lemma read_int_left n bs v rest :
  read_int n bs = Unpacked v rest -> left_of 0 bs rest.
Proof.
  unfold read_int. destruct (read_uint n bs) as [d r| |] eqn:E;
    [|discriminate..]. intros [= _ <-]. eapply read_uint_left, E.
Qed.

Lemma read_str_left n bs v rest :
  read_str n bs = Unpacked v rest -> left_of 0 bs rest.
Proof.
  unfold read_str. destruct (read_bytes n bs) as [d r| |] eqn:E;
    [|discriminate..]. intros [= _ <-]. eapply read_bytes_left, E.
Qed.

Lemma read_bin_left n bs v rest :
  read_bin n bs = Unpacked v rest -> left_of 0 bs rest.
Proof.
  unfold read_bin. destruct (read_bytes n bs) as [d r| |] eqn:E;
    [|discriminate..]. intros [= _ <-]. eapply read_bytes_left, E.
Qed.

Lemma read_float_left bs v rest :
  read_float bs = Unpacked v rest -> left_of 0 bs rest.
Proof.
  unfold read_float, left_of.
  destruct bs as [|? [|? [|? [|? [|? [|? [|? [|? r]]]]]]]]; try discriminate.
  intros [= _ <-]. cbn [length]. lia.
Qed.

Lemma with_length_left {A} n bs (k : Z -> bytes -> unpacked A) v rest :
  (forall len r v' rest', k len r = Unpacked v' rest' -> left_of 0 r rest') ->
  with_length n bs k = Unpacked v rest -> left_of 0 bs rest.
Proof.
  intros Hk. unfold with_length.
  destruct (read_uint n bs) as [len r| |] eqn:E; [|discriminate..].
  intros H. apply Hk in H. apply read_uint_left in E.
  unfold left_of in *. lia.
Qed.

Lemma unpack_seq_left un n : forall bs xs rest,
  (forall bs' x r, un bs' = Unpacked x r -> left_of 0 bs' r) ->
  unpack_seq un n bs = Unpacked xs rest -> left_of 0 bs rest.
Proof.
  induction n as [|n IH]; intros bs xs rest Hun; cbn [unpack_seq].
  - intros [= _ <-]. unfold left_of. lia.
  - destruct (un bs) as [x r| |] eqn:E; [|discriminate..].
    destruct (unpack_seq un n r) as [xs' r'| |] eqn:E2; [|discriminate..].
    intros [= _ <-]. apply Hun in E. apply IH in E2; [|exact Hun].
    unfold left_of in *. lia.
Qed.

Lemma unpack_array_left un n bs v rest :
  (forall bs' x r, un bs' = Unpacked x r -> left_of 0 bs' r) ->
  unpack_array un n bs = Unpacked v rest -> left_of 0 bs rest.
Proof.
  intros Hun. unfold unpack_array.
  destruct (unpack_seq un (Z.to_nat n) bs) as [xs r| |] eqn:E;
    [|discriminate..].
  intros [= _ <-]. eapply unpack_seq_left; eassumption.
Qed.

Lemma left_of_trans (bs r rest : bytes) :
  left_of 0 bs r -> left_of 0 r rest -> left_of 0 bs rest.
Proof. unfold left_of. lia. Qed.

Lemma read_float32_left bs v rest :
  read_float32 bs = Unpacked v rest -> left_of 0 bs rest.
Proof.
  unfold read_float32.
  destruct (read_uint 4 bs) as [w r| |] eqn:E; [|discriminate..].
  cbn [be_bytes]. intros [= _ <-]. eapply read_uint_left, E.
Qed.

Lemma read_ext_left n bs v rest :
  read_ext n bs = Unpacked v rest -> left_of 0 bs rest.
Proof.
  unfold read_ext.
  destruct (read_int 1 bs) as [code r| |] eqn:E; [|discriminate..].
  destruct (read_bytes n r) as [d r'| |] eqn:E2; [|discriminate..].
  apply read_int_left in E. apply read_bytes_left in E2.
  intros H. assert (rest = r'); [|subst; eapply left_of_trans; eassumption].
  destruct (code =? -1).
  - destruct (timestamp_of d); [|discriminate]. congruence.
  - destruct (0 <=? code); [|discriminate]. congruence.
Qed.

Lemma unpack_items_left un n : forall bs d d' rest,
  (forall bs' x r, un bs' = Unpacked x r -> left_of 0 bs' r) ->
  unpack_items un n bs d = Unpacked d' rest -> left_of 0 bs rest.
Proof.
  induction n as [|n IH]; intros bs d d' rest Hun; cbn [unpack_items].
  - intros [= _ <-]. unfold left_of. lia.
  - destruct (un bs) as [k r| |] eqn:E; [|discriminate..].
    destruct (un r) as [v r'| |] eqn:E1; [|discriminate..].
    destruct (is_map_key k); [|discriminate].
    intros E2. apply Hun in E, E1. apply IH in E2; [|exact Hun].
    unfold left_of in *. lia.
Qed.

Lemma unpack_map_left un n bs v rest :
  (forall bs' x r, un bs' = Unpacked x r -> left_of 0 bs' r) ->
  unpack_map un n bs = Unpacked v rest -> left_of 0 bs rest.
Proof.
  intros Hun. unfold unpack_map.
  destruct (unpack_items un (Z.to_nat n) bs []) as [xs r| |] eqn:E;
    [|discriminate..].
  intros [= _ <-]. eapply unpack_items_left; eassumption.
Qed.

Ltac left_step :=
  match goal with
  | H : Unpacked _ _ = Unpacked _ _ |- _ =>
      injection H as _ <-; unfold left_of; lia
  | H : read_str _ _ = Unpacked _ _ |- _ => apply read_str_left in H
  | H : read_float _ = Unpacked _ _ |- _ => apply read_float_left in H
  | H : read_float32 _ = Unpacked _ _ |- _ => apply read_float32_left in H
  | H : read_ext _ _ = Unpacked _ _ |- _ => apply read_ext_left in H
  | H : with_length _ _ _ = Unpacked _ _ |- _ =>
      apply with_length_left in H;
      [|intros ? ? ? ? Hk;
        first [ apply read_bin_left in Hk; exact Hk
              | apply read_str_left in Hk; exact Hk
              | apply read_ext_left in Hk; exact Hk
              | eapply unpack_array_left in Hk; [exact Hk|eassumption]
              | eapply unpack_map_left in Hk; [exact Hk|eassumption] ]]
  | H : unpack_array _ _ _ = Unpacked _ _ |- _ =>
      eapply unpack_array_left in H; [|eassumption]
  | H : unpack_map _ _ _ = Unpacked _ _ |- _ =>
      eapply unpack_map_left in H; [|eassumption]
  | H : as_int_object (read_uint ?n ?r) = Unpacked _ _ |- _ =>
      let E := fresh "E" in
      unfold as_int_object in H;
      destruct (read_uint n r) eqn:E; [|discriminate..];
      injection H as _ <-; apply read_uint_left in E
  | H : as_int_object (read_int ?n ?r) = Unpacked _ _ |- _ =>
      let E := fresh "E" in
      unfold as_int_object in H;
      destruct (read_int n r) eqn:E; [|discriminate..];
      injection H as _ <-; apply read_int_left in E
  end.

(** What [unpack] returns as the rest is shorter than its input. *)
Lemma unpack_left fuel : forall bs o rest,
  unpack fuel bs = Unpacked o rest -> left_of 0 bs rest.
Proof.
  induction fuel as [|fuel IH]; intros bs o rest; [discriminate|].
  cbn [unpack]. destruct bs as [|b bs]; [discriminate|].
  intros H.
  assert (Hgoal : left_of 0 bs rest ->
                  left_of 0 (b :: bs) rest).
  { unfold left_of. cbn [length]. lia. }
  apply Hgoal. clear Hgoal.
  repeat match type of H with
         | (if ?c then _ else _) = _ => destruct c
         end;
    try discriminate; repeat left_step; try assumption;
    unfold left_of in *; lia.
Qed.

(** *** Skipping reads over what unpacking reads *)

Lemma be_value_nonneg bs : 0 <= be_value bs.
Proof.
  unfold be_value.
  assert (H : forall acc, 0 <= acc ->
            0 <= fold_left (fun a b => a * 256 + Z_of_byte b) bs acc).
  { induction bs as [|b bs IH]; intros acc Ha; [exact Ha|].
    cbn [fold_left]. apply IH. pose proof (Z_of_byte_range b). lia. }
  apply H. lia.
Qed.

Lemma read_uint_nonneg n bs v rest :
  read_uint n bs = Unpacked v rest -> 0 <= v.
Proof.
  unfold read_uint. destruct (read_bytes n bs); [|discriminate..].
  intros [= <- _]. apply be_value_nonneg.
Qed.

Lemma skip_bytes_read n bs d rest :
  read_bytes n bs = Unpacked d rest -> skip_bytes n bs = Unpacked tt rest.
Proof. unfold skip_bytes. intros ->. reflexivity. Qed.

Lemma skip_bytes_uint n bs v rest :
  read_uint n bs = Unpacked v rest -> skip_bytes n bs = Unpacked tt rest.
Proof.
  unfold read_uint, skip_bytes.
  destruct (read_bytes n bs); [|discriminate..]. intros [= _ <-]. reflexivity.
Qed.

Lemma skip_bytes_int n bs v rest :
  read_int n bs = Unpacked v rest -> skip_bytes n bs = Unpacked tt rest.
Proof.
  unfold read_int. destruct (read_uint n bs) eqn:E; [|discriminate..].
  intros [= _ <-]. eapply skip_bytes_uint, E.
Qed.

Lemma skip_bytes_str n bs v rest :
  read_str n bs = Unpacked v rest -> skip_bytes n bs = Unpacked tt rest.
Proof.
  unfold read_str, skip_bytes.
  destruct (read_bytes n bs); [|discriminate..]. intros [= _ <-]. reflexivity.
Qed.

Lemma skip_bytes_bin n bs v rest :
  read_bin n bs = Unpacked v rest -> skip_bytes n bs = Unpacked tt rest.
Proof.
  unfold read_bin, skip_bytes.
  destruct (read_bytes n bs); [|discriminate..]. intros [= _ <-]. reflexivity.
Qed.

Lemma skip_bytes_float bs v rest :
  read_float bs = Unpacked v rest -> skip_bytes 8 bs = Unpacked tt rest.
Proof.
  unfold read_float, skip_bytes, read_bytes.
  destruct bs as [|? [|? [|? [|? [|? [|? [|? [|? r]]]]]]]]; try discriminate.
  intros [= _ <-]. cbn [length].
  destruct (Z.ltb_spec
              (Z.of_nat (S (S (S (S (S (S (S (S (length r)))))))))) 8);
    [lia|reflexivity].
Qed.

Lemma skip_bytes_float32 bs v rest :
  read_float32 bs = Unpacked v rest -> skip_bytes 4 bs = Unpacked tt rest.
Proof.
  unfold read_float32.
  destruct (read_uint 4 bs) as [w r| |] eqn:E; [|discriminate..].
  cbn [be_bytes]. intros [= _ <-]. eapply skip_bytes_uint, E.
Qed.

Lemma read_bytes_split n m (bs : bytes) d1 r d2 rest :
  0 <= n -> 0 <= m ->
  read_bytes n bs = Unpacked d1 r -> read_bytes m r = Unpacked d2 rest ->
  read_bytes (n + m) bs = Unpacked (d1 ++ d2) rest.
Proof.
  unfold read_bytes. intros Hn Hm.
  destruct (Z.ltb_spec (Z.of_nat (length bs)) n); [discriminate|].
  intros [= <- <-]. rewrite length_drop.
  destruct (Z.ltb_spec (Z.of_nat (length bs - Z.to_nat n)) m);
    [discriminate|].
  intros [= <- <-].
  destruct (Z.ltb_spec (Z.of_nat (length bs)) (n + m)); [lia|].
  rewrite Z2Nat.inj_add by lia. rewrite drop_drop.
  rewrite <- take_take_drop. reflexivity.
Qed.

Lemma skip_bytes_ext n bs v rest :
  0 <= n ->
  read_ext n bs = Unpacked v rest -> skip_bytes (1 + n) bs = Unpacked tt rest.
Proof.
  intros Hn. unfold read_ext, read_int, read_uint.
  destruct (read_bytes 1 bs) as [d1 r| |] eqn:E; [|discriminate..].
  destruct (read_bytes n r) as [d r'| |] eqn:E2; [|discriminate..].
  intros H. assert (rest = r').
  { destruct (_ =? -1).
    - destruct (timestamp_of d); [|discriminate]. congruence.
    - destruct (0 <=? _); [|discriminate]. congruence. }
  subst rest. unfold skip_bytes.
  rewrite (read_bytes_split 1 n bs d1 r d r') by (assumption || lia).
  reflexivity.
Qed.

Lemma skip_seq_unpack_seq un sk n : forall bs xs rest,
  passes_over un sk ->
  unpack_seq un n bs = Unpacked xs rest ->
  skip_seq sk n bs = Unpacked tt rest.
Proof.
  induction n as [|n IH]; intros bs xs rest Hp; cbn [unpack_seq skip_seq].
  - intros [= _ <-]. reflexivity.
  - destruct (un bs) as [x r| |] eqn:E; [|discriminate..].
    rewrite (Hp _ _ _ E).
    destruct (unpack_seq un n r) as [xs' r'| |] eqn:E2; [|discriminate..].
    intros [= _ <-]. eapply IH; eassumption.
Qed.

Lemma skip_seq_unpack_array un sk n bs v rest :
  passes_over un sk ->
  unpack_array un n bs = Unpacked v rest ->
  skip_seq sk (Z.to_nat n) bs = Unpacked tt rest.
Proof.
  intros Hp. unfold unpack_array.
  destruct (unpack_seq un (Z.to_nat n) bs) as [xs r| |] eqn:E;
    [|discriminate..].
  intros [= _ <-]. eapply skip_seq_unpack_seq; eassumption.
Qed.

Lemma skip_seq_unpack_items un sk n : forall bs d d' rest,
  passes_over un sk ->
  unpack_items un n bs d = Unpacked d' rest ->
  skip_seq sk (2 * n) bs = Unpacked tt rest.
Proof.
  induction n as [|n IH]; intros bs d d' rest Hp.
  - cbn. intros [= _ <-]. reflexivity.
  - replace (2 * S n)%nat with (S (S (2 * n))) by lia.
    cbn [unpack_items skip_seq].
    destruct (un bs) as [k r| |] eqn:E; [|discriminate..].
    rewrite (Hp _ _ _ E).
    destruct (un r) as [v r'| |] eqn:E1; [|discriminate..].
    rewrite (Hp _ _ _ E1).
    destruct (is_map_key k); [|discriminate].
    intros E2. eapply IH; eassumption.
Qed.

Lemma skip_seq_unpack_map un sk n bs v rest :
  passes_over un sk ->
  unpack_map un n bs = Unpacked v rest ->
  skip_seq sk (2 * Z.to_nat n) bs = Unpacked tt rest.
Proof.
  intros Hp. unfold unpack_map.
  destruct (unpack_items un (Z.to_nat n) bs []) as [xs r| |] eqn:E;
    [|discriminate..].
  intros [= _ <-]. eapply skip_seq_unpack_items; eassumption.
Qed.

Lemma with_length_skip {A} n bs (k : Z -> bytes -> unpacked A)
    (k' : Z -> bytes -> unpacked unit) v rest :
  (forall len r v' rest', 0 <= len ->
     k len r = Unpacked v' rest' -> k' len r = Unpacked tt rest') ->
  with_length n bs k = Unpacked v rest ->
  with_length n bs k' = Unpacked tt rest.
Proof.
  intros Hk. unfold with_length.
  destruct (read_uint n bs) as [len r| |] eqn:E; [|discriminate..].
  intros H. apply read_uint_nonneg in E. eapply Hk; eassumption.
Qed.

Ltac skip_step IH :=
  match goal with
  | H : Unpacked _ _ = Unpacked _ _ |- _ =>
      injection H as _ <-; reflexivity
  | H : read_str _ _ = Unpacked _ _ |- _ => exact (skip_bytes_str _ _ _ _ H)
  | H : read_float _ = Unpacked _ _ |- _ => exact (skip_bytes_float _ _ _ H)
  | H : read_float32 _ = Unpacked _ _ |- _ =>
      exact (skip_bytes_float32 _ _ _ H)
  | H : read_ext _ _ = Unpacked _ _ |- _ =>
      refine (skip_bytes_ext _ _ _ _ _ H); lia
  | H : unpack_array _ _ _ = Unpacked _ _ |- _ =>
      exact (skip_seq_unpack_array _ _ _ _ _ _ IH H)
  | H : unpack_map _ _ _ = Unpacked _ _ |- _ =>
      exact (skip_seq_unpack_map _ _ _ _ _ _ IH H)
  | H : as_int_object (read_uint ?n ?r) = Unpacked _ _ |- _ =>
      let E := fresh "E" in
      unfold as_int_object in H;
      destruct (read_uint n r) eqn:E; [|discriminate..];
      injection H as _ <-; exact (skip_bytes_uint _ _ _ _ E)
  | H : as_int_object (read_int ?n ?r) = Unpacked _ _ |- _ =>
      let E := fresh "E" in
      unfold as_int_object in H;
      destruct (read_int n r) eqn:E; [|discriminate..];
      injection H as _ <-; exact (skip_bytes_int _ _ _ _ E)
  | H : with_length _ _ _ = Unpacked _ _ |- _ =>
      apply (with_length_skip _ _ _ _ _ _) with (2 := H);
      intros len r v' rest' Hlen Hk;
      first [ exact (skip_bytes_bin _ _ _ _ Hk)
            | exact (skip_bytes_str _ _ _ _ Hk)
            | exact (skip_bytes_ext _ _ _ _ Hlen Hk)
            | exact (skip_seq_unpack_array _ _ _ _ _ _ IH Hk)
            | exact (skip_seq_unpack_map _ _ _ _ _ _ IH Hk) ]
  end.

(** [skip()] passes over the bytes that [unpack()] reads, whenever
    [unpack()] returns an object. *)
Lemma skip_unpack fuel : passes_over (unpack fuel) (skip fuel).
Proof.
  induction fuel as [|fuel IH]; intros bs o rest; [discriminate|].
  cbn [unpack skip]. destruct bs as [|b bs]; [discriminate|]. cbv zeta.
  intros H.
  repeat match type of H with
         | (if ?c then _ else _) = _ => destruct c
         end;
    try discriminate; skip_step IH.
Qed.

(** *** Skipping runs out of data where unpacking does *)

Lemma skip_bytes_end n bs :
  read_bytes n bs = OutOfData -> skip_bytes n bs = OutOfData.
Proof. unfold skip_bytes. intros ->. reflexivity. Qed.

Lemma skip_bytes_uint_end n bs :
  read_uint n bs = OutOfData -> skip_bytes n bs = OutOfData.
Proof.
  unfold read_uint, skip_bytes.
  destruct (read_bytes n bs); [discriminate|reflexivity|discriminate].
Qed.

Lemma skip_bytes_int_end n bs :
  read_int n bs = OutOfData -> skip_bytes n bs = OutOfData.
Proof.
  unfold read_int. destruct (read_uint n bs) eqn:E; try discriminate.
  intros _. apply skip_bytes_uint_end, E.
Qed.

Lemma skip_bytes_str_end n bs :
  read_str n bs = OutOfData -> skip_bytes n bs = OutOfData.
Proof.
  unfold read_str, skip_bytes.
  destruct (read_bytes n bs); [discriminate|reflexivity|discriminate].
Qed.

Lemma skip_bytes_bin_end n bs :
  read_bin n bs = OutOfData -> skip_bytes n bs = OutOfData.
Proof.
  unfold read_bin, skip_bytes.
  destruct (read_bytes n bs); [discriminate|reflexivity|discriminate].
Qed.

Lemma skip_bytes_float_end bs :
  read_float bs = OutOfData -> skip_bytes 8 bs = OutOfData.
Proof.
  unfold read_float, skip_bytes, read_bytes.
  destruct bs as [|? [|? [|? [|? [|? [|? [|? [|? r]]]]]]]];
    try discriminate; reflexivity.
Qed.

Lemma skip_bytes_float32_end bs :
  read_float32 bs = OutOfData -> skip_bytes 4 bs = OutOfData.
Proof.
  unfold read_float32.
  destruct (read_uint 4 bs) as [w r| |] eqn:E;
    [cbn [be_bytes]; discriminate| |discriminate].
  intros _. apply skip_bytes_uint_end, E.
Qed.

Lemma skip_bytes_ext_end n bs :
  0 <= n ->
  read_ext n bs = OutOfData -> skip_bytes (1 + n) bs = OutOfData.
Proof.
  intros Hn. unfold read_ext, read_int, read_uint, skip_bytes, read_bytes.
  destruct (Z.ltb_spec (Z.of_nat (length bs)) 1).
  - intros _. destruct (Z.ltb_spec (Z.of_nat (length bs)) (1 + n)); [|lia].
    reflexivity.
  - rewrite length_drop.
    destruct (Z.ltb_spec (Z.of_nat (length bs - Z.to_nat 1)) n).
    + intros _.
      destruct (Z.ltb_spec (Z.of_nat (length bs)) (1 + n)); [|lia].
      reflexivity.
    + destruct (_ =? -1).
      * destruct (timestamp_of _); discriminate.
      * destruct (0 <=? _); discriminate.
Qed.

Lemma skip_seq_end un sk n : forall bs,
  passes_over un sk -> ends_with un sk ->
  unpack_seq un n bs = OutOfData -> skip_seq sk n bs = OutOfData.
Proof.
  induction n as [|n IH]; intros bs Hp He; cbn [unpack_seq skip_seq];
    [discriminate|].
  destruct (un bs) as [x r| |] eqn:E; [| |discriminate].
  - rewrite (Hp _ _ _ E).
    destruct (unpack_seq un n r) as [xs' r'| |] eqn:E2; try discriminate.
    intros _. apply IH; assumption.
  - rewrite (He _ E). reflexivity.
Qed.

Lemma skip_seq_array_end un sk n bs :
  passes_over un sk -> ends_with un sk ->
  unpack_array un n bs = OutOfData ->
  skip_seq sk (Z.to_nat n) bs = OutOfData.
Proof.
  intros Hp He. unfold unpack_array.
  destruct (unpack_seq un (Z.to_nat n) bs) as [xs r| |] eqn:E;
    try discriminate.
  intros _. eapply skip_seq_end; eassumption.
Qed.

Lemma skip_seq_items_end un sk n : forall bs d,
  passes_over un sk -> ends_with un sk ->
  unpack_items un n bs d = OutOfData -> skip_seq sk (2 * n) bs = OutOfData.
Proof.
  induction n as [|n IH]; intros bs d Hp He; [discriminate|].
  replace (2 * S n)%nat with (S (S (2 * n))) by lia.
  cbn [unpack_items skip_seq].
  destruct (un bs) as [k r| |] eqn:E; [| |discriminate].
  - rewrite (Hp _ _ _ E).
    destruct (un r) as [v r'| |] eqn:E1; [| |discriminate].
    + rewrite (Hp _ _ _ E1).
      destruct (is_map_key k); [|discriminate].
      intros E2. eapply IH; eassumption.
    + rewrite (He _ E1). reflexivity.
  - rewrite (He _ E). reflexivity.
Qed.

Lemma skip_seq_map_end un sk n bs :
  passes_over un sk -> ends_with un sk ->
  unpack_map un n bs = OutOfData ->
  skip_seq sk (2 * Z.to_nat n) bs = OutOfData.
Proof.
  intros Hp He. unfold unpack_map.
  destruct (unpack_items un (Z.to_nat n) bs []) as [xs r| |] eqn:E;
    try discriminate.
  intros _. eapply skip_seq_items_end; eassumption.
Qed.

Lemma with_length_end {A} n bs (k : Z -> bytes -> unpacked A)
    (k' : Z -> bytes -> unpacked unit) :
  (forall len r, 0 <= len -> k len r = OutOfData -> k' len r = OutOfData) ->
  with_length n bs k = OutOfData ->
  with_length n bs k' = OutOfData.
Proof.
  intros Hk. unfold with_length.
  destruct (read_uint n bs) as [len r| |] eqn:E;
    [|reflexivity|discriminate].
  intros H. apply read_uint_nonneg in E. eapply Hk; eassumption.
Qed.

Ltac end_step IH :=
  match goal with
  | H : read_str _ _ = OutOfData |- _ => exact (skip_bytes_str_end _ _ H)
  | H : read_float _ = OutOfData |- _ => exact (skip_bytes_float_end _ H)
  | H : read_float32 _ = OutOfData |- _ =>
      exact (skip_bytes_float32_end _ H)
  | H : read_ext _ _ = OutOfData |- _ =>
      refine (skip_bytes_ext_end _ _ _ H); lia
  | H : unpack_array _ _ _ = OutOfData |- _ =>
      exact (skip_seq_array_end _ _ _ _ (skip_unpack _) IH H)
  | H : unpack_map _ _ _ = OutOfData |- _ =>
      exact (skip_seq_map_end _ _ _ _ (skip_unpack _) IH H)
  | H : as_int_object (read_uint ?n ?r) = OutOfData |- _ =>
      let E := fresh "E" in
      unfold as_int_object in H;
      destruct (read_uint n r) eqn:E; try discriminate;
      exact (skip_bytes_uint_end _ _ E)
  | H : as_int_object (read_int ?n ?r) = OutOfData |- _ =>
      let E := fresh "E" in
      unfold as_int_object in H;
      destruct (read_int n r) eqn:E; try discriminate;
      exact (skip_bytes_int_end _ _ E)
  | H : with_length _ _ _ = OutOfData |- _ =>
      apply (with_length_end _ _ _ _) with (2 := H);
      intros len r Hlen Hk;
      first [ exact (skip_bytes_bin_end _ _ Hk)
            | exact (skip_bytes_str_end _ _ Hk)
            | exact (skip_bytes_ext_end _ _ Hlen Hk)
            | exact (skip_seq_array_end _ _ _ _ (skip_unpack _) IH Hk)
            | exact (skip_seq_map_end _ _ _ _ (skip_unpack _) IH Hk) ]
  end.

(** [skip()] raises [OutOfData] whenever [unpack()] does. *)
Lemma skip_out_of_data fuel : ends_with (unpack fuel) (skip fuel).
Proof.
  induction fuel as [|fuel IH]; intros bs; [discriminate|].
  cbn [unpack skip]. destruct bs as [|b bs]; [reflexivity|]. cbv zeta.
  intros H.
  repeat match type of H with
         | (if ?c then _ else _) = _ => destruct c
         end;
    try discriminate; end_step IH.
Qed.

(** *** Reading by position *)

Lemma unpack_next_tell f start tell : tell <= (unpack_next f start tell).2.
Proof.
  unfold unpack_next.
  destruct (unpack _ _) as [o rest| |] eqn:E; cbn [snd]; try lia.
  apply unpack_left in E. unfold left_of in E. lia.
Qed.

(** [unpack_next] depends on the position in the file only. *)
Lemma unpack_next_shift f start tell start2 tell2 :
  start + tell = start2 + tell2 ->
  unpack_next f start2 tell2
  = ((unpack_next f start tell).1,
     (unpack_next f start tell).2 - tell + tell2).
Proof.
  intros H. unfold unpack_next. rewrite <- H.
  destruct (unpack _ _) as [o rest| |]; cbn [fst snd]; f_equal; lia.
Qed.

Lemma read_record_next f start tell record start' tell' rest :
  read_record f start tell = Unpacked (record, start', tell') rest ->
  0 <= start + tell -> 0 <= start' + tell'.
Proof.
  unfold read_record, read_record_with. intros H H0.
  pose proof (unpack_next_tell f start tell) as T1.
  destruct (unpack_next f start tell) as [[ph r1| |] vs]; try discriminate.
  pose proof (unpack_next_tell f start vs) as T2.
  destruct (unpack_next f start vs) as [[v r2| |] t1]; try discriminate.
  pose proof (unpack_next_tell f start t1) as T3.
  destruct (unpack_next f start t1) as [[mh r3| |] t2]; try discriminate.
  cbn [snd] in *.
  destruct (subscript mh 0) as [es|]; [|discriminate].
  destruct (subscript mh 1) as [ep|]; [|discriminate].
  destruct (py_len mh) as [n|]; [|discriminate].
  cbn [mbind result_bind] in H.
  destruct (if n >? 2 then subscript mh 2 else Ok (PInt 0)) as [sc|];
    [|discriminate].
  cbn [mbind result_bind] in H.
  destruct (truthy ep).
  - destruct (as_int _) as [size|]; [|discriminate].
    cbn [mbind result_bind] in H.
    destruct (Z.ltb_spec (start + t2 + size) 0); [discriminate|].
    cbn [mbind result_bind] in H.
    destruct (subscript ph 0); [|discriminate].
    destruct (subscript ph 1); [|discriminate].
    destruct (subscript ph 2); [|discriminate].
    destruct (subscript ph 3); [|discriminate].
    cbn [mbind result_bind] in H. injection H as _ <- <- _. lia.
  - cbn [mbind result_bind] in H.
    destruct (subscript ph 0); [|discriminate].
    destruct (subscript ph 1); [|discriminate].
    destruct (subscript ph 2); [|discriminate].
    destruct (subscript ph 3); [|discriminate].
    cbn [mbind result_bind] in H. injection H as _ <- <- _. lia.
Qed.

Lemma skip_next_unpack_next f start tell v rest tell1 :
  unpack_next f start tell = (Unpacked v rest, tell1) ->
  skip_next f start tell = (Unpacked PNone rest, tell1).
Proof.
  unfold unpack_next, skip_next.
  destruct (unpack _ _) as [o r| |] eqn:E; [|discriminate..].
  intros [= _ <- <-]. rewrite (skip_unpack _ _ _ _ E). reflexivity.
Qed.

Lemma skip_next_end f start tell tell1 :
  unpack_next f start tell = (OutOfData, tell1) ->
  skip_next f start tell = (OutOfData, tell1).
Proof.
  unfold unpack_next, skip_next.
  destruct (unpack _ _) as [o r| |] eqn:E; [discriminate| |discriminate].
  intros [= <-]. rewrite (skip_out_of_data _ _ E). reflexivity.
Qed.

(** Where the generator meets the end of the file, so does [index]. *)
Lemma index_ends_with_the_generator uv f start tell :
  read_record f start tell = OutOfData ->
  read_record_with (index_value uv) f start tell = OutOfData.
Proof.
  destruct uv; [intros H; exact H|].
  unfold read_record, read_record_with. cbn [index_value].
  destruct (unpack_next f start tell) as [[ph r1| |] vs]; try discriminate;
    [|reflexivity].
  destruct (unpack_next f start vs) as [[v r2| |] t1] eqn:Ev;
    try discriminate.
  - rewrite (skip_next_unpack_next _ _ _ _ _ _ Ev).
    destruct (unpack_next f start t1) as [[mh r3| |] t2]; try discriminate;
      [|reflexivity].
    destruct (_ ← subscript mh 0; _); discriminate.
  - rewrite (skip_next_end _ _ _ _ Ev). reflexivity.
Qed.

(** Where the generator reads a record, [index] reads the same record,
    without its value unless [unpack_value] is set, and goes on at the
    same place. *)
Lemma index_reads_the_record uv f start tell record start' tell' rest :
  read_record f start tell = Unpacked (record, start', tell') rest ->
  read_record_with (index_value uv) f start tell
  = Unpacked (indexed_record uv record, start', tell') rest.
Proof.
  destruct uv.
  { intros H. cbn [index_value]. fold read_record. rewrite H.
    destruct record. reflexivity. }
  unfold read_record, read_record_with. cbn [index_value].
  destruct (unpack_next f start tell) as [[ph r1| |] vs]; try discriminate.
  destruct (unpack_next f start vs) as [[v r2| |] t1] eqn:Ev;
    try discriminate.
  rewrite (skip_next_unpack_next _ _ _ _ _ _ Ev).
  destruct (unpack_next f start t1) as [[mh r3| |] t2]; try discriminate.
  destruct (subscript mh 0) as [es|]; [|discriminate].
  destruct (subscript mh 1) as [ep|]; [|discriminate].
  destruct (py_len mh) as [n|]; [|discriminate].
  cbn [mbind result_bind].
  destruct (if n >? 2 then subscript mh 2 else Ok (PInt 0)) as [sc|];
    [|discriminate].
  cbn [mbind result_bind].
  destruct (if truthy ep then _ else _) as [[st tl]|]; [|discriminate].
  cbn [mbind result_bind].
  destruct (subscript ph 0); [|discriminate].
  destruct (subscript ph 1); [|discriminate].
  destruct (subscript ph 2); [|discriminate].
  destruct (subscript ph 3); [|discriminate].
  cbn [mbind result_bind]. intros [= <- <- <- <-]. reflexivity.
Qed.

Section WithPosition.
Variable position : bytes -> Z -> Z -> Z.
Hypothesis position_nonneg : forall f idx consumed, 0 <= position f idx consumed.

(** A record the generator reads at a position is the record [records]
    reads at that position. *)
Lemma read_at_read_record f start tell record start' tell' rest :
  read_record f start tell = Unpacked (record, start', tell') rest ->
  0 <= start + tell ->
  skips_forward record = true ->
  read_at position f (start + tell) = ReadOk (Some record).
Proof.
  unfold read_record, read_record_with, read_at. intros H H0 Hskip.
  destruct (Z.ltb_spec (start + tell) 0); [lia|].
  rewrite (unpack_next_shift f start tell (start + tell) 0) by lia.
  destruct (unpack_next f start tell) as [[ph r1| |] vs]; try discriminate.
  cbn [fst snd].
  rewrite (unpack_next_shift f start vs (start + tell) (vs - tell + 0))
    by lia.
  destruct (unpack_next f start vs) as [[v r2| |] t1]; try discriminate.
  cbn [fst snd].
  rewrite (unpack_next_shift f start t1 (start + tell)
             (t1 - vs + (vs - tell + 0))) by lia.
  destruct (unpack_next f start t1) as [[mh r3| |] t2]; try discriminate.
  cbn [fst snd].
  destruct (subscript mh 0) as [es|]; [|discriminate].
  destruct (subscript mh 1) as [ep|]; [|discriminate].
  destruct (py_len mh) as [n|]; [|discriminate].
  cbn [mbind result_bind] in *.
  destruct (if n >? 2 then subscript mh 2 else Ok (PInt 0)) as [sc|];
    [|discriminate].
  cbn [mbind result_bind] in *.
  assert (Hrec : forall st tl,
    (timestamp ← subscript ph 0; topic ← subscript ph 1;
     typeid ← subscript ph 2; valueid ← subscript ph 3;
     Ok (mkFileRecord timestamp topic typeid valueid v (t1 - vs) es
           (start + t2) ep sc, st, tl))
    = Ok (record, start', tell') ->
    (timestamp ← subscript ph 0; topic ← subscript ph 1;
     typeid ← subscript ph 2; valueid ← subscript ph 3;
     Ok (mkFileRecord timestamp topic typeid valueid v
           (t1 - vs + (vs - tell + 0) - (vs - tell + 0)) es
           (start + tell + (t2 - t1 + (t1 - vs + (vs - tell + 0)))) ep sc))
    = Ok record /\
    extmem_present record = ep /\ extmem_size record = es /\
    extmem_size_compressed record = sc).
  { intros st tl Hr.
    destruct (subscript ph 0); [|discriminate].
    destruct (subscript ph 1); [|discriminate].
    destruct (subscript ph 2); [|discriminate].
    destruct (subscript ph 3); [|discriminate].
    cbn [mbind result_bind] in *. injection Hr as <- _ _. cbn.
    repeat split. do 2 f_equal; lia. }
  destruct (truthy ep) eqn:Hep.
  - destruct (as_int (if equals_zero sc then es else sc)) as [size|] eqn:Hsz;
      [|discriminate].
    cbn [mbind result_bind] in H.
    destruct (Z.ltb_spec (start + t2 + size) 0); [discriminate|].
    cbn [mbind result_bind] in H.
    assert (Hfields :
      (timestamp ← subscript ph 0; topic ← subscript ph 1;
       typeid ← subscript ph 2; valueid ← subscript ph 3;
       Ok (mkFileRecord timestamp topic typeid valueid v (t1 - vs) es
             (start + t2) ep sc, start + t2 + size, 0))
      = Ok (record, start', tell')).
    { destruct (subscript ph 0); [|discriminate].
      destruct (subscript ph 1); [|discriminate].
      destruct (subscript ph 2); [|discriminate].
      destruct (subscript ph 3); [|discriminate].
      cbn [mbind result_bind] in *. injection H as <- <- <- _. reflexivity. }
    destruct (Hrec _ _ Hfields) as (Hr & Hp & Hs & Hc).
    unfold skips_forward, skip_size in Hskip. rewrite Hp, Hs, Hc in Hskip.
    rewrite Hep, Hsz in Hskip. cbn [negb orb] in Hskip.
    apply Z.leb_le in Hskip.
    pose proof (position_nonneg f (start + tell)
                  (t2 - t1 + (t1 - vs + (vs - tell + 0)))).
    destruct (Z.ltb_spec (position f (start + tell)
                            (t2 - t1 + (t1 - vs + (vs - tell + 0))) + size) 0);
      [lia|].
    rewrite Hr. reflexivity.
  - cbn [mbind result_bind] in H.
    assert (Hfields :
      (timestamp ← subscript ph 0; topic ← subscript ph 1;
       typeid ← subscript ph 2; valueid ← subscript ph 3;
       Ok (mkFileRecord timestamp topic typeid valueid v (t1 - vs) es
             (start + t2) ep sc, start, t2))
      = Ok (record, start', tell')).
    { destruct (subscript ph 0); [|discriminate].
      destruct (subscript ph 1); [|discriminate].
      destruct (subscript ph 2); [|discriminate].
      destruct (subscript ph 3); [|discriminate].
      cbn [mbind result_bind] in *. injection H as <- <- <- _. reflexivity. }
    destruct (Hrec _ _ Hfields) as (Hr & _). rewrite Hr. reflexivity.
Qed.

Lemma index_loop_records uv f fuel : forall start tell recs,
  0 <= start + tell ->
  records_loop fuel None f start tell = (recs, Finished) ->
  forallb skips_forward recs = true ->
  exists idx,
    index_loop fuel None uv f start tell = (idx, Finished) /\
    Forall2 (fun p record => read_at position f p = ReadOk (Some record))
            idx recs.
Proof.
  induction fuel as [|fuel IH]; intros start tell recs H0 Hloop Hskip;
    [discriminate|].
  cbn [records_loop index_loop] in *.
  destruct (read_record f start tell) as [[[record start'] tell'] rest| |]
    eqn:E; [| |discriminate].
  - rewrite (index_reads_the_record uv _ _ _ _ _ _ _ E).
    destruct (records_loop fuel None f start' tell') as [recs' ending] eqn:E2.
    injection Hloop as <- ->. cbn [forallb] in Hskip.
    apply andb_prop in Hskip as [Hs Hskip].
    destruct (IH start' tell' recs' (read_record_next _ _ _ _ _ _ _ E H0)
                E2 Hskip) as (idx & Hidx & Hall).
    rewrite Hidx. eexists. split; [reflexivity|].
    constructor; [|exact Hall].
    eapply read_at_read_record; eassumption.
  - rewrite (index_ends_with_the_generator uv _ _ _ E).
    injection Hloop as <-. exists []. split; [reflexivity|constructor].
Qed.

Lemma records_from_all f idx recs :
  Forall2 (fun p record => read_at position f p = ReadOk (Some record))
          idx recs ->
  records_from position f idx = ReadOk recs.
Proof.
  induction 1 as [|p record idx recs Hp Hall IH]; [reflexivity|].
  cbn [records_from]. rewrite Hp, IH. reflexivity.
Qed.

(** X28: [index()] and [records()] agree with [records_generator()]: on a file
    that the generator reads to its end and whose records skip their
    ExtMem forward, [index()] ends as well, finds as many records, and
    [records(s, e)] returns the records number [s] to [e - 1] of the
    generator, in order; it returns the empty list if [s] is negative, if
    [s] is not below the number of records or if [e] is below [s], and
    stops at the last record if [e] is beyond it. *)
Theorem records_slice_the_generator fuel uv f s e :
  (records_generator fuel None f).2 = Finished ->
  forallb skips_forward (records_generator fuel None f).1 = true ->
  (index fuel None uv f).2 = Finished /\
  index_size (index fuel None uv f).1
  = Z.of_nat (length (records_generator fuel None f).1) /\
  records position f (index fuel None uv f).1 s e
  = ReadOk (if s <? 0 then []
            else take (Z.to_nat (e - s))
                   (drop (Z.to_nat s) (records_generator fuel None f).1)).
Proof.
  unfold records_generator, index. intros Hend Hskip.
  destruct (records_loop fuel None f 0 0) as [recs ending] eqn:E.
  cbn [fst snd] in *. subst ending.
  destruct (index_loop_records uv f fuel 0 0 recs ltac:(lia) E Hskip)
    as (idx & Hidx & Hall).
  rewrite Hidx. cbn [fst snd].
  pose proof (Forall2_length _ _ _ Hall) as Hlen.
  split; [reflexivity|]. split; [unfold index_size; lia|].
  unfold records.
  destruct (Z.ltb_spec s 0); [reflexivity|]. cbn [orb].
  destruct (Z.leb_spec (Z.of_nat (length idx)) s).
  { cbn [orb]. rewrite drop_ge by lia. rewrite take_nil. reflexivity. }
  cbn [orb]. destruct (Z.ltb_spec e s).
  { replace (Z.to_nat (e - s)) with 0%nat by lia. reflexivity. }
  apply records_from_all. apply Forall2_take, Forall2_drop. exact Hall.
Qed.

End WithPosition.

Lemma records_slice_the_generator_witness :
  records (fun f _ _ => Z.of_nat (length f)) Framing.sample_file
          (index 10 None false Framing.sample_file).1 1 3
  = ReadOk (take 2 (drop 1 (records_generator 10 None
                              Framing.sample_file).1)).
Proof.
  refine (proj2 (proj2 (records_slice_the_generator
                          (fun f _ _ => Z.of_nat (length f)) _
                          10 false Framing.sample_file 1 3 _ _))).
  - intros. lia.
  - vm_compute. reflexivity.
  - vm_compute. reflexivity.
Defined.

End ReaderMore.
